(** * dxf-viewer-canvas: geometry core, verified against its specification

    A shallow embedding of the geometry and parsing routines of the DXF
    viewer ([dxf-parser.js], [app.js], [osnap.js], [weight-manager.js]).

    Conventions of the embedding:
    - JavaScript numbers that carry coordinates, angles and areas are read as
      real numbers ([R]): the arithmetic is exact, there is no NaN and no
      rounding.  [Math.hypot], [Math.sin], [Math.cos], [Math.atan] are the
      functions of the standard library of reals.
    - integer colour indices and group codes are [Z];
    - [null] / [undefined] results are [option] or a dedicated constructor;
    - [while] loops whose trip count is not the length of a list run on fuel,
      and the fuel handed to them is shown to be enough where a claim needs
      the loop to finish. *)

From Stdlib Require Import ZArith QArith Qround List Bool Lia Arith.
From Stdlib Require Import Reals Lra Psatz.
From Stdlib Require Import String Ascii.
From Stdlib Require Import Permutation Sorted.
Import ListNotations.

Set Implicit Arguments.

(* ================================================================== *)
(** * ACI palette ([dxf-parser.js], [ACI_COLORS], [hslToRgb], [aciToRgb]) *)
(* ================================================================== *)

Module Palette.

Local Open Scope Q_scope.

(** A colour triple, or one of the two JavaScript non-values. *)
Inductive JsRgb : Type :=
| RgbNull
| RgbUndefined
| Rgb (r g b : Z).

Definition isRgb (c : JsRgb) : bool :=
  match c with Rgb _ _ _ => true | _ => false end.

Definition Qltb (a b : Q) : bool := negb (Qle_bool b a).

(** [Math.round]: the nearest integer, halves rounded up. *)
Definition Math_round (x : Q) : Z := Qfloor (x + (1 # 2)).

(** The local closure [hue2rgb] of [hslToRgb]. *)
Definition hue2rgb (p q t : Q) : Q :=
  let t := if Qltb t 0 then t + 1 else t in
  let t := if Qltb 1 t then t - 1 else t in
  if Qltb t (1 # 6) then p + (q - p) * 6 * t
  else if Qltb t (1 # 2) then q
  else if Qltb t (2 # 3) then p + (q - p) * ((2 # 3) - t) * 6
  else p.

Definition hslToRgb (h s l : Q) : JsRgb :=
  if Qeq_bool s 0 then
    Rgb (Math_round (l * 255)) (Math_round (l * 255)) (Math_round (l * 255))
  else
    let q := if Qltb l (1 # 2) then l * (1 + s) else l + s - l * s in
    let p := 2 * l - q in
    let r := hue2rgb p q (h + (1 # 3)) in
    let g := hue2rgb p q h in
    let b := hue2rgb p q (h - (1 # 3)) in
    Rgb (Math_round (r * 255)) (Math_round (g * 255)) (Math_round (b * 255)).

(** The 26 literal entries of the table. *)
Definition ACI_LITERAL : list JsRgb :=
  [ Rgb 0 0 0;       Rgb 255 0 0;     Rgb 255 255 0;   Rgb 0 255 0;
    Rgb 0 255 255;   Rgb 0 0 255;     Rgb 255 0 255;   Rgb 255 255 255;
    Rgb 128 128 128; Rgb 192 192 192; Rgb 255 0 0;     Rgb 255 127 127;
    Rgb 165 0 0;     Rgb 165 82 82;   Rgb 127 0 0;     Rgb 127 63 63;
    Rgb 76 0 0;      Rgb 76 38 38;    Rgb 38 0 0;      Rgb 38 19 19;
    Rgb 255 63 0;    Rgb 255 159 127; Rgb 165 41 0;    Rgb 165 103 82;
    Rgb 127 31 0;    Rgb 127 79 63 ]%Z.

(** Body of the fill loop [for (i = ACI_COLORS.length; i < 256; i++)]. *)
Definition aciFill (i : Z) : JsRgb :=
  let hue := Z.rem (i - 10) 240 in
  let sat := (Z.div (i - 10) 240 * 25 + 100)%Z in
  let light := (50 + Z.rem i 2 * 25)%Z in
  hslToRgb (inject_Z hue / 240) (inject_Z sat / 100) (inject_Z light / 100).

Definition ACI_COLORS : list JsRgb :=
  ACI_LITERAL
    ++ map (fun k => aciFill (Z.of_nat k))
           (seq (List.length ACI_LITERAL) (256 - List.length ACI_LITERAL)).

Definition aciToRgb (colorIndex : Z) : JsRgb :=
  if (colorIndex =? 256)%Z then RgbNull
  else if (colorIndex =? 0)%Z then Rgb 0 0 0
  else if ((colorIndex <? 0) || (colorIndex >=? Z.of_nat (List.length ACI_COLORS)))%Z
       then Rgb 255 255 255
  else match nth_error ACI_COLORS (Z.to_nat colorIndex) with
       | Some c => c
       | None => RgbUndefined
       end.

End Palette.

(* ================================================================== *)
(** * Geometry primitives ([dxf-parser.js], [DXFParser.bulgeToArc]) *)
(* ================================================================== *)

Module Geom.

Local Open Scope R_scope.

(** A point object [{x, y}]. *)
Record Point : Type := mkPoint { px : R; py : R }.

(** [Math.hypot(a, b)]. *)
Definition Math_hypot (a b : R) : R := sqrt (a * a + b * b).

(** [Math.atan2(y, x)] on finite numbers, as ECMAScript defines it from the
    quadrant of [(x, y)]; the zero is the positive one. *)
Definition Math_atan2 (y x : R) : R :=
  if Rlt_dec 0 x then atan (y / x)
  else if Rlt_dec x 0 then
    (if Rle_dec 0 y then atan (y / x) + PI else atan (y / x) - PI)
  else
    (if Rlt_dec 0 y then PI / 2
     else if Rlt_dec y 0 then - (PI / 2)
     else 0).

(** The object returned by [bulgeToArc]. *)
Record Arc : Type := mkArc {
  cx : R;
  cy : R;
  radius : R;
  startAngle : R;          (* degrees *)
  endAngle : R;            (* degrees *)
  counterClockwise : bool;
  theta : R                (* radians, signed *)
}.

(** [DXFParser.bulgeToArc(p1, p2, bulge)]; [None] as bulge stands for
    [undefined] / [null], [None] as result for [null]. *)
Definition bulgeToArc (p1 p2 : Point) (bulge : option R) : option Arc :=
  match bulge with
  | None => None
  | Some bulge =>
    if Rlt_dec (Rabs bulge) 1e-12 then None
    else
      let theta := 4 * atan bulge in
      let dx := px p2 - px p1 in
      let dy := py p2 - py p1 in
      let chord := Math_hypot dx dy in
      if Rlt_dec chord 1e-12 then None
      else
        let halfThetaAbs := Rabs theta / 2 in
        let radius := chord / (2 * sin halfThetaAbs) in
        let mx := (px p1 + px p2) / 2 in
        let my := (py p1 + py p2) / 2 in
        let ux := dx / chord in
        let uy := dy / chord in
        let px' := - uy in
        let py' := ux in
        let h := radius * cos halfThetaAbs in
        let s := if Rle_dec 0 bulge then 1 else -1 in
        let cx := mx + px' * h * s in
        let cy := my + py' * h * s in
        let startRad := Math_atan2 (py p1 - cy) (px p1 - cx) in
        let endRad := startRad + theta in
        Some {| cx := cx;
                cy := cy;
                radius := Rabs radius;
                startAngle := startRad * 180 / PI;
                endAngle := endRad * 180 / PI;
                counterClockwise := if Rlt_dec 0 theta then true else false;
                theta := theta |}
  end.

(** The point reached on an arc of centre [(cx, cy)] and radius [r] at the
    angle [deg], in degrees. *)
Definition pointAtAngle (a : Arc) (deg : R) : Point :=
  let rad := deg * PI / 180 in
  mkPoint (cx a + radius a * cos rad) (cy a + radius a * sin rad).

End Geom.

(* ================================================================== *)
(** * Polygon area ([app.js], [DXFViewerApp.calculateGeometricArea]) *)
(* ================================================================== *)

Module Area.

Import Geom.
Local Open Scope R_scope.

(** A loop vertex [{x, y, bulge, radius, theta}]; a missing property is
    [None]. *)
Record Vertex : Type := mkVertex {
  vx : R;
  vy : R;
  vbulge : option R;
  vradius : option R;
  vtheta : option R
}.

Definition vpoint (v : Vertex) : Point := mkPoint (vx v) (vy v).

(** [v.bulge || 0]. *)
Definition bulgeOr0 (v : Vertex) : R :=
  match vbulge v with Some b => b | None => 0 end.

Definition dummyVertex : Vertex := mkVertex 0 0 None None None.

(** Contribution of one iteration of the loop of [calculateGeometricArea]
    to [area2]. *)
Definition areaStep (x0 y0 : R) (p1 p2 : Vertex) : R :=
  let x1 := vx p1 - x0 in
  let y1 := vy p1 - y0 in
  let x2 := vx p2 - x0 in
  let y2 := vy p2 - y0 in
  let shoelace := x1 * y2 - x2 * y1 in
  let bulge := bulgeOr0 p1 in
  let arcPart :=
    if Rlt_dec 1e-12 (Rabs bulge) then
      match bulgeToArc (vpoint p1) (vpoint p2) (Some bulge) with
      | Some arc =>
          (* isFinite(arc.radius) holds of every real number *)
          let theta := 4 * atan bulge in
          let r := radius arc in
          let segArea := 0.5 * r * r * (theta - sin theta) in
          2 * segArea
      | None => 0
      end
    else 0 in
  shoelace + arcPart.

Definition calculateGeometricArea (vertices : list Vertex) : R :=
  let n := List.length vertices in
  if (n <? 3)%nat then 0
  else
    let x0 := vx (nth 0 vertices dummyVertex) in
    let y0 := vy (nth 0 vertices dummyVertex) in
    let area2 :=
      fold_left
        (fun area2 i =>
           let p1 := nth i vertices dummyVertex in
           let p2 := nth ((i + 1) mod n) vertices dummyVertex in
           area2 + areaStep x0 y0 p1 p2)
        (seq 0 n) 0 in
    Rabs (area2 / 2).

(** ** The textbook shoelace formula, for comparison *)

(** Sum of a list of reals. *)
Definition sumR (l : list R) : R := fold_right Rplus 0 l.
Arguments sumR : simpl never.

(** Each vertex paired with its cyclic successor. *)
Definition cycPairs (l : list Vertex) : list (Vertex * Vertex) :=
  combine l (tl l ++ firstn 1 l).

(** The cross product of two vertices seen from the origin [(x0, y0)]. *)
Definition shiftCross (x0 y0 : R) (a b : Vertex) : R :=
  (vx a - x0) * (vy b - y0) - (vx b - x0) * (vy a - y0).

Definition cross (a b : Vertex) : R := vx a * vy b - vx b * vy a.

(** Sum of the cross products of consecutive vertices, the last one paired
    with [first]. *)
Fixpoint crossSum (first : Vertex) (l : list Vertex) : R :=
  match l with
  | [] => 0
  | a :: t =>
      match t with
      | [] => cross a first
      | b :: _ => cross a b + crossSum first t
      end
  end.

Definition shoelaceArea (l : list Vertex) : R :=
  match l with
  | [] => 0
  | v :: _ => Rabs (crossSum v l / 2)
  end.

(** Twice the signed shoelace area, as a sum over the cyclic pairs. *)
Definition crossTotal (l : list Vertex) : R :=
  sumR (map (fun p => cross (fst p) (snd p)) (cycPairs l)).

Definition moveVertex (a b : R) (v : Vertex) : Vertex :=
  mkVertex (vx v + a) (vy v + b) (vbulge v) (vradius v) (vtheta v).

(** Cyclic rotation: the vertex at index [k] is listed first. *)
Definition rotate (k : nat) (l : list Vertex) : list Vertex :=
  skipn k l ++ firstn k l.

(** Every vertex moved by the offset [(a, b)]. *)
Definition translate (a b : R) (l : list Vertex) : list Vertex :=
  map (moveVertex a b) l.

Definition straight (v : Vertex) : Prop := bulgeOr0 v = 0.

Definition pt (x y : R) : Vertex := mkVertex x y (Some 0) None None.

Definition unitSquare : list Vertex := [pt 0 0; pt 1 0; pt 1 1; pt 0 1].

End Area.

(* ================================================================== *)
(** * Hatch boundary resolver ([HatchBoundaryResolver]) *)
(* ================================================================== *)

Module Hatch.

Import Geom Area.
Local Open Scope R_scope.

(** ** Angle normalisation loops

    [while (sweep <= 0) sweep += 2 * Math.PI] and
    [while (sweep >= 0) sweep -= 2 * Math.PI].  The loops run on fuel; the
    fuel handed to them is the number of trips the loop makes. *)

Fixpoint addWhileNonPos (fuel : nat) (sweep : R) : R :=
  match fuel with
  | O => sweep
  | S f => if Rle_dec sweep 0 then addWhileNonPos f (sweep + 2 * PI) else sweep
  end.

Fixpoint subWhileNonNeg (fuel : nat) (sweep : R) : R :=
  match fuel with
  | O => sweep
  | S f => if Rge_dec sweep 0 then subWhileNonNeg f (sweep - 2 * PI) else sweep
  end.

(** Number of trips of the first loop started at [sweep]. *)
Definition tripsUp (sweep : R) : nat := Z.to_nat (up (- sweep / (2 * PI))).

Definition normalizeCCW (sweep : R) : R := addWhileNonPos (tripsUp sweep) sweep.
Definition normalizeCW (sweep : R) : R := subWhileNonNeg (tripsUp (- sweep)) sweep.

(** ** Edges *)

(** A boundary edge as the parser stores it: [type] 1 is a line, 2 a
    circular arc with its [ccw] flag, anything else is kept by its type
    number only. *)
Inductive RawEdge : Type :=
| RawLine (x1 y1 x2 y2 : R)
| RawArc (cx cy radius startAngle endAngle : R) (ccw : Z)
| RawOther (type : Z).

(** A path segment: a ['LINE'] or an ['ARC'] object. *)
Inductive Edge : Type :=
| LINE (x1 y1 x2 y2 : R)
| ARC (cx cy radius startAngle endAngle : R) (isCounterClockwise : bool)
      (x1 y1 x2 y2 : R).

Definition ex1 (e : Edge) : R :=
  match e with LINE x1 _ _ _ => x1 | ARC _ _ _ _ _ _ x1 _ _ _ => x1 end.
Definition ey1 (e : Edge) : R :=
  match e with LINE _ y1 _ _ => y1 | ARC _ _ _ _ _ _ _ y1 _ _ => y1 end.
Definition ex2 (e : Edge) : R :=
  match e with LINE _ _ x2 _ => x2 | ARC _ _ _ _ _ _ _ _ x2 _ => x2 end.
Definition ey2 (e : Edge) : R :=
  match e with LINE _ _ _ y2 => y2 | ARC _ _ _ _ _ _ _ _ _ y2 => y2 end.

(** [normalizeEdge]; [None] is [null]. *)
Definition normalizeEdge (e : RawEdge) : option Edge :=
  match e with
  | RawLine x1 y1 x2 y2 => Some (LINE x1 y1 x2 y2)
  | RawArc cx cy radius startAngle endAngle ccwFlag =>
      let ccw := (ccwFlag =? 1)%Z in
      let a1raw := startAngle * PI / 180 in
      let a2raw := endAngle * PI / 180 in
      let a1w := if ccw then a1raw else - a1raw in
      let a2w := if ccw then a2raw else - a2raw in
      let startAng := - a1w in
      let endAng := - a2w in
      Some (ARC cx cy radius startAng endAng ccw
                (cx + radius * cos a1w) (cy + radius * sin a1w)
                (cx + radius * cos a2w) (cy + radius * sin a2w))
  | RawOther _ => None
  end.

Definition reverseEdge (e : Edge) : Edge :=
  match e with
  | LINE x1 y1 x2 y2 => LINE x2 y2 x1 y1
  | ARC cx cy radius startAngle endAngle isCounterClockwise x1 y1 x2 y2 =>
      ARC cx cy radius endAngle startAngle (negb isCounterClockwise) x2 y2 x1 y1
  end.

(** [path.slice().reverse().map(e => this.reverseEdge(e))]. *)
Definition reversePath (path : list Edge) : list Edge :=
  map reverseEdge (rev path).

(** ** Geometry *)

(** What one segment adds to [area] in [calculateLoopArea]. *)
Definition edgeArea (s : Edge) : R :=
  let shoelace := ex1 s * ey2 s - ey1 s * ex2 s in
  match s with
  | LINE _ _ _ _ => shoelace
  | ARC _ _ radius startAngle endAngle isCounterClockwise _ _ _ _ =>
      let startA := - startAngle in
      let endA := - endAngle in
      let sweep := endA - startA in
      let sweep := if isCounterClockwise then normalizeCCW sweep
                   else normalizeCW sweep in
      shoelace + radius * radius * (sweep - sin sweep)
  end.

Definition calculateLoopArea (path : list Edge) : R :=
  fold_left (fun area s => area + edgeArea s) path 0 * 0.5.

(** The resolver's own [bulgeToArc] (signed radius, screen angles). *)
Definition bulgeToArc (p1 p2 : Point) (bulge : R) : Edge :=
  let theta := 4 * atan bulge in
  let dx := px p2 - px p1 in
  let dy := py p2 - py p1 in
  let chord := Math_hypot dx dy in
  let r := chord / (2 * sin (theta / 2)) in
  let mx := (px p1 + px p2) / 2 in
  let my := (py p1 + py p2) / 2 in
  let nx := - dy / chord in
  let ny := dx / chord in
  let d := r * cos (theta / 2) in
  let cx := mx + nx * d in
  let cy := my + ny * d in
  let ang1 := Math_atan2 (py p1 - cy) (px p1 - cx) in
  let ang2 := Math_atan2 (py p2 - cy) (px p2 - cx) in
  ARC cx cy (Rabs r) (- ang1) (- ang2)
      (if Rlt_dec 0 bulge then true else false)
      (px p1) (py p1) (px p2) (py p2).

(** [computeBBox(edges).diag]; the running minima and maxima start at the
    infinities, so after the first edge they are that edge's own. *)
Definition computeBBox (edges : list Edge) : R :=
  match edges with
  | [] => 0
  | e :: rest =>
      let step (b : R * R * R * R) (e : Edge) :=
        let '(minx, miny, maxx, maxy) := b in
        (Rmin (Rmin minx (ex1 e)) (ex2 e), Rmin (Rmin miny (ey1 e)) (ey2 e),
         Rmax (Rmax maxx (ex1 e)) (ex2 e), Rmax (Rmax maxy (ey1 e)) (ey2 e)) in
      let '(minx, miny, maxx, maxy) :=
        fold_left step rest
          (Rmin (ex1 e) (ex2 e), Rmin (ey1 e) (ey2 e),
           Rmax (ex1 e) (ex2 e), Rmax (ey1 e) (ey2 e)) in
      Math_hypot (maxx - minx) (maxy - miny)
  end.

Definition dist (x1 y1 x2 y2 : R) : R := Math_hypot (x1 - x2) (y1 - y2).

(** ** Stitching *)

(** [used.has(i)] on the set of consumed indices. *)
Definition has (used : list nat) (i : nat) : bool := existsb (Nat.eqb i) used.

(** The first [for] loop of an iteration: the first unused edge, from index
    [i] on, one of whose ends is within [tol] of the tip. *)
Fixpoint findMatch (es : list Edge) (i : nat) (used : list nat)
         (tipx tipy tol : R) : option (nat * Edge) :=
  match es with
  | [] => None
  | e :: rest =>
      if has used i then findMatch rest (S i) used tipx tipy tol
      else if Rlt_dec (dist (ex1 e) (ey1 e) tipx tipy) tol then Some (i, e)
      else if Rlt_dec (dist (ex2 e) (ey2 e) tipx tipy) tol then Some (i, reverseEdge e)
      else findMatch rest (S i) used tipx tipy tol
  end.

(** State of the closest-endpoint search: [minDist] ([None] is [Infinity]),
    [bestIdx] ([None] is -1) and [connectToStart]. *)
Record Closest : Type := mkClosest {
  minDist : option R;
  bestIdx : option nat;
  connectToStart : bool
}.

(** [d < minDist]. *)
Definition belowMin (d : R) (m : option R) : bool :=
  match m with
  | None => true
  | Some m => if Rlt_dec d m then true else false
  end.

Fixpoint findClosest (es : list Edge) (i : nat) (used : list nat)
         (tipx tipy : R) (c : Closest) : Closest :=
  match es with
  | [] => c
  | e :: rest =>
      if has used i then findClosest rest (S i) used tipx tipy c
      else
        let dStart := dist (ex1 e) (ey1 e) tipx tipy in
        let dEnd := dist (ex2 e) (ey2 e) tipx tipy in
        let c1 := if belowMin dStart (minDist c)
                  then mkClosest (Some dStart) (Some i) true else c in
        let c2 := if belowMin dEnd (minDist c1)
                  then mkClosest (Some dEnd) (Some i) false else c1 in
        findClosest rest (S i) used tipx tipy c2
  end.

(** The variables the [while] loop of [resolveEdgeLoop] updates. *)
Record Stitch : Type := mkStitch {
  used : list nat;
  path : list Edge;
  current : Edge
}.

(** One iteration of [while (path.length < edges.length)]; [None] is the
    [return {ok: false, reason: "stitch failed"}]. *)
Definition stitchStep (edges : list Edge) (tol : R) (s : Stitch) : option Stitch :=
  let tipx := ex2 (current s) in
  let tipy := ey2 (current s) in
  match findMatch edges 0 (used s) tipx tipy tol with
  | Some (i, e) => Some (mkStitch (i :: used s) (path s ++ [e]) e)
  | None =>
      let c := findClosest edges 0 (used s) tipx tipy (mkClosest None None true) in
      match bestIdx c, minDist c with
      | Some best, Some md =>
          match nth_error edges best with
          | Some target =>
              let nextx := if connectToStart c then ex1 target else ex2 target in
              let nexty := if connectToStart c then ey1 target else ey2 target in
              let path1 := if Rlt_dec tol md
                           then path s ++ [LINE tipx tipy nextx nexty]
                           else path s in
              let e := if connectToStart c then target else reverseEdge target in
              Some (mkStitch (best :: used s) (path1 ++ [e]) e)
          | None => None
          end
      | _, _ => None
      end
  end.

Inductive Outcome : Type :=
| Ok (path : list Edge)               (* {ok: true, path} *)
| Fail (reason : string)              (* {ok: false, reason} *)
| Throws                              (* a TypeError on a null edge *)
| OutOfFuel.

(** The [while] loop: at most [fuel] iterations. *)
Fixpoint stitchLoop (fuel : nat) (edges : list Edge) (tol : R) (s : Stitch)
  : option (option Stitch) :=
  if (List.length (path s) <? List.length edges)%nat then
    match fuel with
    | O => None
    | S f =>
        match stitchStep edges tol s with
        | Some s' => stitchLoop f edges tol s'
        | None => Some None
        end
    end
  else Some (Some s).

(** [edges.map(e => this.normalizeEdge(e))], [None] as soon as one edge
    normalises to [null]. *)
Fixpoint normalizeAll (edges : list RawEdge) : option (list Edge) :=
  match edges with
  | [] => Some []
  | e :: rest =>
      match normalizeEdge e, normalizeAll rest with
      | Some e', Some rest' => Some (e' :: rest')
      | _, _ => None
      end
  end.

(** Winding normalisation, the common tail of both resolvers. *)
Definition windCCW (path : list Edge) : Outcome :=
  if Rlt_dec (calculateLoopArea path) 0 then Ok (reversePath path) else Ok path.

(** The closing step: a final LINE when the gap exceeds the tolerance. *)
Definition closePath (tol : R) (path : list Edge) : list Edge :=
  match path with
  | [] => path
  | first :: _ =>
      let last := List.last path first in
      let closeDist := dist (ex1 first) (ey1 first) (ex2 last) (ey2 last) in
      if Rlt_dec tol closeDist
      then path ++ [LINE (ex2 last) (ey2 last) (ex1 first) (ey1 first)]
      else path
  end.

Definition resolveEdgeLoop (rawEdges : list RawEdge) : Outcome :=
  match rawEdges with
  | [] => Fail "no edges"
  | _ :: _ =>
      match normalizeAll rawEdges with
      | None => Throws
      | Some [] => Throws
      | Some ((e0 :: _) as edges) =>
          let tol := Rmax (computeBBox edges * 1e-4) 1e-4 in
          match stitchLoop (List.length edges) edges tol
                           (mkStitch [0%nat] [e0] e0) with
          | None => OutOfFuel
          | Some None => Fail "stitch failed"
          | Some (Some s) => windCCW (closePath tol (path s))
          end
      end
  end.

(** A polyline-loop vertex [{x, y, bulge}]. *)
Record HVertex : Type := mkHVertex { hx : R; hy : R; hbulge : option R }.

Definition hpoint (v : HVertex) : Point := mkPoint (hx v) (hy v).

(** [if (p1.bulge)]: a number other than zero. *)
Definition truthyBulge (v : HVertex) : option R :=
  match hbulge v with
  | Some b => if Req_dec_T b 0 then None else Some b
  | None => None
  end.

Definition dummyHVertex : HVertex := mkHVertex 0 0 None.

Definition resolvePolylineLoop (verts : list HVertex) : Outcome :=
  let n := List.length verts in
  if (n <? 2)%nat then Fail "invalid polyline"
  else
    let path :=
      map (fun i =>
             let p1 := nth i verts dummyHVertex in
             let p2 := nth ((i + 1) mod n) verts dummyHVertex in
             match truthyBulge p1 with
             | Some b => bulgeToArc (hpoint p1) (hpoint p2) b
             | None => LINE (hx p1) (hy p1) (hx p2) (hy p2)
             end)
          (seq 0 n) in
    windCCW path.

(** A hatch boundary loop: [isPolyline] with its vertices, or an edge
    list; a missing or empty list is the empty list. *)
Inductive HatchLoop : Type :=
| PolylineLoop (vertices : list HVertex)
| EdgeLoop (edges : list RawEdge).

Definition resolveLoop (loop : HatchLoop) : Outcome :=
  match loop with
  | PolylineLoop vertices => resolvePolylineLoop vertices
  | EdgeLoop edges => resolveEdgeLoop edges
  end.

Definition lineOrArc (e : RawEdge) : Prop :=
  match e with RawOther _ => False | _ => True end.

(** A 1 x 1 square whose last edge stops [gap] short of the corner. *)
Definition gappedSquare (gap : R) : list RawEdge :=
  [RawLine 0 0 1 0; RawLine 1 0 1 1; RawLine 1 1 0 1; RawLine 0 1 0 gap].

(** The same square with its third edge moved [gap] away to the right. *)
Definition tornSquare (gap : R) : list RawEdge :=
  [RawLine 0 0 1 0; RawLine 1 0 1 1; RawLine (1 + gap) 1 gap 1; RawLine 0 1 0 0].

(** ** Vocabulary for the closest-endpoint search *)

(** The state after an iteration that bridges to the edge [target] at index
    [best], entered at its start ([toStart]) or at its end, over the
    distance [md]. *)
Definition bridgeTo (tol : R) (s : Stitch) (best : nat) (toStart : bool)
           (md : R) (target : Edge) : Stitch :=
  let tipx := ex2 (current s) in
  let tipy := ey2 (current s) in
  let nextx := if toStart then ex1 target else ex2 target in
  let nexty := if toStart then ey1 target else ey2 target in
  let e := if toStart then target else reverseEdge target in
  mkStitch (best :: used s)
           ((if Rlt_dec tol md
             then path s ++ [LINE tipx tipy nextx nexty]
             else path s) ++ [e])
           e.

(** An edge of [edges] is still unused. *)
Definition unusedLeft (edges : list Edge) (used : list nat) : Prop :=
  exists j e, nth_error edges j = Some e /\ has used j = false.

(** The closest-endpoint search has found an edge. *)
Definition goodClosest (c : Closest) : Prop :=
  exists b m, bestIdx c = Some b /\ minDist c = Some m.

Definition updateClosest (d : R) (i : nat) (toStart : bool) (c : Closest) : Closest :=
  if belowMin d (minDist c) then mkClosest (Some d) (Some i) toStart else c.

(** The edge the search settles on is one of the unused edges, and
    [minDist] is the distance from the tip to the end it connects to. *)
Definition attained (edges : list Edge) (used : list nat) (tx ty : R)
           (c : Closest) : Prop :=
  forall b, bestIdx c = Some b ->
    has used b = false
    /\ exists e, nth_error edges b = Some e
        /\ minDist c = Some (if connectToStart c
                             then dist (ex1 e) (ey1 e) tx ty
                             else dist (ex2 e) (ey2 e) tx ty).

(** [minDist] is a number not above [d]. *)
Definition lowerBound (c : Closest) (d : R) : Prop :=
  exists m, minDist c = Some m /\ m <= d.

End Hatch.

(* ================================================================== *)
(** * Loop extraction and area of a selection ([app.js]) *)
(* ================================================================== *)

Module Loops.

Import Geom Area.
Local Open Scope R_scope.

(** A polyline vertex [{x, y, bulge}] as the parser stores it. *)
Record PVertex : Type := mkPVertex { pvx : R; pvy : R; pvbulge : option R }.

(** The entities the area code looks at.  An ARC carries its direction as
    a boolean [counterClockwise] or as a number [ccw]; either may be
    missing.  [flags] is 0 and [closed] is [false] when missing. *)
Inductive Entity : Type :=
| LineEnt (x1 y1 x2 y2 : R)
| ArcEnt (cx cy radius startAngle endAngle : R)
         (counterClockwise : option bool) (ccw : option Z)
| PolylineEnt (vertices : list PVertex) (flags : Z) (closed : bool)
| CircleEnt (cx cy radius : R)
| OtherEnt (type : string).

(** An atomic segment [{p1, p2, bulge, radius, theta}].  The loop code
    copies the end points and compares them with [matches] only, so the
    segment is generic in the type of its points; the program's segments
    are [Segment Point]. *)
Record Segment (P : Type) : Type := mkSegment {
  sp1 : P;
  sp2 : P;
  sbulge : R;
  sradius : option R;
  stheta : option R
}.
Arguments mkSegment {P} _ _ _ _ _.
Arguments sp1 {P} _.
Arguments sp2 {P} _.
Arguments sbulge {P} _.
Arguments sradius {P} _.
Arguments stheta {P} _.

Definition dummyPVertex : PVertex := mkPVertex 0 0 None.

(** The body of the polyline loop of [decomposeEntity]. *)
Definition polySegment (vertices : list PVertex) (i : nat) : Segment Point :=
  let len := List.length vertices in
  let p1 := nth i vertices dummyPVertex in
  let p2 := nth ((i + 1) mod len) vertices dummyPVertex in
  let a := mkPoint (pvx p1) (pvy p1) in
  let b := mkPoint (pvx p2) (pvy p2) in
  let bulge := match pvbulge p1 with Some v => v | None => 0 end in
  if Req_dec_T bulge 0 then mkSegment a b bulge None None
  else
    match Geom.bulgeToArc a b (Some bulge) with
    | Some arcParams =>
        mkSegment a b bulge (Some (radius arcParams)) (Some (4 * atan bulge))
    | None => mkSegment a b bulge None None
    end.

(** [decomposeEntity]; [None] is [null]. *)
Definition decomposeEntity (ent : Entity) : option (list (Segment Point)) :=
  match ent with
  | LineEnt x1 y1 x2 y2 =>
      Some [mkSegment (mkPoint x1 y1) (mkPoint x2 y2) 0 None None]
  | ArcEnt cx cy radius startAngle endAngle counterClockwise ccw =>
      let deg2rad := PI / 180 in
      let start := startAngle * deg2rad in
      let end_ := endAngle * deg2rad in
      let isCCW :=
        match counterClockwise with
        | Some b => b
        | None => match ccw with Some n => (n =? 1)%Z | None => true end
        end in
      let sweep := end_ - start in
      let sweep := if isCCW then Hatch.normalizeCCW sweep
                   else Hatch.normalizeCW sweep in
      let bulge := tan (sweep / 4) in
      let p1 := mkPoint (cx + radius * cos start) (cy + radius * sin start) in
      let p2 := mkPoint (cx + radius * cos end_) (cy + radius * sin end_) in
      Some [mkSegment p1 p2 bulge (Some radius) (Some sweep)]
  | PolylineEnt vertices flags closed =>
      let len := List.length vertices in
      if (len <? 2)%nat then Some []
      else
        let closed := ((Z.land flags 1 =? 1)%Z || closed)%bool in
        let count := if closed then len else (len - 1)%nat in
        Some (map (polySegment vertices) (seq 0 count))
  | CircleEnt _ _ _ => None
  | OtherEnt _ => None
  end.

(** The local closure [matches] of the loop code: two points closer than
    the tolerance. *)
Definition matchesTol (tolerance : R) (p1 p2 : Point) : bool :=
  if Rlt_dec (Math_hypot (px p1 - px p2) (py p1 - py p2)) tolerance
  then true else false.

Definition has (used : list nat) (i : nat) : bool := existsb (Nat.eqb i) used.

(** ** [extractAllLoops] *)

Section Extract.

Variable P : Type.
Variable matches : P -> P -> bool.

(** [s2] is the reverse of [s1]. *)
Definition isReverse (s1 s2 : Segment P) : bool :=
  matches (sp1 s1) (sp2 s2) && matches (sp2 s1) (sp1 s2).

(** Inner loop of the bridge pruning: the first unused [j], from [j] on,
    whose segment is the reverse of [s1]. *)
Fixpoint findReverse (segs : list (Segment P)) (j : nat) (used : list nat)
         (s1 : Segment P) : option nat :=
  match segs with
  | [] => None
  | s2 :: rest =>
      if has used j then findReverse rest (S j) used s1
      else if isReverse s1 s2 then Some j
      else findReverse rest (S j) used s1
  end.

(** Outer loop of the bridge pruning, at index [i] with the segments from
    [i] on. *)
Fixpoint pruneFrom (segs : list (Segment P)) (i : nat) (used : list nat)
  : list nat :=
  match segs with
  | [] => used
  | s1 :: rest =>
      if has used i then pruneFrom rest (S i) used
      else
        match findReverse rest (S i) used s1 with
        | Some j => pruneFrom rest (S i) (j :: i :: used)
        | None => pruneFrom rest (S i) used
        end
  end.

(** Step A.1: the indices marked used by the bridge pruning. *)
Definition pruneBridges (segments : list (Segment P)) : list nat :=
  pruneFrom segments 0 [].

Definition reverseSegment (seg : Segment P) : Segment P :=
  mkSegment (sp2 seg) (sp1 seg) (- sbulge seg) (sradius seg)
            (option_map Ropp (stheta seg)).

(** The [for] loop that looks for the next segment of a chain: the first
    [j], unused and not in the chain, one of whose ends matches the tip. *)
Fixpoint findNext (segs : list (Segment P)) (j : nat) (used chain : list nat)
         (tip : P) : option (nat * Segment P) :=
  match segs with
  | [] => None
  | seg :: rest =>
      if has used j then findNext rest (S j) used chain tip
      else if has chain j then findNext rest (S j) used chain tip
      else if matches tip (sp1 seg) then Some (j, seg)
      else if matches tip (sp2 seg) then Some (j, reverseSegment seg)
      else findNext rest (S j) used chain tip
  end.

(** The chain grown from one start segment: [ordered],
    [currentLoopIndices] and [loopClosed]. *)
Record Chain : Type := mkChain {
  ordered : list (Segment P);
  currentLoopIndices : list nat;
  loopClosed : bool
}.

(** The [while (true)] loop.  Every iteration puts a new index into the
    chain, so the number of segments bounds its trips. *)
Fixpoint growChain (fuel : nat) (segments : list (Segment P)) (used : list nat)
         (start : P) (ordered : list (Segment P)) (indices : list nat)
         (tip : P) : Chain :=
  match fuel with
  | O => mkChain ordered indices false
  | S f =>
      match findNext segments 0 used indices tip with
      | None => mkChain ordered indices false
      | Some (j, seg) =>
          let ordered' := ordered ++ [seg] in
          let indices' := indices ++ [j] in
          let tip' := sp2 seg in
          if matches tip' start then mkChain ordered' indices' true
          else growChain f segments used start ordered' indices' tip'
      end
  end.

(** The extraction loop over the start index [i], with the segments from
    [i] on in [from]; it returns the ordered segments of each closed loop
    with their indices. *)
Fixpoint extractFrom (from : list (Segment P)) (i : nat)
         (segments : list (Segment P)) (used : list nat)
  : list (list (Segment P) * list nat) :=
  match from with
  | [] => []
  | seg :: rest =>
      if has used i then extractFrom rest (S i) segments used
      else
        let c := growChain (List.length segments) segments used
                           (sp1 seg) [seg] [i] (sp2 seg) in
        if loopClosed c then
          (ordered c, currentLoopIndices c)
            :: extractFrom rest (S i) segments (rev (currentLoopIndices c) ++ used)
        else extractFrom rest (S i) segments used
  end.

Definition extractSegments (segments : list (Segment P))
  : list (list (Segment P) * list nat) :=
  extractFrom segments 0 segments (pruneBridges segments).

End Extract.

Arguments mkChain {P} _ _ _.
Arguments ordered {P} _.
Arguments currentLoopIndices {P} _.
Arguments loopClosed {P} _.

(** [ordered.map(seg => ({x: seg.p1.x, y: seg.p1.y, bulge, radius, theta}))]. *)
Definition segmentVertex (seg : Segment Point) : Vertex :=
  mkVertex (px (sp1 seg)) (py (sp1 seg)) (Some (sbulge seg))
           (sradius seg) (stheta seg).

(** A segment with its points renamed by [f]. *)
Definition mapSegment {P Q : Type} (f : P -> Q) (s : Segment P) : Segment Q :=
  mkSegment (f (sp1 s)) (f (sp2 s)) (sbulge s) (sradius s) (stheta s).

Definition mapChain {P Q : Type} (f : P -> Q) (c : Chain P) : Chain Q :=
  mkChain (map (mapSegment f) (ordered c)) (currentLoopIndices c) (loopClosed c).

(** The index [k] was marked together with a partner: the segments at two
    marked indices [i < j], one of them [k], are reverses of each other. *)
Definition markedInPair {P : Type} (matches : P -> P -> bool)
           (segments : list (Segment P)) (used : list nat) (k : nat) : Prop :=
  exists i j s1 s2,
    (i < j)%nat /\ (k = i \/ k = j)
    /\ nth_error segments i = Some s1 /\ nth_error segments j = Some s2
    /\ isReverse matches s1 s2 = true
    /\ has used i = true /\ has used j = true.

(** Step A of [extractAllLoops]: all entities decomposed, [null] results
    skipped. *)
Definition allSegments (entities : list Entity) : list (Segment Point) :=
  flat_map (fun ent => match decomposeEntity ent with
                       | Some decomp => decomp
                       | None => []
                       end) entities.

Definition extractAllLoops (entities : list Entity) (toleranceOverride : R)
  : list (list Vertex) :=
  map (fun loop => map segmentVertex (fst loop))
      (extractSegments (matchesTol toleranceOverride) (allSegments entities)).

(** ** [decomposeComplexLoops] *)

Section Decompose.

(** The splitting code compares vertices with [matches] and copies them;
    it is generic in the type of the vertices. *)
Variable A : Type.
Variable matches : A -> A -> bool.

(** First index after [j] whose vertex matches [v]. *)
Fixpoint findRepeat (v : A) (rest : list A) (j : nat) : option nat :=
  match rest with
  | [] => None
  | w :: rest' => if matches v w then Some j else findRepeat v rest' (S j)
  end.

(** The double [for] loop: the first pair [i < j] of matching vertices. *)
Fixpoint findPinch (l : list A) (i : nat) : option (nat * nat) :=
  match l with
  | [] => None
  | v :: rest =>
      match findRepeat v rest (S i) with
      | Some j => Some (i, j)
      | None => findPinch rest (S i)
      end
  end.

(** The [while (foundSplit)] loop; every split shortens [currentLoop]. *)
Fixpoint splitLoops (fuel : nat) (currentLoop : list A)
         (simpleLoops : list (list A)) : list A * list (list A) :=
  match fuel with
  | O => (currentLoop, simpleLoops)
  | S f =>
      match findPinch currentLoop 0 with
      | None => (currentLoop, simpleLoops)
      | Some (i, j) =>
          let subLoop := firstn (j - i) (skipn i currentLoop) in
          let currentLoop' := firstn i currentLoop ++ skipn j currentLoop in
          splitLoops f currentLoop' (simpleLoops ++ [subLoop])
      end
  end.

Definition decomposeWith (vertices : list A) : list (list A) :=
  if (List.length vertices <? 3)%nat then []
  else
    let '(currentLoop, simpleLoops) :=
      splitLoops (List.length vertices) vertices [] in
    if (3 <=? List.length currentLoop)%nat
    then simpleLoops ++ [currentLoop]
    else simpleLoops.

End Decompose.

Definition vertexMatches (tolerance : R) (p1 p2 : Vertex) : bool :=
  if Rlt_dec (Math_hypot (vx p1 - vx p2) (vy p1 - vy p2)) tolerance
  then true else false.

Definition decomposeComplexLoops (vertices : list Vertex) : list (list Vertex) :=
  decomposeWith (vertexMatches 0.15) vertices.

(** ** [findConnectedLoops] *)

(** The helper [eps]: both ends of every segment of an entity. *)
Definition endpoints (ent : Entity) : list Point :=
  match decomposeEntity ent with
  | Some segs => flat_map (fun s => [sp1 s; sp2 s]) segs
  | None => []
  end.

Definition connected (e1 e2 : Entity) : bool :=
  existsb (fun p1 => existsb (fun p2 => matchesTol 0.05 p1 p2) (endpoints e2))
          (endpoints e1).

(** The adjacency list of entity [k]: the entities connected to it, in
    index order (entities are told apart by their index). *)
Definition neighbours (entityList : list Entity) (k : nat) : list nat :=
  match nth_error entityList k with
  | None => []
  | Some ek =>
      filter (fun m =>
                negb (Nat.eqb m k) &&
                match nth_error entityList m with
                | Some em => if (m <? k)%nat then connected em ek
                             else connected ek em
                | None => false
                end)
             (seq 0 (List.length entityList))
  end.

(** The inner [for] of the traversal: unvisited neighbours are marked and
    pushed. *)
Fixpoint pushNeighbours (ns : list nat) (visited stack : list nat)
  : list nat * list nat :=
  match ns with
  | [] => (visited, stack)
  | n :: rest =>
      if has visited n then pushNeighbours rest visited stack
      else pushNeighbours rest (n :: visited) (stack ++ [n])
  end.

(** [while (stack.length > 0)]: the stack is popped at its end. *)
Fixpoint traverse (fuel : nat) (entityList : list Entity)
         (stack visited component : list nat) : list nat * list nat :=
  match fuel with
  | O => (component, visited)
  | S f =>
      match rev stack with
      | [] => (component, visited)
      | curr :: restRev =>
          let '(visited', stack') :=
            pushNeighbours (neighbours entityList curr) visited (rev restRev) in
          traverse f entityList stack' visited' (component ++ [curr])
      end
  end.

(** The loop over the start entities. *)
Fixpoint components (starts : list nat) (entityList : list Entity)
         (visited : list nat) : list (list nat) :=
  match starts with
  | [] => []
  | ent :: rest =>
      if has visited ent then components rest entityList visited
      else
        let '(component, visited') :=
          traverse (List.length entityList) entityList [ent] (ent :: visited) [] in
        component :: components rest entityList visited'
  end.

Definition dummyEntity : Entity := OtherEnt "".

Definition findConnectedLoops (entities : list Entity) : list (list Entity) :=
  match entities with
  | [] => []
  | [e] => [[e]]
  | _ =>
      map (map (fun k => nth k entities dummyEntity))
          (components (seq 0 (List.length entities)) entities [])
  end.

(** ** [calculateArea] *)

Inductive AreaResult : Type :=
| AreaNull                                      (* null *)
| AreaNumber (area : R)                         (* a bare number *)
| AreaSingle (area : R)                         (* {area, count: 1} *)
| AreaProfile (area : R) (count : nat) (outer holes : R).
    (* {area, count, details}: [details] prints [outer] and [holes] *)

(** [areas.sort((a, b) => b - a)]: descending order. *)
Fixpoint insertDesc (a : R) (l : list R) : list R :=
  match l with
  | [] => [a]
  | b :: rest => if Rle_dec b a then a :: l else b :: insertDesc a rest
  end.

Definition sortDesc (l : list R) : list R := fold_right insertDesc [] l.

(** Steps 2 and 3: the simple loops of a selection. *)
Definition selectionLoops (entities : list Entity) : list (list Vertex) :=
  flat_map (fun compEntities =>
              flat_map decomposeComplexLoops (extractAllLoops compEntities 0.01))
           (findConnectedLoops entities).

(** Step 4: the loop areas above the spike filter. *)
Definition loopAreas (allLoops : list (list Vertex)) : list R :=
  flat_map (fun vertices =>
              if (3 <=? List.length vertices)%nat then
                let a := calculateGeometricArea vertices in
                if Rlt_dec 0.001 a then [a] else []
              else [])
           allLoops.

Definition calculateArea (entities : list Entity) : AreaResult :=
  match entities with
  | [] => AreaNull
  | [CircleEnt _ _ radius] => AreaNumber (PI * radius * radius)
  | _ =>
      match findConnectedLoops entities with
      | [] => AreaNull
      | _ =>
          match selectionLoops entities with
          | [] => AreaNull
          | allLoops =>
              match sortDesc (loopAreas allLoops) with
              | [] => AreaNull
              | [maxArea] => AreaSingle maxArea
              | maxArea :: rest =>
                  let holesArea := fold_left Rplus rest 0 in
                  let totalArea := maxArea - holesArea in
                  AreaProfile totalArea (List.length (maxArea :: rest))
                              maxArea holesArea
              end
          end
      end
  end.

(** ** A profile with a bridge

    The unit square joined to a triangular hole by the zero-width slit
    from (0,0) to (0.25,0.25), drawn once in each direction. *)

Inductive Corner : Type := SqA | SqB | SqC | SqD | TrA | TrB | TrC.

Definition Corner_eqb (a b : Corner) : bool :=
  match a, b with
  | SqA, SqA | SqB, SqB | SqC, SqC | SqD, SqD
  | TrA, TrA | TrB, TrB | TrC, TrC => true
  | _, _ => false
  end.

Definition cornerPoint (c : Corner) : Point :=
  match c with
  | SqA => mkPoint 0 0
  | SqB => mkPoint 1 0
  | SqC => mkPoint 1 1
  | SqD => mkPoint 0 1
  | TrA => mkPoint 0.25 0.25
  | TrB => mkPoint 0.75 0.25
  | TrC => mkPoint 0.5 0.75
  end.

Definition lineBetween (a b : Corner) : Entity :=
  LineEnt (px (cornerPoint a)) (py (cornerPoint a))
          (px (cornerPoint b)) (py (cornerPoint b)).

(** The same lines by the names of their ends. *)
Definition bridgedCorners : list (Corner * Corner) :=
  [(SqA, SqB); (SqB, SqC); (SqC, SqD); (SqD, SqA);
   (SqA, TrA);
   (TrA, TrB); (TrB, TrC); (TrC, TrA);
   (TrA, SqA)].

Definition bridgedProfile : list Entity :=
  map (fun ab => lineBetween (fst ab) (snd ab)) bridgedCorners.

Definition cornerSegment (ab : Corner * Corner) : Segment Corner :=
  mkSegment (fst ab) (snd ab) 0 None None.

Definition cornerPVertex (c : Corner) : PVertex :=
  mkPVertex (px (cornerPoint c)) (py (cornerPoint c)) None.

Definition cornerVertex (c : Corner) : Vertex :=
  pt (px (cornerPoint c)) (py (cornerPoint c)).

(** A closed polyline that passes twice through the corner (0,0): two
    triangles that touch in one vertex. *)
Definition bowTieCorners : list Corner := [SqA; SqB; SqC; SqA; SqD; TrC].

Definition bowTie : list Entity :=
  [PolylineEnt (map cornerPVertex bowTieCorners) 1 false].

(** Three copies of one edge, two of them reversed, closed by two more
    lines into a triangle. *)
Definition tripleEdge : list Entity :=
  [lineBetween SqA SqB; lineBetween SqB SqA; lineBetween SqB SqA;
   lineBetween SqA SqD; lineBetween SqD SqB].

Definition tripleCorners : list (Corner * Corner) :=
  [(SqA, SqB); (SqB, SqA); (SqB, SqA); (SqA, SqD); (SqD, SqB)].

End Loops.

(* ================================================================== *)
(** * Object snap ([osnap.js], [OSNAPSystem.findSnapPoint]) *)
(* ================================================================== *)

Module Snap.

Import Geom.
Local Open Scope R_scope.

(** The snap types the system produces. *)
Inductive SnapType : Type :=
| endpoint | midpoint | center | quadrant
| intersection | perpendicular | nearest | node.

Definition SnapType_eqb (a b : SnapType) : bool :=
  match a, b with
  | endpoint, endpoint | midpoint, midpoint | center, center
  | quadrant, quadrant | intersection, intersection
  | perpendicular, perpendicular | nearest, nearest | node, node => true
  | _, _ => false
  end.

(** The array [specialSnaps] of [findSnapPoint]. *)
Definition specialSnaps : list SnapType :=
  [endpoint; midpoint; center; quadrant; intersection; perpendicular; node].

(** [specialSnaps.includes(t)]. *)
Definition isSpecial (t : SnapType) : bool := existsb (SnapType_eqb t) specialSnaps.

Section FindSnapPoint.

(** The entities, the layer test [layer && !layer.visible], the candidate
    enumeration [getEntitySnapPoints], the renderer's [worldToScreen] and
    the field [snapTolerance] are those of the running system. *)
Variable Entity : Type.
Variable layerHidden : Entity -> bool.

(** A snap candidate [{type, point, entity}]. *)
Record SnapPoint : Type := mkSnap {
  stype : SnapType;
  spoint : Point;
  sentity : Entity
}.

Variable getEntitySnapPoints : Entity -> Point -> option Point -> list SnapPoint.
Variable worldToScreen : R -> R -> Point.
Variable snapTolerance : R.

(** The running best: [closestSnap] and [closestDist] ([None] is
    [Infinity]). *)
Record Best : Type := mkBest {
  closestSnap : option SnapPoint;
  closestDist : option R
}.

(** Screen distance between a candidate and the cursor. *)
Definition screenDist (worldPos : Point) (snap : SnapPoint) : R :=
  let screenPos := worldToScreen (px (spoint snap)) (py (spoint snap)) in
  let cursorScreen := worldToScreen (px worldPos) (py worldPos) in
  sqrt ((px screenPos - px cursorScreen) * (px screenPos - px cursorScreen)
        + (py screenPos - py cursorScreen) * (py screenPos - py cursorScreen)).

(** [dist < closestDist]. *)
Definition closerThan (dist : R) (closestDist : option R) : bool :=
  match closestDist with
  | None => true
  | Some c => if Rlt_dec dist c then true else false
  end.

(** The body of the inner [for (const snap of snaps)]. *)
Definition consider (worldPos : Point) (b : Best) (snap : SnapPoint) : Best :=
  let dist := screenDist worldPos snap in
  if Rlt_dec dist snapTolerance then
    if closerThan dist (closestDist b) then
      match closestSnap b with
      | Some c =>
          if isSpecial (stype c) && SnapType_eqb (stype snap) nearest
          then b
          else mkBest (Some snap) (Some dist)
      | None => mkBest (Some snap) (Some dist)
      end
    else
      match closestSnap b with
      | Some c =>
          if negb (SnapType_eqb (stype snap) nearest)
             && SnapType_eqb (stype c) nearest
          then mkBest (Some snap) (Some dist)
          else b
      | None => b
      end
  else b.

(** The candidates in the order the two loops visit them: entities on a
    hidden layer are skipped. *)
Definition candidates (worldPos : Point) (entities : list Entity)
           (referencePoint : option Point) : list SnapPoint :=
  flat_map (fun entity =>
              if layerHidden entity then []
              else getEntitySnapPoints entity worldPos referencePoint)
           entities.

(** The selection among an enumeration of candidates. *)
Definition selectSnap (worldPos : Point) (snaps : list SnapPoint) : Best :=
  fold_left (consider worldPos) snaps (mkBest None None).

Definition findSnapPoint (worldPos : Point) (entities : list Entity)
           (referencePoint : option Point) : option SnapPoint :=
  closestSnap
    (fold_left
       (fun b entity =>
          if layerHidden entity then b
          else fold_left (consider worldPos)
                         (getEntitySnapPoints entity worldPos referencePoint) b)
       entities (mkBest None None)).

(** A candidate within the snap tolerance of the cursor. *)
Definition inTolerance (worldPos : Point) (snap : SnapPoint) : Prop :=
  screenDist worldPos snap < snapTolerance.

(** What the running best knows about the candidates seen so far. *)
Definition bestOf (worldPos : Point) (seen : list SnapPoint) (b : Best) : Prop :=
  match closestSnap b with
  | None =>
      closestDist b = None
      /\ forall s, In s seen -> ~ inTolerance worldPos s
  | Some r =>
      closestDist b = Some (screenDist worldPos r)
      /\ In r seen /\ inTolerance worldPos r
      /\ if isSpecial (stype r)
         then forall s, In s seen -> inTolerance worldPos s ->
                        isSpecial (stype s) = true ->
                        screenDist worldPos r <= screenDist worldPos s
         else forall s, In s seen -> inTolerance worldPos s ->
                        isSpecial (stype s) = false
                        /\ screenDist worldPos r <= screenDist worldPos s
  end.

(** The tier (special or not) and the screen distance of a result. *)
Definition outcome (worldPos : Point) (r : option SnapPoint) : option (bool * R) :=
  option_map (fun s => (isSpecial (stype s), screenDist worldPos s)) r.

End FindSnapPoint.

End Snap.

(* ================================================================== *)
(** * The DXF parser and its instance state ([dxf-parser.js]) *)
(* ================================================================== *)

Module Parser.

Local Open Scope string_scope.

(** ** Strings *)

Definition LF : ascii := Ascii.ascii_of_nat 10.
Definition CR : ascii := Ascii.ascii_of_nat 13.

(** [s.replace(/\r\n/g, '\n')]. *)
Fixpoint replaceCRLF (s : string) : string :=
  match s with
  | EmptyString => EmptyString
  | String c rest =>
      match rest with
      | String c' rest' =>
          if (Ascii.eqb c CR && Ascii.eqb c' LF)%bool
          then String LF (replaceCRLF rest')
          else String c (replaceCRLF rest)
      | EmptyString => String c EmptyString
      end
  end.

(** [s.replace(/\r/g, '\n')]. *)
Fixpoint replaceCR (s : string) : string :=
  match s with
  | EmptyString => EmptyString
  | String c rest => String (if Ascii.eqb c CR then LF else c) (replaceCR rest)
  end.

(** [s.split('\n')], the line in progress kept in [cur]. *)
Fixpoint splitLines (s : string) (cur : string) : list string :=
  match s with
  | EmptyString => [cur]
  | String c rest =>
      if Ascii.eqb c LF then cur :: splitLines rest EmptyString
      else splitLines rest (cur ++ String c EmptyString)
  end.

(** White space of [trim] and [parseInt], within ASCII. *)
Definition isWhite (c : ascii) : bool :=
  let n := Ascii.nat_of_ascii c in
  ((n =? 9) || (n =? 10) || (n =? 11) || (n =? 12) || (n =? 13) || (n =? 32))%nat.

Fixpoint trimStart (s : string) : string :=
  match s with
  | EmptyString => EmptyString
  | String c rest => if isWhite c then trimStart rest else s
  end.

Fixpoint reverseString (s acc : string) : string :=
  match s with
  | EmptyString => acc
  | String c rest => reverseString rest (String c acc)
  end.

Definition trim (s : string) : string :=
  reverseString (trimStart (reverseString (trimStart s) EmptyString)) EmptyString.

(** Value of a digit in the given radix. *)
Definition digitValue (radix : Z) (c : ascii) : option Z :=
  let n := Z.of_nat (Ascii.nat_of_ascii c) in
  let v := if ((48 <=? n) && (n <=? 57))%Z then Some (n - 48)%Z
           else if ((97 <=? n) && (n <=? 122))%Z then Some (n - 87)%Z
           else if ((65 <=? n) && (n <=? 90))%Z then Some (n - 55)%Z
           else None in
  match v with
  | Some d => if (d <? radix)%Z then Some d else None
  | None => None
  end.

(** The longest prefix of digits, as a number; [None] without a digit. *)
Fixpoint digitsPrefix (radix : Z) (s : string) (acc : option Z) : option Z :=
  match s with
  | EmptyString => acc
  | String c rest =>
      match digitValue radix c with
      | Some d =>
          digitsPrefix radix rest
            (Some (match acc with Some a => a * radix + d | None => d end)%Z)
      | None => acc
      end
  end.

(** [parseInt(s)] without a radix; [None] is [NaN], also for [undefined]. *)
Definition parseInt (s : option string) : option Z :=
  match s with
  | None => None
  | Some s =>
      let s := trimStart s in
      let '(sign, s) :=
        match s with
        | String "-" rest => ((-1)%Z, rest)
        | String "+" rest => (1%Z, rest)
        | _ => (1%Z, s)
        end in
      let '(radix, s) :=
        match s with
        | String "0" (String "x" rest) => (16%Z, rest)
        | String "0" (String "X" rest) => (16%Z, rest)
        | _ => (10%Z, s)
        end in
      option_map (Z.mul sign) (digitsPrefix radix s None)
  end.

(** [code === n] on a possibly [NaN] group code. *)
Definition codeIs (code : option Z) (n : Z) : bool :=
  match code with Some c => (c =? n)%Z | None => false end.

(** [value === 'LITERAL'] on a possibly [undefined] line. *)
Definition valueIs (value : option string) (lit : string) : bool :=
  match value with Some v => String.eqb v lit | None => false end.

(** A value used as a property name or in a truth test. *)
Definition keyOf (value : option string) : string :=
  match value with Some v => v | None => "undefined" end.

Definition truthy (value : option string) : bool :=
  match value with Some EmptyString => false | Some _ => true | None => false end.

(** ** Maps in insertion order: [Map.set] and property assignment *)

Fixpoint mapSetBy {K V : Type} (eqb : K -> K -> bool) (k : K) (v : V)
         (m : list (K * V)) : list (K * V) :=
  match m with
  | [] => [(k, v)]
  | (k', v') :: rest =>
      if eqb k k' then (k, v) :: rest else (k', v') :: mapSetBy eqb k v rest
  end.

Definition mapSet {V : Type} := @mapSetBy string V String.eqb.

(** Keys of the linetype map: a line or [undefined]. *)
Definition optKeyEqb (a b : option string) : bool :=
  match a, b with
  | Some x, Some y => String.eqb x y
  | None, None => true
  | _, _ => false
  end.

Section WithEntities.

(** Numbers read by [parseFloat], and a single entity record read by
    [parseEntity] (which does not touch the parser instance), are those of
    the running system; [parseEntity] yields the entity and its
    [_endIndex]. *)
Variable Num : Type.
Variable parseFloat : option string -> Num.
Variable zero : Num.
Variable Entity : Type.
Variable parseEntity : list string -> nat -> option string -> Entity * nat.

(** What [parseValue] returns. *)
Inductive JsValue : Type :=
| VNull
| VUndefined
| VString (s : string)
| VFloat (x : Num)
| VInt (n : option Z).

Record Layer : Type := mkLayer {
  layerName : option string;
  layerColor : option Z;
  layerLineType : option string;
  layerFlags : option Z;
  layerVisible : bool
}.

Record Linetype : Type := mkLinetype {
  ltName : option string;
  ltDescription : option string;
  ltPattern : list Num;
  ltPatternLength : Num
}.

Record Block : Type := mkBlock {
  blockEntities : list Entity;
  blockName : option (option string);    (* unset, or set to a line *)
  blockX : option Num;
  blockY : option Num;
  blockZ : option Num;
  blockFlags : option (option Z)
}.

(** The fields of a [DXFParser] instance. *)
Record State : Type := mkState {
  entities : list Entity;
  layers : list (string * Layer);
  linetypes : list (option string * Linetype);
  header : list (string * JsValue);
  blocks : list (string * Block)
}.

(** [new DXFParser()]. *)
Definition fresh : State := mkState [] [] [] [] [].

Definition parseValue (code : option Z) (value : option string) : JsValue :=
  match code with
  | Some c =>
      if ((10 <=? c) && (c <? 60))%Z then VFloat (parseFloat value)
      else if ((60 <=? c) && (c <? 80))%Z then VInt (parseInt value)
      else match value with Some v => VString v | None => VUndefined end
  | None => match value with Some v => VString v | None => VUndefined end
  end.

Definition setHeader (st : State) (k : string) (v : JsValue) : State :=
  mkState (entities st) (layers st) (linetypes st) (mapSet k v (header st))
          (blocks st).

Definition setLayer (st : State) (k : string) (v : Layer) : State :=
  mkState (entities st) (mapSet k v (layers st)) (linetypes st) (header st)
          (blocks st).

Definition setLinetype (st : State) (k : option string) (v : Linetype) : State :=
  mkState (entities st) (layers st) (mapSetBy optKeyEqb k v (linetypes st))
          (header st) (blocks st).

Definition setBlock (st : State) (k : string) (v : Block) : State :=
  mkState (entities st) (layers st) (linetypes st) (header st)
          (mapSet k v (blocks st)).

Definition pushEntity (st : State) (e : Entity) : State :=
  mkState (entities st ++ [e]) (layers st) (linetypes st) (header st) (blocks st).

Section Lines.

Variable lines : list string.

Definition line (i : nat) : option string := nth_error lines i.

(** [parseHeader]: the loop from index [i] with [currentVar]. *)
Fixpoint parseHeader (fuel : nat) (st : State) (i : nat)
         (currentVar : option string) : State * nat :=
  match fuel with
  | O => (st, i)
  | S f =>
      if (i <? List.length lines)%nat then
        let code := parseInt (line i) in
        let value := line (i + 1) in
        if (codeIs code 0 && valueIs value "ENDSEC")%bool then (st, (i + 2)%nat)
        else if codeIs code 9 then
          parseHeader f (setHeader st (keyOf value) VNull) (i + 2) value
        else if truthy currentVar then
          parseHeader f (setHeader st (keyOf currentVar) (parseValue code value))
                      (i + 2) currentVar
        else parseHeader f st (i + 2) currentVar
      else (st, i)
  end.

(** [parseLayer]; the layer under construction is [layer]. *)
Fixpoint parseLayer (fuel : nat) (st : State) (i : nat) (layer : Layer)
  : State * nat :=
  let save st :=
    if truthy (layerName layer) then setLayer st (keyOf (layerName layer)) layer
    else st in
  match fuel with
  | O => (save st, i)
  | S f =>
      if (i <? List.length lines)%nat then
        let code := parseInt (line i) in
        let value := line (i + 1) in
        if codeIs code 0 then (save st, i)
        else
          let layer' :=
            if codeIs code 2 then
              mkLayer value (layerColor layer) (layerLineType layer)
                      (layerFlags layer) (layerVisible layer)
            else if codeIs code 62 then
              match parseInt value with
              | Some c =>
                  if (c <? 0)%Z
                  then mkLayer (layerName layer) (Some (Z.abs c))
                               (layerLineType layer) (layerFlags layer) false
                  else mkLayer (layerName layer) (Some c) (layerLineType layer)
                               (layerFlags layer) (layerVisible layer)
              | None => mkLayer (layerName layer) None (layerLineType layer)
                                (layerFlags layer) (layerVisible layer)
              end
            else if codeIs code 6 then
              mkLayer (layerName layer) (layerColor layer) value
                      (layerFlags layer) (layerVisible layer)
            else if codeIs code 70 then
              mkLayer (layerName layer) (layerColor layer) (layerLineType layer)
                      (parseInt value) (layerVisible layer)
            else layer in
          parseLayer f st (i + 2) layer'
      else (save st, i)
  end.

Definition newLayer : Layer :=
  mkLayer (Some "") (Some 7%Z) (Some "CONTINUOUS") (Some 0%Z) true.

(** [parseLinetype]. *)
Fixpoint parseLinetype (fuel : nat) (st : State) (i : nat) (lt : Linetype)
  : State * nat :=
  match fuel with
  | O => (st, i)
  | S f =>
      if (i <? List.length lines)%nat then
        let code := parseInt (line i) in
        let value := line (i + 1) in
        if codeIs code 0 then (setLinetype st (ltName lt) lt, i)
        else
          let lt' :=
            if codeIs code 2 then
              mkLinetype value (ltDescription lt) (ltPattern lt) (ltPatternLength lt)
            else if codeIs code 3 then
              mkLinetype (ltName lt) value (ltPattern lt) (ltPatternLength lt)
            else if codeIs code 40 then
              mkLinetype (ltName lt) (ltDescription lt) (ltPattern lt)
                         (parseFloat value)
            else if codeIs code 49 then
              mkLinetype (ltName lt) (ltDescription lt)
                         (ltPattern lt ++ [parseFloat value]) (ltPatternLength lt)
            else lt in
          parseLinetype f st (i + 2) lt'
      else (st, i)
  end.

Definition newLinetype : Linetype := mkLinetype (Some "") (Some "") [] zero.

(** [parseTable], after the table type has been read. *)
Fixpoint parseTableLoop (fuel : nat) (st : State) (i : nat)
         (tableType : option string) : State * nat :=
  match fuel with
  | O => (st, i)
  | S f =>
      if (i <? List.length lines)%nat then
        let code := parseInt (line i) in
        let value := line (i + 1) in
        if codeIs code 0 then
          if valueIs value "ENDTAB" then (st, (i + 2)%nat)
          else if (valueIs tableType "LAYER" && valueIs value "LAYER")%bool then
            let '(st', i') := parseLayer (List.length lines) st (i + 2) newLayer in
            parseTableLoop f st' i' tableType
          else if (valueIs tableType "LTYPE" && valueIs value "LTYPE")%bool then
            let '(st', i') :=
              parseLinetype (List.length lines) st (i + 2) newLinetype in
            parseTableLoop f st' i' tableType
          else parseTableLoop f st (i + 2) tableType
        else parseTableLoop f st (i + 2) tableType
      else (st, i)
  end.

Definition parseTable (st : State) (startIndex : nat) : State * nat :=
  parseTableLoop (List.length lines) st (startIndex + 2) (line (startIndex + 1)).

(** [parseTables]. *)
Fixpoint parseTables (fuel : nat) (st : State) (i : nat) : State * nat :=
  match fuel with
  | O => (st, i)
  | S f =>
      if (i <? List.length lines)%nat then
        let code := parseInt (line i) in
        let value := line (i + 1) in
        if codeIs code 0 then
          if valueIs value "ENDSEC" then (st, (i + 2)%nat)
          else if valueIs value "TABLE" then
            let '(st', i') := parseTable st (i + 2) in
            parseTables f st' i'
          else parseTables f st (i + 2)
        else parseTables f st (i + 2)
      else (st, i)
  end.

(** The inner loop of [parseBlocks] that reads a block header. *)
Fixpoint parseBlockHeader (fuel : nat) (b : Block) (i : nat) : Block * nat :=
  match fuel with
  | O => (b, i)
  | S f =>
      if (i <? List.length lines)%nat then
        let bCode := parseInt (line i) in
        let bValue := line (i + 1) in
        if codeIs bCode 0 then (b, i)
        else
          let b' :=
            if codeIs bCode 2 then
              mkBlock (blockEntities b) (Some bValue) (blockX b) (blockY b)
                      (blockZ b) (blockFlags b)
            else if codeIs bCode 10 then
              mkBlock (blockEntities b) (blockName b) (Some (parseFloat bValue))
                      (blockY b) (blockZ b) (blockFlags b)
            else if codeIs bCode 20 then
              mkBlock (blockEntities b) (blockName b) (blockX b)
                      (Some (parseFloat bValue)) (blockZ b) (blockFlags b)
            else if codeIs bCode 30 then
              mkBlock (blockEntities b) (blockName b) (blockX b) (blockY b)
                      (Some (parseFloat bValue)) (blockFlags b)
            else if codeIs bCode 70 then
              mkBlock (blockEntities b) (blockName b) (blockX b) (blockY b)
                      (blockZ b) (Some (parseInt bValue))
            else b in
          parseBlockHeader f b' (i + 2)
      else (b, i)
  end.

Definition newBlock : Block := mkBlock [] None None None None None.

(** [currentBlock.name] as a truth value and as a key. *)
Definition blockNamed (b : Block) : option string :=
  match blockName b with
  | Some (Some n) => if truthy (Some n) then Some n else None
  | _ => None
  end.

(** [parseBlocks]. *)
Fixpoint parseBlocks (fuel : nat) (st : State) (i : nat)
         (currentBlock : option Block) : State * nat :=
  match fuel with
  | O => (st, i)
  | S f =>
      if (i <? List.length lines)%nat then
        let code := parseInt (line i) in
        let value := line (i + 1) in
        if codeIs code 0 then
          if valueIs value "ENDSEC" then (st, (i + 2)%nat)
          else if valueIs value "BLOCK" then
            let '(b, i') := parseBlockHeader (List.length lines) newBlock (i + 2) in
            parseBlocks f st i' (Some b)
          else if valueIs value "ENDBLK" then
            let st' :=
              match currentBlock with
              | Some b =>
                  match blockNamed b with
                  | Some n => setBlock st n b
                  | None => st
                  end
              | None => st
              end in
            parseBlocks f st' (i + 2) None
          else
            match currentBlock with
            | Some b =>
                let '(entity, endIndex) := parseEntity lines i value in
                let b' := mkBlock (blockEntities b ++ [entity]) (blockName b)
                                  (blockX b) (blockY b) (blockZ b) (blockFlags b) in
                parseBlocks f st endIndex (Some b')
            | None => parseBlocks f st (i + 2) currentBlock
            end
        else parseBlocks f st (i + 2) currentBlock
      else (st, i)
  end.

(** [parseEntities]. *)
Fixpoint parseEntities (fuel : nat) (st : State) (i : nat) : State * nat :=
  match fuel with
  | O => (st, i)
  | S f =>
      if (i <? List.length lines)%nat then
        let code := parseInt (line i) in
        let value := line (i + 1) in
        if codeIs code 0 then
          if valueIs value "ENDSEC" then (st, (i + 2)%nat)
          else
            let '(entity, endIndex) := parseEntity lines i value in
            parseEntities f (pushEntity st entity) endIndex
        else parseEntities f st (i + 2)
      else (st, i)
  end.

(** The [default] case of [parseSection]: skip to the end of the section. *)
Fixpoint skipSection (fuel : nat) (i : nat) : nat :=
  match fuel with
  | O => i
  | S f =>
      if (i <? List.length lines)%nat then
        if (codeIs (parseInt (line i)) 0 && valueIs (line (i + 1)) "ENDSEC")%bool
        then (i + 2)%nat
        else skipSection f (i + 2)
      else i
  end.

Definition parseSection (st : State) (startIndex : nat) : State * nat :=
  let sectionType := line (startIndex + 1) in
  let i := (startIndex + 2)%nat in
  let n := List.length lines in
  if valueIs sectionType "HEADER" then parseHeader n st i None
  else if valueIs sectionType "TABLES" then parseTables n st i
  else if valueIs sectionType "BLOCKS" then parseBlocks n st i None
  else if valueIs sectionType "ENTITIES" then parseEntities n st i
  else (st, skipSection n i).

(** The main loop of [parse]. *)
Fixpoint parseLoop (fuel : nat) (st : State) (i : nat) : State :=
  match fuel with
  | O => st
  | S f =>
      if (i <? List.length lines)%nat then
        let code := parseInt (line i) in
        let value := line (i + 1) in
        if codeIs code 0 then
          if valueIs value "SECTION" then
            let '(st', i') := parseSection st (i + 2) in
            parseLoop f st' i'
          else parseLoop f st (i + 2)
        else parseLoop f st (i + 2)
      else st
  end.

End Lines.

(** What [parse] returns: the entity array, the values of the two maps,
    the header object and the block map. *)
Record Parsed : Type := mkParsed {
  pEntities : list Entity;
  pLayers : list Layer;
  pLinetypes : list Linetype;
  pHeader : list (string * JsValue);
  pBlocks : list (string * Block)
}.

Definition toLines (content : string) : list string :=
  map trim (splitLines (replaceCR (replaceCRLF content)) EmptyString).

(** [parse(content)] on an instance in state [st]: the instance state
    after the call, and the object returned. *)
Definition parse (st : State) (content : string) : State * Parsed :=
  let lines := toLines content in
  let st' := parseLoop lines (List.length lines) st 0 in
  (st', mkParsed (entities st') (map snd (layers st')) (map snd (linetypes st'))
                 (header st') (blocks st')).

(** Two calls in a row on one instance: the result of the second. *)
Definition parseTwice (c1 c2 : string) : Parsed :=
  snd (parse (fst (parse fresh c1)) c2).

(** One call on a new instance. *)
Definition parseFresh (c : string) : Parsed := snd (parse fresh c).

(** The entity list of [st] is that of [st0] with [pre] in front. *)
Definition ahead (pre : list Entity) (st st0 : State) : Prop :=
  entities st = (pre ++ entities st0)%list.

(** Two runs of a parsing loop, from states that differ in the entities
    already there, end at the same index. *)
Definition inStep (pre : list Entity) (r r0 : State * nat) : Prop :=
  ahead pre (fst r) (fst r0) /\ snd r = snd r0.

End WithEntities.

Definition linesOf (l : list string) : string :=
  String.concat (String LF EmptyString) l.

(** A file with one header variable. *)
Definition sampleHeader : string :=
  linesOf ["0"; "SECTION"; "2"; "HEADER"; "9"; "$ACADVER"; "1"; "AC1009";
           "0"; "ENDSEC"; "0"; "EOF"].

(** A file with one entity. *)
Definition sampleEntities : string :=
  linesOf ["0"; "SECTION"; "2"; "ENTITIES"; "0"; "POINT"; "0"; "ENDSEC";
           "0"; "EOF"].

End Parser.

(* ================================================================== *)
(** * Minimum enclosing circle ([weight-manager.js]) *)
(* ================================================================== *)

Module Welzl.

Import Geom.
Local Open Scope R_scope.

(** A circle [{center, radius}]. *)
Record Circle : Type := mkCircle { center : Point; radius : R }.

Definition circleContains (c : Circle) (p : Point) : bool :=
  if Rle_dec (Math_hypot (px p - px (center c)) (py p - py (center c)))
             (radius c + 1e-6)
  then true else false.

Definition circleFrom2Points (a b : Point) : Circle :=
  let cx := (px a + px b) / 2 in
  let cy := (py a + py b) / 2 in
  mkCircle (mkPoint cx cy) (Math_hypot (px a - cx) (py a - cy)).

(** The determinant [d] of [circleFrom3Points]. *)
Definition det3 (a b c : Point) : R :=
  2 * (px a * (py b - py c) + px b * (py c - py a) + px c * (py a - py b)).

Definition circleFrom3Points (a b c : Point) : Circle :=
  let d := det3 a b c in
  if Rlt_dec (Rabs d) 1e-12 then circleFrom2Points a b
  else
    let ux := ((px a * px a + py a * py a) * (py b - py c)
               + (px b * px b + py b * py b) * (py c - py a)
               + (px c * px c + py c * py c) * (py a - py b)) / d in
    let uy := ((px a * px a + py a * py a) * (px c - px b)
               + (px b * px b + py b * py b) * (px a - px c)
               + (px c * px c + py c * py c) * (px b - px a)) / d in
    mkCircle (mkPoint ux uy) (Math_hypot (px a - ux) (py a - uy)).

(** ** The shuffle *)

Definition origin : Point := mkPoint 0 0.

(** [pts[i] = x] for an index within the array. *)
Definition setNth (i : nat) (x : Point) (pts : list Point) : list Point :=
  firstn i pts ++ x :: skipn (S i) pts.

(** [[pts[i], pts[j]] = [pts[j], pts[i]]]. *)
Definition swap (i j : nat) (pts : list Point) : list Point :=
  let vi := nth i pts origin in
  let vj := nth j pts origin in
  setNth j vi (setNth i vj pts).

(** [Math.floor(x)] as an array index. *)
Definition floorIndex (x : R) : nat := Z.to_nat (Zfloor x).

(** The Fisher-Yates loop from [i] down to 1; [rnd k] is what the [k]-th
    call of [Math.random] returns. *)
Fixpoint shuffleFrom (rnd : nat -> R) (i k : nat) (pts : list Point)
  : list Point :=
  match i with
  | O => pts
  | S i' =>
      let j := floorIndex (rnd k * INR (i + 1)) in
      shuffleFrom rnd i' (S k) (swap i j pts)
  end.

Definition shuffle (rnd : nat -> R) (points : list Point) : list Point :=
  shuffleFrom rnd (List.length points - 1) 0 points.

(** ** The three nested loops *)

(** [for (k = 0; k < j; k++)], over the points before [pts[j]]. *)
Definition loopK (pi pj : Point) (before : list Point) (c : Circle) : Circle :=
  fold_left (fun c pk => if circleContains c pk then c
                         else circleFrom3Points pi pj pk)
            before c.

(** [for (j = 0; j < i; j++)]: [done] are the points already visited,
    [rest] those still to come before [pts[i]]. *)
Fixpoint loopJ (pi : Point) (done rest : list Point) (c : Circle) : Circle :=
  match rest with
  | [] => c
  | pj :: rest' =>
      let c' := if circleContains c pj then c
                else loopK pi pj done (circleFrom2Points pi pj) in
      loopJ pi (done ++ [pj]) rest' c'
  end.

(** [for (i = 0; i < pts.length; i++)]; [None] is the initial [null]. *)
Fixpoint loopI (done rest : list Point) (c : option Circle) : option Circle :=
  match rest with
  | [] => c
  | pi :: rest' =>
      let c' :=
        match c with
        | Some c0 =>
            if circleContains c0 pi then Some c0
            else Some (loopJ pi [] done (mkCircle pi 0))
        | None => Some (loopJ pi [] done (mkCircle pi 0))
        end in
      loopI (done ++ [pi]) rest' c'
  end.

(** The incremental construction on points in a given order. *)
Definition welzl (pts : list Point) : option Circle := loopI [] pts None.

(** The object returned: [{center: {x, y}, radius, diameter}]. *)
Record Enclosing : Type := mkEnclosing {
  ecenter : Point;
  eradius : R;
  ediameter : R
}.

(** [minimumEnclosingCircle(points)]; [None] is the TypeError on an empty
    input, where [c] is still [null]. *)
Definition minimumEnclosingCircle (rnd : nat -> R) (points : list Point)
  : option Enclosing :=
  match welzl (shuffle rnd points) with
  | Some c =>
      Some (mkEnclosing (mkPoint (px (center c)) (py (center c)))
                        (radius c) (radius c * 2))
  | None => None
  end.

(** ** Points on one circle *)

(** [p] lies on the circle of centre [o] and radius [r]. *)
Definition onCircle (o : Point) (r : R) (p : Point) : Prop :=
  (px p - px o) * (px p - px o) + (py p - py o) * (py p - py o) = r * r.

(** Three input points, the third outside the circle over the first two,
    span a triangle the three-point construction accepts. *)
Definition nondegenerate (pts : list Point) : Prop :=
  forall a b c, In a pts -> In b pts -> In c pts ->
    a <> b ->
    circleContains (circleFrom2Points a b) c = false ->
    1e-12 <= Rabs (det3 a b c).

(** A circle through one or two input points. *)
Definition smallCircle (pts : list Point) (c : Circle) : Prop :=
  (exists a, In a pts /\ c = mkCircle a 0)
  \/ (exists a b, In a pts /\ In b pts /\ c = circleFrom2Points a b).

Definition encloses (c : Circle) (pts : list Point) : Prop :=
  forall p, In p pts -> circleContains c p = true.

(** The points do not fit a circle through one or two of them, other than
    the circle they lie on. *)
Definition spread (pts : list Point) (o : Point) (r : R) : Prop :=
  forall c, smallCircle pts c -> encloses c pts -> c = mkCircle o r.

(** What the construction can return on points of the circle of centre
    [o] and radius [r]. *)
Definition candidate (pts : list Point) (o : Point) (r : R) (c : Circle)
  : Prop :=
  smallCircle pts c \/ c = mkCircle o r.

(** Three points of the circle of radius 5 about the origin that span an
    acute triangle, and three that lie within a quarter of it. *)
Definition acuteTriple : list Point :=
  [mkPoint 5 0; mkPoint (-3) 4; mkPoint (-3) (-4)].

Definition clusteredTriple : list Point :=
  [mkPoint 4 3; mkPoint 5 0; mkPoint 3 4].

End Welzl.

(* ================================================================== *)
(** * Snap candidates ([osnap.js], [OSNAPSystem.getEntitySnapPoints]) *)
(* ================================================================== *)

Module SnapPoints.

Import Geom Snap.
Local Open Scope R_scope.

(** ** Projections on a line *)

(** [nearestPointOnLine(point, lineStart, lineEnd)]. *)
Definition nearestPointOnLine (point lineStart lineEnd : Point) : Point :=
  let dx := px lineEnd - px lineStart in
  let dy := py lineEnd - py lineStart in
  let lengthSquared := dx * dx + dy * dy in
  if Req_dec_T lengthSquared 0 then lineStart
  else
    let t := ((px point - px lineStart) * dx + (py point - py lineStart) * dy)
             / lengthSquared in
    let t := Rmax 0 (Rmin 1 t) in
    mkPoint (px lineStart + t * dx) (py lineStart + t * dy).

(** [perpendicularPointOnLine]; [None] is [null]. *)
Definition perpendicularPointOnLine (point lineStart lineEnd : Point)
  : option Point :=
  let dx := px lineEnd - px lineStart in
  let dy := py lineEnd - py lineStart in
  let lengthSquared := dx * dx + dy * dy in
  if Req_dec_T lengthSquared 0 then None
  else
    let t := ((px point - px lineStart) * dx + (py point - py lineStart) * dy)
             / lengthSquared in
    if Rle_dec 0 t then
      if Rle_dec t 1
      then Some (mkPoint (px lineStart + t * dx) (py lineStart + t * dy))
      else None
    else None.

(** The object [{x, y, t}] of [perpendicularPointOnInfiniteLine]. *)
Record Foot : Type := mkFoot { fx : R; fy : R; ft : R }.

Definition perpendicularPointOnInfiniteLine (point lineStart lineEnd : Point)
  : option Foot :=
  let dx := px lineEnd - px lineStart in
  let dy := py lineEnd - py lineStart in
  let lengthSquared := dx * dx + dy * dy in
  if Req_dec_T lengthSquared 0 then None
  else
    let t := ((px point - px lineStart) * dx + (py point - py lineStart) * dy)
             / lengthSquared in
    Some (mkFoot (px lineStart + t * dx) (py lineStart + t * dy) t).

(** [lineLineIntersection(l1p1, l1p2, l2p1, l2p2)]. *)
Definition lineLineIntersection (l1p1 l1p2 l2p1 l2p2 : Point) : option Point :=
  let x1 := px l1p1 in let y1 := py l1p1 in
  let x2 := px l1p2 in let y2 := py l1p2 in
  let x3 := px l2p1 in let y3 := py l2p1 in
  let x4 := px l2p2 in let y4 := py l2p2 in
  let denom := (x1 - x2) * (y3 - y4) - (y1 - y2) * (x3 - x4) in
  if Rlt_dec (Rabs denom) 0.0001 then None
  else
    let t := ((x1 - x3) * (y3 - y4) - (y1 - y3) * (x3 - x4)) / denom in
    let u := - ((x1 - x2) * (y1 - y3) - (y1 - y2) * (x1 - x3)) / denom in
    if Rle_dec 0 t then
      if Rle_dec t 1 then
        if Rle_dec 0 u then
          if Rle_dec u 1
          then Some (mkPoint (x1 + t * (x2 - x1)) (y1 + t * (y2 - y1)))
          else None
        else None
      else None
    else None.

(** ** The snap modes *)

(** The object [snapModes]: one flag per snap type. *)
Record SnapModes : Type := mkModes {
  m_endpoint : bool;
  m_midpoint : bool;
  m_center : bool;
  m_quadrant : bool;
  m_intersection : bool;
  m_perpendicular : bool;
  m_nearest : bool;
  m_node : bool
}.

(** The modes the constructor sets. *)
Definition defaultModes : SnapModes :=
  mkModes true true true true true true true true.

(** [snapModes[t]]. *)
Definition modeOn (modes : SnapModes) (t : SnapType) : bool :=
  match t with
  | endpoint => m_endpoint modes
  | midpoint => m_midpoint modes
  | center => m_center modes
  | quadrant => m_quadrant modes
  | intersection => m_intersection modes
  | perpendicular => m_perpendicular modes
  | nearest => m_nearest modes
  | node => m_node modes
  end.

(** The own properties of [snapModes], by name. *)
Definition modeNamed (mode : string) : option SnapType :=
  if String.eqb mode "endpoint" then Some endpoint
  else if String.eqb mode "midpoint" then Some midpoint
  else if String.eqb mode "center" then Some center
  else if String.eqb mode "quadrant" then Some quadrant
  else if String.eqb mode "intersection" then Some intersection
  else if String.eqb mode "perpendicular" then Some perpendicular
  else if String.eqb mode "nearest" then Some nearest
  else if String.eqb mode "node" then Some node
  else None.

Definition setMode (modes : SnapModes) (t : SnapType) (enabled : bool)
  : SnapModes :=
  match t with
  | endpoint =>
      mkModes enabled (m_midpoint modes) (m_center modes) (m_quadrant modes)
              (m_intersection modes) (m_perpendicular modes) (m_nearest modes)
              (m_node modes)
  | midpoint =>
      mkModes (m_endpoint modes) enabled (m_center modes) (m_quadrant modes)
              (m_intersection modes) (m_perpendicular modes) (m_nearest modes)
              (m_node modes)
  | center =>
      mkModes (m_endpoint modes) (m_midpoint modes) enabled (m_quadrant modes)
              (m_intersection modes) (m_perpendicular modes) (m_nearest modes)
              (m_node modes)
  | quadrant =>
      mkModes (m_endpoint modes) (m_midpoint modes) (m_center modes) enabled
              (m_intersection modes) (m_perpendicular modes) (m_nearest modes)
              (m_node modes)
  | intersection =>
      mkModes (m_endpoint modes) (m_midpoint modes) (m_center modes)
              (m_quadrant modes) enabled (m_perpendicular modes)
              (m_nearest modes) (m_node modes)
  | perpendicular =>
      mkModes (m_endpoint modes) (m_midpoint modes) (m_center modes)
              (m_quadrant modes) (m_intersection modes) enabled
              (m_nearest modes) (m_node modes)
  | nearest =>
      mkModes (m_endpoint modes) (m_midpoint modes) (m_center modes)
              (m_quadrant modes) (m_intersection modes) (m_perpendicular modes)
              enabled (m_node modes)
  | node =>
      mkModes (m_endpoint modes) (m_midpoint modes) (m_center modes)
              (m_quadrant modes) (m_intersection modes) (m_perpendicular modes)
              (m_nearest modes) enabled
  end.

(** [toggleSnapMode(mode, enabled)]: a name that is no own property of
    [snapModes] changes nothing. *)
Definition toggleSnapMode (modes : SnapModes) (mode : string) (enabled : bool)
  : SnapModes :=
  match modeNamed mode with
  | Some t => setMode modes t enabled
  | None => modes
  end.

(** ** The candidates of an entity *)

(** The entities the snap code tells apart by [entity.type], with the
    properties it reads.  A polyline may lack its [vertices]; of a vertex
    only [x] and [y] are read. *)
Inductive OEntity : Type :=
| OLine (x1 y1 x2 y2 : R)
| OCircle (cx cy radius : R)
| OArc (cx cy radius startAngle endAngle : R)
| OPolyline (vertices : option (list Point))
| OPoint (x y : R)
| OOther (type : string).

(** A candidate as it is pushed: [{type, point, entity}], with
    [isProjection] on the perpendicular ones. *)
Record Candidate : Type := mkCandidate {
  csnap : SnapPoint OEntity;
  isProjection : option bool
}.

Definition plain (t : SnapType) (p : Point) (entity : OEntity) : Candidate :=
  mkCandidate (mkSnap t p entity) None.

(** [a % b] on numbers: the remainder has the sign of [a]. *)
Definition truncate (x : R) : Z :=
  if Rle_dec 0 x then Zfloor x else (- Zfloor (- x))%Z.

Definition jsRem (a b : R) : R := a - b * IZR (truncate (a / b)).

Definition getLineSnaps (modes : SnapModes) (entity : OEntity)
           (x1 y1 x2 y2 : R) (cursorPos : Point) (referencePoint : option Point)
  : list Candidate :=
  (if m_endpoint modes
   then [plain endpoint (mkPoint x1 y1) entity;
         plain endpoint (mkPoint x2 y2) entity]
   else [])
  ++ (if m_midpoint modes
      then [plain midpoint (mkPoint ((x1 + x2) / 2) ((y1 + y2) / 2)) entity]
      else [])
  ++ (if m_perpendicular modes then
        match referencePoint with
        | Some ref =>
            match perpendicularPointOnInfiniteLine ref (mkPoint x1 y1)
                                                   (mkPoint x2 y2) with
            | Some perp =>
                [mkCandidate
                   (mkSnap perpendicular (mkPoint (fx perp) (fy perp)) entity)
                   (Some (if Rlt_dec (ft perp) 0 then true
                          else if Rlt_dec 1 (ft perp) then true else false))]
            | None => []
            end
        | None => []
        end
      else [])
  ++ (if m_nearest modes
      then [plain nearest
                  (nearestPointOnLine cursorPos (mkPoint x1 y1) (mkPoint x2 y2))
                  entity]
      else []).

Definition getCircleSnaps (modes : SnapModes) (entity : OEntity)
           (cx cy radius : R) (cursorPos : Point) : list Candidate :=
  (if m_center modes then [plain center (mkPoint cx cy) entity] else [])
  ++ (if m_quadrant modes
      then [plain quadrant (mkPoint (cx + radius) cy) entity;
            plain quadrant (mkPoint cx (cy + radius)) entity;
            plain quadrant (mkPoint (cx - radius) cy) entity;
            plain quadrant (mkPoint cx (cy - radius)) entity]
      else [])
  ++ (if m_nearest modes then
        let dx := px cursorPos - cx in
        let dy := py cursorPos - cy in
        let dist := sqrt (dx * dx + dy * dy) in
        if Rlt_dec 0 dist
        then [plain nearest
                    (mkPoint (cx + (dx / dist) * radius)
                             (cy + (dy / dist) * radius))
                    entity]
        else []
      else []).

Definition getArcSnaps (modes : SnapModes) (entity : OEntity)
           (cx cy radius startAngle endAngle : R) : list Candidate :=
  (if m_center modes then [plain center (mkPoint cx cy) entity] else [])
  ++ (if m_endpoint modes then
        let startRad := startAngle * PI / 180 in
        let endRad := endAngle * PI / 180 in
        [plain endpoint
               (mkPoint (cx + radius * cos startRad) (cy + radius * sin startRad))
               entity;
         plain endpoint
               (mkPoint (cx + radius * cos endRad) (cy + radius * sin endRad))
               entity]
      else [])
  ++ (if m_midpoint modes then
        let midAngle :=
          if Rlt_dec endAngle startAngle
          then jsRem ((startAngle + endAngle + 360) / 2) 360
          else (startAngle + endAngle) / 2 in
        let midRad := midAngle * PI / 180 in
        [plain midpoint
               (mkPoint (cx + radius * cos midRad) (cy + radius * sin midRad))
               entity]
      else []).

(** The body of the loop of [getPolylineSnaps] at index [i]. *)
Definition polylineSnapsAt (modes : SnapModes) (entity : OEntity)
           (vertices : list Point) (cursorPos : Point) (i : nat)
  : list Candidate :=
  let v := nth i vertices (mkPoint 0 0) in
  (if m_endpoint modes then [plain endpoint (mkPoint (px v) (py v)) entity]
   else [])
  ++ (if (i <? List.length vertices - 1)%nat then
        let v2 := nth (i + 1) vertices (mkPoint 0 0) in
        (if m_midpoint modes
         then [plain midpoint
                     (mkPoint ((px v + px v2) / 2) ((py v + py v2) / 2)) entity]
         else [])
        ++ (if m_nearest modes
            then [plain nearest
                        (nearestPointOnLine cursorPos (mkPoint (px v) (py v))
                                            (mkPoint (px v2) (py v2)))
                        entity]
            else [])
      else []).

Definition getPolylineSnaps (modes : SnapModes) (entity : OEntity)
           (vertices : option (list Point)) (cursorPos : Point)
  : list Candidate :=
  match vertices with
  | None => []
  | Some vs =>
      flat_map (polylineSnapsAt modes entity vs cursorPos)
               (seq 0 (List.length vs))
  end.

Definition getEntitySnapPoints (modes : SnapModes) (entity : OEntity)
           (cursorPos : Point) (referencePoint : option Point)
  : list Candidate :=
  match entity with
  | OLine x1 y1 x2 y2 =>
      getLineSnaps modes entity x1 y1 x2 y2 cursorPos referencePoint
  | OCircle cx cy radius => getCircleSnaps modes entity cx cy radius cursorPos
  | OArc cx cy radius startAngle endAngle =>
      getArcSnaps modes entity cx cy radius startAngle endAngle
  | OPolyline vertices => getPolylineSnaps modes entity vertices cursorPos
  | OPoint x y =>
      if m_node modes then [plain node (mkPoint x y) entity] else []
  | OOther _ => []
  end.

(** [findSnapPoint] of a system with the snap modes [modes]. *)
Definition osnapFind (modes : SnapModes) (layerHidden : OEntity -> bool)
           (worldToScreen : R -> R -> Point) (snapTolerance : R)
           (worldPos : Point) (entities : list OEntity)
           (referencePoint : option Point) : option (SnapPoint OEntity) :=
  findSnapPoint layerHidden
                (fun entity cursorPos ref =>
                   map csnap (getEntitySnapPoints modes entity cursorPos ref))
                worldToScreen snapTolerance worldPos entities referencePoint.

(** ** Where a candidate lies *)

(** [q] lies on the segment from [a] to [b], at the parameter [t]. *)
Definition onSegment (a b q : Point) : Prop :=
  exists t, 0 <= t <= 1
            /\ q = mkPoint (px a + t * (px b - px a)) (py a + t * (py b - py a)).

(** [q] lies on the line through [a] and [b]. *)
Definition onLine (a b q : Point) : Prop :=
  exists t, q = mkPoint (px a + t * (px b - px a)) (py a + t * (py b - py a)).

(** [q] lies on the circle of centre [(cx, cy)] and radius [r]. *)
Definition onCircleAt (cx cy r : R) (q : Point) : Prop :=
  (px q - cx) * (px q - cx) + (py q - cy) * (py q - cy) = r * r.

(** [q] lies on a segment between consecutive vertices. *)
Definition onPolyline (vertices : list Point) (q : Point) : Prop :=
  (exists v, In v vertices /\ q = v)
  \/ exists i, (i + 1 < List.length vertices)%nat
               /\ onSegment (nth i vertices (mkPoint 0 0))
                            (nth (i + 1) vertices (mkPoint 0 0)) q.

(** The geometry a candidate of type [t] on [entity] is expected on. *)
Definition liesOn (entity : OEntity) (t : SnapType) (q : Point) : Prop :=
  match entity with
  | OLine x1 y1 x2 y2 =>
      match t with
      | perpendicular => onLine (mkPoint x1 y1) (mkPoint x2 y2) q
      | _ => onSegment (mkPoint x1 y1) (mkPoint x2 y2) q
      end
  | OCircle cx cy radius =>
      match t with
      | center => q = mkPoint cx cy
      | _ => onCircleAt cx cy radius q
      end
  | OArc cx cy radius _ _ =>
      match t with
      | center => q = mkPoint cx cy
      | _ => onCircleAt cx cy radius q
      end
  | OPolyline vertices =>
      match vertices with
      | Some vs => onPolyline vs q
      | None => False
      end
  | OPoint x y => q = mkPoint x y
  | OOther _ => False
  end.

Definition distance (p q : Point) : R :=
  Math_hypot (px p - px q) (py p - py q).

End SnapPoints.

(* ================================================================== *)
(** * Distances used for picking ([app.js]) *)
(* ================================================================== *)

Module HitTest.

Import Geom.
Local Open Scope R_scope.

(** [pointToSegmentDistance(p, v, w)]; [x ** 2] is [x * x]. *)
Definition pointToSegmentDistance (p v w : Point) : R :=
  let l2 := (px w - px v) * (px w - px v) + (py w - py v) * (py w - py v) in
  if Req_dec_T l2 0 then Math_hypot (px p - px v) (py p - py v)
  else
    let t := ((px p - px v) * (px w - px v) + (py p - py v) * (py w - py v)) / l2 in
    let t := Rmax 0 (Rmin 1 t) in
    Math_hypot (px p - (px v + t * (px w - px v)))
               (py p - (py v + t * (py w - py v))).

(** A LINE entity as [pointToLineDistance] reads it. *)
Record Line : Type := mkLine { lx1 : R; ly1 : R; lx2 : R; ly2 : R }.

(** [pointToLineDistance(point, line)]; [Math.pow(x, 2)] is [x * x]. *)
Definition pointToLineDistance (point : Point) (line : Line) : R :=
  let dx := lx2 line - lx1 line in
  let dy := ly2 line - ly1 line in
  let len := sqrt (dx * dx + dy * dy) in
  if Req_dec_T len 0
  then sqrt ((px point - lx1 line) * (px point - lx1 line)
             + (py point - ly1 line) * (py point - ly1 line))
  else
    let t := Rmax 0 (Rmin 1 (((px point - lx1 line) * dx
                              + (py point - ly1 line) * dy) / (len * len))) in
    let projX := lx1 line + t * dx in
    let projY := ly1 line + t * dy in
    sqrt ((px point - projX) * (px point - projX)
          + (py point - projY) * (py point - projY)).

End HitTest.

(* ================================================================== *)
(** * Areas and arcs of the weight calculation ([weight-manager.js]) *)
(* ================================================================== *)

Module Weight.

Import Geom Area.
Local Open Scope R_scope.

(** [Math.sign]. *)
Definition Math_sign (x : R) : R :=
  if Rlt_dec 0 x then 1 else if Rlt_dec x 0 then -1 else 0.

(** ** [calculateChainArea] and [calculateSingleArea] *)

(** The vertices are [{x, y, bulge}] objects; [Area.Vertex] carries these
    three properties (and two more the code here does not read). *)

(** First loop: [chord2 += v[i].x * v[j].y - v[j].x * v[i].y]. *)
Definition chord2Of (v : list Vertex) : R :=
  let n := List.length v in
  fold_left
    (fun chord2 i =>
       let j := ((i + 1) mod n)%nat in
       chord2 + (vx (nth i v dummyVertex) * vy (nth j v dummyVertex)
                 - vx (nth j v dummyVertex) * vy (nth i v dummyVertex)))
    (seq 0 n) 0.

(** What one trip of the second loop adds to [corr]; the two [continue]
    add nothing. *)
Definition bulgeCorrection (p1 p2 : Vertex) : R :=
  let b := bulgeOr0 p1 in
  if Req_dec_T b 0 then 0
  else
    let dx := vx p2 - vx p1 in
    let dy := vy p2 - vy p1 in
    let c := Math_hypot dx dy in
    if Req_dec_T c 0 then 0
    else
      let absBulge := Rabs b in
      let theta := 4 * atan absBulge in
      let radius := c / (2 * sin (theta / 2)) in
      let segmentArea := (radius * radius / 2) * (theta - sin theta) in
      Math_sign b * segmentArea.

Definition corrOf (v : list Vertex) : R :=
  let n := List.length v in
  fold_left
    (fun corr i =>
       let j := ((i + 1) mod n)%nat in
       corr + bulgeCorrection (nth i v dummyVertex) (nth j v dummyVertex))
    (seq 0 n) 0.

Definition calculateChainArea (vertices : list Vertex) : R :=
  if (List.length vertices <? 3)%nat then 0
  else Rabs (chord2Of vertices / 2 + corrOf vertices).

(** A selected object, by [userData.type], with the [entity] properties
    the area code reads. *)
Inductive WObject : Type :=
| WCircle (radius : R)
| WPolyline (vertices : option (list Vertex))
| WOther (type : string).

Definition calculateSingleArea (obj : WObject) : R :=
  match obj with
  | WCircle radius => PI * radius * radius
  | WPolyline (Some v) =>
      if (0 <? List.length v)%nat
      then Rabs (chord2Of v / 2 + corrOf v)
      else 0
  | WPolyline None => 0
  | WOther _ => 0
  end.

(** An entry of [filterClosedGeometries]. *)
Inductive GeomEntry : Type :=
| GSingle (obj : WObject)
| GChain (vertices : list Vertex)
| GOther (type : string).

Definition calculateArea (geomEntry : GeomEntry) : R :=
  match geomEntry with
  | GSingle obj => calculateSingleArea obj
  | GChain vertices => calculateChainArea vertices
  | GOther _ => 0
  end.

(** ** [estimateBulge] *)

(** The angles of an ARC entity, in degrees; [None] is [undefined] or
    [null]. *)
Definition estimateBulge (startAngle endAngle : option R) : R :=
  match startAngle, endAngle with
  | Some s, Some e =>
      let startAng := s * PI / 180 in
      let endAng := e * PI / 180 in
      let theta := endAng - startAng in
      let theta := if Rlt_dec theta 0 then theta + 2 * PI else theta in
      tan (theta / 4)
  | _, _ => 0
  end.

(** ** [getBulgePoints] *)

(** [Math.max(16, Math.ceil(x))] as a count. *)
Definition stepsFor (x : R) : nat := Z.to_nat (Z.max 16 (Zceil x)).

(** The centre and the radius [getBulgePoints] computes. *)
Definition bulgeCentre (v1 v2 : Point) (bulge : R) : Point :=
  let dx := px v2 - px v1 in
  let dy := py v2 - py v1 in
  let dist := Math_hypot dx dy in
  let mx := (px v1 + px v2) * 0.5 in
  let my := (py v1 + py v2) * 0.5 in
  let nx := - dy / dist in
  let ny := dx / dist in
  let off := dist * (1 - bulge * bulge) / (4 * bulge) in
  mkPoint (mx + nx * off) (my + ny * off).

Definition bulgeRadius (v1 v2 : Point) (bulge : R) : R :=
  let dist := Math_hypot (px v2 - px v1) (py v2 - py v1) in
  dist * (1 + bulge * bulge) / (4 * Rabs bulge).

Definition getBulgePoints (v1 v2 : Point) (bulge : R) : list Point :=
  let dx := px v2 - px v1 in
  let dy := py v2 - py v1 in
  let dist := Math_hypot dx dy in
  if Req_dec_T dist 0 then [mkPoint (px v1) (py v1)]
  else
    let theta := 4 * atan bulge in
    let c := bulgeCentre v1 v2 bulge in
    let r := bulgeRadius v1 v2 bulge in
    let startAng := Math_atan2 (py v1 - py c) (px v1 - px c) in
    let steps := stepsFor (Rabs theta * r / 6) in
    map (fun i =>
           let t := INR i / INR steps in
           let ang := startAng + theta * t in
           mkPoint (px c + r * cos ang) (py c + r * sin ang))
        (seq 0 (steps + 1)).

End Weight.

(* ================================================================== *)
(** * Colour channels of the palette ([dxf-parser.js]) *)
(* ================================================================== *)

Module PaletteRange.

Import Palette.
Local Open Scope Z_scope.

(** A colour channel a canvas accepts as it is. *)
Definition channel (c : Z) : bool := (0 <=? c) && (c <=? 255).

(** A triple of channels. *)
Definition validRgb (c : JsRgb) : bool :=
  match c with
  | Rgb r g b => channel r && channel g && channel b
  | _ => false
  end.

End PaletteRange.

(* ================================================================== *)
(** * Chains of segments and edges *)
(* ================================================================== *)

Module Chains.

Import Geom Area Loops.

Section SegmentChains.

Variable P : Type.
Variable matches : P -> P -> bool.

(** Every segment starts where the one before it ends, as [matches]
    sees it. *)
Fixpoint linked (segs : list (Segment P)) : Prop :=
  match segs with
  | a :: (b :: _) as rest => matches (sp2 a) (sp1 b) = true /\ linked rest
  | _ => True
  end.

(** A chain that comes back to its start. *)
Definition closedChain (segs : list (Segment P)) : Prop :=
  match segs with
  | [] => False
  | first :: _ =>
      linked segs /\ matches (sp2 (last segs first)) (sp1 first) = true
  end.

(** [seg] is the segment at index [j], as it is or reversed. *)
Definition fromSegment (segments : list (Segment P)) (seg : Segment P)
           (j : nat) : Prop :=
  nth_error segments j = Some seg
  \/ exists s, nth_error segments j = Some s /\ seg = reverseSegment s.

End SegmentChains.

End Chains.

(* ================================================================== *)
(** * Closed boundary paths *)
(* ================================================================== *)

Module HatchPath.

Import Geom Hatch.
Local Open Scope R_scope.

(** Edge [b] starts no further than [tol] from where edge [a] ends. *)
Definition joined (tol : R) (a b : Edge) : Prop :=
  dist (ex1 b) (ey1 b) (ex2 a) (ey2 a) <= tol.

Fixpoint linkedWithin (tol : R) (path : list Edge) : Prop :=
  match path with
  | a :: (b :: _) as rest => joined tol a b /\ linkedWithin tol rest
  | _ => True
  end.

(** A path whose consecutive edges are joined, the first one to the last
    one as well. *)
Definition closedWithin (tol : R) (path : list Edge) : Prop :=
  match path with
  | [] => False
  | first :: _ => linkedWithin tol path /\ joined tol (last path first) first
  end.

(** What the [while] loop keeps: the path is linked within the tolerance
    and [current] is its last edge. *)
Definition stitched (tol : R) (s : Stitch) : Prop :=
  path s <> [] /\ linkedWithin tol (path s)
  /\ last (path s) (current s) = current s.

(** The tolerance [resolveEdgeLoop] works with: a ten-thousandth of the
    diagonal of [computeBBox], not below 1e-4.  A polyline loop is built
    from shared vertices and needs none. *)
Definition loopTolerance (loop : HatchLoop) : R :=
  match loop with
  | PolylineLoop _ => 0
  | EdgeLoop rawEdges =>
      match normalizeAll rawEdges with
      | Some edges => Rmax (computeBBox edges * 1e-4) 1e-4
      | None => 0
      end
  end.

End HatchPath.

Module HatchArea.

Import Geom Area Hatch.
Local Open Scope R_scope.

(** A polyline-loop vertex read as a vertex of the area code. *)
Definition toVertex (v : HVertex) : Vertex :=
  mkVertex (hx v) (hy v) (hbulge v) None None.

(** The body of the loop of [resolvePolylineLoop] on a vertex and its
    successor: an ARC when the bulge is a number other than zero, a LINE
    otherwise. *)
Definition edgeOfPair (p : Vertex * Vertex) : Edge :=
  if Req_dec_T (bulgeOr0 (fst p)) 0
  then LINE (vx (fst p)) (vy (fst p)) (vx (snd p)) (vy (snd p))
  else Hatch.bulgeToArc (vpoint (fst p)) (vpoint (snd p)) (bulgeOr0 (fst p)).

End HatchArea.

(* ================================================================== *)
(** * Walks over connected entities *)
(* ================================================================== *)

Module Components.

Import Loops.

(** Entity [k] is reached from entity [start] by a walk along the
    adjacency lists of [findConnectedLoops]. *)
Inductive reach (entityList : list Entity) (start : nat) : nat -> Prop :=
| reach_start : reach entityList start start
| reach_step (c k : nat) :
    reach entityList start c -> In k (neighbours entityList c) ->
    reach entityList start k.

Section Traversal.

Variable entityList : list Entity.

(** What the [while (stack.length > 0)] loop keeps while it collects the
    component of [ent], started with the entities of [visited0] visited. *)
Definition walking (visited0 : list nat) (ent : nat)
           (stack visited component : list nat) : Prop :=
  NoDup (component ++ stack)
  /\ (forall k, In k (component ++ stack) ->
        (k < List.length entityList)%nat /\ has visited0 k = false
        /\ reach entityList ent k)
  /\ (forall k, has visited k = true
                <-> has visited0 k = true \/ In k (component ++ stack))
  /\ (forall c j, In c component -> In j (neighbours entityList c) ->
                  has visited j = true).

(** The set [visited] between two components is closed under the
    adjacency lists. *)
Definition settled (visited : list nat) : Prop :=
  forall v j, has visited v = true -> In j (neighbours entityList v) ->
              has visited j = true.

(** A component: closed under the adjacency lists, and every member is
    reached from one of them. *)
Definition component_ok (comp : list nat) : Prop :=
  (forall a b, In a comp -> In b (neighbours entityList a) -> In b comp)
  /\ exists start, In start comp
                   /\ forall k, In k comp -> reach entityList start k.

End Traversal.

End Components.

(* ================================================================== *)
(** * Lines and line endings *)
(* ================================================================== *)

Module Lines.

Import Parser.
Local Open Scope string_scope.

(** A line holds neither a carriage return nor a line feed. *)
Fixpoint plainLine (s : string) : bool :=
  match s with
  | EmptyString => true
  | String c rest =>
      negb (Ascii.eqb c CR) && negb (Ascii.eqb c LF) && plainLine rest
  end.

(** A string without a line feed has no CR LF pair to replace. *)
Fixpoint noLF (s : string) : bool :=
  match s with
  | EmptyString => true
  | String c rest => negb (Ascii.eqb c LF) && noLF rest
  end.

(** The three line endings. *)
Definition unixEnd : string := String LF EmptyString.
Definition dosEnd : string := String CR (String LF EmptyString).
Definition macEnd : string := String CR EmptyString.

End Lines.

(* ================================================================== *)
(** * A half circle *)
(* ================================================================== *)

Module ArcExamples.

Import Geom Loops.
Local Open Scope R_scope.

(** The upper half of the unit circle, as an ARC entity and as the
    segment [decomposeEntity] makes of it. *)
Definition halfTurnArc : Entity := ArcEnt 0 0 1 0 180 None None.

Definition halfTurnSegment : Segment Point :=
  let start := 0 * (PI / 180) in
  let end_ := 180 * (PI / 180) in
  let sweep := Hatch.normalizeCCW (end_ - start) in
  mkSegment (mkPoint (0 + 1 * cos start) (0 + 1 * sin start))
            (mkPoint (0 + 1 * cos end_) (0 + 1 * sin end_))
            (tan (sweep / 4)) (Some 1) (Some sweep).

End ArcExamples.

(* ================================================================== *)
(** * Picking a hatch: [isPointInHatch] ([app.js]) *)
(* ================================================================== *)

Module HatchHit.

Import Geom Hatch.
Local Open Scope R_scope.

(** [while (a < 0) a += Math.PI * 2] and
    [while (a >= Math.PI * 2) a -= Math.PI * 2], on fuel. *)
Fixpoint addWhileNeg (fuel : nat) (a : R) : R :=
  match fuel with
  | O => a
  | S f => if Rlt_dec a 0 then addWhileNeg f (a + PI * 2) else a
  end.

Fixpoint subWhileTurn (fuel : nat) (a : R) : R :=
  match fuel with
  | O => a
  | S f => if Rle_dec (PI * 2) a then subWhileTurn f (a - PI * 2) else a
  end.

(** The two loops in a row, as they stand for [sA] and for [eA]; the
    fuel of each is the number of its trips. *)
Definition normalizeAngle (a : R) : R :=
  let a1 := addWhileNeg (tripsUp a) a in
  subWhileTurn (tripsUp (- a1)) a1.

(** The triangle (0,0), (0,1), (1,0) as a polyline loop. *)
Definition triangleLoop : HatchLoop :=
  PolylineLoop [mkHVertex 0 0 None; mkHVertex 0 1 None; mkHVertex 1 0 None].

(** The crossing test of a LINE segment with the ray to the right of
    the point: [true] when [inside] is flipped. *)
Definition lineCrosses (ptx pty x1 y1 x2 y2 : R) : bool :=
  let above1 := if Rgt_dec y1 pty then true else false in
  let above2 := if Rgt_dec y2 pty then true else false in
  let isBetweenY := negb (Bool.eqb above1 above2) in
  if isBetweenY then
    let intersectX := x1 + (pty - y1) * (x2 - x1) / (y2 - y1) in
    if Rgt_dec intersectX ptx then true else false
  else false.

(** The test of one candidate abscissa on the circle of an ARC. *)
Definition arcCandidateCrosses (ptx pty cx cy startAngle endAngle : R)
           (ccw : bool) (cx_cand : R) : bool :=
  if Rgt_dec cx_cand ptx then
    let angle := Math_atan2 (pty - cy) (cx_cand - cx) in
    let angle := if Rlt_dec angle 0 then angle + PI * 2 else angle in
    let sA := normalizeAngle startAngle in
    let eA := normalizeAngle endAngle in
    if ccw then
      if Rle_dec sA eA
      then (if Rge_dec angle sA then true else false)
           && (if Rle_dec angle eA then true else false)
      else (if Rge_dec angle sA then true else false)
           || (if Rle_dec angle eA then true else false)
    else
      if Rge_dec sA eA
      then (if Rle_dec angle sA then true else false)
           && (if Rge_dec angle eA then true else false)
      else (if Rle_dec angle sA then true else false)
           || (if Rge_dec angle eA then true else false)
  else false.

(** One segment of a resolved path: the value of [inside] after it. *)
Definition segmentStep (point : Point) (inside : bool) (seg : Edge) : bool :=
  match seg with
  | LINE x1 y1 x2 y2 =>
      xorb inside (lineCrosses (px point) (py point) x1 y1 x2 y2)
  | ARC cx cy radius startAngle endAngle ccw _ _ _ _ =>
      let dy := py point - cy in
      if Rle_dec (Rabs dy) radius then
        let dx := sqrt (radius * radius - dy * dy) in
        fold_left
          (fun inside cx_cand =>
             xorb inside
                  (arcCandidateCrosses (px point) (py point) cx cy
                                       startAngle endAngle ccw cx_cand))
          [cx - dx; cx + dx] inside
      else inside
  end.

(** The loops in turn; a loop that does not resolve is skipped, one on
    which the resolver throws ends the call ([None]). *)
Fixpoint loopsStep (point : Point) (loops : list HatchLoop) (inside : bool)
  : option bool :=
  match loops with
  | [] => Some inside
  | loop :: rest =>
      match resolveLoop loop with
      | Ok path => loopsStep point rest (fold_left (segmentStep point) path inside)
      | Fail _ => loopsStep point rest inside
      | Throws => None
      | OutOfFuel => None
      end
  end.

(** [isPointInHatch(point, hatch)] on the loops of the hatch, a missing
    list as the empty one. *)
Definition isPointInHatch (point : Point) (loops : list HatchLoop) : option bool :=
  match loops with
  | [] => Some false
  | _ => loopsStep point loops false
  end.

(** The segment is nowhere on the ray to the right of the point: a LINE
    with both ends not to the right of it, not above it, or above it; an
    ARC whose circle stays to the left of it or misses its height. *)
Definition clearOf (point : Point) (seg : Edge) : Prop :=
  match seg with
  | LINE x1 y1 x2 y2 =>
      (x1 <= px point /\ x2 <= px point)
      \/ (y1 <= py point /\ y2 <= py point)
      \/ (py point < y1 /\ py point < y2)
  | ARC cx cy radius _ _ _ _ _ _ _ =>
      cx + radius <= px point \/ radius < Rabs (py point - cy)
  end.

End HatchHit.

(* ================================================================== *)
(** * Chains of the weight calculation ([weight-manager.js]) *)
(* ================================================================== *)

Module WeightChains.

Import Geom Area Weight.
Local Open Scope R_scope.

(** A selected object as [extractSegment] reads it: [userData.type] and
    the properties of [userData.entity]; [None] is a missing property. *)
Inductive SceneObject : Type :=
| SLine (startPoint endPoint : option Point)
| SArc (center : option Point) (radius : option R)
       (startAngle endAngle : option R)
| SOther.

(** A segment [{object, p1, p2, bulge}]; the object is told by its place
    in the list of objects. *)
Record WSegment : Type := mkWSegment {
  wobject : nat;
  wp1 : Point;
  wp2 : Point;
  wbulge : R
}.

(** [a.distanceTo(b)] of a [THREE.Vector2]. *)
Definition distanceTo (a b : Point) : R :=
  sqrt ((px a - px b) * (px a - px b) + (py a - py b) * (py a - py b)).

(** [x || 0] on a number that may be missing. *)
Definition orZero (x : option R) : R :=
  match x with Some v => v | None => 0 end.

(** [extractSegment(obj)]; [None] is [null]. *)
Definition extractSegment (object : nat) (obj : SceneObject) : option WSegment :=
  match obj with
  | SLine (Some s) (Some e) =>
      Some (mkWSegment object (mkPoint (px s) (py s)) (mkPoint (px e) (py e)) 0)
  | SLine _ _ => None
  | SArc (Some c) (Some r) startAngle endAngle =>
      let startRad := orZero startAngle * PI / 180 in
      let endRad := orZero endAngle * PI / 180 in
      let p1 := mkPoint (px c + r * cos startRad) (py c + r * sin startRad) in
      let p2 := mkPoint (px c + r * cos endRad) (py c + r * sin endRad) in
      Some (mkWSegment object p1 p2 (estimateBulge startAngle endAngle))
  | SArc _ _ _ _ => None
  | SOther => None
  end.

(** The first loop of [findAllChains] and of [analyzeChain]. *)
Fixpoint extractFrom (i : nat) (objects : list SceneObject) : list WSegment :=
  match objects with
  | [] => []
  | obj :: rest =>
      match extractSegment i obj with
      | Some seg => seg :: extractFrom (S i) rest
      | None => extractFrom (S i) rest
      end
  end.

Definition extractSegments (objects : list SceneObject) : list WSegment :=
  extractFrom 0 objects.

(** The segment pushed for a match at its far end. *)
Definition flipped (seg : WSegment) : WSegment :=
  mkWSegment (wobject seg) (wp2 seg) (wp1 seg)
             (if Req_dec_T (wbulge seg) 0 then 0 else - wbulge seg).

(** [bestIdx] ([None] is -1), [bestDist] and [bestFlip]. *)
Record BestMatch : Type := mkBestMatch {
  bestIdx : option nat;
  bestDist : R;
  bestFlip : bool
}.

(** The [for] loop of [buildChainFromSegment] from index [i] on. *)
Fixpoint scanBest (segs : list WSegment) (i : nat) (used : list nat)
         (currentEnd : Point) (b : BestMatch) : BestMatch :=
  match segs with
  | [] => b
  | seg :: rest =>
      if Loops.has used i then scanBest rest (S i) used currentEnd b
      else
        let dist1 := distanceTo currentEnd (wp1 seg) in
        let dist2 := distanceTo currentEnd (wp2 seg) in
        let b1 := if Rlt_dec dist1 (bestDist b)
                  then mkBestMatch (Some i) dist1 false else b in
        let b2 := if Rlt_dec dist2 (bestDist b1)
                  then mkBestMatch (Some i) dist2 true else b1 in
        scanBest rest (S i) used currentEnd b2
  end.

(** [while (found && ordered.length < allSegments.length)], at most
    [fuel] trips. *)
Fixpoint growOrdered (fuel : nat) (allSegments : list WSegment) (tolerance : R)
         (used : list nat) (ordered : list WSegment) (currentEnd : Point)
  : list WSegment * list nat :=
  match fuel with
  | O => (ordered, used)
  | S f =>
      if (List.length ordered <? List.length allSegments)%nat then
        let b := scanBest allSegments 0 used currentEnd
                          (mkBestMatch None tolerance false) in
        match bestIdx b with
        | Some idx =>
            match nth_error allSegments idx with
            | Some seg =>
                let pushed := if bestFlip b then flipped seg else seg in
                growOrdered f allSegments tolerance (idx :: used)
                            (ordered ++ [pushed]) (wp2 pushed)
            | None => (ordered, used)
            end
        | None => (ordered, used)
        end
      else (ordered, used)
  end.

(** What [buildChainFromSegment] returns, with the segments marked used
    when it returns. *)
Record Built : Type := mkBuilt {
  closed : bool;
  orderedSegments : list WSegment;
  usedAfter : list nat
}.

Definition buildChainFromSegment (allSegments : list WSegment) (used : list nat)
           (startIdx : nat) (tolerance : R) : option Built :=
  match nth_error allSegments startIdx with
  | None => None
  | Some segment =>
      let '(ordered, used') :=
        growOrdered (List.length allSegments) allSegments tolerance
                    (startIdx :: used) [segment] (wp2 segment) in
      if (List.length ordered <? 3)%nat then Some (mkBuilt false ordered used')
      else
        let start := wp1 (hd segment ordered) in
        let end_ := wp2 (last ordered segment) in
        Some (mkBuilt (if Rlt_dec (distanceTo start end_) tolerance
                       then true else false)
                      ordered used')
  end.

(** [allSegments.findIndex(s => !s.used)]. *)
Fixpoint firstUnused (i n : nat) (used : list nat) : option nat :=
  match n with
  | O => None
  | S m => if Loops.has used i then firstUnused (S i) m used else Some i
  end.

(** [allSegments.findIndex(s => s.object === seg.object)]. *)
Fixpoint indexOfObject (segs : list WSegment) (i : nat) (object : nat)
  : option nat :=
  match segs with
  | [] => None
  | s :: rest =>
      if Nat.eqb (wobject s) object then Some i
      else indexOfObject rest (S i) object
  end.

(** The marking of the segments of a chain that is not closed. *)
Fixpoint markUsed (allSegments : list WSegment) (ordered : list WSegment)
         (used : list nat) : list nat :=
  match ordered with
  | [] => used
  | seg :: rest =>
      match indexOfObject allSegments 0 (wobject seg) with
      | Some idx => markUsed allSegments rest (idx :: used)
      | None => markUsed allSegments rest used
      end
  end.

(** [while (allSegments.some(s => !s.used))], at most [fuel] trips: the
    closed chains found, in order, and the segments used at the end. *)
Fixpoint chainsLoop (fuel : nat) (allSegments : list WSegment) (tolerance : R)
         (used : list nat) (results : list (list WSegment))
  : list (list WSegment) * list nat :=
  match fuel with
  | O => (results, used)
  | S f =>
      match firstUnused 0 (List.length allSegments) used with
      | None => (results, used)
      | Some startIdx =>
          match buildChainFromSegment allSegments used startIdx tolerance with
          | Some chain =>
              if closed chain
              then chainsLoop f allSegments tolerance (usedAfter chain)
                              (results ++ [orderedSegments chain])
              else chainsLoop f allSegments tolerance
                              (markUsed allSegments (orderedSegments chain)
                                        (usedAfter chain))
                              results
          | None => (results, used)
          end
      end
  end.

(** A result [{type: 'chain', objects, vertices}]. *)
Record ChainResult : Type := mkChainResult {
  objects : list nat;
  vertices : list Vertex
}.

Definition chainResult (ordered : list WSegment) : ChainResult :=
  mkChainResult (map wobject ordered)
                (map (fun seg => mkVertex (px (wp1 seg)) (py (wp1 seg))
                                          (Some (wbulge seg)) None None)
                     ordered).

(** The closed chains of [findAllChains], as ordered segments. *)
Definition closedChains (objs : list SceneObject) : list (list WSegment) :=
  let allSegments := extractSegments objs in
  fst (chainsLoop (List.length allSegments) allSegments 2.0 [] []).

Definition findAllChains (objs : list SceneObject) : list ChainResult :=
  map chainResult (closedChains objs).

Definition dummyWSegment : WSegment :=
  mkWSegment 0 (mkPoint 0 0) (mkPoint 0 0) 0.

(** Three lines around the triangle (0,0), (1,0), (0,1). *)
Definition triangleObjects : list SceneObject :=
  [SLine (Some (mkPoint 0 0)) (Some (mkPoint 1 0));
   SLine (Some (mkPoint 1 0)) (Some (mkPoint 0 1));
   SLine (Some (mkPoint 0 1)) (Some (mkPoint 0 0))].

(** ** Vocabulary *)

(** Every segment starts closer than [tolerance] to the end of the one
    before it. *)
Fixpoint linkedChain (tolerance : R) (l : list WSegment) : Prop :=
  match l with
  | a :: (b :: _) as rest =>
      distanceTo (wp2 a) (wp1 b) < tolerance /\ linkedChain tolerance rest
  | _ => True
  end.

(** [seg] is the segment at index [j], as it is or flipped. *)
Definition fromIndex (allSegments : list WSegment) (seg : WSegment) (j : nat)
  : Prop :=
  exists s, nth_error allSegments j = Some s /\ (seg = s \/ seg = flipped s).

(** A chain built over the indices [js]. *)
Definition chainOver (allSegments : list WSegment) (tolerance : R)
           (ordered : list WSegment) (js : list nat) : Prop :=
  Forall2 (fromIndex allSegments) ordered js
  /\ linkedChain tolerance ordered.

(** The match the scan holds: an unused segment with an end closer
    than the tolerance to the current end, [bestDist] being that
    distance. *)
Definition goodMatch (allSegments : list WSegment) (tolerance : R)
           (used : list nat) (currentEnd : Point) (b : BestMatch) : Prop :=
  bestDist b <= tolerance
  /\ forall j, bestIdx b = Some j ->
       Loops.has used j = false
       /\ exists s, nth_error allSegments j = Some s
            /\ bestDist b
               = distanceTo currentEnd (if bestFlip b then wp2 s else wp1 s)
            /\ bestDist b < tolerance.

(** A closed chain of the result: at least three segments, linked, the
    last one ending closer than the tolerance to the start of the first. *)
Definition closedOver (allSegments : list WSegment) (tolerance : R)
           (ordered : list WSegment) (js : list nat) : Prop :=
  chainOver allSegments tolerance ordered js
  /\ (3 <= List.length ordered)%nat
  /\ forall d, distanceTo (wp1 (hd d ordered)) (wp2 (last ordered d)) < tolerance.

(** What the [while] loop of [buildChainFromSegment] keeps, started with
    the segments of [used0] used. *)
Definition building (allSegments : list WSegment) (tolerance : R)
           (used0 : list nat) (d : WSegment)
           (used : list nat) (ordered : list WSegment)
           (currentEnd : Point) (js : list nat) : Prop :=
  ordered <> []
  /\ currentEnd = wp2 (last ordered d)
  /\ chainOver allSegments tolerance ordered js
  /\ NoDup js
  /\ (forall k, Loops.has used k = true
                <-> Loops.has used0 k = true \/ In k js)
  /\ (forall j, In j js -> Loops.has used0 j = false).

(** What the [while] loop of [findAllChains] keeps: the chains found so
    far are closed chains over indices that are all different and all
    used. *)
Definition collected (allSegments : list WSegment) (tolerance : R)
           (used : list nat) (results : list (list WSegment)) : Prop :=
  exists jss,
    Forall2 (closedOver allSegments tolerance) results jss
    /\ NoDup (List.concat jss)
    /\ forall j, In j (List.concat jss) -> Loops.has used j = true.

(** Segments not yet used among the first [n]. *)
Definition unusedCount (n : nat) (used : list nat) : nat :=
  List.length (filter (fun i => negb (Loops.has used i)) (seq 0 n)).

End WeightChains.

(* ================================================================== *)
(** * The layer table *)
(* ================================================================== *)

Module ParserLayers.

Import Parser.
Local Open Scope string_scope.

Section WithEntities.

Variable Num : Type.
Variable Entity : Type.

(** A layer as the table keeps it: a name that is not empty, and a
    colour that is a number not below zero or not a number at all. *)
Definition layerValid (l : Layer) : Prop :=
  truthy (layerName l) = true
  /\ match layerColor l with Some c => (0 <= c)%Z | None => True end.

(** The colour of a layer under construction. *)
Definition colourValid (layer : Layer) : Prop :=
  match layerColor layer with Some c => (0 <= c)%Z | None => True end.

(** The layer map of an instance: every layer under its own name, all
    valid, no name twice. *)
Definition layersValid (st : State Num Entity) : Prop :=
  Forall (fun kv => layerName (snd kv) = Some (fst kv) /\ layerValid (snd kv))
         (layers st)
  /\ NoDup (map fst (layers st)).

End WithEntities.

(** A file with one layer, of colour -3. *)
Definition sampleLayers : string :=
  linesOf ["0"; "SECTION"; "2"; "TABLES"; "0"; "TABLE"; "2"; "LAYER";
           "0"; "LAYER"; "2"; "WALLS"; "62"; "-3";
           "0"; "ENDTAB"; "0"; "ENDSEC"; "0"; "EOF"].

End ParserLayers.

(* ================================================================== *)
(** * What a stitched path is made of *)
(* ================================================================== *)

Module StitchCount.

Import Geom Hatch.
Local Open Scope R_scope.

(** [assembled edges used path bridges]: the path starts with edge 0 and
    goes on with unused edges, each as it is or reversed, the indices
    taken being [used] (the last one first); [bridges] of them are
    preceded by a LINE from the end of the path so far to their start. *)
Inductive assembled (edges : list Edge)
  : list nat -> list Edge -> nat -> Prop :=
| assembled_start (e0 : Edge) :
    nth_error edges 0 = Some e0 ->
    assembled edges [0%nat] [e0] 0
| assembled_next (used : list nat) (path : list Edge) (bridges i : nat)
                 (target e : Edge) :
    assembled edges used path bridges ->
    nth_error edges i = Some target ->
    has used i = false ->
    e = target \/ e = reverseEdge target ->
    assembled edges (i :: used) (path ++ [e]) bridges
| assembled_bridge (used : list nat) (path : list Edge) (bridges i : nat)
                   (target e current : Edge) :
    assembled edges used path bridges ->
    nth_error edges i = Some target ->
    has used i = false ->
    e = target \/ e = reverseEdge target ->
    current = last path current ->
    assembled edges (i :: used)
              ((path ++ [LINE (ex2 current) (ey2 current) (ex1 e) (ey1 e)])
               ++ [e])
              (S bridges).

(** Three lines in a row, nine units apart. *)
Definition threeApart : list RawEdge :=
  [RawLine 0 0 1 0; RawLine 10 0 11 0; RawLine 20 0 21 0].

Definition threeApartEdges : list Edge :=
  [LINE 0 0 1 0; LINE 10 0 11 0; LINE 20 0 21 0].

End StitchCount.

(* ================================================================== *)
(** * Facts about the ACI palette *)
(* ================================================================== *)

Lemma ACI_COLORS_length : List.length Palette.ACI_COLORS = 256%nat.
Proof. vm_compute. reflexivity. Qed.

Lemma ACI_COLORS_all_rgb : forallb Palette.isRgb Palette.ACI_COLORS = true.
Proof. vm_compute. reflexivity. Qed.

Lemma ACI_COLORS_entry (k : nat) (c : Palette.JsRgb) :
  nth_error Palette.ACI_COLORS k = Some c -> Palette.isRgb c = true.
Proof.
  intros H. apply nth_error_In in H.
  pose proof ACI_COLORS_all_rgb as A.
  rewrite forallb_forall in A. now apply A.
Qed.

Lemma aciToRgb_in_palette (idx : Z) :
  (1 <= idx <= 255)%Z ->
  exists c, nth_error Palette.ACI_COLORS (Z.to_nat idx) = Some c
            /\ Palette.aciToRgb idx = c.
Proof.
  intros Hr.
  destruct (nth_error Palette.ACI_COLORS (Z.to_nat idx)) as [c|] eqn:E.
  - exists c. split; [reflexivity|].
    unfold Palette.aciToRgb. rewrite ACI_COLORS_length.
    replace (idx =? 256)%Z with false by (symmetry; apply Z.eqb_neq; lia).
    replace (idx =? 0)%Z with false by (symmetry; apply Z.eqb_neq; lia).
    replace (idx <? 0)%Z with false by (symmetry; apply Z.ltb_ge; lia).
    replace (idx >=? Z.of_nat 256)%Z with false
      by (symmetry; rewrite Z.geb_leb; apply Z.leb_gt; lia).
    cbn [orb]. now rewrite E.
  - exfalso. apply nth_error_None in E. rewrite ACI_COLORS_length in E. lia.
Qed.

(** C10. [aciToRgb] is total on integer colour indices: it yields [null]
    exactly at 256 (BYLAYER), black at 0 (BYBLOCK), white for every negative
    index and for every index above 255 other than 256, and the entry of the
    256-entry palette for the indices 1 to 255; it never yields [undefined]. *)
Theorem aciToRgb_total (idx : Z) :
  List.length Palette.ACI_COLORS = 256%nat
  /\ (Palette.aciToRgb idx = Palette.RgbNull <-> idx = 256%Z)
  /\ (idx = 0%Z -> Palette.aciToRgb idx = Palette.Rgb 0 0 0)
  /\ ((idx < 0)%Z \/ ((idx > 255)%Z /\ idx <> 256%Z) ->
      Palette.aciToRgb idx = Palette.Rgb 255 255 255)
  /\ ((1 <= idx <= 255)%Z ->
      nth_error Palette.ACI_COLORS (Z.to_nat idx) = Some (Palette.aciToRgb idx))
  /\ Palette.aciToRgb idx <> Palette.RgbUndefined.
Proof.
  assert (Hcase : idx = 256%Z \/ idx = 0%Z \/ (idx < 0)%Z
                  \/ ((idx > 255)%Z /\ idx <> 256%Z) \/ (1 <= idx <= 255)%Z) by lia.
  assert (Hwhite : (idx < 0)%Z \/ ((idx > 255)%Z /\ idx <> 256%Z) ->
                   Palette.aciToRgb idx = Palette.Rgb 255 255 255).
  { intros Hw. unfold Palette.aciToRgb. rewrite ACI_COLORS_length.
    replace (idx =? 256)%Z with false by (symmetry; apply Z.eqb_neq; lia).
    replace (idx =? 0)%Z with false by (symmetry; apply Z.eqb_neq; lia).
    destruct Hw as [Hn | [Hb Hne]].
    - replace (idx <? 0)%Z with true by (symmetry; apply Z.ltb_lt; lia).
      reflexivity.
    - replace (idx >=? Z.of_nat 256)%Z with true
        by (symmetry; rewrite Z.geb_leb; apply Z.leb_le; lia).
      now rewrite orb_true_r. }
  assert (Hpal : (1 <= idx <= 255)%Z ->
                 nth_error Palette.ACI_COLORS (Z.to_nat idx)
                 = Some (Palette.aciToRgb idx)).
  { intros Hr. destruct (aciToRgb_in_palette Hr) as [c [E1 E2]]. now rewrite E2. }
  split; [exact ACI_COLORS_length|].
  split.
  { split.
    - intros Hnull.
      destruct Hcase as [H|[H|[H|[H|H]]]]; [exact H | | | | ].
      + subst idx. discriminate Hnull.
      + rewrite Hwhite in Hnull by (left; exact H). discriminate.
      + rewrite Hwhite in Hnull by (right; exact H). discriminate.
      + specialize (Hpal H). apply ACI_COLORS_entry in Hpal.
        rewrite Hnull in Hpal. discriminate.
    - intros ->. reflexivity. }
  split; [intros ->; reflexivity|].
  split; [exact Hwhite|].
  split; [exact Hpal|].
  intros Hund.
  destruct Hcase as [H|[H|[H|[H|H]]]].
  - subst idx. discriminate.
  - subst idx. discriminate.
  - rewrite Hwhite in Hund by (left; exact H). discriminate.
  - rewrite Hwhite in Hund by (right; exact H). discriminate.
  - specialize (Hpal H). apply ACI_COLORS_entry in Hpal.
    rewrite Hund in Hpal. discriminate.
Qed.

(* ================================================================== *)
(** * [bulgeToArc]: the arc passes through both chord ends *)
(* ================================================================== *)

Section BulgeToArc.

Import Geom.
Local Open Scope R_scope.

(** [Math.atan2] returns the polar angle of [(x, y)]. *)
Lemma Math_atan2_polar (x y : R) :
  0 < x * x + y * y ->
  sqrt (x * x + y * y) * cos (Math_atan2 y x) = x
  /\ sqrt (x * x + y * y) * sin (Math_atan2 y x) = y.
Proof.
  intros Hpos. unfold Math_atan2.
  destruct (Req_dec x 0) as [H0 | H0].
  - subst x.
    destruct (Rlt_dec 0 0) as [Hx | _]; [lra|].
    replace (0 * 0 + y * y) with (y * y) in * by ring.
    destruct (Rlt_dec 0 y) as [Hy | Hy].
    + rewrite sqrt_square by lra. rewrite cos_PI2, sin_PI2. split; ring.
    + destruct (Rlt_dec y 0) as [Hy' | Hy'].
      * replace (y * y) with ((- y) * (- y)) by ring.
        rewrite sqrt_square by lra.
        rewrite cos_neg, sin_neg, cos_PI2, sin_PI2. split; ring.
      * exfalso. assert (y = 0) by lra. subst y. lra.
  - assert (Hy : y = x * (y / x)) by (field; exact H0).
    generalize dependent (y / x). intros z Hy. subst y.
    assert (Hw : 0 < sqrt (1 + z²)) by (apply sqrt_lt_R0; unfold Rsqr; nra).
    assert (Hww : sqrt (1 + z²) * sqrt (1 + z²) = 1 + z * z)
      by (rewrite sqrt_sqrt; unfold Rsqr; nra).
    assert (Hc := cos_atan z). assert (Hs := sin_atan z).
    generalize dependent (sqrt (1 + z²)). intros w Hw Hww Hc Hs.
    assert (Hr : sqrt (x * x + x * z * (x * z)) = Rabs x * w).
    { apply sqrt_lem_1; [nra | apply Rmult_le_pos; [apply Rabs_pos | lra] |].
      replace (Rabs x * w * (Rabs x * w)) with ((Rabs x * Rabs x) * (w * w)) by ring.
      rewrite Hww. fold (Rsqr (Rabs x)). rewrite <- Rsqr_abs. unfold Rsqr. ring. }
    rewrite Hr.
    destruct (Rlt_dec 0 x) as [Hx | Hx].
    + rewrite Hc, Hs, Rabs_right by lra. split; field; lra.
    + destruct (Rlt_dec x 0) as [Hx' | Hx']; [|lra].
      rewrite Rabs_left by lra.
      destruct (Rle_dec 0 (x * z)) as [Hyy | Hyy].
      * rewrite neg_cos, neg_sin, Hc, Hs. split; field; lra.
      * rewrite cos_minus, sin_minus, cos_PI, sin_PI, Hc, Hs. split; field; lra.
Qed.

(** Half the included angle of a bulge that is not zero lies strictly
    between [-PI] and [PI] and is not zero. *)
Lemma half_angle_range (b : R) :
  b <> 0 ->
  - PI < 2 * atan b < PI /\ 2 * atan b <> 0
  /\ (0 < b -> 0 < 2 * atan b) /\ (b < 0 -> 2 * atan b < 0).
Proof.
  intros Hb. pose proof (atan_bound b) as Hbd.
  assert (Hpos : 0 < b -> 0 < 2 * atan b).
  { intros H. pose proof (atan_increasing 0 b H) as Hi. rewrite atan_0 in Hi. lra. }
  assert (Hneg : b < 0 -> 2 * atan b < 0).
  { intros H. pose proof (atan_increasing b 0 H) as Hi. rewrite atan_0 in Hi. lra. }
  split; [lra|]. split; [|split; assumption].
  destruct (Rlt_dec 0 b) as [H|H]; [specialize (Hpos H); lra|].
  assert (H' : b < 0) by lra. specialize (Hneg H'). lra.
Qed.

Lemma sin_half_angle_nonzero (b : R) : b <> 0 -> sin (2 * atan b) <> 0.
Proof.
  intros Hb. destruct (half_angle_range Hb) as [[Hlo Hhi] [Hne _]].
  destruct (Rlt_dec 0 (2 * atan b)) as [Hp | Hp].
  - pose proof (sin_gt_0 _ Hp Hhi). lra.
  - assert (Hn : 0 < - (2 * atan b)) by lra.
    assert (Hh : - (2 * atan b) < PI) by lra.
    pose proof (sin_gt_0 _ Hn Hh) as Hs. rewrite sin_neg in Hs. lra.
Qed.

(** The rotation identity behind the round trip: turning [p1 - c] by the
    included angle gives [p2 - c]. *)
Lemma rotate_chord (dx dy S C : R) :
  S <> 0 -> S * S + C * C = 1 ->
  let k := C / (2 * S) in
  (- dx / 2 + dy * k) * (C * C - S * S) - (- dy / 2 - dx * k) * (2 * S * C)
    = dx / 2 + dy * k
  /\ (- dy / 2 - dx * k) * (C * C - S * S) + (- dx / 2 + dy * k) * (2 * S * C)
    = dy / 2 - dx * k.
Proof.
  intros HS H1 k. unfold k.
  assert (HC : C * C = 1 - S * S) by lra.
  split.
  - apply Rmult_eq_reg_r with (2 * S); [|lra].
    field_simplify; [|lra|lra].
    replace (C ^ 3) with (C * (C * C)) by ring.
    replace (C ^ 2) with (C * C) by ring.
    rewrite HC. field.
  - apply Rmult_eq_reg_r with (2 * S); [|lra].
    field_simplify; [|lra|lra].
    replace (C ^ 3) with (C * (C * C)) by ring.
    replace (C ^ 2) with (C * C) by ring.
    rewrite HC. field.
Qed.

(** Centre and radius computed by [bulgeToArc], in closed form: with
    [k = cot(theta/2) / 2] the centre is the chord midpoint moved by [k] times
    the chord turned a quarter turn to the left. *)
Lemma bulgeToArc_centre (p1 p2 : Point) (b : R) :
  1e-12 <= Math_hypot (px p2 - px p1) (py p2 - py p1) ->
  1e-12 <= Rabs b ->
  let dx := px p2 - px p1 in
  let dy := py p2 - py p1 in
  let k := cos (2 * atan b) / (2 * sin (2 * atan b)) in
  exists a, bulgeToArc p1 p2 (Some b) = Some a
    /\ cx a = (px p1 + px p2) / 2 - dy * k
    /\ cy a = (py p1 + py p2) / 2 + dx * k
    /\ radius a = Math_hypot dx dy / (2 * Rabs (sin (2 * atan b)))
    /\ theta a = 4 * atan b
    /\ startAngle a = Math_atan2 (py p1 - cy a) (px p1 - cx a) * 180 / PI
    /\ endAngle a = (Math_atan2 (py p1 - cy a) (px p1 - cx a) + 4 * atan b) * 180 / PI.
Proof.
  intros Hchord Hb dx dy k.
  change (1e-12 <= Math_hypot dx dy) in Hchord.
  assert (Hb0 : b <> 0).
  { intros ->. rewrite Rabs_R0 in Hb. lra. }
  destruct (half_angle_range Hb0) as [[Hlo Hhi] [Hne [Hpos Hneg]]].
  pose proof (sin_half_angle_nonzero Hb0) as HS.
  unfold bulgeToArc.
  destruct (Rlt_dec (Rabs b) 1e-12) as [Hc | _]; [lra|].
  fold dx dy.
  destruct (Rlt_dec (Math_hypot dx dy) 1e-12) as [Hc | _]; [lra|].
  set (chord := Math_hypot dx dy) in *.
  assert (Hch : chord <> 0) by lra.
  eexists. split; [reflexivity|]. cbn [cx cy radius startAngle endAngle theta].
  destruct (Rle_dec 0 b) as [Hb1 | Hb1].
  - assert (Hbp : 0 < b) by lra. specialize (Hpos Hbp).
    assert (E : Rabs (4 * atan b) / 2 = 2 * atan b).
    { rewrite Rabs_right by lra. field. }
    rewrite E.
    assert (Hsp : 0 < sin (2 * atan b)) by (apply sin_gt_0; lra).
    rewrite (Rabs_right (sin (2 * atan b))) by lra.
    assert (Hr : 0 < chord / (2 * sin (2 * atan b))).
    { apply Rdiv_lt_0_compat; lra. }
    rewrite Rabs_right by lra.
    repeat split; first [reflexivity | unfold k; field; repeat split; lra].
  - assert (Hbn : b < 0) by lra. specialize (Hneg Hbn).
    assert (E : Rabs (4 * atan b) / 2 = - (2 * atan b)).
    { rewrite Rabs_left by lra. field. }
    rewrite E, sin_neg, cos_neg.
    assert (Hsp : 0 < - sin (2 * atan b)).
    { rewrite <- sin_neg. apply sin_gt_0; lra. }
    rewrite (Rabs_left (sin (2 * atan b))) by lra.
    assert (Hr : 0 < chord / (2 * - sin (2 * atan b))).
    { apply Rdiv_lt_0_compat; lra. }
    rewrite Rabs_right by lra.
    repeat split; first [reflexivity | unfold k; field; repeat split; lra].
Qed.

Lemma pointAtAngle_eq (a : Arc) (deg x y : R) :
  cx a + radius a * cos (deg * PI / 180) = x ->
  cy a + radius a * sin (deg * PI / 180) = y ->
  pointAtAngle a deg = mkPoint x y.
Proof. intros Hx Hy. unfold pointAtAngle. now rewrite Hx, Hy. Qed.



End BulgeToArc.

(* ================================================================== *)
(** * [calculateGeometricArea] on straight-edged polygons *)
(* ================================================================== *)

Section ShoelaceArea.

Import Geom Area.
Local Open Scope R_scope.

Lemma sumR_cons (x : R) (l : list R) : sumR (x :: l) = x + sumR l.
Proof. reflexivity. Qed.

Lemma sumR_nil : sumR [] = 0.
Proof. reflexivity. Qed.

Lemma fold_left_sumR (A : Type) (f : A -> R) (l : list A) (a : R) :
  fold_left (fun acc i => acc + f i) l a = a + sumR (map f l).
Proof.
  revert a. induction l as [|x l IH]; intros a; simpl fold_left; simpl map.
  - rewrite sumR_nil. lra.
  - rewrite IH, sumR_cons. lra.
Qed.

Lemma sumR_app (l1 l2 : list R) : sumR (l1 ++ l2) = sumR l1 + sumR l2.
Proof.
  induction l1 as [|x l1 IH]; simpl app.
  - rewrite sumR_nil. lra.
  - rewrite !sumR_cons, IH. lra.
Qed.

Lemma sumR_map_ext (A : Type) (f g : A -> R) (l : list A) :
  (forall x, In x l -> f x = g x) -> sumR (map f l) = sumR (map g l).
Proof.
  induction l as [|x l IH]; intros H; simpl map; [reflexivity|].
  rewrite !sumR_cons, (H x) by (left; reflexivity).
  f_equal. apply IH. intros y Hy; apply H; right; exact Hy.
Qed.

Lemma sumR_map_plus (A : Type) (f g : A -> R) (l : list A) :
  sumR (map (fun x => f x + g x) l) = sumR (map f l) + sumR (map g l).
Proof.
  induction l as [|x l IH]; simpl map.
  - rewrite sumR_nil. lra.
  - rewrite !sumR_cons, IH. lra.
Qed.

Lemma sumR_map_scal (A : Type) (c : R) (f : A -> R) (l : list A) :
  sumR (map (fun x => c * f x) l) = c * sumR (map f l).
Proof.
  induction l as [|x l IH]; simpl map.
  - rewrite sumR_nil. lra.
  - rewrite !sumR_cons, IH. lra.
Qed.

Lemma cycPairs_length (l : list Vertex) : List.length (cycPairs l) = List.length l.
Proof.
  unfold cycPairs. rewrite length_combine, length_app.
  destruct l as [|a t]; [reflexivity|].
  cbn [tl firstn List.length]. lia.
Qed.

(** The index loop [for (i = 0; i < n; i++)] with [vertices[(i + 1) % n]]
    visits exactly the cyclic pairs. *)
Lemma index_loop_pairs (l : list Vertex) :
  map (fun i => (nth i l dummyVertex,
                 nth ((i + 1) mod List.length l) l dummyVertex))
      (seq 0 (List.length l))
  = cycPairs l.
Proof.
  destruct l as [|a t]; [reflexivity|].
  set (l := a :: t).
  set (f := fun i => (nth i l dummyVertex, nth ((i + 1) mod List.length l) l dummyVertex)).
  apply nth_ext with (d := f 0%nat) (d' := (dummyVertex, dummyVertex)).
  - rewrite length_map, length_seq, cycPairs_length. reflexivity.
  - intros i Hi. rewrite length_map, length_seq in Hi.
    rewrite map_nth, seq_nth by exact Hi. cbn [plus].
    unfold cycPairs. rewrite combine_nth
      by (unfold l; cbn [tl firstn List.length]; rewrite length_app; cbn; lia).
    unfold f. f_equal. unfold l in *. cbn [tl firstn List.length] in *.
    destruct (Nat.eq_dec i (List.length t)) as [E | E].
    + subst i. replace (List.length t + 1)%nat with (S (List.length t)) by lia.
      rewrite Nat.Div0.mod_same. rewrite app_nth2 by lia.
      rewrite Nat.sub_diag. reflexivity.
    + rewrite Nat.mod_small by lia. rewrite app_nth1 by lia.
      replace (i + 1)%nat with (S i) by lia. reflexivity.
Qed.

Lemma combine_fst (A B : Type) (l : list A) (l' : list B) :
  List.length l = List.length l' -> map fst (combine l l') = l.
Proof.
  revert l'. induction l as [|x l IH]; intros [|y l'] H; cbn in *;
    try reflexivity; try discriminate.
  f_equal. apply IH. lia.
Qed.

Lemma combine_snd (A B : Type) (l : list A) (l' : list B) :
  List.length l = List.length l' -> map snd (combine l l') = l'.
Proof.
  revert l'. induction l as [|x l IH]; intros [|y l'] H; cbn in *;
    try reflexivity; try discriminate.
  f_equal. apply IH. lia.
Qed.

Lemma combine_app_same (A B : Type) (l1 l2 : list A) (l1' l2' : list B) :
  List.length l1 = List.length l1' ->
  combine (l1 ++ l2) (l1' ++ l2') = combine l1 l1' ++ combine l2 l2'.
Proof.
  revert l1'. induction l1 as [|x l1 IH]; intros [|y l1'] H; cbn in *;
    try reflexivity; try discriminate.
  f_equal. apply IH. lia.
Qed.

Lemma cycPairs_lengths (l : list Vertex) :
  List.length l = List.length (tl l ++ firstn 1 l).
Proof.
  destruct l as [|a t]; [reflexivity|].
  cbn [tl firstn List.length]. rewrite length_app. cbn. lia.
Qed.

(** Sums of differences along a cycle vanish. *)
Lemma cyc_telescope (f : Vertex -> R) (l : list Vertex) :
  sumR (map (fun p => f (fst p) - f (snd p)) (cycPairs l)) = 0.
Proof.
  assert (E : sumR (map (fun p => f (fst p) - f (snd p)) (cycPairs l))
              = sumR (map f (map fst (cycPairs l)))
                - sumR (map f (map snd (cycPairs l)))).
  { induction (cycPairs l) as [|p q IH]; simpl map.
    - rewrite sumR_nil. lra.
    - rewrite !sumR_cons, IH. lra. }
  rewrite E. unfold cycPairs.
  rewrite combine_fst, combine_snd by apply cycPairs_lengths.
  destruct l as [|a t]; [cbn; rewrite sumR_nil; lra|].
  cbn [tl firstn]. rewrite map_app, sumR_app. simpl map.
  rewrite !sumR_cons, sumR_nil. lra.
Qed.

Lemma cycPairs_fst_in (l : list Vertex) (p : Vertex * Vertex) :
  In p (cycPairs l) -> In (fst p) l.
Proof.
  destruct p as [a b]. intros H. apply in_combine_l in H. exact H.
Qed.

Lemma areaStep_straight (x0 y0 : R) (a b : Vertex) :
  straight a -> areaStep x0 y0 a b = shiftCross x0 y0 a b.
Proof.
  intros Hs. unfold areaStep, shiftCross. rewrite Hs.
  destruct (Rlt_dec 1e-12 (Rabs 0)) as [H | _].
  - rewrite Rabs_R0 in H. lra.
  - lra.
Qed.

(** Moving the origin of the cross products does not change their cyclic
    sum: this is the translation-stabilised shoelace. *)
Lemma shiftCross_total (x0 y0 : R) (l : list Vertex) :
  sumR (map (fun p => shiftCross x0 y0 (fst p) (snd p)) (cycPairs l))
  = crossTotal l.
Proof.
  unfold crossTotal.
  rewrite (@sumR_map_ext _ _
             (fun p => cross (fst p) (snd p)
                       + ((- y0) * (vx (fst p) - vx (snd p))
                          + x0 * (vy (fst p) - vy (snd p))))).
  - rewrite sumR_map_plus, sumR_map_plus, !sumR_map_scal.
    rewrite (cyc_telescope vx), (cyc_telescope vy). lra.
  - intros [a b] _. unfold shiftCross, cross. cbn [fst snd]. ring.
Qed.

Lemma crossSum_pairs (first a : Vertex) (t : list Vertex) :
  crossSum first (a :: t)
  = sumR (map (fun p => cross (fst p) (snd p)) (combine (a :: t) (t ++ [first]))).
Proof.
  revert a. induction t as [|b t IH]; intros a.
  - cbn. rewrite sumR_cons, sumR_nil. lra.
  - change (crossSum first (a :: b :: t)) with (cross a b + crossSum first (b :: t)).
    rewrite IH. cbn [app combine map fst snd]. rewrite !sumR_cons. reflexivity.
Qed.

Lemma shoelaceArea_crossTotal (l : list Vertex) :
  shoelaceArea l = Rabs (crossTotal l / 2).
Proof.
  destruct l as [|a t].
  - unfold crossTotal. cbn. rewrite sumR_nil.
    replace (0 / 2) with 0 by lra. now rewrite Rabs_R0.
  - unfold shoelaceArea. rewrite crossSum_pairs. reflexivity.
Qed.

Lemma calculateGeometricArea_pairs (l : list Vertex) :
  calculateGeometricArea l =
  if (List.length l <? 3)%nat then 0
  else Rabs (sumR (map (fun p => areaStep (vx (nth 0 l dummyVertex))
                                          (vy (nth 0 l dummyVertex))
                                          (fst p) (snd p))
                       (cycPairs l)) / 2).
Proof.
  unfold calculateGeometricArea.
  destruct (List.length l <? 3)%nat; [reflexivity|].
  cbv zeta.
  rewrite (fold_left_sumR
             (fun i => areaStep (vx (nth 0 l dummyVertex)) (vy (nth 0 l dummyVertex))
                         (nth i l dummyVertex)
                         (nth ((i + 1) mod List.length l) l dummyVertex))).
  rewrite <- index_loop_pairs, map_map. cbn [fst snd].
  f_equal. lra.
Qed.

Lemma crossTotal_short (l : list Vertex) :
  (List.length l < 3)%nat -> crossTotal l = 0.
Proof.
  intros H. destruct l as [|a [|b [|c t]]]; unfold crossTotal, cross; cbn.
  - rewrite sumR_nil. reflexivity.
  - rewrite sumR_cons, sumR_nil. cbn. ring.
  - rewrite !sumR_cons, sumR_nil. cbn. ring.
  - cbn in H. lia.
Qed.

(** [calculateGeometricArea] is the absolute shoelace area on polygons
    without bulges. *)
Lemma calculateGeometricArea_crossTotal (l : list Vertex) :
  Forall straight l -> calculateGeometricArea l = Rabs (crossTotal l / 2).
Proof.
  intros Hs. rewrite calculateGeometricArea_pairs.
  destruct (List.length l <? 3)%nat eqn:En.
  - apply Nat.ltb_lt in En. rewrite crossTotal_short by exact En.
    replace (0 / 2) with 0 by lra. now rewrite Rabs_R0.
  - rewrite <- (shiftCross_total (vx (nth 0 l dummyVertex)) (vy (nth 0 l dummyVertex))).
    do 2 f_equal. apply sumR_map_ext. intros p Hp.
    apply areaStep_straight. rewrite Forall_forall in Hs.
    apply Hs. now apply cycPairs_fst_in.
Qed.

(** Listing the first vertex last leaves the cyclic sum unchanged. *)
Lemma crossTotal_rot1 (a : Vertex) (t : list Vertex) :
  crossTotal (t ++ [a]) = crossTotal (a :: t).
Proof.
  unfold crossTotal, cycPairs.
  destruct t as [|b r].
  - reflexivity.
  - cbn [tl firstn app].
    change (b :: r ++ [a]) with ((b :: r) ++ [a]).
    rewrite (@combine_app_same _ _ (b :: r) [a] (r ++ [a]) [b])
      by (cbn; rewrite length_app; cbn; lia).
    rewrite map_app, sumR_app.
    cbn [combine map fst snd app]. rewrite !sumR_cons, sumR_nil. lra.
Qed.

Lemma crossTotal_app_comm (l1 l2 : list Vertex) :
  crossTotal (l1 ++ l2) = crossTotal (l2 ++ l1).
Proof.
  revert l2. induction l1 as [|a l1 IH]; intros l2.
  - now rewrite app_nil_r.
  - cbn [app]. rewrite <- crossTotal_rot1.
    rewrite <- app_assoc, IH, <- app_assoc. reflexivity.
Qed.

Lemma crossTotal_rotate (k : nat) (l : list Vertex) :
  crossTotal (rotate k l) = crossTotal l.
Proof.
  unfold rotate. rewrite crossTotal_app_comm, firstn_skipn. reflexivity.
Qed.

Lemma rotate_straight (k : nat) (l : list Vertex) :
  Forall straight l -> Forall straight (rotate k l).
Proof.
  intros H. unfold rotate. apply Forall_app. split.
  - rewrite Forall_forall in *. intros x Hx. apply H.
    rewrite <- (firstn_skipn k l). apply in_or_app. now right.
  - rewrite Forall_forall in *. intros x Hx. apply H.
    rewrite <- (firstn_skipn k l). apply in_or_app. now left.
Qed.

Lemma cycPairs_map (f : Vertex -> Vertex) (l : list Vertex) :
  cycPairs (map f l) = map (fun p => (f (fst p), f (snd p))) (cycPairs l).
Proof.
  unfold cycPairs.
  assert (E : tl (map f l) ++ firstn 1 (map f l) = map f (tl l ++ firstn 1 l)).
  { destruct l as [|a t]; [reflexivity|]. cbn [map tl firstn]. now rewrite map_app. }
  rewrite E. clear E. generalize (tl l ++ firstn 1 l) as l'.
  induction l as [|a t IH]; intros [|b l']; cbn; try reflexivity.
  now rewrite IH.
Qed.

Lemma crossTotal_translate (a b : R) (l : list Vertex) :
  crossTotal (translate a b l) = crossTotal l.
Proof.
  unfold crossTotal at 1. unfold translate. rewrite cycPairs_map, map_map.
  cbn [fst snd].
  rewrite (@sumR_map_ext _ _
             (fun p => cross (fst p) (snd p)
                       + (b * (vx (fst p) - vx (snd p))
                          + (- a) * (vy (fst p) - vy (snd p))))).
  - rewrite sumR_map_plus, sumR_map_plus, !sumR_map_scal.
    rewrite (cyc_telescope vx), (cyc_telescope vy). unfold crossTotal. lra.
  - intros [p q] _. unfold cross, moveVertex. cbn [fst snd vx vy]. ring.
Qed.

Lemma translate_straight (a b : R) (l : list Vertex) :
  Forall straight l -> Forall straight (translate a b l).
Proof.
  intros H. unfold translate. rewrite Forall_forall in *.
  intros x Hx. apply in_map_iff in Hx. destruct Hx as [v [<- Hv]].
  apply H in Hv. exact Hv.
Qed.

Lemma unitSquare_straight : Forall straight unitSquare.
Proof. repeat constructor. Qed.

Lemma unitSquare_crossTotal : crossTotal unitSquare = 2.
Proof.
  unfold crossTotal, unitSquare, cycPairs, cross, pt.
  cbn. rewrite !sumR_cons, sumR_nil. lra.
Qed.

(** C2. On a closed polygon whose bulges are all zero,
    [calculateGeometricArea] is the absolute value of the shoelace area; it
    does not depend on which vertex is listed first, nor (in exact
    arithmetic) on a common offset added to every vertex; the unit square
    has area 1 at the origin and moved by (1e6, 1e6). *)
Theorem calculateGeometricArea_shoelace (l : list Vertex) :
  Forall straight l ->
  calculateGeometricArea l = shoelaceArea l
  /\ (forall k, calculateGeometricArea (rotate k l) = calculateGeometricArea l)
  /\ (forall a b, calculateGeometricArea (translate a b l) = calculateGeometricArea l)
  /\ calculateGeometricArea unitSquare = 1
  /\ calculateGeometricArea (translate 1e6 1e6 unitSquare) = 1.
Proof.
  intros Hs. split; [|split; [|split; [|split]]].
  - rewrite shoelaceArea_crossTotal. now apply calculateGeometricArea_crossTotal.
  - intros k.
    rewrite (calculateGeometricArea_crossTotal (rotate_straight k Hs)).
    rewrite (calculateGeometricArea_crossTotal Hs).
    now rewrite crossTotal_rotate.
  - intros a b.
    rewrite (calculateGeometricArea_crossTotal (translate_straight a b Hs)).
    rewrite (calculateGeometricArea_crossTotal Hs).
    now rewrite crossTotal_translate.
  - rewrite (calculateGeometricArea_crossTotal unitSquare_straight).
    rewrite unitSquare_crossTotal.
    replace (2 / 2) with 1 by lra. apply Rabs_R1.
  - rewrite (calculateGeometricArea_crossTotal
               (translate_straight 1e6 1e6 unitSquare_straight)).
    rewrite crossTotal_translate, unitSquare_crossTotal.
    replace (2 / 2) with 1 by lra. apply Rabs_R1.
Qed.

(** The theorem at the triangle (0,0), (4,0), (0,3). *)
Lemma calculateGeometricArea_shoelace_witness :
  let tri := [pt 0 0; pt 4 0; pt 0 3] in
  calculateGeometricArea tri = shoelaceArea tri
  /\ (forall k, calculateGeometricArea (rotate k tri) = calculateGeometricArea tri)
  /\ (forall a b, calculateGeometricArea (translate a b tri) = calculateGeometricArea tri)
  /\ calculateGeometricArea unitSquare = 1
  /\ calculateGeometricArea (translate 1e6 1e6 unitSquare) = 1.
Proof.
  apply (@calculateGeometricArea_shoelace [pt 0 0; pt 4 0; pt 0 3]).
  repeat constructor.
Defined.

End ShoelaceArea.

(* ================================================================== *)
(** * Hatch boundary resolver: winding and gap bridging *)
(* ================================================================== *)

Section HatchWinding.

Import Geom Area Hatch.
Local Open Scope R_scope.

(** ** The angle loops finish within their fuel *)

Lemma tripsUp_enough (s : R) : 0 < s + 2 * PI * INR (tripsUp s).
Proof.
  unfold tripsUp. pose proof PI_RGT_0 as HPI.
  destruct (archimed (- s / (2 * PI))) as [Hup _].
  assert (Hle : IZR (up (- s / (2 * PI))) <= INR (Z.to_nat (up (- s / (2 * PI))))).
  { rewrite INR_IZR_INZ. apply IZR_le. lia. }
  assert (Hq : - s / (2 * PI) < INR (Z.to_nat (up (- s / (2 * PI))))) by lra.
  apply (Rmult_lt_compat_l (2 * PI)) in Hq; [|lra].
  replace (2 * PI * (- s / (2 * PI))) with (- s) in Hq by (field; lra).
  lra.
Qed.

Lemma addWhileNonPos_pos (f : nat) (s : R) :
  0 < s + 2 * PI * INR f -> 0 < addWhileNonPos f s.
Proof.
  revert s. induction f as [|f IH]; intros s H.
  - cbn in *. lra.
  - cbn [addWhileNonPos]. destruct (Rle_dec s 0) as [Hs | Hs]; [|lra].
    apply IH. rewrite S_INR in H. lra.
Qed.

(** Once the fuel covers the trips, more fuel changes nothing: the loop
    has left through its condition. *)
Lemma addWhileNonPos_stable (f g : nat) (s : R) :
  0 < s + 2 * PI * INR f -> (f <= g)%nat ->
  addWhileNonPos g s = addWhileNonPos f s.
Proof.
  revert g s. induction f as [|f IH]; intros g s H Hfg.
  - cbn in H. destruct g as [|g]; [reflexivity|].
    cbn [addWhileNonPos]. destruct (Rle_dec s 0); [lra | reflexivity].
  - destruct g as [|g]; [lia|]. cbn [addWhileNonPos].
    destruct (Rle_dec s 0) as [Hs | Hs]; [|reflexivity].
    apply IH; [rewrite S_INR in H; lra | lia].
Qed.

Lemma normalizeCCW_pos (s : R) : 0 < normalizeCCW s.
Proof. apply addWhileNonPos_pos, tripsUp_enough. Qed.

(** The loop equation of [while (sweep <= 0) sweep += 2 * Math.PI]. *)
Lemma normalizeCCW_unroll (s : R) :
  normalizeCCW s = if Rle_dec s 0 then normalizeCCW (s + 2 * PI) else s.
Proof.
  unfold normalizeCCW.
  pose proof (tripsUp_enough s) as He.
  destruct (Rle_dec s 0) as [Hs | Hs].
  - destruct (tripsUp s) as [|f] eqn:Ef.
    + cbn in He. lra.
    + cbn [addWhileNonPos]. destruct (Rle_dec s 0) as [_ | Hn]; [|lra].
      rewrite S_INR in He.
      pose proof (tripsUp_enough (s + 2 * PI)) as He'.
      destruct (Nat.le_ge_cases f (tripsUp (s + 2 * PI))) as [Hle | Hge].
      * symmetry. apply addWhileNonPos_stable; [lra | exact Hle].
      * apply addWhileNonPos_stable; [exact He' | exact Hge].
  - destruct (tripsUp s) as [|f]; [reflexivity|].
    cbn [addWhileNonPos]. destruct (Rle_dec s 0); [lra | reflexivity].
Qed.

Lemma subWhileNonNeg_opp (f : nat) (s : R) :
  subWhileNonNeg f (- s) = - addWhileNonPos f s.
Proof.
  revert s. induction f as [|f IH]; intros s; [reflexivity|].
  cbn [subWhileNonNeg addWhileNonPos].
  destruct (Rge_dec (- s) 0) as [H1 | H1], (Rle_dec s 0) as [H2 | H2]; try lra.
  replace (- s - 2 * PI) with (- (s + 2 * PI)) by ring. apply IH.
Qed.

Lemma normalizeCW_opp (s : R) : normalizeCW (- s) = - normalizeCCW s.
Proof.
  unfold normalizeCW, normalizeCCW. rewrite Ropp_involutive.
  apply subWhileNonNeg_opp.
Qed.

Lemma normalizeCCW_opp (s : R) : normalizeCCW (- s) = - normalizeCW s.
Proof.
  rewrite <- (Ropp_involutive s) at 2. rewrite normalizeCW_opp. ring.
Qed.

Lemma normalizeCW_neg (s : R) : normalizeCW s < 0.
Proof.
  rewrite <- (Ropp_involutive s), normalizeCW_opp.
  pose proof (normalizeCCW_pos (- s)). lra.
Qed.

(** ** Reversal negates the signed area *)

Lemma edgeArea_reverse (e : Edge) : edgeArea (reverseEdge e) = - edgeArea e.
Proof.
  destruct e as [x1 y1 x2 y2 | cx cy r sa ea ccw x1 y1 x2 y2];
    cbn [reverseEdge edgeArea ex1 ey1 ex2 ey2].
  - ring.
  - replace (- sa - - ea) with (- (- ea - - sa)) by ring.
    destruct ccw; cbn [negb].
    + rewrite normalizeCW_opp, sin_neg. ring.
    + rewrite normalizeCCW_opp, sin_neg. ring.
Qed.

Lemma sumR_rev (l : list R) : sumR (rev l) = sumR l.
Proof.
  induction l as [|x l IH]; [reflexivity|].
  cbn [rev]. rewrite sumR_app, IH, !sumR_cons, sumR_nil. lra.
Qed.

Lemma calculateLoopArea_sum (p : list Edge) :
  calculateLoopArea p = sumR (map edgeArea p) * 0.5.
Proof. unfold calculateLoopArea. rewrite fold_left_sumR. lra. Qed.

Lemma calculateLoopArea_reverse (p : list Edge) :
  calculateLoopArea (reversePath p) = - calculateLoopArea p.
Proof.
  rewrite !calculateLoopArea_sum. unfold reversePath.
  rewrite map_map.
  rewrite (@sumR_map_ext _ _ (fun e => (-1) * edgeArea e))
    by (intros e _; rewrite edgeArea_reverse; ring).
  rewrite sumR_map_scal, map_rev, sumR_rev. lra.
Qed.

Lemma windCCW_nonneg (p q : list Edge) :
  windCCW p = Ok q -> 0 <= calculateLoopArea q.
Proof.
  unfold windCCW. destruct (Rlt_dec (calculateLoopArea p) 0) as [H | H];
    intros E; injection E as <-.
  - rewrite calculateLoopArea_reverse. lra.
  - lra.
Qed.

Lemma windCCW_cases (p : list Edge) :
  (calculateLoopArea p < 0 /\ windCCW p = Ok (reversePath p))
  \/ (0 <= calculateLoopArea p /\ windCCW p = Ok p).
Proof.
  unfold windCCW. destruct (Rlt_dec (calculateLoopArea p) 0); [left | right];
    split; try reflexivity; lra.
Qed.



End HatchWinding.

Unset Implicit Arguments.

Section HatchStitching.

Import Geom Area Hatch.
Local Open Scope R_scope.

Lemma has_false_not_in (used : list nat) (j : nat) :
  has used j = false <-> ~ In j used.
Proof.
  unfold has. split.
  - intros H Hin. assert (E : existsb (Nat.eqb j) used = true).
    { apply existsb_exists. exists j. split; [exact Hin | apply Nat.eqb_refl]. }
    congruence.
  - intros H. destruct (existsb (Nat.eqb j) used) eqn:E; [|reflexivity].
    apply existsb_exists in E. destruct E as [x [Hx Ex]].
    apply Nat.eqb_eq in Ex. subst x. contradiction.
Qed.

(** Fewer consumed indices than edges: some edge is still unused. *)
Lemma unused_exists (used : list nat) (n : nat) :
  (List.length used < n)%nat -> exists j, (j < n)%nat /\ has used j = false.
Proof.
  intros Hlen.
  destruct (find (fun j => negb (has used j)) (seq 0 n)) as [j|] eqn:E.
  - apply find_some in E. destruct E as [Hin Hj].
    apply in_seq in Hin. exists j. split; [lia|].
    now apply negb_true_iff in Hj.
  - exfalso.
    assert (Hincl : incl (seq 0 n) used).
    { intros j Hj. pose proof (find_none _ _ E j Hj) as Hn.
      apply negb_false_iff in Hn.
      destruct (in_dec Nat.eq_dec j used) as [Hi | Hi]; [exact Hi|].
      apply has_false_not_in in Hi. congruence. }
    pose proof (NoDup_incl_length (seq_NoDup n 0) Hincl) as Hl.
    rewrite length_seq in Hl. lia.
Qed.

Lemma findClosest_cons (e : Edge) (es : list Edge) (i : nat) (used : list nat)
      (tx ty : R) (c : Closest) :
  findClosest (e :: es) i used tx ty c
  = if has used i then findClosest es (S i) used tx ty c
    else findClosest es (S i) used tx ty
           (updateClosest (dist (ex2 e) (ey2 e) tx ty) i false
              (updateClosest (dist (ex1 e) (ey1 e) tx ty) i true c)).
Proof. reflexivity. Qed.

Lemma updateClosest_good (d : R) (i : nat) (f : bool) (c : Closest) :
  goodClosest c \/ minDist c = None -> goodClosest (updateClosest d i f c).
Proof.
  unfold updateClosest. intros [H | H].
  - destruct (belowMin d (minDist c)); [|exact H].
    exists i, d. split; reflexivity.
  - rewrite H. cbn [belowMin]. exists i, d. split; reflexivity.
Qed.

Lemma findClosest_good_mono (es : list Edge) (i : nat) (used : list nat)
      (tx ty : R) (c : Closest) :
  goodClosest c -> goodClosest (findClosest es i used tx ty c).
Proof.
  revert i c. induction es as [|e es IH]; intros i c Hc.
  - exact Hc.
  - rewrite findClosest_cons. destruct (has used i); [now apply IH|].
    apply IH. apply updateClosest_good. left.
    apply updateClosest_good. left. exact Hc.
Qed.

(** With an unused edge left, the search started from [Infinity] (or from a
    found edge) finds one. *)
Lemma findClosest_good (es : list Edge) (i : nat) (used : list nat)
      (tx ty : R) (c : Closest) :
  goodClosest c \/ minDist c = None ->
  (exists k e, nth_error es k = Some e /\ has used (i + k) = false) ->
  goodClosest (findClosest es i used tx ty c).
Proof.
  revert i c. induction es as [|e es IH]; intros i c Hc [k [e' [Hk Hu]]].
  - destruct k; discriminate.
  - rewrite findClosest_cons. destruct k as [|k].
    + rewrite Nat.add_0_r in Hu. rewrite Hu.
      apply findClosest_good_mono.
      apply updateClosest_good. left. apply updateClosest_good. exact Hc.
    + assert (Hex : exists k0 e0, nth_error es k0 = Some e0
                                  /\ has used (S i + k0) = false).
      { exists k, e'. split; [exact Hk|].
        replace (S i + k)%nat with (i + S k)%nat by lia. exact Hu. }
      destruct (has used i).
      * apply IH; assumption.
      * apply IH; [|exact Hex]. left.
        apply updateClosest_good. left. apply updateClosest_good. exact Hc.
Qed.

Lemma updateClosest_attained (edges : list Edge) (used : list nat) (tx ty : R)
      (i : nat) (e : Edge) (f : bool) (c : Closest) :
  nth_error edges i = Some e -> has used i = false ->
  attained edges used tx ty c ->
  attained edges used tx ty
    (updateClosest (if f then dist (ex1 e) (ey1 e) tx ty
                    else dist (ex2 e) (ey2 e) tx ty) i f c).
Proof.
  intros He Hu Hc. unfold updateClosest.
  destruct (belowMin _ (minDist c)); [|exact Hc].
  intros b Hb. cbn [bestIdx] in Hb. injection Hb as <-.
  split; [exact Hu|]. exists e. split; [exact He|]. reflexivity.
Qed.

Lemma findClosest_attained (edges es : list Edge) (i : nat) (used : list nat)
      (tx ty : R) (c : Closest) :
  (forall k e, nth_error es k = Some e -> nth_error edges (i + k) = Some e) ->
  attained edges used tx ty c ->
  attained edges used tx ty (findClosest es i used tx ty c).
Proof.
  revert i c. induction es as [|e es IH]; intros i c Hsuf Hc.
  - exact Hc.
  - rewrite findClosest_cons.
    assert (Hsuf' : forall k e0, nth_error es k = Some e0 ->
                                 nth_error edges (S i + k) = Some e0).
    { intros k e0 Hk. replace (S i + k)%nat with (i + S k)%nat by lia.
      apply Hsuf. exact Hk. }
    assert (Hi : nth_error edges i = Some e).
    { rewrite <- (Nat.add_0_r i). apply Hsuf. reflexivity. }
    destruct (has used i) eqn:Hu; [now apply IH|].
    apply IH; [exact Hsuf'|].
    apply (updateClosest_attained edges used tx ty i e false); try assumption.
    apply (updateClosest_attained edges used tx ty i e true); assumption.
Qed.

Lemma updateClosest_le (d : R) (i : nat) (f : bool) (c : Closest) :
  lowerBound (updateClosest d i f c) d.
Proof.
  unfold updateClosest, lowerBound.
  destruct (minDist c) as [m0|] eqn:Em; cbn [belowMin].
  - destruct (Rlt_dec d m0) as [Hlt | Hge]; cbn [minDist].
    + exists d. split; [reflexivity | lra].
    + exists m0. split; [exact Em | lra].
  - exists d. split; [reflexivity | lra].
Qed.

Lemma updateClosest_mono (d d' : R) (i : nat) (f : bool) (c : Closest) :
  lowerBound c d' -> lowerBound (updateClosest d i f c) d'.
Proof.
  unfold updateClosest, lowerBound. intros [m0 [Em Hle]]. rewrite Em.
  cbn [belowMin]. destruct (Rlt_dec d m0) as [Hlt | Hge]; cbn [minDist].
  - exists d. split; [reflexivity | lra].
  - exists m0. split; [exact Em | exact Hle].
Qed.

Lemma findClosest_mono (es : list Edge) (i : nat) (used : list nat)
      (tx ty d : R) (c : Closest) :
  lowerBound c d -> lowerBound (findClosest es i used tx ty c) d.
Proof.
  revert i c. induction es as [|e es IH]; intros i c Hc.
  - exact Hc.
  - rewrite findClosest_cons. destruct (has used i); [now apply IH|].
    apply IH. now do 2 apply updateClosest_mono.
Qed.

(** The search returns the global minimum over both ends of all unused
    edges. *)
Lemma findClosest_min (es : list Edge) (i : nat) (used : list nat)
      (tx ty : R) (c : Closest) (k : nat) (e : Edge) :
  nth_error es k = Some e -> has used (i + k) = false ->
  lowerBound (findClosest es i used tx ty c) (dist (ex1 e) (ey1 e) tx ty)
  /\ lowerBound (findClosest es i used tx ty c) (dist (ex2 e) (ey2 e) tx ty).
Proof.
  revert i c k. induction es as [|e0 es IH]; intros i c k Hk Hu.
  - destruct k; discriminate.
  - rewrite findClosest_cons. destruct k as [|k].
    + cbn in Hk. injection Hk as ->. rewrite Nat.add_0_r in Hu. rewrite Hu.
      split; apply findClosest_mono.
      * apply updateClosest_mono, updateClosest_le.
      * apply updateClosest_le.
    + cbn in Hk. replace (i + S k)%nat with (S i + k)%nat in Hu by lia.
      destruct (has used i); apply (IH _ _ k); assumption.
Qed.

(** The bridging branch of an iteration: with no end of an unused edge
    within the tolerance of the tip and an unused edge left, the resolver
    goes to the globally closest unused end, through a synthetic LINE when
    the distance exceeds the tolerance. *)
Lemma stitchStep_bridge (edges : list Edge) (tol : R) (s : Stitch) :
  unusedLeft edges (used s) ->
  findMatch edges 0 (used s) (ex2 (current s)) (ey2 (current s)) tol = None ->
  exists (best : nat) (toStart : bool) (md : R) (target : Edge),
    nth_error edges best = Some target
    /\ has (used s) best = false
    /\ md = (if toStart
             then dist (ex1 target) (ey1 target) (ex2 (current s)) (ey2 (current s))
             else dist (ex2 target) (ey2 target) (ex2 (current s)) (ey2 (current s)))
    /\ (forall j e, nth_error edges j = Some e -> has (used s) j = false ->
          md <= dist (ex1 e) (ey1 e) (ex2 (current s)) (ey2 (current s))
          /\ md <= dist (ex2 e) (ey2 e) (ex2 (current s)) (ey2 (current s)))
    /\ stitchStep edges tol s = Some (bridgeTo tol s best toStart md target).
Proof.
  intros [j0 [e0 [Hj0 Hu0]]] Hfm.
  unfold stitchStep. rewrite Hfm.
  set (tx := ex2 (current s)). set (ty := ey2 (current s)).
  set (c := findClosest edges 0 (used s) tx ty (mkClosest None None true)).
  assert (Hgood : goodClosest c).
  { apply findClosest_good; [right; reflexivity|].
    exists j0, e0. split; assumption. }
  assert (Hatt : attained edges (used s) tx ty c).
  { apply findClosest_attained.
    - intros k e Hk. exact Hk.
    - intros b Hb. discriminate Hb. }
  destruct Hgood as [b [m [Eb Em]]].
  destruct (Hatt b Eb) as [Hub [target [Ht Hm]]].
  rewrite Em in Hm. injection Hm as Hm.
  exists b, (connectToStart c), m, target.
  split; [exact Ht|]. split; [exact Hub|]. split; [exact Hm|]. split.
  - intros j e Hj Hu.
    destruct (findClosest_min edges 0 (used s) tx ty
                (mkClosest None None true) j e Hj Hu)
      as [[m1 [E1 L1]] [m2 [E2 L2]]].
    fold c in E1, E2. rewrite Em in E1, E2.
    injection E1 as <-. injection E2 as <-. split; assumption.
  - rewrite Eb, Em, Ht. reflexivity.
Qed.

(** Every iteration with an unused edge left succeeds: it consumes one edge
    and appends at least one segment. *)
Lemma stitchStep_progress (edges : list Edge) (tol : R) (s : Stitch) :
  unusedLeft edges (used s) ->
  exists s', stitchStep edges tol s = Some s'
    /\ List.length (used s') = S (List.length (used s))
    /\ (S (List.length (path s)) <= List.length (path s'))%nat.
Proof.
  intros Hun.
  destruct (findMatch edges 0 (used s) (ex2 (current s)) (ey2 (current s)) tol)
    as [[i e]|] eqn:Hfm.
  - unfold stitchStep. rewrite Hfm. eexists. split; [reflexivity|].
    cbn [used path]. rewrite length_app. cbn. split; lia.
  - destruct (stitchStep_bridge edges tol s Hun Hfm)
      as [best [toStart [md [target [_ [_ [_ [_ Hs]]]]]]]].
    rewrite Hs. eexists. split; [reflexivity|].
    unfold bridgeTo. cbn [used path]. rewrite length_app.
    destruct (Rlt_dec tol md); rewrite ?length_app; cbn; split; lia.
Qed.

Lemma unusedLeft_of_length (edges : list Edge) (used : list nat) :
  (List.length used < List.length edges)%nat -> unusedLeft edges used.
Proof.
  intros H. destruct (unused_exists used (List.length edges) H) as [j [Hj Hu]].
  destruct (nth_error edges j) as [e|] eqn:E.
  - exists j, e. split; assumption.
  - apply nth_error_None in E. lia.
Qed.

(** The [while] loop ends within [edges.length] iterations and never takes
    the ["stitch failed"] exit. *)
Lemma stitchLoop_succeeds (edges : list Edge) (tol : R) (fuel : nat) (s : Stitch) :
  (List.length (used s) <= List.length (path s))%nat ->
  (List.length edges - List.length (path s) <= fuel)%nat ->
  exists s', stitchLoop fuel edges tol s = Some (Some s')
             /\ (List.length edges <= List.length (path s'))%nat.
Proof.
  revert s. induction fuel as [|fuel IH]; intros s Hup Hfuel.
  - cbn [stitchLoop].
    destruct (List.length (path s) <? List.length edges)%nat eqn:E.
    + apply Nat.ltb_lt in E. lia.
    + apply Nat.ltb_ge in E. exists s. split; [reflexivity | exact E].
  - cbn [stitchLoop].
    destruct (List.length (path s) <? List.length edges)%nat eqn:E.
    + apply Nat.ltb_lt in E.
      assert (Hun : unusedLeft edges (used s))
        by (apply unusedLeft_of_length; lia).
      destruct (stitchStep_progress edges tol s Hun) as [s' [Hs [Hu Hp]]].
      rewrite Hs. apply IH; lia.
    + apply Nat.ltb_ge in E. exists s. split; [reflexivity | exact E].
Qed.

Lemma normalizeAll_lineOrArc (raw : list RawEdge) :
  Forall lineOrArc raw ->
  exists edges, normalizeAll raw = Some edges
                /\ List.length edges = List.length raw.
Proof.
  induction 1 as [|r raw Hr _ IH].
  - exists []. split; reflexivity.
  - destruct IH as [edges [E L]]. cbn [normalizeAll]. rewrite E.
    destruct r as [x1 y1 x2 y2 | cx cy rad sa ea ccw | ty]; cbn in Hr;
      [| |contradiction]; cbn [normalizeEdge];
      eexists; (split; [reflexivity | cbn; now rewrite L]).
Qed.

Lemma resolveEdgeLoop_ok (raw : list RawEdge) :
  raw <> [] -> Forall lineOrArc raw ->
  exists path, resolveEdgeLoop raw = Ok path.
Proof.
  intros Hne Hall.
  destruct (normalizeAll_lineOrArc raw Hall) as [edges [En Hlen]].
  unfold resolveEdgeLoop. destruct raw as [|r raw]; [contradiction|].
  rewrite En. destruct edges as [|e0 edges]; [discriminate Hlen|].
  set (tol := Rmax _ _).
  destruct (stitchLoop_succeeds (e0 :: edges) tol (List.length (e0 :: edges))
              (mkStitch [0%nat] [e0] e0)) as [s' [Hs _]];
    [cbn; lia | cbn; lia |].
  rewrite Hs. destruct (windCCW_cases (closePath tol (path s'))) as [[_ E] | [_ E]];
    rewrite E; eexists; reflexivity.
Qed.




End HatchStitching.

(* ================================================================== *)
(** * [extractAllLoops]: bridge pruning *)
(* ================================================================== *)

Section LoopNaturality.

Import Geom Area Loops.

(** Renaming the points by a map that preserves [matches] commutes with
    the whole extraction: the loop code sees points through [matches] only. *)

Variables (P Q : Type) (f : P -> Q).
Variable m : P -> P -> bool.
Variable m' : Q -> Q -> bool.
Hypothesis Hm : forall a b, m' (f a) (f b) = m a b.

Lemma isReverse_map (s1 s2 : Segment P) :
  isReverse m' (mapSegment f s1) (mapSegment f s2) = isReverse m s1 s2.
Proof. unfold isReverse. cbn. now rewrite !Hm. Qed.

Lemma findReverse_map (segs : list (Segment P)) (j : nat) (used : list nat)
      (s1 : Segment P) :
  findReverse m' (map (mapSegment f) segs) j used (mapSegment f s1)
  = findReverse m segs j used s1.
Proof.
  revert j. induction segs as [|s2 rest IH]; intros j; [reflexivity|].
  cbn [map findReverse]. rewrite isReverse_map, !IH. reflexivity.
Qed.

Lemma pruneFrom_map (segs : list (Segment P)) (i : nat) (used : list nat) :
  pruneFrom m' (map (mapSegment f) segs) i used = pruneFrom m segs i used.
Proof.
  revert i used. induction segs as [|s1 rest IH]; intros i used; [reflexivity|].
  cbn [map pruneFrom]. rewrite findReverse_map.
  destruct (has used i); [apply IH|].
  destruct (findReverse m rest (S i) used s1); apply IH.
Qed.

Lemma findNext_map (segs : list (Segment P)) (j : nat) (used chain : list nat)
      (tip : P) :
  findNext m' (map (mapSegment f) segs) j used chain (f tip)
  = option_map (fun js => (fst js, mapSegment f (snd js)))
               (findNext m segs j used chain tip).
Proof.
  revert j. induction segs as [|seg rest IH]; intros j; [reflexivity|].
  cbn [map findNext]. rewrite !IH.
  destruct (has used j); [reflexivity|].
  destruct (has chain j); [reflexivity|].
  cbn [mapSegment sp1 sp2]. rewrite !Hm.
  destruct (m tip (sp1 seg)); [reflexivity|].
  destruct (m tip (sp2 seg)); reflexivity.
Qed.

Lemma growChain_map (fuel : nat) (segs : list (Segment P)) (used : list nat)
      (start : P) (ord : list (Segment P)) (idx : list nat) (tip : P) :
  growChain m' fuel (map (mapSegment f) segs) used (f start)
            (map (mapSegment f) ord) idx (f tip)
  = mapChain f (growChain m fuel segs used start ord idx tip).
Proof.
  revert ord idx tip. induction fuel as [|fuel IH]; intros ord idx tip;
    [reflexivity|].
  cbn [growChain]. rewrite findNext_map.
  destruct (findNext m segs 0 used idx tip) as [[j seg]|]; cbn [option_map fst snd];
    [|reflexivity].
  cbn [mapSegment sp2]. rewrite Hm.
  destruct (m (sp2 seg) start).
  - unfold mapChain. cbn. now rewrite map_app.
  - change (f (sp2 seg)) with (f (sp2 seg)).
    rewrite <- IH. now rewrite map_app.
Qed.

Lemma extractFrom_map (from segs : list (Segment P)) (i : nat) (used : list nat) :
  extractFrom m' (map (mapSegment f) from) i (map (mapSegment f) segs) used
  = map (fun loop => (map (mapSegment f) (fst loop), snd loop))
        (extractFrom m from i segs used).
Proof.
  revert i used. induction from as [|seg rest IH]; intros i used; [reflexivity|].
  cbn [map extractFrom]. destruct (has used i); [apply IH|].
  rewrite length_map.
  change [mapSegment f seg] with (map (mapSegment f) [seg]).
  cbn [mapSegment sp1 sp2].
  rewrite (growChain_map (List.length segs) segs used (sp1 seg) [seg] [i] (sp2 seg)).
  set (c := growChain m (List.length segs) segs used (sp1 seg) [seg] [i] (sp2 seg)).
  cbn [mapChain loopClosed ordered currentLoopIndices].
  destruct (loopClosed c); [|apply IH].
  cbn [map fst snd]. now rewrite IH.
Qed.

Lemma extractSegments_map (segs : list (Segment P)) :
  extractSegments m' (map (mapSegment f) segs)
  = map (fun loop => (map (mapSegment f) (fst loop), snd loop))
        (extractSegments m segs).
Proof.
  unfold extractSegments, pruneBridges. rewrite pruneFrom_map.
  apply extractFrom_map.
Qed.

End LoopNaturality.

Section BridgePruning.

Import Geom Area Loops.

Variable P : Type.
Variable m : P -> P -> bool.

Lemma has_cons (used : list nat) (k j : nat) :
  has (k :: used) j = (Nat.eqb j k || has used j)%bool.
Proof. reflexivity. Qed.

Lemma has_app (u1 u2 : list nat) (j : nat) :
  has (u1 ++ u2) j = (has u1 j || has u2 j)%bool.
Proof. unfold has. apply existsb_app. Qed.

Lemma has_in (used : list nat) (j : nat) : has used j = true <-> In j used.
Proof.
  unfold has. rewrite existsb_exists. split.
  - intros [x [Hx E]]. apply Nat.eqb_eq in E. now subst.
  - intros H. exists j. split; [exact H | apply Nat.eqb_refl].
Qed.

Lemma findReverse_none (rest : list (Segment P)) (j : nat) (used : list nat)
      (s1 : Segment P) :
  findReverse m rest j used s1 = None ->
  forall d s2, nth_error rest d = Some s2 -> has used (j + d) = false ->
               isReverse m s1 s2 = false.
Proof.
  revert j. induction rest as [|s rest IH]; intros j Hn d s2 Hd Hu.
  - destruct d; discriminate.
  - cbn [findReverse] in Hn. destruct d as [|d].
    + cbn in Hd. injection Hd as ->. rewrite Nat.add_0_r in Hu.
      rewrite Hu in Hn. destruct (isReverse m s1 s2); [discriminate | reflexivity].
    + cbn in Hd. replace (j + S d)%nat with (S j + d)%nat in Hu by lia.
      destruct (has used j); [exact (IH _ Hn d s2 Hd Hu)|].
      destruct (isReverse m s1 s); [discriminate|].
      exact (IH _ Hn d s2 Hd Hu).
Qed.

Lemma findReverse_some (rest : list (Segment P)) (j : nat) (used : list nat)
      (s1 : Segment P) (j' : nat) :
  findReverse m rest j used s1 = Some j' ->
  exists d s2, j' = (j + d)%nat /\ nth_error rest d = Some s2
               /\ has used j' = false /\ isReverse m s1 s2 = true.
Proof.
  revert j. induction rest as [|s rest IH]; intros j Hs; [discriminate|].
  cbn [findReverse] in Hs.
  assert (Hrec : findReverse m rest (S j) used s1 = Some j' ->
                 exists d s2, j' = (j + d)%nat /\ nth_error (s :: rest) d = Some s2
                              /\ has used j' = false /\ isReverse m s1 s2 = true).
  { intros H. destruct (IH _ H) as [d [s2 [E [Hd [Hu Hr]]]]].
    exists (S d), s2. repeat split; try assumption. lia. }
  destruct (has used j) eqn:Hu; [now apply Hrec|].
  destruct (isReverse m s1 s) eqn:Hr; [|now apply Hrec].
  injection Hs as <-. exists 0%nat, s.
  rewrite Nat.add_0_r. repeat split; assumption.
Qed.

Lemma pruneFrom_mono (segs : list (Segment P)) (i : nat) (used : list nat) (k : nat) :
  has used k = true -> has (pruneFrom m segs i used) k = true.
Proof.
  revert i used. induction segs as [|s rest IH]; intros i used Hk; [exact Hk|].
  cbn [pruneFrom]. destruct (has used i); [now apply IH|].
  destruct (findReverse m rest (S i) used s); [|now apply IH].
  apply IH. rewrite !has_cons, Hk. now rewrite !orb_true_r.
Qed.

(** After the pruning, of two segments that are reverses of each other at
    least one is marked. *)
Lemma pruneFrom_pairs (segs : list (Segment P)) (i : nat) (used : list nat)
      (k d : nat) (s1 s2 : Segment P) :
  nth_error segs k = Some s1 -> nth_error segs (k + S d) = Some s2 ->
  isReverse m s1 s2 = true ->
  has (pruneFrom m segs i used) (i + k) = true
  \/ has (pruneFrom m segs i used) (i + k + S d) = true.
Proof.
  revert i used k. induction segs as [|s rest IH]; intros i used k H1 H2 Hr.
  - destruct k; discriminate.
  - cbn [pruneFrom]. destruct k as [|k].
    + cbn in H1. injection H1 as ->. cbn in H2. rewrite Nat.add_0_r.
      destruct (has used i) eqn:Hi.
      * left. now apply pruneFrom_mono.
      * destruct (findReverse m rest (S i) used s1) as [j|] eqn:Hf.
        -- left. apply pruneFrom_mono. rewrite !has_cons, Nat.eqb_refl.
           now rewrite orb_true_r.
        -- right. apply pruneFrom_mono.
           destruct (has used (i + S d)) eqn:Hd; [reflexivity|].
           replace (i + S d)%nat with (S i + d)%nat in Hd by lia.
           pose proof (findReverse_none rest (S i) used s1 Hf d s2 H2 Hd).
           congruence.
    + cbn in H1, H2.
      replace (i + S k)%nat with (S i + k)%nat by lia.
      destruct (has used i); [now apply IH|].
      destruct (findReverse m rest (S i) used s); now apply IH.
Qed.

Lemma markedInPair_mono (segments : list (Segment P)) (u1 u2 : list nat) (k : nat) :
  (forall x, has u1 x = true -> has u2 x = true) ->
  markedInPair m segments u1 k -> markedInPair m segments u2 k.
Proof.
  intros Hsub [i [j [s1 [s2 [Hij [Hk [H1 [H2 [Hr [Hi Hj]]]]]]]]]].
  exists i, j, s1, s2. repeat split; auto.
Qed.

(** Only reverse pairs are marked. *)
Lemma pruneFrom_marked (segments segs : list (Segment P)) (i : nat) (used : list nat) :
  (forall d s, nth_error segs d = Some s -> nth_error segments (i + d) = Some s) ->
  (forall k, has used k = true -> markedInPair m segments used k) ->
  forall k, has (pruneFrom m segs i used) k = true ->
            markedInPair m segments (pruneFrom m segs i used) k.
Proof.
  revert i used. induction segs as [|s rest IH]; intros i used Hsuf Hinv k Hk.
  - now apply Hinv.
  - cbn [pruneFrom] in *.
    assert (Hsuf' : forall d s0, nth_error rest d = Some s0 ->
                                 nth_error segments (S i + d) = Some s0).
    { intros d s0 Hd. replace (S i + d)%nat with (i + S d)%nat by lia.
      now apply Hsuf. }
    destruct (has used i) eqn:Hi; [now apply IH|].
    destruct (findReverse m rest (S i) used s) as [j|] eqn:Hf; [|now apply IH].
    apply IH; try assumption.
    destruct (findReverse_some rest (S i) used s j Hf) as [d [s2 [Ej [Hd [Hu Hr]]]]].
    intros x Hx. rewrite !has_cons in Hx.
    destruct (Nat.eqb x j) eqn:Exj; [|destruct (Nat.eqb x i) eqn:Exi].
    + apply Nat.eqb_eq in Exj. subst x.
      exists i, j, s, s2. repeat split; try assumption.
      * lia.
      * now right.
      * rewrite <- (Nat.add_0_r i). now apply Hsuf.
      * rewrite Ej. now apply Hsuf'.
      * rewrite !has_cons, Nat.eqb_refl. now rewrite orb_true_r.
      * rewrite !has_cons, Nat.eqb_refl. reflexivity.
    + apply Nat.eqb_eq in Exi. subst x.
      exists i, j, s, s2. repeat split; try assumption.
      * lia.
      * now left.
      * rewrite <- (Nat.add_0_r i). now apply Hsuf.
      * rewrite Ej. now apply Hsuf'.
      * rewrite !has_cons, Nat.eqb_refl. now rewrite orb_true_r.
      * rewrite !has_cons, Nat.eqb_refl. reflexivity.
    + cbn in Hx. apply (markedInPair_mono segments used); [|now apply Hinv].
      intros y Hy. rewrite !has_cons, Hy. now rewrite !orb_true_r.
Qed.

Lemma findNext_unused (segs : list (Segment P)) (j : nat) (used chain : list nat)
      (tip : P) (j' : nat) (seg : Segment P) :
  findNext m segs j used chain tip = Some (j', seg) -> has used j' = false.
Proof.
  revert j. induction segs as [|s rest IH]; intros j H; [discriminate|].
  cbn [findNext] in H.
  destruct (has used j) eqn:Hu; [now apply (IH (S j))|].
  destruct (has chain j); [now apply (IH (S j))|].
  destruct (m tip (sp1 s)); [injection H as <- _; exact Hu|].
  destruct (m tip (sp2 s)); [injection H as <- _; exact Hu|].
  now apply (IH (S j)).
Qed.

Lemma growChain_unused (fuel : nat) (segs : list (Segment P)) (used : list nat)
      (start : P) (ord : list (Segment P)) (idx : list nat) (tip : P) :
  (forall k, In k idx -> has used k = false) ->
  forall k, In k (currentLoopIndices (growChain m fuel segs used start ord idx tip)) ->
            has used k = false.
Proof.
  revert ord idx tip. induction fuel as [|fuel IH]; intros ord idx tip Hidx k Hk.
  - cbn in Hk. now apply Hidx.
  - cbn [growChain] in Hk.
    destruct (findNext m segs 0 used idx tip) as [[j seg]|] eqn:Hf.
    + assert (Hidx' : forall x, In x (idx ++ [j]) -> has used x = false).
      { intros x Hx. apply in_app_or in Hx. destruct Hx as [Hx | [<- | []]].
        - now apply Hidx.
        - exact (findNext_unused segs 0 used idx tip j seg Hf). }
      destruct (m (sp2 seg) start).
      * cbn in Hk. now apply Hidx'.
      * exact (IH _ _ _ Hidx' k Hk).
    + cbn in Hk. now apply Hidx.
Qed.

(** The segments of every extracted loop were unused when the extraction
    started. *)
Lemma extractFrom_unused (from segs : list (Segment P)) (i : nat) (used : list nat)
      (loop : list (Segment P)) (idxs : list nat) :
  In (loop, idxs) (extractFrom m from i segs used) ->
  forall k, In k idxs -> has used k = false.
Proof.
  revert i used. induction from as [|seg rest IH]; intros i used Hin k Hk;
    [contradiction|].
  cbn [extractFrom] in Hin.
  destruct (has used i) eqn:Hi; [exact (IH _ _ Hin k Hk)|].
  set (c := growChain m (List.length segs) segs used (sp1 seg) [seg] [i] (sp2 seg)) in *.
  destruct (loopClosed c).
  - destruct Hin as [E | Hin].
    + injection E as _ <-. unfold c in Hk.
      apply (growChain_unused (List.length segs) segs used (sp1 seg) [seg] [i] (sp2 seg)) with (k := k);
        [|exact Hk].
      intros x [<- | []]. exact Hi.
    + pose proof (IH _ _ Hin k Hk) as Hu. rewrite has_app in Hu.
      apply orb_false_iff in Hu. tauto.
  - exact (IH _ _ Hin k Hk).
Qed.

End BridgePruning.

Section BridgeExamples.

Import Geom Area Loops.
Local Open Scope R_scope.

Lemma Math_hypot_ge_l (a b : R) : Rabs a <= Math_hypot a b.
Proof.
  unfold Math_hypot. rewrite <- sqrt_Rsqr_abs.
  apply sqrt_le_1_alt. unfold Rsqr. nra.
Qed.

Lemma Math_hypot_ge_r (a b : R) : Rabs b <= Math_hypot a b.
Proof.
  unfold Math_hypot. rewrite <- sqrt_Rsqr_abs.
  apply sqrt_le_1_alt. unfold Rsqr. nra.
Qed.

Lemma Math_hypot_0 : Math_hypot 0 0 = 0.
Proof.
  unfold Math_hypot. replace (0 * 0 + 0 * 0) with 0 by ring. apply sqrt_0.
Qed.

Lemma matchesTol_near (tol : R) (p q : Point) :
  px p - px q = 0 -> py p - py q = 0 -> 0 < tol -> matchesTol tol p q = true.
Proof.
  intros Hx Hy Ht. unfold matchesTol. rewrite Hx, Hy, Math_hypot_0.
  destruct (Rlt_dec 0 tol); [reflexivity | contradiction].
Qed.

Lemma matchesTol_far (tol : R) (p q : Point) :
  tol <= Rabs (px p - px q) \/ tol <= Rabs (py p - py q) ->
  matchesTol tol p q = false.
Proof.
  intros H. unfold matchesTol.
  pose proof (Math_hypot_ge_l (px p - px q) (py p - py q)).
  pose proof (Math_hypot_ge_r (px p - px q) (py p - py q)).
  destruct (Rlt_dec _ tol); [|reflexivity]. exfalso. destruct H; lra.
Qed.

(** Telling two coordinates apart. *)
Ltac far_apart :=
  first [ left; cbn [px py cornerPoint];
          match goal with |- _ <= Rabs ?d =>
            first [ rewrite (Rabs_right d) by lra | rewrite (Rabs_left d) by lra ]
          end; lra
        | right; cbn [px py cornerPoint];
          match goal with |- _ <= Rabs ?d =>
            first [ rewrite (Rabs_right d) by lra | rewrite (Rabs_left d) by lra ]
          end; lra ].

(** Distinct corners are at least 0.25 apart in one coordinate. *)
Lemma cornerPoint_matches_tol (tol : R) (a b : Corner) :
  0 < tol <= 0.25 ->
  matchesTol tol (cornerPoint a) (cornerPoint b) = Corner_eqb a b.
Proof.
  intros Ht.
  destruct a, b; cbn [Corner_eqb];
    first [ apply matchesTol_near; cbn [px py cornerPoint]; lra
          | apply matchesTol_far; far_apart ].
Qed.

(** At the tolerance 0.0001 two corners of the profile match exactly when
    they are the same corner. *)
Lemma cornerPoint_matches (a b : Corner) :
  matchesTol 0.0001 (cornerPoint a) (cornerPoint b) = Corner_eqb a b.
Proof. apply cornerPoint_matches_tol. lra. Qed.

Lemma bridgedProfile_segments :
  allSegments bridgedProfile = map (mapSegment cornerPoint) (map cornerSegment bridgedCorners).
Proof. reflexivity. Qed.

Lemma tripleEdge_segments :
  allSegments tripleEdge = map (mapSegment cornerPoint) (map cornerSegment tripleCorners).
Proof. reflexivity. Qed.

Lemma bridgedProfile_extract :
  extractSegments Corner_eqb (map cornerSegment bridgedCorners)
  = [ (map cornerSegment [(SqA, SqB); (SqB, SqC); (SqC, SqD); (SqD, SqA)],
       [0; 1; 2; 3]%nat);
      (map cornerSegment [(TrA, TrB); (TrB, TrC); (TrC, TrA)],
       [5; 6; 7]%nat) ].
Proof. vm_compute. reflexivity. Qed.

Lemma tripleEdge_extract :
  extractSegments Corner_eqb (map cornerSegment tripleCorners)
  = [ (map cornerSegment [(SqB, SqA); (SqA, SqD); (SqD, SqB)], [2; 3; 4]%nat) ].
Proof. vm_compute. reflexivity. Qed.

Lemma tripleEdge_pruned :
  pruneBridges Corner_eqb (map cornerSegment tripleCorners) = [1; 0]%nat.
Proof. vm_compute. reflexivity. Qed.

(** The claim as stated fails on three copies of one edge: the segments 0
    (A to B) and 2 (B to A) are reverses of each other within the
    tolerance, yet segment 2 is not marked by the pruning and is the first
    segment of the loop that is returned. *)
Lemma extractAllLoops_third_copy_kept :
  exists s0 s2,
    nth_error (allSegments tripleEdge) 0 = Some s0
    /\ nth_error (allSegments tripleEdge) 2 = Some s2
    /\ isReverse (matchesTol 0.0001) s0 s2 = true
    /\ has (pruneBridges (matchesTol 0.0001) (allSegments tripleEdge)) 2 = false
    /\ map snd (extractSegments (matchesTol 0.0001) (allSegments tripleEdge))
       = [[2; 3; 4]%nat]
    /\ extractAllLoops tripleEdge 0.0001 = [[pt 1 0; pt 0 0; pt 0 1]].
Proof.
  rewrite tripleEdge_segments.
  exists (mapSegment cornerPoint (cornerSegment (SqA, SqB))),
         (mapSegment cornerPoint (cornerSegment (SqB, SqA))).
  split; [reflexivity|]. split; [reflexivity|].
  split; [rewrite (isReverse_map Corner Point cornerPoint Corner_eqb (matchesTol 0.0001)
                     cornerPoint_matches); reflexivity|].
  split.
  { unfold pruneBridges.
    rewrite (pruneFrom_map Corner Point cornerPoint Corner_eqb (matchesTol 0.0001)
               cornerPoint_matches).
    fold (pruneBridges Corner_eqb (map cornerSegment tripleCorners)).
    rewrite tripleEdge_pruned. reflexivity. }
  split.
  { rewrite (extractSegments_map Corner Point cornerPoint Corner_eqb (matchesTol 0.0001)
               cornerPoint_matches).
    rewrite tripleEdge_extract. reflexivity. }
  unfold extractAllLoops. rewrite tripleEdge_segments.
  rewrite (extractSegments_map Corner Point cornerPoint Corner_eqb (matchesTol 0.0001)
             cornerPoint_matches).
  rewrite tripleEdge_extract. reflexivity.
Qed.

(** C3 (amended). The bridge pruning of [extractAllLoops] runs before any
    chain is built and marks segments in pairs: each segment not yet marked
    is paired with the first later unmarked segment that is its reverse
    within the tolerance.  Afterwards at least one of any two segments that
    are reverses of each other is marked, every marked segment has a marked
    reverse partner, and no marked segment takes part in a loop.  On the
    unit square joined to a triangular hole by a slit drawn in both
    directions, [extractAllLoops] returns the square and the triangle, the
    slit in neither. *)
Theorem extractAllLoops_bridge_pruning :
  (forall (P : Type) (matches : P -> P -> bool) (segments : list (Segment P))
          (i j : nat) (s1 s2 : Segment P),
      (i < j)%nat ->
      nth_error segments i = Some s1 -> nth_error segments j = Some s2 ->
      isReverse matches s1 s2 = true ->
      has (pruneBridges matches segments) i = true
      \/ has (pruneBridges matches segments) j = true)
  /\ (forall (P : Type) (matches : P -> P -> bool) (segments : list (Segment P))
             (k : nat),
         has (pruneBridges matches segments) k = true ->
         markedInPair matches segments (pruneBridges matches segments) k)
  /\ (forall (P : Type) (matches : P -> P -> bool) (segments : list (Segment P))
             (loop : list (Segment P)) (idxs : list nat) (k : nat),
         In (loop, idxs) (extractSegments matches segments) ->
         In k idxs -> has (pruneBridges matches segments) k = false)
  /\ pruneBridges (matchesTol 0.0001) (allSegments bridgedProfile) = [8; 4]%nat
  /\ map snd (extractSegments (matchesTol 0.0001) (allSegments bridgedProfile))
     = [[0; 1; 2; 3]; [5; 6; 7]]%nat
  /\ extractAllLoops bridgedProfile 0.0001
     = [ [pt 0 0; pt 1 0; pt 1 1; pt 0 1];
         [pt 0.25 0.25; pt 0.75 0.25; pt 0.5 0.75] ].
Proof.
  split; [|split; [|split; [|split; [|split]]]].
  - intros P matches segments i j s1 s2 Hij H1 H2 Hr.
    replace j with (i + S (j - i - 1))%nat in * by lia.
    pose proof (pruneFrom_pairs P matches segments 0 [] i (j - i - 1) s1 s2 H1 H2 Hr)
      as Hp.
    exact Hp.
  - intros P matches segments k Hk.
    apply (pruneFrom_marked P matches segments segments 0 []); try assumption.
    + intros d s Hd. exact Hd.
    + intros x Hx. discriminate Hx.
  - intros P matches segments loop idxs k Hin Hk.
    exact (extractFrom_unused P matches segments segments 0 _ loop idxs Hin k Hk).
  - rewrite bridgedProfile_segments. unfold pruneBridges.
    rewrite (pruneFrom_map Corner Point cornerPoint Corner_eqb (matchesTol 0.0001)
               cornerPoint_matches).
    vm_compute. reflexivity.
  - rewrite bridgedProfile_segments.
    rewrite (extractSegments_map Corner Point cornerPoint Corner_eqb (matchesTol 0.0001)
               cornerPoint_matches).
    rewrite bridgedProfile_extract. reflexivity.
  - unfold extractAllLoops. rewrite bridgedProfile_segments.
    rewrite (extractSegments_map Corner Point cornerPoint Corner_eqb (matchesTol 0.0001)
               cornerPoint_matches).
    rewrite bridgedProfile_extract. reflexivity.
Qed.

End BridgeExamples.

(* ================================================================== *)
(** * The loops of the area code leave through their own exits *)
(* ================================================================== *)

(** The [while] loops of [extractAllLoops], [decomposeComplexLoops] and
    [findConnectedLoops] are modelled with a counter started at the number
    of segments, vertices and entities.  The counter never decides: with
    any larger start the results are the same. *)

Section LoopExits.

Import Geom Area Loops.

Lemma bounded_NoDup_length (l : list nat) (n : nat) :
  NoDup l -> (forall j, In j l -> (j < n)%nat) -> (List.length l <= n)%nat.
Proof.
  intros Hnd Hb.
  assert (Hi : incl l (seq 0 n)).
  { intros j Hj. apply in_seq. specialize (Hb j Hj). lia. }
  pose proof (@NoDup_incl_length nat l (seq 0 n) Hnd Hi) as Hl.
  rewrite length_seq in Hl. exact Hl.
Qed.

Lemma NoDup_snoc (l : list nat) (j : nat) :
  NoDup l -> ~ In j l -> NoDup (l ++ [j]).
Proof.
  intros Hnd Hj.
  apply (Permutation_NoDup (Permutation_cons_append l j)).
  constructor; assumption.
Qed.

Section Chains.

Variable P : Type.
Variable m : P -> P -> bool.

Lemma findNext_fresh (segs : list (Segment P)) (j : nat) (used chain : list nat)
      (tip : P) (k : nat) (seg : Segment P) :
  findNext m segs j used chain tip = Some (k, seg) ->
  has chain k = false /\ (j <= k < j + List.length segs)%nat.
Proof.
  revert j. induction segs as [|s rest IH]; intros j H; [discriminate|].
  cbn [findNext] in H. cbn [List.length].
  assert (Hrec : findNext m rest (S j) used chain tip = Some (k, seg) ->
                 has chain k = false /\ (j <= k < j + S (List.length rest))%nat).
  { intros H'. destruct (IH (S j) H') as [Hc Hk]. split; [exact Hc | lia]. }
  destruct (has used j); [now apply Hrec|].
  destruct (has chain j) eqn:Hc; [now apply Hrec|].
  destruct (m tip (sp1 s)); [injection H as <- _; split; [exact Hc | lia]|].
  destruct (m tip (sp2 s)); [injection H as <- _; split; [exact Hc | lia]|].
  now apply Hrec.
Qed.

(** The [while (true)] loop of the chain building ends by its [break]s. *)
Lemma growChain_fuel (segments : list (Segment P)) (used : list nat) (start : P) :
  forall (fuel : nat) (ord : list (Segment P)) (indices : list nat) (tip : P),
    NoDup indices ->
    (forall j, In j indices -> (j < List.length segments)%nat) ->
    (List.length segments < fuel + List.length indices)%nat ->
    forall extra,
      growChain m (fuel + extra) segments used start ord indices tip
      = growChain m fuel segments used start ord indices tip.
Proof.
  induction fuel as [|fuel IH]; intros ord indices tip Hnd Hb Hlen extra.
  - pose proof (bounded_NoDup_length indices _ Hnd Hb). lia.
  - cbn [Nat.add growChain].
    destruct (findNext m segments 0 used indices tip) as [[j seg]|] eqn:Hf;
      [|reflexivity].
    destruct (findNext_fresh _ _ _ _ _ _ _ Hf) as [Hc Hj].
    destruct (m (sp2 seg) start); [reflexivity|].
    apply IH.
    + apply NoDup_snoc; [exact Hnd|].
      intros Hin. apply has_in in Hin. congruence.
    + intros x Hx. apply in_app_or in Hx.
      destruct Hx as [Hx | [<- | []]]; [now apply Hb | lia].
    + rewrite length_app. cbn. lia.
Qed.

(** The start of a chain in [extractAllLoops]. *)
Lemma growChain_start_fuel (segments : list (Segment P)) (used : list nat)
      (seg : Segment P) (i extra : nat) :
  (i < List.length segments)%nat ->
  growChain m (List.length segments + extra) segments used
            (sp1 seg) [seg] [i] (sp2 seg)
  = growChain m (List.length segments) segments used
              (sp1 seg) [seg] [i] (sp2 seg).
Proof.
  intros Hi. apply growChain_fuel.
  - constructor; [intros [] | constructor].
  - intros j [<- | []]. exact Hi.
  - cbn. lia.
Qed.

End Chains.

Section Splits.

Variable A : Type.
Variable m : A -> A -> bool.

Lemma findRepeat_range (v : A) (rest : list A) (j0 j : nat) :
  findRepeat m v rest j0 = Some j -> (j0 <= j < j0 + List.length rest)%nat.
Proof.
  revert j0. induction rest as [|w rest IH]; intros j0 H; [discriminate|].
  cbn [findRepeat] in H. cbn [List.length].
  destruct (m v w).
  - injection H as <-. lia.
  - specialize (IH (S j0) H). lia.
Qed.

Lemma findPinch_range (l : list A) (i0 i j : nat) :
  findPinch m l i0 = Some (i, j) ->
  (i0 <= i /\ i < j /\ j < i0 + List.length l)%nat.
Proof.
  revert i0. induction l as [|v rest IH]; intros i0 H; [discriminate|].
  cbn [findPinch] in H. cbn [List.length].
  destruct (findRepeat m v rest (S i0)) as [j'|] eqn:Hr.
  - injection H as <- <-. apply findRepeat_range in Hr. lia.
  - specialize (IH (S i0) H). lia.
Qed.

(** The [while (foundSplit)] loop ends when no split is found. *)
Lemma splitLoops_fuel :
  forall (fuel : nat) (currentLoop : list A) (simpleLoops : list (list A)),
    (List.length currentLoop <= fuel)%nat ->
    forall extra,
      splitLoops m (fuel + extra) currentLoop simpleLoops
      = splitLoops m fuel currentLoop simpleLoops.
Proof.
  induction fuel as [|fuel IH]; intros currentLoop simpleLoops Hlen extra.
  - destruct currentLoop; [|cbn in Hlen; lia].
    destruct extra; reflexivity.
  - cbn [Nat.add splitLoops].
    destruct (findPinch m currentLoop 0) as [[i j]|] eqn:Hp; [|reflexivity].
    apply findPinch_range in Hp.
    apply IH. rewrite length_app, length_firstn, length_skipn. lia.
Qed.

(** [decomposeComplexLoops] with any larger counter. *)
Lemma decomposeWith_fuel (vertices : list A) (extra : nat) :
  splitLoops m (List.length vertices + extra) vertices []
  = splitLoops m (List.length vertices) vertices [].
Proof. apply splitLoops_fuel. lia. Qed.

End Splits.

Section Traversal.

Variable entityList : list Entity.

Lemma neighbours_range (k j : nat) :
  In j (neighbours entityList k) -> (j < List.length entityList)%nat.
Proof.
  unfold neighbours. destruct (nth_error entityList k); [|intros []].
  intros H. apply filter_In in H. destruct H as [H _].
  apply in_seq in H. lia.
Qed.

Lemma pushNeighbours_spec (ns : list nat) :
  forall visited stack,
    exists new,
      snd (pushNeighbours ns visited stack) = stack ++ new
      /\ NoDup new
      /\ (forall k, In k new -> In k ns /\ has visited k = false)
      /\ (forall k, has visited k = true \/ In k new ->
                    has (fst (pushNeighbours ns visited stack)) k = true).
Proof.
  induction ns as [|n rest IH]; intros visited stack.
  - exists []. cbn. rewrite app_nil_r. split; [reflexivity|].
    split; [constructor|]. split; [intros k []|].
    intros k [H | []]. exact H.
  - cbn [pushNeighbours]. destruct (has visited n) eqn:Hn.
    + destruct (IH visited stack) as (new & E & Hnd & Hnew & Hv).
      exists new. split; [exact E|]. split; [exact Hnd|].
      split; [|exact Hv].
      intros k Hk. destruct (Hnew k Hk) as [H1 H2]. split; [right; exact H1 | exact H2].
    + destruct (IH (n :: visited) (stack ++ [n])) as (new & E & Hnd & Hnew & Hv).
      exists (n :: new). split; [|split; [|split]].
      * rewrite E, <- app_assoc. reflexivity.
      * constructor; [|exact Hnd].
        intros Hin. destruct (Hnew n Hin) as [_ H2].
        rewrite has_cons, Nat.eqb_refl in H2. discriminate.
      * intros k [<- | Hk]; [split; [left; reflexivity | exact Hn]|].
        destruct (Hnew k Hk) as [H1 H2]. rewrite has_cons in H2.
        apply orb_false_iff in H2. destruct H2 as [_ H2].
        split; [right; exact H1 | exact H2].
      * intros k Hk. apply Hv. rewrite has_cons.
        destruct Hk as [Hk | [<- | Hk]].
        -- left. rewrite Hk. apply orb_true_r.
        -- left. rewrite Nat.eqb_refl. reflexivity.
        -- right. exact Hk.
Qed.

(** The [while (stack.length > 0)] loop ends with an empty stack. *)
Lemma traverse_fuel :
  forall (fuel : nat) (stack visited component : list nat),
    NoDup (component ++ stack) ->
    (forall k, In k (component ++ stack) ->
               (k < List.length entityList)%nat /\ has visited k = true) ->
    (List.length entityList <= fuel + List.length component)%nat ->
    forall extra,
      traverse (fuel + extra) entityList stack visited component
      = traverse fuel entityList stack visited component.
Proof.
  induction fuel as [|fuel IH]; intros stack visited component Hnd Hin Hlen extra.
  - assert (Hb : (List.length (component ++ stack) <= List.length entityList)%nat).
    { apply bounded_NoDup_length; [exact Hnd|]. intros j Hj. now apply Hin. }
    rewrite length_app in Hb.
    destruct stack; [|cbn in Hb; lia].
    destruct extra; reflexivity.
  - cbn [Nat.add traverse].
    destruct (rev stack) as [|curr restRev] eqn:Er; [reflexivity|].
    assert (Es : stack = rev restRev ++ [curr]).
    { rewrite <- (rev_involutive stack), Er. reflexivity. }
    destruct (pushNeighbours_spec (neighbours entityList curr) visited (rev restRev))
      as (new & E & Hnew & Hfrom & Hv).
    destruct (pushNeighbours (neighbours entityList curr) visited (rev restRev))
      as [visited' stack'].
    cbn [fst snd] in E, Hv. subst stack'.
    assert (Hperm : Permutation ((component ++ [curr]) ++ rev restRev ++ new)
                                ((component ++ stack) ++ new)).
    { rewrite Es. rewrite <- !app_assoc. apply Permutation_app_head.
      rewrite !app_assoc. apply Permutation_app_tail.
      apply Permutation_app_comm. }
    apply IH.
    + apply (Permutation_NoDup (Permutation_sym Hperm)).
      apply NoDup_app; [exact Hnd | exact Hnew |].
      intros k Hk Hk'. destruct (Hin k Hk) as [_ Hvis].
      destruct (Hfrom k Hk') as [_ Hnot]. congruence.
    + intros k Hk. apply (Permutation_in _ Hperm) in Hk.
      apply in_app_or in Hk. destruct Hk as [Hk | Hk].
      * destruct (Hin k Hk) as [H1 H2]. split; [exact H1|].
        apply Hv. left. exact H2.
      * destruct (Hfrom k Hk) as [H1 _]. split.
        -- exact (neighbours_range curr k H1).
        -- apply Hv. right. exact Hk.
    + rewrite length_app. cbn. lia.
Qed.

(** The start of a component in [findConnectedLoops]. *)
Lemma traverse_start_fuel (ent : nat) (visited : list nat) (extra : nat) :
  (ent < List.length entityList)%nat ->
  traverse (List.length entityList + extra) entityList [ent] (ent :: visited) []
  = traverse (List.length entityList) entityList [ent] (ent :: visited) [].
Proof.
  intros Hent. apply traverse_fuel.
  - cbn. constructor; [intros [] | constructor].
  - intros k [<- | []]. split; [exact Hent|].
    rewrite has_cons, Nat.eqb_refl. reflexivity.
  - cbn. lia.
Qed.

End Traversal.

End LoopExits.

(* ================================================================== *)
(** * [calculateArea]: outer loop minus holes *)
(* ================================================================== *)

Section AreaProfile.

Import Geom Area Loops.
Local Open Scope R_scope.

Lemma insertDesc_perm (a : R) (l : list R) : Permutation (a :: l) (insertDesc a l).
Proof.
  induction l as [|b rest IH]; cbn [insertDesc]; [reflexivity|].
  destruct (Rle_dec b a); [reflexivity|].
  rewrite perm_swap. now apply perm_skip.
Qed.

Lemma sortDesc_perm (l : list R) : Permutation l (sortDesc l).
Proof.
  induction l as [|a l IH]; [reflexivity|].
  cbn [sortDesc fold_right]. fold (sortDesc l).
  rewrite <- insertDesc_perm. now apply perm_skip.
Qed.

Lemma insertDesc_sorted (a : R) (l : list R) :
  StronglySorted (fun x y => y <= x) l ->
  StronglySorted (fun x y => y <= x) (insertDesc a l).
Proof.
  induction 1 as [|b rest Hs IH Hb]; cbn [insertDesc].
  - repeat constructor.
  - destruct (Rle_dec b a) as [Hle | Hgt].
    + constructor; [now constructor|].
      constructor; [exact Hle|].
      rewrite Forall_forall in *. intros x Hx. specialize (Hb x Hx). lra.
    + constructor; [exact IH|].
      rewrite Forall_forall in *. intros x Hx.
      apply (Permutation_in _ (Permutation_sym (insertDesc_perm a rest))) in Hx.
      destruct Hx as [<- | Hx]; [lra | now apply Hb].
Qed.

Lemma sortDesc_sorted (l : list R) :
  StronglySorted (fun x y => y <= x) (sortDesc l).
Proof.
  induction l as [|a l IH]; [constructor|].
  cbn [sortDesc fold_right]. fold (sortDesc l). now apply insertDesc_sorted.
Qed.

Lemma fold_left_Rplus (l : list R) (a : R) : fold_left Rplus l a = a + sumR l.
Proof.
  revert a. induction l as [|x l IH]; intros a; cbn [fold_left].
  - rewrite sumR_nil. lra.
  - rewrite IH, sumR_cons. lra.
Qed.

Lemma loopAreas_nil : loopAreas [] = [].
Proof. reflexivity. Qed.

(** A lone circle has no segments, hence no loops. *)
Lemma selectionLoops_circle (cx cy r : R) :
  selectionLoops [CircleEnt cx cy r] = [].
Proof. reflexivity. Qed.

(** C6. When the simple loops extracted from a selection give [k >= 2]
    areas above the 0.001 spike filter, [calculateArea] returns
    [{area, count, details}] with [count = k] and [area] the largest loop
    area minus the sum of all the others: the result depends on the areas
    only, not on where the loops lie.  A selection that is a single CIRCLE
    gives [PI * radius * radius]. *)
Theorem calculateArea_profile (entities : list Entity) (k : nat) :
  List.length (loopAreas (selectionLoops entities)) = k ->
  (2 <= k)%nat ->
  (exists maxArea rest,
      Permutation (loopAreas (selectionLoops entities)) (maxArea :: rest)
      /\ (forall a, In a rest -> a <= maxArea)
      /\ calculateArea entities
         = AreaProfile (maxArea - sumR rest) k maxArea (sumR rest))
  /\ (forall cx cy radius,
         calculateArea [CircleEnt cx cy radius] = AreaNumber (PI * radius * radius)).
Proof.
  intros Hlen Hk. split; [|reflexivity].
  set (areas := loopAreas (selectionLoops entities)) in *.
  pose proof (sortDesc_perm areas) as Hperm.
  pose proof (sortDesc_sorted areas) as Hsorted.
  assert (Hlen' : List.length (sortDesc areas) = k).
  { rewrite <- Hlen. symmetry. now apply Permutation_length. }
  destruct (sortDesc areas) as [|maxArea [|a1 rest]] eqn:Es;
    [cbn in Hlen'; lia | cbn in Hlen'; lia |].
  exists maxArea, (a1 :: rest).
  split; [exact Hperm|].
  split.
  { inversion Hsorted as [|? ? _ Hall]; subst.
    rewrite Forall_forall in Hall. exact Hall. }
  assert (Hne : selectionLoops entities <> []).
  { intros E. unfold areas in Hlen. rewrite E in Hlen. cbn in Hlen. lia. }
  assert (Hcomp : findConnectedLoops entities <> []).
  { intros E. apply Hne. unfold selectionLoops. now rewrite E. }
  assert (Hbody :
    match findConnectedLoops entities with
    | [] => AreaNull
    | _ :: _ =>
        match selectionLoops entities with
        | [] => AreaNull
        | (_ :: _) as allLoops =>
            match sortDesc (loopAreas allLoops) with
            | [] => AreaNull
            | [maxArea] => AreaSingle maxArea
            | maxArea :: (_ :: _) as rest =>
                AreaProfile (maxArea - fold_left Rplus rest 0)
                            (List.length (maxArea :: rest))
                            maxArea (fold_left Rplus rest 0)
            end
        end
    end = AreaProfile (maxArea - sumR (a1 :: rest)) k maxArea (sumR (a1 :: rest))).
  { destruct (findConnectedLoops entities) as [|c cs]; [contradiction|].
    unfold areas in Es.
    destruct (selectionLoops entities) as [|l ls] eqn:El; [contradiction|].
    rewrite Es. rewrite fold_left_Rplus.
    replace (0 + sumR (a1 :: rest)) with (sumR (a1 :: rest)) by lra.
    now rewrite Hlen'. }
  destruct entities as [|e [|e2 es]].
  - exfalso. apply Hne. reflexivity.
  - destruct e; try (unfold calculateArea; exact Hbody).
    exfalso. apply Hne. reflexivity.
  - unfold calculateArea. destruct e; exact Hbody.
Qed.

End AreaProfile.

Section HypotFacts.

Import Geom.
Local Open Scope R_scope.

Lemma Math_hypot_nonneg (a b : R) : 0 <= Math_hypot a b.
Proof. apply sqrt_pos. Qed.

Lemma Math_hypot_sqr (a b : R) : Math_hypot a b * Math_hypot a b = a * a + b * b.
Proof. unfold Math_hypot. apply sqrt_sqrt. nra. Qed.

End HypotFacts.

(** Facts about every [Math_hypot] of the goal and of the hypotheses. *)
Ltac hypot_facts :=
  repeat match goal with
  | |- context [Geom.Math_hypot ?a ?b] =>
      lazymatch goal with
      | _ : (Geom.Math_hypot a b * Geom.Math_hypot a b = _)%R |- _ => fail
      | _ => pose proof (Math_hypot_nonneg a b); pose proof (Math_hypot_sqr a b)
      end
  | H : context [Geom.Math_hypot ?a ?b] |- _ =>
      lazymatch goal with
      | _ : (Geom.Math_hypot a b * Geom.Math_hypot a b = _)%R |- _ => fail
      | _ => pose proof (Math_hypot_nonneg a b); pose proof (Math_hypot_sqr a b)
      end
  end.

Ltac refute_R := exfalso; hypot_facts; nra.

(** Decide the comparisons of real numbers an evaluation is stuck on. *)
Ltac decide_R :=
  repeat match goal with
  | |- context [Rlt_dec ?a ?b] =>
      destruct (Rlt_dec a b);
      [ try solve [refute_R] | try solve [refute_R] ]
  | |- context [Rle_dec ?a ?b] =>
      destruct (Rle_dec a b);
      [ try solve [refute_R] | try solve [refute_R] ]
  | |- context [Req_dec_T ?a ?b] =>
      destruct (Req_dec_T a b);
      [ try solve [refute_R] | try solve [refute_R] ]
  end.

Section AreaProfileWitness.

Import Geom Area Loops.
Local Open Scope R_scope.

Lemma bowTie_segments :
  allSegments bowTie
  = map (mapSegment cornerPoint)
        (map cornerSegment
             [(SqA, SqB); (SqB, SqC); (SqC, SqA); (SqA, SqD); (SqD, TrC); (TrC, SqA)]).
Proof.
  unfold allSegments, bowTie. cbn [flat_map decomposeEntity List.length Nat.ltb Nat.leb
                                   map bowTieCorners].
  change ((Z.land 1 1 =? 1)%Z || false)%bool with true. cbv iota.
  cbn [seq map app]. unfold polySegment.
  cbn [nth List.length Nat.modulo Nat.divmod fst snd Nat.add Nat.sub pvbulge pvx pvy
       cornerPVertex].
  decide_R. reflexivity.
Qed.

Lemma cornerVertex_matches_tol (tol : R) (a b : Corner) :
  0 < tol <= 0.25 ->
  vertexMatches tol (cornerVertex a) (cornerVertex b) = Corner_eqb a b.
Proof.
  intros Ht. exact (cornerPoint_matches_tol tol a b Ht).
Qed.

Section DecomposeNaturality.

Variables (A B : Type) (f : A -> B).
Variable m : A -> A -> bool.
Variable m' : B -> B -> bool.
Hypothesis Hm : forall a b, m' (f a) (f b) = m a b.

Lemma findRepeat_map (v : A) (rest : list A) (j : nat) :
  findRepeat m' (f v) (map f rest) j = findRepeat m v rest j.
Proof.
  revert j. induction rest as [|w rest IH]; intros j; [reflexivity|].
  cbn [map findRepeat]. rewrite Hm, IH. reflexivity.
Qed.

Lemma findPinch_map (l : list A) (i : nat) :
  findPinch m' (map f l) i = findPinch m l i.
Proof.
  revert i. induction l as [|v rest IH]; intros i; [reflexivity|].
  cbn [map findPinch]. rewrite findRepeat_map, IH. reflexivity.
Qed.

Lemma splitLoops_map (fuel : nat) (cur : list A) (acc : list (list A)) :
  splitLoops m' fuel (map f cur) (map (map f) acc)
  = (map f (fst (splitLoops m fuel cur acc)),
     map (map f) (snd (splitLoops m fuel cur acc))).
Proof.
  revert cur acc. induction fuel as [|fuel IH]; intros cur acc; [reflexivity|].
  cbn [splitLoops]. rewrite findPinch_map.
  destruct (findPinch m cur 0) as [[i j]|]; [|reflexivity].
  rewrite <- IH. f_equal.
  - now rewrite map_app, <- firstn_map, <- skipn_map.
  - rewrite map_app. cbn [map]. now rewrite <- firstn_map, <- skipn_map.
Qed.

Lemma decomposeWith_map (l : list A) :
  decomposeWith m' (map f l) = map (map f) (decomposeWith m l).
Proof.
  unfold decomposeWith. rewrite length_map.
  destruct (List.length l <? 3)%nat; [reflexivity|].
  pose proof (splitLoops_map (List.length l) l []) as E. cbn [map] in E.
  rewrite E. destruct (splitLoops m (List.length l) l []) as [cur acc].
  cbn [fst snd]. rewrite length_map.
  destruct (3 <=? List.length cur)%nat; [|reflexivity].
  now rewrite map_app.
Qed.

End DecomposeNaturality.

Lemma bowTie_loops :
  selectionLoops bowTie
  = [map cornerVertex [SqA; SqB; SqC]; map cornerVertex [SqA; SqD; TrC]].
Proof.
  unfold selectionLoops. cbn [findConnectedLoops bowTie flat_map].
  fold bowTie. unfold extractAllLoops. rewrite bowTie_segments.
  rewrite (extractSegments_map Corner Point cornerPoint Corner_eqb (matchesTol 0.01)
             (fun a b => cornerPoint_matches_tol 0.01 a b ltac:(lra))).
  replace (extractSegments Corner_eqb
             (map cornerSegment
                  [(SqA, SqB); (SqB, SqC); (SqC, SqA); (SqA, SqD); (SqD, TrC); (TrC, SqA)]))
    with [ (map cornerSegment [(SqA, SqB); (SqB, SqC); (SqC, SqA)], [0; 1; 2]%nat);
           (map cornerSegment [(SqA, SqD); (SqD, TrC); (TrC, SqA)], [3; 4; 5]%nat) ]
    by (vm_compute; reflexivity).
  cbn [map fst snd app flat_map]. unfold decomposeComplexLoops.
  change [segmentVertex (mapSegment cornerPoint (cornerSegment (SqA, SqB)));
          segmentVertex (mapSegment cornerPoint (cornerSegment (SqB, SqC)));
          segmentVertex (mapSegment cornerPoint (cornerSegment (SqC, SqA)))]
    with (map cornerVertex [SqA; SqB; SqC]).
  change [segmentVertex (mapSegment cornerPoint (cornerSegment (SqA, SqD)));
          segmentVertex (mapSegment cornerPoint (cornerSegment (SqD, TrC)));
          segmentVertex (mapSegment cornerPoint (cornerSegment (TrC, SqA)))]
    with (map cornerVertex [SqA; SqD; TrC]).
  rewrite !(decomposeWith_map Corner Vertex cornerVertex Corner_eqb (vertexMatches 0.15)
              (fun a b => cornerVertex_matches_tol 0.15 a b ltac:(lra))).
  reflexivity.
Qed.

Lemma straight_cornerVertex (l : list Corner) :
  Forall straight (map cornerVertex l).
Proof. induction l; constructor; [reflexivity | assumption]. Qed.

Lemma bowTie_areas : loopAreas (selectionLoops bowTie) = [0.5; 0.25].
Proof.
  rewrite bowTie_loops. unfold loopAreas.
  cbn [flat_map app]. rewrite !length_map. cbn [List.length Nat.leb].
  rewrite !(calculateGeometricArea_crossTotal (straight_cornerVertex _)).
  assert (E1 : crossTotal (map cornerVertex [SqA; SqB; SqC]) = 1).
  { unfold crossTotal, cycPairs, cross. cbn. rewrite !sumR_cons, sumR_nil. lra. }
  assert (E2 : crossTotal (map cornerVertex [SqA; SqD; TrC]) = - 0.5).
  { unfold crossTotal, cycPairs, cross. cbn. rewrite !sumR_cons, sumR_nil. lra. }
  rewrite E1, E2.
  replace (Rabs (1 / 2)) with 0.5 by (rewrite Rabs_right; lra).
  replace (Rabs (- 0.5 / 2)) with 0.25 by (rewrite Rabs_left; lra).
  decide_R. reflexivity.
Qed.

(** The theorem on the bow tie: two loops of area 0.5 and 0.25 that lie
    side by side; the smaller one is subtracted all the same. *)
Lemma calculateArea_profile_witness :
  (exists maxArea rest,
      Permutation (loopAreas (selectionLoops bowTie)) (maxArea :: rest)
      /\ (forall a, In a rest -> a <= maxArea)
      /\ calculateArea bowTie
         = AreaProfile (maxArea - sumR rest) 2 maxArea (sumR rest))
  /\ (forall cx cy radius,
         calculateArea [CircleEnt cx cy radius] = AreaNumber (PI * radius * radius)).
Proof.
  apply (calculateArea_profile bowTie 2).
  - rewrite bowTie_areas. reflexivity.
  - apply le_n.
Defined.

End AreaProfileWitness.

(* ================================================================== *)
(** * [findSnapPoint]: special snaps before nearest, then distance *)
(* ================================================================== *)

Section SnapPriority.

Import Geom Snap.
Local Open Scope R_scope.

Variable Entity : Type.
Variable layerHidden : Entity -> bool.
Variable getEntitySnapPoints :
  Entity -> Point -> option Point -> list (SnapPoint Entity).
Variable worldToScreen : R -> R -> Point.
Variable snapTolerance : R.
Variable worldPos : Point.

Local Abbreviation d := (screenDist worldToScreen worldPos).
Local Abbreviation inTol := (inTolerance worldToScreen snapTolerance worldPos).
Local Abbreviation step := (consider worldToScreen snapTolerance worldPos).
Local Abbreviation knows := (bestOf worldToScreen snapTolerance worldPos).
Local Abbreviation outcome := (Snap.outcome worldToScreen worldPos).

Lemma isSpecial_not_nearest (t : SnapType) :
  isSpecial t = negb (SnapType_eqb t nearest).
Proof. destruct t; reflexivity. Qed.

Lemma in_snoc (A : Type) (x y : A) (l : list A) :
  In x (l ++ [y]) -> In x l \/ x = y.
Proof.
  intros H. apply in_app_or in H. destruct H as [H | [H | []]]; auto.
Qed.

(** One candidate more keeps the running best the best of what was seen. *)
Lemma consider_bestOf (seen : list (SnapPoint Entity)) (b : Best Entity)
      (s : SnapPoint Entity) :
  knows seen b -> knows (seen ++ [s]) (step b s).
Proof.
  intros Hb. unfold consider.
  destruct (Rlt_dec (d s) snapTolerance) as [Hin | Hout].
  - unfold bestOf in Hb.
    destruct (closestSnap b) as [r|] eqn:Er.
    + destruct Hb as [Hd [Hr [Hrin Hbest]]]. rewrite Hd. cbn [closerThan].
      rewrite (isSpecial_not_nearest (stype r)) in *.
      destruct (Rlt_dec (d s) (d r)) as [Hlt | Hge].
      * destruct (SnapType_eqb (stype r) nearest) eqn:Ern; cbn [negb andb] in *.
        -- (* nearest replaced by a closer candidate *)
           unfold bestOf. cbn [closestSnap closestDist].
           split; [reflexivity|]. split; [apply in_or_app; right; now left|].
           split; [exact Hin|].
           rewrite (isSpecial_not_nearest (stype s)).
           destruct (SnapType_eqb (stype s) nearest) eqn:Esn; cbn [negb].
           ++ intros s' Hs' Hs'in. apply in_snoc in Hs'. destruct Hs' as [Hs' | ->].
              ** destruct (Hbest s' Hs' Hs'in) as [Hns Hle]. split; [exact Hns | lra].
              ** split; [rewrite isSpecial_not_nearest, Esn; reflexivity | lra].
           ++ intros s' Hs' Hs'in Hsp. apply in_snoc in Hs'. destruct Hs' as [Hs' | ->].
              ** destruct (Hbest s' Hs' Hs'in) as [Hns _]. congruence.
              ** lra.
        -- destruct (SnapType_eqb (stype s) nearest) eqn:Esn.
           ++ (* a closer nearest does not displace a special snap *)
              unfold bestOf. rewrite Er, Hd.
              split; [reflexivity|]. split; [apply in_or_app; now left|].
              split; [exact Hrin|].
              rewrite (isSpecial_not_nearest (stype r)), Ern. cbn [negb].
              intros s' Hs' Hs'in Hsp. apply in_snoc in Hs'. destruct Hs' as [Hs' | ->].
              ** now apply Hbest.
              ** rewrite isSpecial_not_nearest, Esn in Hsp. discriminate.
           ++ unfold bestOf. cbn [closestSnap closestDist].
              split; [reflexivity|]. split; [apply in_or_app; right; now left|].
              split; [exact Hin|].
              rewrite (isSpecial_not_nearest (stype s)), Esn. cbn [negb].
              intros s' Hs' Hs'in Hsp. apply in_snoc in Hs'. destruct Hs' as [Hs' | ->].
              ** pose proof (Hbest s' Hs' Hs'in Hsp). lra.
              ** lra.
      * destruct (SnapType_eqb (stype s) nearest) eqn:Esn;
          destruct (SnapType_eqb (stype r) nearest) eqn:Ern; cbn [negb andb] in *.
        -- unfold bestOf. rewrite Er, Hd.
           split; [reflexivity|]. split; [apply in_or_app; now left|].
           split; [exact Hrin|].
           rewrite (isSpecial_not_nearest (stype r)), Ern. cbn [negb].
           intros s' Hs' Hs'in. apply in_snoc in Hs'. destruct Hs' as [Hs' | ->].
           ++ now apply Hbest.
           ++ split; [rewrite isSpecial_not_nearest, Esn; reflexivity | lra].
        -- unfold bestOf. rewrite Er, Hd.
           split; [reflexivity|]. split; [apply in_or_app; now left|].
           split; [exact Hrin|].
           rewrite (isSpecial_not_nearest (stype r)), Ern. cbn [negb].
           intros s' Hs' Hs'in Hsp. apply in_snoc in Hs'. destruct Hs' as [Hs' | ->].
           ++ now apply Hbest.
           ++ rewrite isSpecial_not_nearest, Esn in Hsp. discriminate.
        -- (* a special snap displaces a nearest one that is not farther *)
           unfold bestOf. cbn [closestSnap closestDist].
           split; [reflexivity|]. split; [apply in_or_app; right; now left|].
           split; [exact Hin|].
           rewrite (isSpecial_not_nearest (stype s)), Esn. cbn [negb].
           intros s' Hs' Hs'in Hsp. apply in_snoc in Hs'. destruct Hs' as [Hs' | ->].
           ++ destruct (Hbest s' Hs' Hs'in) as [Hns _]. congruence.
           ++ lra.
        -- unfold bestOf. rewrite Er, Hd.
           split; [reflexivity|]. split; [apply in_or_app; now left|].
           split; [exact Hrin|].
           rewrite (isSpecial_not_nearest (stype r)), Ern. cbn [negb].
           intros s' Hs' Hs'in Hsp. apply in_snoc in Hs'. destruct Hs' as [Hs' | ->].
           ++ now apply Hbest.
           ++ lra.
    + destruct Hb as [Hd Hnone]. rewrite Hd. cbn [closerThan].
      unfold bestOf. cbn [closestSnap closestDist].
      split; [reflexivity|]. split; [apply in_or_app; right; now left|].
      split; [exact Hin|].
      destruct (isSpecial (stype s)) eqn:Esp.
      * intros s' Hs' Hs'in _. apply in_snoc in Hs'. destruct Hs' as [Hs' | ->].
        -- exfalso. exact (Hnone s' Hs' Hs'in).
        -- lra.
      * intros s' Hs' Hs'in. apply in_snoc in Hs'. destruct Hs' as [Hs' | ->].
        -- exfalso. exact (Hnone s' Hs' Hs'in).
        -- split; [exact Esp | lra].
  - unfold bestOf in *. destruct (closestSnap b) as [r|].
    + destruct Hb as [Hd [Hr [Hrin Hbest]]].
      split; [exact Hd|]. split; [apply in_or_app; now left|].
      split; [exact Hrin|].
      destruct (isSpecial (stype r)).
      * intros s' Hs' Hs'in Hsp. apply in_snoc in Hs'. destruct Hs' as [Hs' | ->].
        -- now apply Hbest.
        -- contradiction.
      * intros s' Hs' Hs'in. apply in_snoc in Hs'. destruct Hs' as [Hs' | ->].
        -- now apply Hbest.
        -- contradiction.
    + destruct Hb as [Hd Hnone]. split; [exact Hd|].
      intros s' Hs' Hs'in. apply in_snoc in Hs'. destruct Hs' as [Hs' | ->].
      * exact (Hnone s' Hs' Hs'in).
      * contradiction.
Qed.

Lemma fold_consider_bestOf (l seen : list (SnapPoint Entity)) (b : Best Entity) :
  knows seen b -> knows (seen ++ l) (fold_left step l b).
Proof.
  revert seen b. induction l as [|s l IH]; intros seen b Hb.
  - now rewrite app_nil_r.
  - cbn [fold_left].
    replace (seen ++ s :: l) with ((seen ++ [s]) ++ l)
      by (rewrite <- app_assoc; reflexivity).
    apply IH. now apply consider_bestOf.
Qed.

Lemma selectSnap_bestOf (snaps : list (SnapPoint Entity)) :
  knows snaps (selectSnap worldToScreen snapTolerance worldPos snaps).
Proof.
  unfold selectSnap.
  apply (fold_consider_bestOf snaps [] (mkBest None None)).
  split; [reflexivity|]. intros s [].
Qed.

(** The nested loops of [findSnapPoint] visit the candidate enumeration
    in order. *)
Lemma findSnapPoint_selectSnap (entities : list Entity) (referencePoint : option Point) :
  findSnapPoint layerHidden getEntitySnapPoints worldToScreen snapTolerance
                worldPos entities referencePoint
  = closestSnap
      (selectSnap worldToScreen snapTolerance worldPos
         (candidates layerHidden getEntitySnapPoints worldPos entities referencePoint)).
Proof.
  unfold findSnapPoint, selectSnap, candidates. f_equal.
  generalize (mkBest (Entity := Entity) None None) as b.
  induction entities as [|e es IH]; intros b; [reflexivity|].
  cbn [fold_left flat_map]. rewrite fold_left_app.
  destruct (layerHidden e); cbn [fold_left]; apply IH.
Qed.

(** What [selectSnap] returns, read off the invariant. *)
Lemma selectSnap_spec (snaps : list (SnapPoint Entity)) :
  let r := closestSnap (selectSnap worldToScreen snapTolerance worldPos snaps) in
  ((exists s, In s snaps /\ inTol s /\ isSpecial (stype s) = true) ->
   exists r0, r = Some r0 /\ In r0 snaps /\ inTol r0
              /\ isSpecial (stype r0) = true
              /\ forall s, In s snaps -> inTol s -> isSpecial (stype s) = true ->
                           d r0 <= d s)
  /\ (forall r0, r = Some r0 -> stype r0 = nearest ->
         forall s, In s snaps -> inTol s ->
                   stype s = nearest /\ d r0 <= d s)
  /\ (forall r0, r = Some r0 -> In r0 snaps /\ inTol r0)
  /\ (r = None <-> forall s, In s snaps -> ~ inTol s).
Proof.
  intros r. pose proof (selectSnap_bestOf snaps) as Hb. unfold bestOf in Hb.
  fold r in Hb.
  assert (Hnear : forall t, isSpecial t = false -> t = nearest)
    by (intros t; destruct t; cbn; congruence).
  destruct r as [r0|].
  - destruct Hb as [_ [Hin [Htol Hbest]]].
    split; [|split; [|split]].
    + intros [s [Hs [Hst Hsp]]]. exists r0.
      destruct (isSpecial (stype r0)) eqn:Er.
      * repeat split; auto.
      * destruct (Hbest s Hs Hst) as [Hns _]. congruence.
    + intros r1 E Hn. injection E as <-.
      rewrite Hn in Hbest. cbn in Hbest.
      intros s Hs Hst. destruct (Hbest s Hs Hst) as [Hns Hle].
      split; [now apply Hnear | exact Hle].
    + intros r1 E. injection E as <-. split; assumption.
    + split; [discriminate|]. intros Hnone. exfalso. exact (Hnone r0 Hin Htol).
  - destruct Hb as [_ Hnone].
    split; [|split; [|split]].
    + intros [s [Hs [Hst _]]]. exfalso. exact (Hnone s Hs Hst).
    + discriminate.
    + discriminate.
    + split; [intros _; exact Hnone | reflexivity].
Qed.

(** Tier and distance of the selected snap do not depend on the order in
    which the candidates are examined. *)
Lemma selectSnap_order (snaps snaps' : list (SnapPoint Entity)) :
  Permutation snaps snaps' ->
  outcome (closestSnap (selectSnap worldToScreen snapTolerance worldPos snaps))
  = outcome (closestSnap (selectSnap worldToScreen snapTolerance worldPos snaps')).
Proof.
  intros Hp.
  pose proof (selectSnap_bestOf snaps) as H1.
  pose proof (selectSnap_bestOf snaps') as H2.
  unfold bestOf in H1, H2.
  destruct (closestSnap (selectSnap worldToScreen snapTolerance worldPos snaps))
    as [r1|];
    destruct (closestSnap (selectSnap worldToScreen snapTolerance worldPos snaps'))
    as [r2|]; unfold Snap.outcome; cbn [option_map].
  - destruct H1 as [_ [Hin1 [Ht1 Hb1]]], H2 as [_ [Hin2 [Ht2 Hb2]]].
    pose proof (Permutation_in _ Hp Hin1) as Hin1'.
    pose proof (Permutation_in _ (Permutation_sym Hp) Hin2) as Hin2'.
    destruct (isSpecial (stype r1)) eqn:E1, (isSpecial (stype r2)) eqn:E2.
    + pose proof (Hb1 r2 Hin2' Ht2 E2). pose proof (Hb2 r1 Hin1' Ht1 E1).
      do 2 f_equal. lra.
    + destruct (Hb2 r1 Hin1' Ht1) as [Hns _]. congruence.
    + destruct (Hb1 r2 Hin2' Ht2) as [Hns _]. congruence.
    + destruct (Hb1 r2 Hin2' Ht2) as [_ Hle1].
      destruct (Hb2 r1 Hin1' Ht1) as [_ Hle2].
      do 2 f_equal. lra.
  - destruct H1 as [_ [Hin1 [Ht1 _]]], H2 as [_ Hnone].
    exfalso. exact (Hnone r1 (Permutation_in _ Hp Hin1) Ht1).
  - destruct H1 as [_ Hnone], H2 as [_ [Hin2 [Ht2 _]]].
    exfalso. exact (Hnone r2 (Permutation_in _ (Permutation_sym Hp) Hin2) Ht2).
  - reflexivity.
Qed.

(** C7. If a candidate of a special type lies within the snap tolerance,
    [findSnapPoint] returns a special candidate at minimal screen distance
    among the special candidates within tolerance, whether or not a
    ['nearest'] candidate is closer; a ['nearest'] snap is returned only
    when no special candidate is within tolerance, and then it is the
    closest candidate; nothing is returned exactly when no candidate is
    within tolerance; tier and distance of the result do not depend on the
    order in which the candidates are examined. *)
Theorem findSnapPoint_priority (entities : list Entity) (referencePoint : option Point) :
  let snaps := candidates layerHidden getEntitySnapPoints worldPos entities
                          referencePoint in
  let r := findSnapPoint layerHidden getEntitySnapPoints worldToScreen snapTolerance
                         worldPos entities referencePoint in
  ((exists s, In s snaps /\ inTol s /\ isSpecial (stype s) = true) ->
   exists r0, r = Some r0 /\ In r0 snaps /\ inTol r0
              /\ isSpecial (stype r0) = true
              /\ forall s, In s snaps -> inTol s -> isSpecial (stype s) = true ->
                           d r0 <= d s)
  /\ (forall r0, r = Some r0 -> stype r0 = nearest ->
         forall s, In s snaps -> inTol s ->
                   stype s = nearest /\ d r0 <= d s)
  /\ (forall r0, r = Some r0 -> In r0 snaps /\ inTol r0)
  /\ (r = None <-> forall s, In s snaps -> ~ inTol s)
  /\ (forall examined,
         Permutation snaps examined ->
         outcome (closestSnap
                    (selectSnap worldToScreen snapTolerance worldPos examined))
         = outcome r).
Proof.
  intros snaps r.
  assert (Er : r = closestSnap (selectSnap worldToScreen snapTolerance worldPos snaps))
    by apply findSnapPoint_selectSnap.
  destruct (selectSnap_spec snaps) as [H1 [H2 [H3 H4]]].
  rewrite Er.
  split; [exact H1|]. split; [exact H2|]. split; [exact H3|]. split; [exact H4|].
  intros examined Hp. symmetry. now apply selectSnap_order.
Qed.

End SnapPriority.

(* ================================================================== *)
(** * [DXFParser.parse] keeps the instance state between calls *)
(* ================================================================== *)

Section ParserState.

Import Parser.

Variable Num : Type.
Variable parseFloat : option string -> Num.
Variable zero : Num.
Variable Entity : Type.
Variable parseEntity : list string -> nat -> option string -> Entity * nat.

Local Abbreviation St := (State Num Entity).
Local Abbreviation ahead := (@Parser.ahead Num Entity).

Variable lines : list string.
Variable pre : list Entity.

Local Abbreviation inStep := (@Parser.inStep Num Entity pre).

Lemma ahead_setHeader (st st0 : St) k v :
  ahead pre st st0 -> ahead pre (setHeader st k v) (setHeader st0 k v).
Proof. exact (fun H => H). Qed.

Lemma ahead_setLayer (st st0 : St) k v :
  ahead pre st st0 -> ahead pre (setLayer st k v) (setLayer st0 k v).
Proof. exact (fun H => H). Qed.

Lemma ahead_setLinetype (st st0 : St) k v :
  ahead pre st st0 -> ahead pre (setLinetype st k v) (setLinetype st0 k v).
Proof. exact (fun H => H). Qed.

Lemma ahead_setBlock (st st0 : St) k v :
  ahead pre st st0 -> ahead pre (setBlock st k v) (setBlock st0 k v).
Proof. exact (fun H => H). Qed.

Lemma ahead_pushEntity (st st0 : St) e :
  ahead pre st st0 -> ahead pre (pushEntity st e) (pushEntity st0 e).
Proof.
  unfold Parser.ahead. cbn. intros ->. now rewrite app_assoc.
Qed.

Lemma parseHeader_inStep fuel (st st0 : St) i cv :
  ahead pre st st0 ->
  inStep (parseHeader parseFloat lines fuel st i cv)
         (parseHeader parseFloat lines fuel st0 i cv).
Proof.
  revert st st0 i cv. induction fuel as [|f IH]; intros st st0 i cv H;
    [split; [exact H | reflexivity]|].
  cbn [parseHeader].
  destruct (i <? List.length lines)%nat; [|split; [exact H | reflexivity]].
  destruct (codeIs _ 0 && valueIs _ "ENDSEC")%bool; [split; [exact H | reflexivity]|].
  destruct (codeIs _ 9); [apply IH; now apply ahead_setHeader|].
  destruct (truthy cv); apply IH; [now apply ahead_setHeader | exact H].
Qed.

Lemma parseLayer_inStep fuel (st st0 : St) i layer :
  ahead pre st st0 ->
  inStep (parseLayer lines fuel st i layer) (parseLayer lines fuel st0 i layer).
Proof.
  revert st st0 i layer. induction fuel as [|f IH]; intros st st0 i layer H.
  - cbn [parseLayer]. destruct (truthy (layerName layer));
      (split; [try apply ahead_setLayer; exact H | reflexivity]).
  - cbn [parseLayer].
    destruct (i <? List.length lines)%nat.
    + destruct (codeIs _ 0).
      * destruct (truthy (layerName layer));
          (split; [try apply ahead_setLayer; exact H | reflexivity]).
      * apply IH. exact H.
    + destruct (truthy (layerName layer));
        (split; [try apply ahead_setLayer; exact H | reflexivity]).
Qed.

Lemma parseLinetype_inStep fuel (st st0 : St) i lt :
  ahead pre st st0 ->
  inStep (parseLinetype parseFloat lines fuel st i lt)
         (parseLinetype parseFloat lines fuel st0 i lt).
Proof.
  revert st st0 i lt. induction fuel as [|f IH]; intros st st0 i lt H;
    [split; [exact H | reflexivity]|].
  cbn [parseLinetype].
  destruct (i <? List.length lines)%nat; [|split; [exact H | reflexivity]].
  destruct (codeIs _ 0).
  - split; [apply ahead_setLinetype; exact H | reflexivity].
  - apply IH. exact H.
Qed.

Lemma parseTableLoop_inStep fuel (st st0 : St) i tableType :
  ahead pre st st0 ->
  inStep (parseTableLoop parseFloat zero lines fuel st i tableType)
         (parseTableLoop parseFloat zero lines fuel st0 i tableType).
Proof.
  revert st st0 i. induction fuel as [|f IH]; intros st st0 i H;
    [split; [exact H | reflexivity]|].
  cbn [parseTableLoop].
  destruct (i <? List.length lines)%nat; [|split; [exact H | reflexivity]].
  destruct (codeIs _ 0); [|now apply IH].
  destruct (valueIs _ "ENDTAB"); [split; [exact H | reflexivity]|].
  destruct (valueIs tableType "LAYER" && valueIs _ "LAYER")%bool.
  { destruct (parseLayer_inStep (List.length lines) st st0 (i + 2) newLayer H)
      as [Ha Ei].
    destruct (parseLayer lines (List.length lines) st (i + 2) newLayer) as [s1 i1].
    destruct (parseLayer lines (List.length lines) st0 (i + 2) newLayer) as [s2 i2].
    cbn [fst snd] in Ha, Ei. subst i2. now apply IH. }
  destruct (valueIs tableType "LTYPE" && valueIs _ "LTYPE")%bool.
  { destruct (parseLinetype_inStep (List.length lines) st st0 (i + 2)
                (newLinetype zero) H) as [Ha Ei].
    destruct (parseLinetype parseFloat lines (List.length lines) st (i + 2)
                (newLinetype zero)) as [s1 i1].
    destruct (parseLinetype parseFloat lines (List.length lines) st0 (i + 2)
                (newLinetype zero)) as [s2 i2].
    cbn [fst snd] in Ha, Ei. subst i2. now apply IH. }
  now apply IH.
Qed.

Lemma parseTables_inStep fuel (st st0 : St) i :
  ahead pre st st0 ->
  inStep (parseTables parseFloat zero lines fuel st i)
         (parseTables parseFloat zero lines fuel st0 i).
Proof.
  revert st st0 i. induction fuel as [|f IH]; intros st st0 i H;
    [split; [exact H | reflexivity]|].
  cbn [parseTables].
  destruct (i <? List.length lines)%nat; [|split; [exact H | reflexivity]].
  destruct (codeIs _ 0); [|now apply IH].
  destruct (valueIs _ "ENDSEC"); [split; [exact H | reflexivity]|].
  destruct (valueIs _ "TABLE"); [|now apply IH].
  unfold parseTable.
  destruct (parseTableLoop_inStep (List.length lines) st st0 (i + 2 + 2)
              (line lines (i + 2 + 1)) H) as [Ha Ei].
  destruct (parseTableLoop parseFloat zero lines (List.length lines) st (i + 2 + 2)
              (line lines (i + 2 + 1))) as [s1 i1].
  destruct (parseTableLoop parseFloat zero lines (List.length lines) st0 (i + 2 + 2)
              (line lines (i + 2 + 1))) as [s2 i2].
  cbn [fst snd] in Ha, Ei. subst i2. now apply IH.
Qed.

Lemma parseBlocks_inStep fuel (st st0 : St) i cb :
  ahead pre st st0 ->
  inStep (parseBlocks parseFloat parseEntity lines fuel st i cb)
         (parseBlocks parseFloat parseEntity lines fuel st0 i cb).
Proof.
  revert st st0 i cb. induction fuel as [|f IH]; intros st st0 i cb H;
    [split; [exact H | reflexivity]|].
  cbn [parseBlocks].
  destruct (i <? List.length lines)%nat; [|split; [exact H | reflexivity]].
  destruct (codeIs _ 0); [|now apply IH].
  destruct (valueIs _ "ENDSEC"); [split; [exact H | reflexivity]|].
  destruct (valueIs _ "BLOCK").
  { destruct (parseBlockHeader parseFloat lines (List.length lines)
                (newBlock Num Entity) (i + 2)) as [b i']. now apply IH. }
  destruct (valueIs _ "ENDBLK").
  { apply IH. destruct cb as [b|]; [|exact H].
    destruct (blockNamed b); [now apply ahead_setBlock | exact H]. }
  destruct cb as [b|]; [|now apply IH].
  destruct (parseEntity lines i (line lines (i + 1))) as [e idx]. now apply IH.
Qed.

Lemma parseEntities_inStep fuel (st st0 : St) i :
  ahead pre st st0 ->
  inStep (parseEntities parseEntity lines fuel st i)
         (parseEntities parseEntity lines fuel st0 i).
Proof.
  revert st st0 i. induction fuel as [|f IH]; intros st st0 i H;
    [split; [exact H | reflexivity]|].
  cbn [parseEntities].
  destruct (i <? List.length lines)%nat; [|split; [exact H | reflexivity]].
  destruct (codeIs _ 0); [|now apply IH].
  destruct (valueIs _ "ENDSEC"); [split; [exact H | reflexivity]|].
  destruct (parseEntity lines i (line lines (i + 1))) as [e idx].
  apply IH. now apply ahead_pushEntity.
Qed.

Lemma parseSection_inStep (st st0 : St) i :
  ahead pre st st0 ->
  inStep (parseSection parseFloat zero parseEntity lines st i)
         (parseSection parseFloat zero parseEntity lines st0 i).
Proof.
  intros H. unfold parseSection.
  destruct (valueIs _ "HEADER"); [now apply parseHeader_inStep|].
  destruct (valueIs _ "TABLES"); [now apply parseTables_inStep|].
  destruct (valueIs _ "BLOCKS"); [now apply parseBlocks_inStep|].
  destruct (valueIs _ "ENTITIES"); [now apply parseEntities_inStep|].
  split; [exact H | reflexivity].
Qed.

Lemma parseLoop_ahead fuel (st st0 : St) i :
  ahead pre st st0 ->
  ahead pre (parseLoop parseFloat zero parseEntity lines fuel st i)
            (parseLoop parseFloat zero parseEntity lines fuel st0 i).
Proof.
  revert st st0 i. induction fuel as [|f IH]; intros st st0 i H; [exact H|].
  cbn [parseLoop].
  destruct (i <? List.length lines)%nat; [|exact H].
  destruct (codeIs _ 0); [|now apply IH].
  destruct (valueIs _ "SECTION"); [|now apply IH].
  destruct (parseSection_inStep st st0 (i + 2) H) as [Ha Ei].
  destruct (parseSection parseFloat zero parseEntity lines st (i + 2)) as [s1 i1].
  destruct (parseSection parseFloat zero parseEntity lines st0 (i + 2)) as [s2 i2].
  cbn [fst snd] in Ha, Ei. subst i2. now apply IH.
Qed.

End ParserState.

Section ParserBug.

Import Parser.

Variable Num : Type.
Variable parseFloat : option string -> Num.
Variable zero : Num.
Variable Entity : Type.
Variable parseEntity : list string -> nat -> option string -> Entity * nat.

Local Abbreviation twice := (parseTwice parseFloat zero parseEntity).
Local Abbreviation once := (parseFresh parseFloat zero parseEntity).

(** The second call on an instance returns the entities of the first
    call followed by its own. *)
Lemma parseTwice_entities (c1 c2 : string) :
  pEntities (twice c1 c2) = pEntities (once c1) ++ pEntities (once c2).
Proof.
  unfold parseTwice, parseFresh, parse. cbn [fst snd pEntities].
  apply (parseLoop_ahead Num parseFloat zero Entity parseEntity (toLines c2)).
  unfold Parser.ahead. cbn [entities fresh]. now rewrite app_nil_r.
Qed.

Lemma sampleEntities_lines :
  toLines sampleEntities
  = ["0"; "SECTION"; "2"; "ENTITIES"; "0"; "POINT"; "0"; "ENDSEC"; "0"; "EOF"]%string.
Proof. vm_compute. reflexivity. Qed.

(** The file with one entity yields at least that entity. *)
Lemma once_sampleEntities :
  exists e es, pEntities (once sampleEntities) = e :: es.
Proof.
  unfold parseFresh, parse. cbn [snd pEntities]. rewrite sampleEntities_lines.
  set (lines := ["0"; "SECTION"; "2"; "ENTITIES"; "0"; "POINT"; "0"; "ENDSEC";
                 "0"; "EOF"]%string).
  assert (Hn : List.length lines = S 9) by reflexivity. rewrite Hn.
  generalize 9%nat as f. intros f.
  cbn [parseLoop].
  change (0 <? List.length lines)%nat with true.
  change (codeIs (parseInt (line lines 0)) 0) with true.
  change (valueIs (line lines (0 + 1)) "SECTION") with true.
  cbv iota. unfold parseSection.
  change (valueIs (line lines (0 + 2 + 1)) "HEADER") with false.
  change (valueIs (line lines (0 + 2 + 1)) "TABLES") with false.
  change (valueIs (line lines (0 + 2 + 1)) "BLOCKS") with false.
  change (valueIs (line lines (0 + 2 + 1)) "ENTITIES") with true.
  cbv iota. rewrite Hn. generalize 9%nat as g. intros g.
  cbn [parseEntities].
  change (0 + 2 + 2 <? List.length lines)%nat with true.
  change (codeIs (parseInt (line lines (0 + 2 + 2))) 0) with true.
  change (valueIs (line lines (0 + 2 + 2 + 1)) "ENDSEC") with false.
  cbv iota.
  destruct (parseEntity lines (0 + 2 + 2) (line lines (0 + 2 + 2 + 1))) as [e idx].
  pose proof (parseEntities_inStep Num Entity parseEntity lines [e] g
                (pushEntity (fresh Num Entity) e) (fresh Num Entity) idx eq_refl)
    as [Ha _].
  destruct (parseEntities parseEntity lines g (pushEntity (fresh Num Entity) e) idx)
    as [s1 i1].
  cbn [fst] in Ha.
  pose proof (parseLoop_ahead Num parseFloat zero Entity parseEntity lines
                (entities s1) f s1 (fresh Num Entity) i1) as Hb.
  unfold Parser.ahead in Ha, Hb. rewrite Hb by (cbn; now rewrite app_nil_r).
  rewrite Ha. cbn. eauto.
Qed.

(** C9 on the code.  [parse] starts from the fields of the instance and
    never clears them: the second of two calls on one instance returns the
    entities of the first call followed by its own, where a new instance
    returns only its own.  After a file with one entity (or one header
    variable) an empty text still yields that entity (that variable); a new
    instance yields nothing for the empty text. *)
Theorem parse_keeps_state :
  (forall c1 c2,
      pEntities (twice c1 c2) = pEntities (once c1) ++ pEntities (once c2))
  /\ once "" = mkParsed [] [] [] [] []
  /\ (exists e es, pEntities (twice sampleEntities "") = e :: es)
  /\ pHeader (twice sampleHeader "") = [("$ACADVER", VString Num "AC1009")]%string.
Proof.
  split; [exact parseTwice_entities|].
  split; [vm_compute; reflexivity|].
  split.
  - rewrite parseTwice_entities.
    destruct once_sampleEntities as [e [es E]]. rewrite E.
    exists e, (es ++ pEntities (once "")). reflexivity.
  - vm_compute. reflexivity.
Qed.

End ParserBug.

(* ================================================================== *)
(** * The parser loops end at the end of the lines *)
(* ================================================================== *)

(** The [while (i < lines.length)] loops are modelled with a counter
    started at the number of lines.  Every trip moves the index forward,
    so the counter never decides: any larger start gives the same result.
    The entity reader is only asked to return an index past its start, as
    [parseEntity] does ([_endIndex] starts at [startIndex + 2]). *)

Section ParserLoops.

Import Parser.

Variable Num : Type.
Variable parseFloat : option string -> Num.
Variable zero : Num.
Variable Entity : Type.
Variable parseEntity : list string -> nat -> option string -> Entity * nat.
Variable lines : list string.

Hypothesis parseEntity_advances :
  forall i v, (i < snd (parseEntity lines i v))%nat.

Local Abbreviation St := (State Num Entity).
Local Abbreviation n := (List.length lines).

Ltac past_end i :=
  let E := fresh "E" in
  destruct (i <? List.length lines)%nat eqn:E;
  [apply Nat.ltb_lt in E | try reflexivity].

Ltac out_of_lines i extra :=
  let E := fresh "E" in
  destruct extra; [reflexivity|];
  assert (E : (i <? List.length lines)%nat = false) by (apply Nat.ltb_ge; lia);
  cbn -[Nat.ltb]; rewrite E; reflexivity.

Lemma parseHeader_fuel fuel (st : St) i cv extra :
  (n - i <= fuel)%nat ->
  parseHeader parseFloat lines (fuel + extra) st i cv
  = parseHeader parseFloat lines fuel st i cv.
Proof.
  revert st i cv. induction fuel as [|f IH]; intros st i cv H.
  - out_of_lines i extra.
  - cbn [Nat.add parseHeader]. past_end i.
    destruct (codeIs _ 0 && valueIs _ "ENDSEC")%bool; [reflexivity|].
    destruct (codeIs _ 9); [apply IH; lia|].
    destruct (truthy cv); apply IH; lia.
Qed.

Lemma parseLayer_fuel fuel (st : St) i layer extra :
  (n - i <= fuel)%nat ->
  parseLayer lines (fuel + extra) st i layer = parseLayer lines fuel st i layer.
Proof.
  revert st i layer. induction fuel as [|f IH]; intros st i layer H.
  - out_of_lines i extra.
  - cbn [Nat.add parseLayer]. past_end i.
    destruct (codeIs _ 0); [reflexivity|]. apply IH. lia.
Qed.

Lemma parseLayer_index fuel (st : St) i layer :
  (i <= snd (parseLayer lines fuel st i layer))%nat.
Proof.
  revert st i layer. induction fuel as [|f IH]; intros st i layer.
  - cbn. lia.
  - cbn [parseLayer]. destruct (i <? List.length lines)%nat; [|cbn; lia].
    destruct (codeIs _ 0); [cbn; lia|].
    etransitivity; [|apply IH]. lia.
Qed.

Lemma parseLinetype_fuel fuel (st : St) i lt extra :
  (n - i <= fuel)%nat ->
  parseLinetype parseFloat lines (fuel + extra) st i lt
  = parseLinetype parseFloat lines fuel st i lt.
Proof.
  revert st i lt. induction fuel as [|f IH]; intros st i lt H.
  - out_of_lines i extra.
  - cbn [Nat.add parseLinetype]. past_end i.
    destruct (codeIs _ 0); [reflexivity|]. apply IH. lia.
Qed.

Lemma parseLinetype_index fuel (st : St) i lt :
  (i <= snd (parseLinetype parseFloat lines fuel st i lt))%nat.
Proof.
  revert st i lt. induction fuel as [|f IH]; intros st i lt.
  - cbn. lia.
  - cbn [parseLinetype]. destruct (i <? List.length lines)%nat; [|cbn; lia].
    destruct (codeIs _ 0); [cbn; lia|].
    etransitivity; [|apply IH]. lia.
Qed.

Lemma parseTableLoop_fuel fuel (st : St) i tableType extra :
  (n - i <= fuel)%nat ->
  parseTableLoop parseFloat zero lines (fuel + extra) st i tableType
  = parseTableLoop parseFloat zero lines fuel st i tableType.
Proof.
  revert st i. induction fuel as [|f IH]; intros st i H.
  - out_of_lines i extra.
  - cbn [Nat.add parseTableLoop]. past_end i.
    destruct (codeIs _ 0); [|apply IH; lia].
    destruct (valueIs _ "ENDTAB"); [reflexivity|].
    destruct (valueIs tableType "LAYER" && valueIs _ "LAYER")%bool.
    { pose proof (parseLayer_index (List.length lines) st (i + 2) newLayer) as Hi.
      destruct (parseLayer lines (List.length lines) st (i + 2) newLayer) as [s1 i1].
      cbn [snd] in Hi. apply IH. lia. }
    destruct (valueIs tableType "LTYPE" && valueIs _ "LTYPE")%bool.
    { pose proof (parseLinetype_index (List.length lines) st (i + 2)
                    (newLinetype zero)) as Hi.
      destruct (parseLinetype parseFloat lines (List.length lines) st (i + 2)
                  (newLinetype zero)) as [s1 i1].
      cbn [snd] in Hi. apply IH. lia. }
    apply IH. lia.
Qed.

Lemma parseTableLoop_index fuel (st : St) i tableType :
  (i <= snd (parseTableLoop parseFloat zero lines fuel st i tableType))%nat.
Proof.
  revert st i. induction fuel as [|f IH]; intros st i.
  - cbn. lia.
  - cbn [parseTableLoop]. destruct (i <? List.length lines)%nat; [|cbn; lia].
    destruct (codeIs _ 0); [|etransitivity; [|apply IH]; lia].
    destruct (valueIs _ "ENDTAB"); [cbn; lia|].
    destruct (valueIs tableType "LAYER" && valueIs _ "LAYER")%bool.
    { pose proof (parseLayer_index (List.length lines) st (i + 2) newLayer) as Hi.
      destruct (parseLayer lines (List.length lines) st (i + 2) newLayer) as [s1 i1].
      cbn [snd] in Hi. etransitivity; [|apply IH]. lia. }
    destruct (valueIs tableType "LTYPE" && valueIs _ "LTYPE")%bool.
    { pose proof (parseLinetype_index (List.length lines) st (i + 2)
                    (newLinetype zero)) as Hi.
      destruct (parseLinetype parseFloat lines (List.length lines) st (i + 2)
                  (newLinetype zero)) as [s1 i1].
      cbn [snd] in Hi. etransitivity; [|apply IH]. lia. }
    etransitivity; [|apply IH]. lia.
Qed.

Lemma parseTables_fuel fuel (st : St) i extra :
  (n - i <= fuel)%nat ->
  parseTables parseFloat zero lines (fuel + extra) st i
  = parseTables parseFloat zero lines fuel st i.
Proof.
  revert st i. induction fuel as [|f IH]; intros st i H.
  - out_of_lines i extra.
  - cbn [Nat.add parseTables]. past_end i.
    destruct (codeIs _ 0); [|apply IH; lia].
    destruct (valueIs _ "ENDSEC"); [reflexivity|].
    destruct (valueIs _ "TABLE"); [|apply IH; lia].
    unfold parseTable.
    pose proof (parseTableLoop_index (List.length lines) st (i + 2 + 2)
                  (line lines (i + 2 + 1))) as Hi.
    destruct (parseTableLoop parseFloat zero lines (List.length lines) st
                (i + 2 + 2) (line lines (i + 2 + 1))) as [s1 i1].
    cbn [snd] in Hi. apply IH. lia.
Qed.

Lemma parseTables_index fuel (st : St) i :
  (i <= snd (parseTables parseFloat zero lines fuel st i))%nat.
Proof.
  revert st i. induction fuel as [|f IH]; intros st i.
  - cbn. lia.
  - cbn [parseTables]. destruct (i <? List.length lines)%nat; [|cbn; lia].
    destruct (codeIs _ 0); [|etransitivity; [|apply IH]; lia].
    destruct (valueIs _ "ENDSEC"); [cbn; lia|].
    destruct (valueIs _ "TABLE"); [|etransitivity; [|apply IH]; lia].
    unfold parseTable.
    pose proof (parseTableLoop_index (List.length lines) st (i + 2 + 2)
                  (line lines (i + 2 + 1))) as Hi.
    destruct (parseTableLoop parseFloat zero lines (List.length lines) st
                (i + 2 + 2) (line lines (i + 2 + 1))) as [s1 i1].
    cbn [snd] in Hi. etransitivity; [|apply IH]. lia.
Qed.

Lemma parseBlockHeader_fuel fuel (b : Block Num Entity) i extra :
  (n - i <= fuel)%nat ->
  parseBlockHeader parseFloat lines (fuel + extra) b i
  = parseBlockHeader parseFloat lines fuel b i.
Proof.
  revert b i. induction fuel as [|f IH]; intros b i H.
  - out_of_lines i extra.
  - cbn [Nat.add parseBlockHeader]. past_end i.
    destruct (codeIs _ 0); [reflexivity|]. apply IH. lia.
Qed.

Lemma parseBlockHeader_index fuel (b : Block Num Entity) i :
  (i <= snd (parseBlockHeader parseFloat lines fuel b i))%nat.
Proof.
  revert b i. induction fuel as [|f IH]; intros b i.
  - cbn. lia.
  - cbn [parseBlockHeader]. destruct (i <? List.length lines)%nat; [|cbn; lia].
    destruct (codeIs _ 0); [cbn; lia|].
    etransitivity; [|apply IH]. lia.
Qed.

Lemma parseBlocks_fuel fuel (st : St) i cb extra :
  (n - i <= fuel)%nat ->
  parseBlocks parseFloat parseEntity lines (fuel + extra) st i cb
  = parseBlocks parseFloat parseEntity lines fuel st i cb.
Proof.
  revert st i cb. induction fuel as [|f IH]; intros st i cb H.
  - out_of_lines i extra.
  - cbn [Nat.add parseBlocks]. past_end i.
    destruct (codeIs _ 0); [|apply IH; lia].
    destruct (valueIs _ "ENDSEC"); [reflexivity|].
    destruct (valueIs _ "BLOCK").
    { pose proof (parseBlockHeader_index (List.length lines)
                    (newBlock Num Entity) (i + 2)) as Hi.
      destruct (parseBlockHeader parseFloat lines (List.length lines)
                  (newBlock Num Entity) (i + 2)) as [b i'].
      cbn [snd] in Hi. apply IH. lia. }
    destruct (valueIs _ "ENDBLK"); [apply IH; lia|].
    destruct cb as [b|]; [|apply IH; lia].
    pose proof (parseEntity_advances i (line lines (i + 1))) as Hi.
    destruct (parseEntity lines i (line lines (i + 1))) as [e idx].
    cbn [snd] in Hi. apply IH. lia.
Qed.

Lemma parseBlocks_index fuel (st : St) i cb :
  (i <= snd (parseBlocks parseFloat parseEntity lines fuel st i cb))%nat.
Proof.
  revert st i cb. induction fuel as [|f IH]; intros st i cb.
  - cbn. lia.
  - cbn [parseBlocks]. destruct (i <? List.length lines)%nat; [|cbn; lia].
    destruct (codeIs _ 0); [|etransitivity; [|apply IH]; lia].
    destruct (valueIs _ "ENDSEC"); [cbn; lia|].
    destruct (valueIs _ "BLOCK").
    { pose proof (parseBlockHeader_index (List.length lines)
                    (newBlock Num Entity) (i + 2)) as Hi.
      destruct (parseBlockHeader parseFloat lines (List.length lines)
                  (newBlock Num Entity) (i + 2)) as [b i'].
      cbn [snd] in Hi. etransitivity; [|apply IH]. lia. }
    destruct (valueIs _ "ENDBLK"); [etransitivity; [|apply IH]; lia|].
    destruct cb as [b|]; [|etransitivity; [|apply IH]; lia].
    pose proof (parseEntity_advances i (line lines (i + 1))) as Hi.
    destruct (parseEntity lines i (line lines (i + 1))) as [e idx].
    cbn [snd] in Hi. etransitivity; [|apply IH]. lia.
Qed.

Lemma parseEntities_fuel fuel (st : St) i extra :
  (n - i <= fuel)%nat ->
  parseEntities parseEntity lines (fuel + extra) st i
  = parseEntities parseEntity lines fuel st i.
Proof.
  revert st i. induction fuel as [|f IH]; intros st i H.
  - out_of_lines i extra.
  - cbn [Nat.add parseEntities]. past_end i.
    destruct (codeIs _ 0); [|apply IH; lia].
    destruct (valueIs _ "ENDSEC"); [reflexivity|].
    pose proof (parseEntity_advances i (line lines (i + 1))) as Hi.
    destruct (parseEntity lines i (line lines (i + 1))) as [e idx].
    cbn [snd] in Hi. apply IH. lia.
Qed.

Lemma parseEntities_index fuel (st : St) i :
  (i <= snd (parseEntities parseEntity lines fuel st i))%nat.
Proof.
  revert st i. induction fuel as [|f IH]; intros st i.
  - cbn. lia.
  - cbn [parseEntities]. destruct (i <? List.length lines)%nat; [|cbn; lia].
    destruct (codeIs _ 0); [|etransitivity; [|apply IH]; lia].
    destruct (valueIs _ "ENDSEC"); [cbn; lia|].
    pose proof (parseEntity_advances i (line lines (i + 1))) as Hi.
    destruct (parseEntity lines i (line lines (i + 1))) as [e idx].
    cbn [snd] in Hi. etransitivity; [|apply IH]. lia.
Qed.

Lemma skipSection_fuel fuel i extra :
  (n - i <= fuel)%nat ->
  skipSection lines (fuel + extra) i = skipSection lines fuel i.
Proof.
  revert i. induction fuel as [|f IH]; intros i H.
  - out_of_lines i extra.
  - cbn [Nat.add skipSection]. past_end i.
    destruct (codeIs _ 0 && valueIs _ "ENDSEC")%bool; [reflexivity|].
    apply IH. lia.
Qed.

Lemma skipSection_index fuel i : (i <= skipSection lines fuel i)%nat.
Proof.
  revert i. induction fuel as [|f IH]; intros i.
  - cbn. lia.
  - cbn [skipSection]. destruct (i <? List.length lines)%nat; [|lia].
    destruct (codeIs _ 0 && valueIs _ "ENDSEC")%bool; [lia|].
    etransitivity; [|apply IH]. lia.
Qed.

Lemma parseSection_index (st : St) startIndex :
  (startIndex + 2 <= snd (parseSection parseFloat zero parseEntity lines st startIndex))%nat.
Proof.
  unfold parseSection.
  destruct (valueIs _ "HEADER").
  { clear. generalize (startIndex + 2)%nat as i, (@None string) as cv.
    generalize (List.length lines) as fuel. intros fuel. revert st.
    induction fuel as [|f IH]; intros st i cv; [cbn; lia|].
    cbn [parseHeader]. destruct (i <? List.length lines)%nat; [|cbn; lia].
    destruct (codeIs _ 0 && valueIs _ "ENDSEC")%bool; [cbn; lia|].
    destruct (codeIs _ 9); [etransitivity; [|apply IH]; lia|].
    destruct (truthy cv); (etransitivity; [|apply IH]); lia. }
  destruct (valueIs _ "TABLES"); [apply parseTables_index|].
  destruct (valueIs _ "BLOCKS"); [apply parseBlocks_index|].
  destruct (valueIs _ "ENTITIES"); [apply parseEntities_index|].
  cbn [snd]. apply skipSection_index.
Qed.

(** The main loop of [parse] ends at the end of the lines. *)
Lemma parseLoop_fuel fuel (st : St) i extra :
  (n - i <= fuel)%nat ->
  parseLoop parseFloat zero parseEntity lines (fuel + extra) st i
  = parseLoop parseFloat zero parseEntity lines fuel st i.
Proof.
  revert st i. induction fuel as [|f IH]; intros st i H.
  - out_of_lines i extra.
  - cbn [Nat.add parseLoop]. past_end i.
    destruct (codeIs _ 0); [|apply IH; lia].
    destruct (valueIs _ "SECTION"); [|apply IH; lia].
    pose proof (parseSection_index st (i + 2)) as Hi.
    destruct (parseSection parseFloat zero parseEntity lines st (i + 2)) as [s1 i1].
    cbn [snd] in Hi. apply IH. lia.
Qed.

End ParserLoops.

(* ================================================================== *)
(** * The enclosing circle of points on one circle *)
(* ================================================================== *)

Section ShufflePermutes.

Import Geom Welzl.
Local Open Scope R_scope.

Lemma setNth_middle (l1 : list Point) (a : Point) (l2 : list Point) (x : Point) :
  setNth (List.length l1) x (l1 ++ a :: l2) = l1 ++ x :: l2.
Proof.
  unfold setNth.
  rewrite firstn_app, firstn_all, Nat.sub_diag. cbn [firstn].
  rewrite app_nil_r. f_equal. f_equal.
  rewrite skipn_app, skipn_all2 by lia.
  replace (S (List.length l1) - List.length l1)%nat with 1%nat by lia.
  reflexivity.
Qed.

Lemma swap_apart (l1 : list Point) (a : Point) (l2 : list Point) (b : Point)
    (l3 : list Point) (i j : nat) :
  i = List.length l1 -> j = (List.length l1 + S (List.length l2))%nat ->
  swap i j (l1 ++ a :: l2 ++ b :: l3) = l1 ++ b :: l2 ++ a :: l3
  /\ swap j i (l1 ++ a :: l2 ++ b :: l3) = l1 ++ b :: l2 ++ a :: l3.
Proof.
  intros -> ->.
  assert (Hj : forall x y : Point,
             (List.length l1 + S (List.length l2))%nat
             = List.length (l1 ++ x :: l2)).
  { intros x y. rewrite length_app. cbn. lia. }
  assert (Ha : nth (List.length l1) (l1 ++ a :: l2 ++ b :: l3) origin = a)
    by apply nth_middle.
  assert (Hb : nth (List.length l1 + S (List.length l2))
                 (l1 ++ a :: l2 ++ b :: l3) origin = b).
  { rewrite (Hj a a).
    change (l1 ++ a :: l2 ++ b :: l3) with (l1 ++ (a :: l2) ++ b :: l3).
    rewrite app_assoc. apply nth_middle. }
  unfold swap. rewrite Ha, Hb. split.
  - rewrite setNth_middle. rewrite (Hj b b).
    change (l1 ++ b :: l2 ++ b :: l3) with (l1 ++ (b :: l2) ++ b :: l3).
    rewrite app_assoc, setNth_middle, <- app_assoc. reflexivity.
  - rewrite (Hj a a).
    change (l1 ++ a :: l2 ++ b :: l3) with (l1 ++ (a :: l2) ++ b :: l3).
    rewrite app_assoc, setNth_middle, <- app_assoc. cbn [app].
    rewrite setNth_middle. reflexivity.
Qed.

Lemma split_two (l : list Point) (i j : nat) :
  (i < j)%nat -> (j < List.length l)%nat ->
  exists l1 a l2 b l3,
    l = l1 ++ a :: l2 ++ b :: l3
    /\ i = List.length l1 /\ j = (List.length l1 + S (List.length l2))%nat.
Proof.
  intros Hij Hj.
  destruct (nth_split l origin (n := i)) as [l1 [l' [El Hl1]]]; [lia|].
  assert (Hl' : (j - i - 1 < List.length l')%nat).
  { rewrite El, length_app in Hj. cbn in Hj. lia. }
  destruct (nth_split l' origin Hl') as [l2 [l3 [El' Hl2]]].
  exists l1, (nth i l origin), l2, (nth (j - i - 1) l' origin), l3.
  split; [|split].
  - rewrite El at 1. rewrite El' at 1. reflexivity.
  - lia.
  - lia.
Qed.

Lemma swap_same (l : list Point) (i : nat) :
  (i < List.length l)%nat -> swap i i l = l.
Proof.
  intros Hi.
  destruct (nth_split l origin Hi) as [l1 [l2 [El Hl1]]].
  unfold swap. remember (nth i l origin) as a eqn:Ea. clear Ea.
  subst l i. rewrite !setNth_middle. reflexivity.
Qed.

Lemma swap_Permutation (l : list Point) (i j : nat) :
  (i < List.length l)%nat -> (j < List.length l)%nat ->
  Permutation (swap i j l) l.
Proof.
  intros Hi Hj.
  assert (Hp : forall (l1 : list Point) a l2 b l3,
             Permutation (l1 ++ b :: l2 ++ a :: l3) (l1 ++ a :: l2 ++ b :: l3)).
  { intros l1 a l2 b l3. apply Permutation_app_head.
    apply Permutation_trans with (b :: a :: l2 ++ l3).
    - apply perm_skip. symmetry. apply Permutation_middle.
    - apply Permutation_trans with (a :: b :: l2 ++ l3).
      + apply perm_swap.
      + apply perm_skip. apply Permutation_middle. }
  destruct (Nat.lt_trichotomy i j) as [H | [H | H]].
  - destruct (split_two l i j H Hj) as (l1 & a & l2 & b & l3 & El & E1 & E2).
    destruct (swap_apart l1 a l2 b l3 i j E1 E2) as [Hs _].
    rewrite El at 1. rewrite Hs, El. apply Hp.
  - subst j. rewrite swap_same by assumption. reflexivity.
  - destruct (split_two l j i H Hi) as (l1 & a & l2 & b & l3 & El & E1 & E2).
    destruct (swap_apart l1 a l2 b l3 j i E1 E2) as [_ Hs].
    rewrite El at 1. rewrite Hs, El. apply Hp.
Qed.

Lemma floorIndex_bound (x : R) (i : nat) :
  0 <= x < 1 -> (floorIndex (x * INR (i + 1)) <= i)%nat.
Proof.
  intros [H0 H1]. unfold floorIndex.
  set (y := x * INR (i + 1)).
  assert (Hi : 0 < INR (i + 1)) by (apply lt_0_INR; lia).
  assert (Hy : y < INR (i + 1)) by (unfold y; nra).
  pose proof (Zfloor_bound y) as [Hl _].
  rewrite INR_IZR_INZ in Hy.
  assert (Hz : (Zfloor y < Z.of_nat (i + 1))%Z).
  { apply lt_IZR. lra. }
  lia.
Qed.

Lemma shuffleFrom_Permutation (rnd : nat -> R) :
  (forall k, 0 <= rnd k < 1) ->
  forall (i k : nat) (pts : list Point),
    (i < List.length pts)%nat \/ i = 0%nat ->
    Permutation (shuffleFrom rnd i k pts) pts.
Proof.
  intros Hrnd. induction i as [|i IH]; intros k pts Hi.
  - reflexivity.
  - destruct Hi as [Hi | Hi]; [|discriminate].
    cbn [shuffleFrom].
    pose proof (floorIndex_bound (rnd k) (S i) (Hrnd k)) as Hj.
    set (j := floorIndex (rnd k * INR (S i + 1))) in *.
    assert (Hs : Permutation (swap (S i) j pts) pts)
      by (apply swap_Permutation; lia).
    rewrite <- Hs at 2. apply IH.
    left. rewrite (Permutation_length Hs). lia.
Qed.

Lemma shuffle_Permutation (rnd : nat -> R) (pts : list Point) :
  (forall k, 0 <= rnd k < 1) -> Permutation (shuffle rnd pts) pts.
Proof.
  intros Hrnd. unfold shuffle. apply shuffleFrom_Permutation; [assumption|].
  destruct pts; [right; reflexivity | left; cbn; lia].
Qed.

End ShufflePermutes.

Section CircleFacts.

Import Geom Welzl.
Local Open Scope R_scope.

Lemma circleContains_true (c : Circle) (p : Point) :
  Math_hypot (px p - px (center c)) (py p - py (center c)) <= radius c + 1e-6 ->
  circleContains c p = true.
Proof.
  intros H. unfold circleContains. destruct (Rle_dec _ _); [reflexivity|].
  contradiction.
Qed.

Lemma circleContains_false (c : Circle) (p : Point) :
  circleContains c p = false ->
  radius c + 1e-6 < Math_hypot (px p - px (center c)) (py p - py (center c)).
Proof.
  unfold circleContains. destruct (Rle_dec _ _); [discriminate|].
  intros _. lra.
Qed.

Lemma contains_self (p : Point) : circleContains (mkCircle p 0) p = true.
Proof.
  apply circleContains_true. cbn [center radius].
  hypot_facts. nra.
Qed.

Lemma contains_two_l (a b : Point) :
  circleContains (circleFrom2Points a b) a = true.
Proof.
  apply circleContains_true. unfold circleFrom2Points. cbn [center radius px py].
  lra.
Qed.

Lemma contains_two_r (a b : Point) :
  circleContains (circleFrom2Points a b) b = true.
Proof.
  apply circleContains_true. unfold circleFrom2Points. cbn [center radius px py].
  replace (Math_hypot (px b - (px a + px b) / 2) (py b - (py a + py b) / 2))
    with (Math_hypot (px a - (px a + px b) / 2) (py a - (py a + py b) / 2)).
  - lra.
  - unfold Math_hypot. f_equal. field.
Qed.

Lemma hypot_le_bound (a b c d : R) :
  Math_hypot a b <= Math_hypot c d + 1e-6 ->
  a * a + b * b <= (c * c + d * d) + 1e-6 * (1 + c * c + d * d) + 1e-12.
Proof.
  intros H. hypot_facts.
  set (h1 := Math_hypot a b) in *. set (h2 := Math_hypot c d) in *.
  assert (S1 : h1 * h1 <= (h2 + 1e-6) * (h2 + 1e-6)) by nra.
  assert (S2 : 2 * h2 <= 1 + h2 * h2).
  { pose proof (Rle_0_sqr (h2 - 1)) as S. unfold Rsqr in S. nra. }
  nra.
Qed.

End CircleFacts.

Section OnOneCircle.

Import Geom Welzl.
Local Open Scope R_scope.

Variable pts : list Point.
Variable o : Point.
Variable r : R.

Hypothesis Hr : 0 <= r.
Hypothesis Hon : forall p, In p pts -> onCircle o r p.
Hypothesis Hnd : nondegenerate pts.

Local Abbreviation big := (mkCircle o r).

Lemma hypot_on (p : Point) :
  In p pts -> Math_hypot (px p - px o) (py p - py o) = r.
Proof.
  intros Hp. unfold Math_hypot. rewrite (Hon p Hp). apply sqrt_square. exact Hr.
Qed.

Lemma contains_big (p : Point) : In p pts -> circleContains big p = true.
Proof.
  intros Hp. apply circleContains_true. cbn [center radius].
  rewrite (hypot_on p Hp). lra.
Qed.

Lemma two_radius_le (a b : Point) :
  In a pts -> In b pts -> radius (circleFrom2Points a b) <= r.
Proof.
  intros Ha Hb. unfold circleFrom2Points. cbn [radius].
  pose proof (Hon a Ha) as Ea. pose proof (Hon b Hb) as Eb.
  unfold onCircle in Ea, Eb.
  set (h := Math_hypot _ _).
  assert (H0 : 0 <= h) by apply Math_hypot_nonneg.
  assert (H2 : h * h <= r * r).
  { unfold h. rewrite Math_hypot_sqr.
    pose proof (Rle_0_sqr ((px a - px o) + (px b - px o))) as S1.
    pose proof (Rle_0_sqr ((py a - py o) + (py b - py o))) as S2.
    unfold Rsqr in S1, S2. nra. }
  nra.
Qed.

Lemma circleFrom3Points_big (a b c : Point) :
  In a pts -> In b pts -> In c pts ->
  1e-12 <= Rabs (det3 a b c) ->
  circleFrom3Points a b c = big.
Proof.
  intros Ha Hb Hc Hd. unfold circleFrom3Points.
  destruct (Rlt_dec _ _) as [Hlt | _]; [lra|].
  assert (Hd0 : det3 a b c <> 0).
  { intros E. rewrite E, Rabs_R0 in Hd. lra. }
  pose proof (Hon a Ha) as Ea. pose proof (Hon b Hb) as Eb.
  pose proof (Hon c Hc) as Ec. unfold onCircle in Ea, Eb, Ec.
  assert (Ea' : px a * px a + py a * py a
                = r * r + 2 * px a * px o + 2 * py a * py o
                  - px o * px o - py o * py o) by lra.
  assert (Eb' : px b * px b + py b * py b
                = r * r + 2 * px b * px o + 2 * py b * py o
                  - px o * px o - py o * py o) by lra.
  assert (Ec' : px c * px c + py c * py c
                = r * r + 2 * px c * px o + 2 * py c * py o
                  - px o * px o - py o * py o) by lra.
  rewrite Ea', Eb', Ec'.
  set (d := det3 a b c) in *.
  assert (Ex : (((r * r + 2 * px a * px o + 2 * py a * py o
                  - px o * px o - py o * py o) * (py b - py c)
                + (r * r + 2 * px b * px o + 2 * py b * py o
                   - px o * px o - py o * py o) * (py c - py a)
                + (r * r + 2 * px c * px o + 2 * py c * py o
                   - px o * px o - py o * py o) * (py a - py b)) / d) = px o).
  { apply Rmult_eq_reg_r with d; [|exact Hd0].
    unfold Rdiv. rewrite Rmult_assoc, Rinv_l, Rmult_1_r by exact Hd0.
    unfold d, det3. ring. }
  assert (Ey : (((r * r + 2 * px a * px o + 2 * py a * py o
                  - px o * px o - py o * py o) * (px c - px b)
                + (r * r + 2 * px b * px o + 2 * py b * py o
                   - px o * px o - py o * py o) * (px a - px c)
                + (r * r + 2 * px c * px o + 2 * py c * py o
                   - px o * px o - py o * py o) * (px b - px a)) / d) = py o).
  { apply Rmult_eq_reg_r with d; [|exact Hd0].
    unfold Rdiv. rewrite Rmult_assoc, Rinv_l, Rmult_1_r by exact Hd0.
    unfold d, det3. ring. }
  rewrite Ex, Ey. rewrite (hypot_on a Ha).
  destruct o; reflexivity.
Qed.

Lemma loopK_big (pi pj : Point) (before : list Point) :
  incl before pts -> loopK pi pj before big = big.
Proof.
  unfold loopK. induction before as [|pk before IH]; intros Hin.
  - reflexivity.
  - cbn [fold_left].
    rewrite (contains_big pk) by (apply Hin; left; reflexivity).
    apply IH. intros p Hp. apply Hin. right. exact Hp.
Qed.

Lemma loopK_spec (pi pj : Point) (before : list Point) :
  In pi pts -> In pj pts -> pi <> pj -> incl before pts ->
  (loopK pi pj before (circleFrom2Points pi pj) = circleFrom2Points pi pj
   /\ encloses (circleFrom2Points pi pj) before)
  \/ loopK pi pj before (circleFrom2Points pi pj) = big.
Proof.
  intros Hi Hj Hij. induction before as [|pk before IH]; intros Hin.
  - left. split; [reflexivity|]. intros p [].
  - assert (Hk : In pk pts) by (apply Hin; left; reflexivity).
    assert (Hin' : incl before pts)
      by (intros p Hp; apply Hin; right; exact Hp).
    unfold loopK. cbn [fold_left]. fold (loopK pi pj before).
    destruct (circleContains (circleFrom2Points pi pj) pk) eqn:Ek.
    + destruct (IH Hin') as [[E He] | E].
      * left. split; [exact E|].
        intros p [<- | Hp]; [exact Ek | apply He; exact Hp].
      * right. exact E.
    + right.
      rewrite (circleFrom3Points_big pi pj pk Hi Hj Hk
                 (Hnd pi pj pk Hi Hj Hk Hij Ek)).
      apply loopK_big. exact Hin'.
Qed.

Lemma candidate_two (a b : Point) :
  In a pts -> In b pts -> candidate pts o r (circleFrom2Points a b).
Proof.
  intros Ha Hb. left. right. exists a, b. auto.
Qed.

Lemma loopJ_spec (pi : Point) :
  In pi pts ->
  forall (rest done : list Point) (c : Circle),
    incl done pts -> incl rest pts ->
    candidate pts o r c ->
    circleContains c pi = true -> encloses c done ->
    let c' := loopJ pi done rest c in
    candidate pts o r c' /\ circleContains c' pi = true
    /\ encloses c' (done ++ rest).
Proof.
  intros Hi. induction rest as [|pj rest IH]; intros done c Hd Hrest Hc Hpi He.
  - cbn. rewrite app_nil_r. auto.
  - assert (Hj : In pj pts) by (apply Hrest; left; reflexivity).
    assert (Hrest' : incl rest pts)
      by (intros p Hp; apply Hrest; right; exact Hp).
    assert (Hd' : incl (done ++ [pj]) pts).
    { intros p Hp. apply in_app_or in Hp.
      destruct Hp as [Hp | [<- | []]]; [apply Hd; exact Hp | exact Hj]. }
    cbn [loopJ].
    replace (done ++ pj :: rest) with ((done ++ [pj]) ++ rest)
      by (rewrite <- app_assoc; reflexivity).
    destruct (circleContains c pj) eqn:Ej.
    + apply IH; auto.
      intros p Hp. apply in_app_or in Hp.
      destruct Hp as [Hp | [<- | []]]; [apply He; exact Hp | exact Ej].
    + assert (Hij : pi <> pj) by (intros E; subst pj; congruence).
      destruct (loopK_spec pi pj done Hi Hj Hij Hd) as [[E Hen] | E];
        rewrite E.
      * apply IH; auto.
        -- apply candidate_two; assumption.
        -- apply contains_two_l.
        -- intros p Hp. apply in_app_or in Hp.
           destruct Hp as [Hp | [<- | []]];
             [apply Hen; exact Hp | apply contains_two_r].
      * apply IH; auto.
        -- right. reflexivity.
        -- apply contains_big. exact Hi.
        -- intros p Hp. apply contains_big. apply Hd'. exact Hp.
Qed.

Lemma loopI_spec :
  forall (rest done : list Point) (c : option Circle),
    incl done pts -> incl rest pts ->
    match c with
    | Some c0 => candidate pts o r c0 /\ encloses c0 done
    | None => done = []
    end ->
    done ++ rest <> [] ->
    exists c', loopI done rest c = Some c'
               /\ candidate pts o r c' /\ encloses c' (done ++ rest).
Proof.
  induction rest as [|pi rest IH]; intros done c Hd Hrest Hc Hne.
  - rewrite app_nil_r in *. destruct c as [c0|].
    + exists c0. cbn. tauto.
    + contradiction.
  - assert (Hi : In pi pts) by (apply Hrest; left; reflexivity).
    assert (Hrest' : incl rest pts)
      by (intros p Hp; apply Hrest; right; exact Hp).
    assert (Hd' : incl (done ++ [pi]) pts).
    { intros p Hp. apply in_app_or in Hp.
      destruct Hp as [Hp | [<- | []]]; [apply Hd; exact Hp | exact Hi]. }
    assert (Hne' : (done ++ [pi]) ++ rest <> [])
      by (destruct done; discriminate).
    assert (Hfresh : let c' := loopJ pi [] done (mkCircle pi 0) in
                     candidate pts o r c' /\ encloses c' (done ++ [pi])).
    { destruct (loopJ_spec pi Hi done [] (mkCircle pi 0)) as (H1 & H2 & H3).
      - intros p [].
      - exact Hd.
      - left. left. exists pi. auto.
      - apply contains_self.
      - intros p [].
      - cbn zeta. split; [exact H1|].
        intros p Hp. apply in_app_or in Hp.
        destruct Hp as [Hp | [<- | []]]; [apply H3; exact Hp | exact H2]. }
    cbn [loopI].
    replace (done ++ pi :: rest) with ((done ++ [pi]) ++ rest)
      by (rewrite <- app_assoc; reflexivity).
    destruct c as [c0|].
    + destruct Hc as [Hc He].
      destruct (circleContains c0 pi) eqn:Ei.
      * apply IH; auto. split; [exact Hc|].
        intros p Hp. apply in_app_or in Hp.
        destruct Hp as [Hp | [<- | []]]; [apply He; exact Hp | exact Ei].
      * apply IH; auto.
    + apply IH; auto.
Qed.

Lemma candidate_radius (c : Circle) : candidate pts o r c -> radius c <= r.
Proof.
  intros [[(a & Ha & ->) | (a & b & Ha & Hb & ->)] | ->].
  - exact Hr.
  - apply two_radius_le; assumption.
  - cbn. lra.
Qed.

Lemma welzl_spec (l : list Point) :
  Permutation l pts -> pts <> [] ->
  exists c, welzl l = Some c
            /\ candidate pts o r c /\ encloses c pts.
Proof.
  intros Hp Hne.
  assert (Hl : incl l pts) by (intros p; apply Permutation_in; exact Hp).
  destruct (loopI_spec l [] None) as (c & E & Hc & He).
  - intros p [].
  - exact Hl.
  - reflexivity.
  - cbn. intros ->. apply Permutation_nil in Hp. contradiction.
  - exists c. split; [exact E|]. split; [exact Hc|].
    intros p Hin. apply He. cbn.
    apply Permutation_in with pts; [symmetry; exact Hp | exact Hin].
Qed.

End OnOneCircle.

Section EnclosingExamples.

Import Geom Welzl.
Local Open Scope R_scope.

Lemma floorIndex_zero (x : R) : floorIndex (0 * x) = 0%nat.
Proof.
  unfold floorIndex. rewrite Rmult_0_l.
  change 0 with (IZR 0). rewrite ZfloorZ. reflexivity.
Qed.

Lemma shuffle_zero_three (a b c : Point) :
  shuffle (fun _ => 0) [a; b; c] = [b; c; a].
Proof.
  unfold shuffle. cbn [List.length Nat.sub shuffleFrom].
  rewrite !floorIndex_zero. reflexivity.
Qed.

Lemma Rabs_ge (x y : R) : y <= x \/ y <= - x -> y <= Rabs x.
Proof.
  intros H. unfold Rabs. destruct (Rcase_abs x); lra.
Qed.

Lemma clusteredTriple_welzl :
  welzl [mkPoint 5 0; mkPoint 3 4; mkPoint 4 3]
  = Some (circleFrom2Points (mkPoint 3 4) (mkPoint 5 0)).
Proof.
  assert (H1 : circleContains (mkCircle (mkPoint 5 0) 0) (mkPoint 3 4) = false).
  { cbv [circleContains center radius px py]. decide_R. reflexivity. }
  assert (H2 : circleContains (mkCircle (mkPoint 3 4) 0) (mkPoint 5 0) = false).
  { cbv [circleContains center radius px py]. decide_R. reflexivity. }
  assert (H3 : circleContains (circleFrom2Points (mkPoint 3 4) (mkPoint 5 0))
                 (mkPoint 4 3) = true).
  { cbv [circleContains circleFrom2Points center radius px py].
    decide_R. reflexivity. }
  unfold welzl. cbn [loopI loopJ loopK app fold_left].
  rewrite H1, H2. rewrite H3. reflexivity.
Qed.

Lemma acuteTriple_on : forall p, In p acuteTriple -> onCircle origin 5 p.
Proof.
  intros p [<- | [<- | [<- | []]]]; unfold onCircle; cbn [px py origin]; lra.
Qed.

Lemma acuteTriple_nondegenerate : nondegenerate acuteTriple.
Proof.
  intros a b c Ha Hb Hc Hab Hout.
  assert (Hca : c <> a).
  { intros ->. rewrite contains_two_l in Hout. discriminate. }
  assert (Hcb : c <> b).
  { intros ->. rewrite contains_two_r in Hout. discriminate. }
  clear Hout.
  destruct Ha as [<- | [<- | [<- | []]]];
    destruct Hb as [<- | [<- | [<- | []]]]; try congruence;
    destruct Hc as [<- | [<- | [<- | []]]]; try congruence;
    apply Rabs_ge; unfold det3; cbn [px py]; lra.
Qed.

Lemma acuteTriple_spread : spread acuteTriple origin 5.
Proof.
  intros c Hsmall Hen. exfalso.
  pose proof (Hen (mkPoint 5 0) (or_introl eq_refl)) as H1.
  pose proof (Hen (mkPoint (-3) 4) (or_intror (or_introl eq_refl))) as H2.
  pose proof (Hen (mkPoint (-3) (-4))
                (or_intror (or_intror (or_introl eq_refl)))) as H3.
  clear Hen.
  destruct Hsmall as [(a & Ha & ->) | (a & b & Ha & Hb & ->)].
  - destruct Ha as [<- | [<- | [<- | []]]];
      cbv [circleContains center radius px py] in H1, H2, H3;
      repeat match goal with
             | H : (if (if Rle_dec ?x ?y then _ else _) then _ else _) = _ |- _ =>
                 destruct (Rle_dec x y); [clear H | discriminate H]
             | H : (if Rle_dec ?x ?y then _ else _) = _ |- _ =>
                 destruct (Rle_dec x y); [clear H | discriminate H]
             end;
      hypot_facts; nra.
  - destruct Ha as [<- | [<- | [<- | []]]];
      destruct Hb as [<- | [<- | [<- | []]]];
      cbv [circleContains circleFrom2Points center radius px py] in H1, H2, H3;
      repeat match goal with
             | H : (if Rle_dec ?x ?y then _ else _) = _ |- _ =>
                 let Hle := fresh "Hle" in
                 destruct (Rle_dec x y) as [Hle | _];
                 [clear H; apply hypot_le_bound in Hle | discriminate H]
             end;
      lra.
Qed.

End EnclosingExamples.

Section EnclosingCircle.

Import Geom Welzl.
Local Open Scope R_scope.




End EnclosingCircle.

(* ================================================================== *)
(** * Snap candidates lie on their entities *)
(* ================================================================== *)

Section LineProjections.

Import Geom Snap SnapPoints.
Local Open Scope R_scope.

Lemma sum_squares_zero (x y : R) : x * x + y * y = 0 -> x = 0 /\ y = 0.
Proof. intros H. apply Rplus_sqr_eq_0. exact H. Qed.

Lemma lengthSquared_zero (a b : Point) :
  (px b - px a) * (px b - px a) + (py b - py a) * (py b - py a) = 0 ->
  px b = px a /\ py b = py a.
Proof. intros H. apply sum_squares_zero in H. lra. Qed.

Lemma hypot_le_of_sqr (a b c d : R) :
  a * a + b * b <= c * c + d * d -> Math_hypot a b <= Math_hypot c d.
Proof.
  intros H. unfold Math_hypot. apply sqrt_le_1_alt. exact H.
Qed.

(** The squared distance from [p] to the point of parameter [s] on the
    line from [a], against that to the point of parameter [t]. *)
Lemma param_distance (p a : Point) (dx dy s t : R) :
  (px p - (px a + s * dx)) * (px p - (px a + s * dx))
  + (py p - (py a + s * dy)) * (py p - (py a + s * dy))
  - ((px p - (px a + t * dx)) * (px p - (px a + t * dx))
     + (py p - (py a + t * dy)) * (py p - (py a + t * dy)))
  = (s - t) * ((s + t) * (dx * dx + dy * dy)
               - 2 * ((px p - px a) * dx + (py p - py a) * dy)).
Proof. ring. Qed.

Lemma nearestPointOnLine_param (p a b : Point) :
  exists t, 0 <= t <= 1
    /\ nearestPointOnLine p a b
       = mkPoint (px a + t * (px b - px a)) (py a + t * (py b - py a))
    /\ forall s, 0 <= s <= 1 ->
         (px p - (px a + t * (px b - px a))) * (px p - (px a + t * (px b - px a)))
         + (py p - (py a + t * (py b - py a))) * (py p - (py a + t * (py b - py a)))
         <= (px p - (px a + s * (px b - px a))) * (px p - (px a + s * (px b - px a)))
            + (py p - (py a + s * (py b - py a))) * (py p - (py a + s * (py b - py a))).
Proof.
  unfold nearestPointOnLine.
  set (dx := px b - px a). set (dy := py b - py a).
  set (L := dx * dx + dy * dy).
  set (dot := (px p - px a) * dx + (py p - py a) * dy).
  destruct (Req_dec_T L 0) as [E | NE].
  - exists 0. split; [lra|].
    assert (Hd : dx = 0 /\ dy = 0) by (apply sum_squares_zero; exact E).
    destruct Hd as [-> ->]. split.
    + destruct a; cbn. f_equal; ring.
    + intros s Hs. right. ring.
  - assert (HL : 0 < L).
    { unfold L. assert (0 <= dx * dx + dy * dy) by nra. unfold L in NE. lra. }
    set (tstar := dot / L).
    assert (Hdot : dot = tstar * L) by (unfold tstar; field; lra).
    exists (Rmax 0 (Rmin 1 tstar)).
    assert (Hrange : 0 <= Rmax 0 (Rmin 1 tstar) <= 1).
    { split; [apply Rmax_l|]. apply Rmax_lub; [lra | apply Rmin_l]. }
    split; [exact Hrange|]. split; [reflexivity|].
    intros s Hs.
    pose proof (param_distance p a dx dy s (Rmax 0 (Rmin 1 tstar))) as Hpd.
    fold L dot in Hpd. rewrite Hdot in Hpd.
    set (t := Rmax 0 (Rmin 1 tstar)) in *.
    assert (Hsign : 0 <= (s - t) * ((s + t) * L - 2 * (tstar * L))).
    { replace ((s - t) * ((s + t) * L - 2 * (tstar * L)))
        with (((s - t) * (s + t - 2 * tstar)) * L) by ring.
      apply Rmult_le_pos; [|lra].
      unfold t. destruct (Rle_dec 1 tstar) as [H1 | H1].
      - rewrite (Rmin_left 1 tstar H1), (Rmax_right 0 1) by lra.
        replace ((s - 1) * (s + 1 - 2 * tstar))
          with ((1 - s) * (2 * tstar - 1 - s)) by ring.
        apply Rmult_le_pos; lra.
      - rewrite (Rmin_right 1 tstar) by lra.
        destruct (Rle_dec 0 tstar) as [H0 | H0].
        + rewrite (Rmax_right 0 tstar H0).
          replace ((s - tstar) * (s + tstar - 2 * tstar))
            with ((s - tstar) * (s - tstar)) by ring.
          apply Rle_0_sqr.
        + rewrite (Rmax_left 0 tstar) by lra.
          apply Rmult_le_pos; lra. }
    lra.
Qed.

Lemma nearestPointOnLine_onSegment (p a b : Point) :
  onSegment a b (nearestPointOnLine p a b).
Proof.
  destruct (nearestPointOnLine_param p a b) as (t & Ht & E & _).
  exists t. split; assumption.
Qed.

End LineProjections.

Section SegmentDistance.

Import Geom Snap SnapPoints HitTest.
Local Open Scope R_scope.

Lemma nearestPointOnLine_min (p a b q : Point) :
  onSegment a b q -> distance p (nearestPointOnLine p a b) <= distance p q.
Proof.
  intros [s [Hs ->]].
  destruct (nearestPointOnLine_param p a b) as (t & Ht & E & Hmin).
  rewrite E. unfold distance. cbn [px py].
  apply hypot_le_of_sqr. apply Hmin. exact Hs.
Qed.

(** X1. [nearestPointOnLine] returns a point of the segment, and no point
    of the segment is closer to [point]. *)
Theorem nearestPointOnLine_closest (point lineStart lineEnd : Point) :
  onSegment lineStart lineEnd (nearestPointOnLine point lineStart lineEnd)
  /\ forall q, onSegment lineStart lineEnd q ->
       distance point (nearestPointOnLine point lineStart lineEnd)
       <= distance point q.
Proof.
  split; [apply nearestPointOnLine_onSegment|].
  intros q Hq. now apply nearestPointOnLine_min.
Qed.

Lemma pointToSegmentDistance_nearest (p v w : Point) :
  pointToSegmentDistance p v w = distance p (nearestPointOnLine p v w).
Proof.
  unfold pointToSegmentDistance, nearestPointOnLine, distance.
  destruct (Req_dec_T _ 0); reflexivity.
Qed.

Lemma pointToLineDistance_segment (p : Point) (l : Line) :
  pointToLineDistance p l
  = pointToSegmentDistance p (mkPoint (lx1 l) (ly1 l)) (mkPoint (lx2 l) (ly2 l)).
Proof.
  unfold pointToLineDistance, pointToSegmentDistance, Math_hypot. cbn [px py].
  set (dx := lx2 l - lx1 l). set (dy := ly2 l - ly1 l).
  assert (H0 : 0 <= dx * dx + dy * dy) by nra.
  assert (Hs : sqrt (dx * dx + dy * dy) * sqrt (dx * dx + dy * dy)
               = dx * dx + dy * dy) by (apply sqrt_sqrt; exact H0).
  destruct (Req_dec_T (sqrt (dx * dx + dy * dy)) 0) as [E | NE];
    destruct (Req_dec_T (dx * dx + dy * dy) 0) as [E' | NE'].
  - reflexivity.
  - exfalso. rewrite E in Hs. lra.
  - exfalso. apply NE. rewrite E'. apply sqrt_0.
  - rewrite Hs. reflexivity.
Qed.

Lemma distance_zero (p q : Point) : distance p q = 0 <-> p = q.
Proof.
  unfold distance, Math_hypot. split.
  - intros H.
    assert (Hn : 0 <= (px p - px q) * (px p - px q)
                      + (py p - py q) * (py p - py q)).
    { apply Rplus_le_le_0_compat; apply Rle_0_sqr. }
    pose proof (sqrt_eq_0 _ Hn H) as Hz.
    apply sum_squares_zero in Hz. destruct p, q; cbn in *. f_equal; lra.
  - intros ->. replace (_ + _) with 0 by ring. apply sqrt_0.
Qed.

(** X2. [pointToSegmentDistance] is the distance from [p] to the nearest
    point of the segment: it is a lower bound of the distance to every
    point of the segment, attained at [nearestPointOnLine], and zero
    exactly for the points of the segment.  [pointToLineDistance] is the
    same number. *)
Theorem pointToSegmentDistance_min (p v w : Point) :
  pointToSegmentDistance p v w = distance p (nearestPointOnLine p v w)
  /\ (forall q, onSegment v w q -> pointToSegmentDistance p v w <= distance p q)
  /\ (pointToSegmentDistance p v w = 0 <-> onSegment v w p)
  /\ pointToLineDistance p (mkLine (px v) (py v) (px w) (py w))
     = pointToSegmentDistance p v w.
Proof.
  split; [apply pointToSegmentDistance_nearest|].
  split; [|split].
  - intros q Hq. rewrite pointToSegmentDistance_nearest.
    now apply nearestPointOnLine_min.
  - rewrite pointToSegmentDistance_nearest. split.
    + intros H. apply distance_zero in H. rewrite H.
      apply nearestPointOnLine_onSegment.
    + intros Hp.
      pose proof (nearestPointOnLine_min p v w p Hp) as Hmin.
      assert (Hpp : distance p p = 0) by (now apply distance_zero).
      assert (H0 : 0 <= distance p (nearestPointOnLine p v w))
        by apply Math_hypot_nonneg.
      lra.
  - rewrite pointToLineDistance_segment. cbn [lx1 ly1 lx2 ly2].
    destruct v, w. reflexivity.
Qed.

End SegmentDistance.

Section Perpendicular.

Import Geom Snap SnapPoints.
Local Open Scope R_scope.

Lemma foot_some (p a b : Point) :
  (px b - px a) * (px b - px a) + (py b - py a) * (py b - py a) <> 0 ->
  perpendicularPointOnInfiniteLine p a b
  = Some (mkFoot
            (px a + (((px p - px a) * (px b - px a) + (py p - py a) * (py b - py a))
                     / ((px b - px a) * (px b - px a) + (py b - py a) * (py b - py a)))
                    * (px b - px a))
            (py a + (((px p - px a) * (px b - px a) + (py p - py a) * (py b - py a))
                     / ((px b - px a) * (px b - px a) + (py b - py a) * (py b - py a)))
                    * (py b - py a))
            (((px p - px a) * (px b - px a) + (py p - py a) * (py b - py a))
             / ((px b - px a) * (px b - px a) + (py b - py a) * (py b - py a)))).
Proof.
  intros NE. unfold perpendicularPointOnInfiniteLine.
  destruct (Req_dec_T _ 0); [contradiction | reflexivity].
Qed.

(** X3. [perpendicularPointOnInfiniteLine] returns [null] exactly when the
    two points of the line coincide.  Otherwise the point returned is the
    point of parameter [t] on the line, the vector from it to [point] is
    perpendicular to the line, and no point of the line is closer to
    [point]. *)
Theorem perpendicularPointOnInfiniteLine_foot (point lineStart lineEnd : Point) :
  (perpendicularPointOnInfiniteLine point lineStart lineEnd = None
   <-> lineStart = lineEnd)
  /\ forall f, perpendicularPointOnInfiniteLine point lineStart lineEnd = Some f ->
       fx f = px lineStart + ft f * (px lineEnd - px lineStart)
       /\ fy f = py lineStart + ft f * (py lineEnd - py lineStart)
       /\ (px point - fx f) * (px lineEnd - px lineStart)
          + (py point - fy f) * (py lineEnd - py lineStart) = 0
       /\ forall q, onLine lineStart lineEnd q ->
            distance point (mkPoint (fx f) (fy f)) <= distance point q.
Proof.
  set (dx := px lineEnd - px lineStart). set (dy := py lineEnd - py lineStart).
  split.
  - unfold perpendicularPointOnInfiniteLine. fold dx dy.
    destruct (Req_dec_T (dx * dx + dy * dy) 0) as [E | NE]; split.
    + intros _. apply sum_squares_zero in E. unfold dx, dy in E.
      destruct lineStart, lineEnd; cbn in *. f_equal; lra.
    + reflexivity.
    + discriminate.
    + intros ->. exfalso. apply NE. unfold dx, dy. ring.
  - intros f Hf. unfold perpendicularPointOnInfiniteLine in Hf. fold dx dy in Hf.
    destruct (Req_dec_T (dx * dx + dy * dy) 0) as [E | NE]; [discriminate|].
    injection Hf as <-. cbn [fx fy ft].
    set (L := dx * dx + dy * dy) in *.
    set (dot := (px point - px lineStart) * dx + (py point - py lineStart) * dy).
    assert (Hdot : dot = dot / L * L) by (field; exact NE).
    assert (HL : 0 < L).
    { unfold L. assert (0 <= dx * dx + dy * dy)
        by (apply Rplus_le_le_0_compat; apply Rle_0_sqr). unfold L in NE. lra. }
    remember (dot / L) as ts eqn:Ets. clear Ets.
    split; [reflexivity|]. split; [reflexivity|]. split.
    + replace ((px point - (px lineStart + ts * dx)) * dx
               + (py point - (py lineStart + ts * dy)) * dy)
        with (dot - ts * L) by (unfold dot, L; ring).
      lra.
    + intros q [s ->]. unfold distance. cbn [px py]. fold dx dy.
      apply hypot_le_of_sqr.
      pose proof (param_distance point lineStart dx dy s ts) as Hpd.
      fold L dot in Hpd.
      assert (Hsq : 0 <= (s - ts) * ((s + ts) * L - 2 * dot)).
      { replace ((s - ts) * ((s + ts) * L - 2 * dot))
          with (((s - ts) * (s - ts)) * L) by (rewrite Hdot; ring).
        apply Rmult_le_pos; [apply Rle_0_sqr | lra]. }
      lra.
Qed.

(** X4. [perpendicularPointOnLine] returns a point exactly when the foot
    of the perpendicular falls within the segment, the point being that
    foot; it then is also what [nearestPointOnLine] returns. *)
Theorem perpendicularPointOnLine_within (point lineStart lineEnd : Point) :
  perpendicularPointOnLine point lineStart lineEnd
  = match perpendicularPointOnInfiniteLine point lineStart lineEnd with
    | Some f =>
        if Rle_dec 0 (ft f) then
          if Rle_dec (ft f) 1 then Some (mkPoint (fx f) (fy f)) else None
        else None
    | None => None
    end
  /\ forall q, perpendicularPointOnLine point lineStart lineEnd = Some q ->
       q = nearestPointOnLine point lineStart lineEnd
       /\ onSegment lineStart lineEnd q.
Proof.
  split.
  - unfold perpendicularPointOnLine, perpendicularPointOnInfiniteLine.
    destruct (Req_dec_T _ 0); reflexivity.
  - intros q Hq.
    assert (E : q = nearestPointOnLine point lineStart lineEnd).
    { unfold perpendicularPointOnLine in Hq. unfold nearestPointOnLine.
      destruct (Req_dec_T _ 0) as [E | NE]; [discriminate|].
      destruct (Rle_dec 0 _) as [H0 | H0]; [|discriminate].
      destruct (Rle_dec _ 1) as [H1 | H1]; [|discriminate].
      injection Hq as <-.
      rewrite (Rmin_right 1 _ H1), (Rmax_right 0 _ H0). reflexivity. }
    split; [exact E|]. rewrite E. apply nearestPointOnLine_onSegment.
Qed.

End Perpendicular.

Section Intersection.

Import Geom Snap SnapPoints.
Local Open Scope R_scope.

(** X5. [lineLineIntersection]: a point returned lies on both segments;
    when the two segments share a point and the determinant is at least
    1e-4 in magnitude, that point is returned; a determinant below 1e-4 in
    magnitude gives [null], whether or not the segments cross. *)
Theorem lineLineIntersection_sound_complete (l1p1 l1p2 l2p1 l2p2 : Point) :
  let denom := (px l1p1 - px l1p2) * (py l2p1 - py l2p2)
               - (py l1p1 - py l1p2) * (px l2p1 - px l2p2) in
  (forall q, lineLineIntersection l1p1 l1p2 l2p1 l2p2 = Some q ->
     onSegment l1p1 l1p2 q /\ onSegment l2p1 l2p2 q)
  /\ (forall q, 0.0001 <= Rabs denom ->
        onSegment l1p1 l1p2 q -> onSegment l2p1 l2p2 q ->
        lineLineIntersection l1p1 l1p2 l2p1 l2p2 = Some q)
  /\ (Rabs denom < 0.0001 -> lineLineIntersection l1p1 l1p2 l2p1 l2p2 = None).
Proof.
  intros denom. unfold lineLineIntersection.
  destruct l1p1 as [x1 y1], l1p2 as [x2 y2], l2p1 as [x3 y3], l2p2 as [x4 y4].
  cbn [px py] in *. fold denom.
  set (t := ((x1 - x3) * (y3 - y4) - (y1 - y3) * (x3 - x4)) / denom).
  set (u := - ((x1 - x2) * (y1 - y3) - (y1 - y2) * (x1 - x3)) / denom).
  split; [|split].
  - intros q Hq.
    destruct (Rlt_dec (Rabs denom) 0.0001) as [Hd | Hd]; [discriminate|].
    assert (Hd0 : denom <> 0).
    { intros E. rewrite E, Rabs_R0 in Hd. lra. }
    destruct (Rle_dec 0 t) as [Ht0 | ?]; [|discriminate].
    destruct (Rle_dec t 1) as [Ht1 | ?]; [|discriminate].
    destruct (Rle_dec 0 u) as [Hu0 | ?]; [|discriminate].
    destruct (Rle_dec u 1) as [Hu1 | ?]; [|discriminate].
    injection Hq as <-. split.
    + exists t. cbn [px py]. split; [lra | reflexivity].
    + exists u. cbn [px py]. split; [lra|].
      f_equal; unfold t, u, denom; field; exact Hd0.
  - intros q Hden [t0 [Ht0 E1]] [u0 [Hu0 E2]]. cbn [px py] in E1, E2.
    destruct (Rlt_dec (Rabs denom) 0.0001) as [Hd | Hd]; [lra|].
    assert (Hd0 : denom <> 0).
    { intros E. rewrite E, Rabs_R0 in Hd. lra. }
    rewrite E1 in E2. injection E2 as Ex Ey.
    assert (Hx : x1 - x3 = u0 * (x4 - x3) - t0 * (x2 - x1)) by lra.
    assert (Hy : y1 - y3 = u0 * (y4 - y3) - t0 * (y2 - y1)) by lra.
    assert (Et : t = t0).
    { unfold t. apply Rmult_eq_reg_r with denom; [|exact Hd0].
      unfold Rdiv. rewrite Rmult_assoc, Rinv_l, Rmult_1_r by exact Hd0.
      unfold denom. rewrite Hx, Hy. ring. }
    assert (Eu : u = u0).
    { unfold u. apply Rmult_eq_reg_r with denom; [|exact Hd0].
      unfold Rdiv. rewrite Rmult_assoc, Rinv_l, Rmult_1_r by exact Hd0.
      unfold denom. rewrite Hx, Hy. ring. }
    rewrite Et, Eu.
    destruct (Rle_dec 0 t0); [|lra]. destruct (Rle_dec t0 1); [|lra].
    destruct (Rle_dec 0 u0); [|lra]. destruct (Rle_dec u0 1); [|lra].
    rewrite E1. reflexivity.
  - intros Hd. destruct (Rlt_dec (Rabs denom) 0.0001); [reflexivity | lra].
Qed.

End Intersection.

Section SnapCandidates.

Import Geom Snap SnapPoints.
Local Open Scope R_scope.

(** What holds of every candidate of [entity] under the modes [modes]. *)
Local Abbreviation sound modes entity ref :=
  (fun c : Candidate =>
     sentity (csnap c) = entity
     /\ modeOn modes (stype (csnap c)) = true
     /\ stype (csnap c) <> intersection
     /\ (ref = @None Point -> stype (csnap c) <> perpendicular)
     /\ liesOn entity (stype (csnap c)) (spoint (csnap c))).

Lemma onSegment_start (a b : Point) : onSegment a b a.
Proof. exists 0. split; [lra|]. destruct a; cbn. f_equal; ring. Qed.

Lemma onSegment_end (a b : Point) : onSegment a b b.
Proof. exists 1. split; [lra|]. destruct a, b; cbn. f_equal; ring. Qed.

Lemma onSegment_middle (a b : Point) :
  onSegment a b (mkPoint ((px a + px b) / 2) ((py a + py b) / 2)).
Proof. exists (1 / 2). split; [lra|]. f_equal; field. Qed.

Lemma onCircleAt_angle (cx cy r a : R) :
  onCircleAt cx cy r (mkPoint (cx + r * cos a) (cy + r * sin a)).
Proof.
  unfold onCircleAt. cbn [px py].
  pose proof (sin2_cos2 a) as H. unfold Rsqr in H.
  replace ((cx + r * cos a - cx) * (cx + r * cos a - cx)
           + (cy + r * sin a - cy) * (cy + r * sin a - cy))
    with (r * r * (sin a * sin a + cos a * cos a)) by ring.
  rewrite H. ring.
Qed.

Ltac each_candidate :=
  repeat first
    [ apply Forall_nil
    | apply Forall_app; split
    | apply Forall_cons ].

Lemma getLineSnaps_sound modes x1 y1 x2 y2 cursorPos ref :
  Forall (sound modes (OLine x1 y1 x2 y2) ref)
         (getLineSnaps modes (OLine x1 y1 x2 y2) x1 y1 x2 y2 cursorPos ref).
Proof.
  unfold getLineSnaps.
  apply Forall_app; split; [|apply Forall_app; split; [|apply Forall_app; split]].
  - destruct (m_endpoint modes) eqn:E; each_candidate;
      cbn; (repeat split; try assumption; try discriminate).
    + apply (onSegment_start (mkPoint x1 y1) (mkPoint x2 y2)).
    + apply (onSegment_end (mkPoint x1 y1) (mkPoint x2 y2)).
  - destruct (m_midpoint modes) eqn:E; each_candidate;
      cbn; (repeat split; try assumption; try discriminate).
    apply (onSegment_middle (mkPoint x1 y1) (mkPoint x2 y2)).
  - destruct (m_perpendicular modes) eqn:E; [|constructor].
    destruct ref as [r|]; [|constructor].
    destruct (perpendicularPointOnInfiniteLine r (mkPoint x1 y1) (mkPoint x2 y2))
      as [f|] eqn:Ef; [|constructor].
    each_candidate. cbn.
    repeat split; try assumption; try discriminate.
    unfold perpendicularPointOnInfiniteLine in Ef.
    destruct (Req_dec_T _ 0); [discriminate|]. injection Ef as <-.
    cbn [fx fy ft px py]. eexists. reflexivity.
  - destruct (m_nearest modes) eqn:E; each_candidate;
      cbn; (repeat split; try assumption; try discriminate).
    apply nearestPointOnLine_onSegment.
Qed.

Lemma getCircleSnaps_sound modes cx cy radius cursorPos ref :
  Forall (sound modes (OCircle cx cy radius) ref)
         (getCircleSnaps modes (OCircle cx cy radius) cx cy radius cursorPos).
Proof.
  unfold getCircleSnaps.
  apply Forall_app; split; [|apply Forall_app; split].
  - destruct (m_center modes) eqn:E; each_candidate;
      cbn; (repeat split; try assumption; try discriminate).
  - destruct (m_quadrant modes) eqn:E; each_candidate;
      cbn; (repeat split; try assumption; try discriminate);
      unfold onCircleAt; cbn [px py]; ring.
  - destruct (m_nearest modes) eqn:E; [|constructor].
    cbn zeta. set (dx := px cursorPos - cx). set (dy := py cursorPos - cy).
    destruct (Rlt_dec 0 (sqrt (dx * dx + dy * dy))) as [Hd | Hd]; [|constructor].
    each_candidate. cbn.
    repeat split; try assumption; try discriminate.
    unfold onCircleAt. cbn [px py].
    assert (Hs : sqrt (dx * dx + dy * dy) * sqrt (dx * dx + dy * dy)
                 = dx * dx + dy * dy).
    { apply sqrt_sqrt. apply Rplus_le_le_0_compat; apply Rle_0_sqr. }
    set (dist := sqrt (dx * dx + dy * dy)) in *.
    replace ((cx + dx / dist * radius - cx) * (cx + dx / dist * radius - cx)
             + (cy + dy / dist * radius - cy) * (cy + dy / dist * radius - cy))
      with (radius * radius * ((dx * dx + dy * dy) / (dist * dist)))
      by (field; lra).
    rewrite <- Hs. field. lra.
Qed.

Lemma getArcSnaps_sound modes cx cy radius startAngle endAngle ref :
  Forall (sound modes (OArc cx cy radius startAngle endAngle) ref)
         (getArcSnaps modes (OArc cx cy radius startAngle endAngle)
                      cx cy radius startAngle endAngle).
Proof.
  unfold getArcSnaps.
  apply Forall_app; split; [|apply Forall_app; split].
  - destruct (m_center modes) eqn:E; each_candidate;
      cbn; (repeat split; try assumption; try discriminate).
  - destruct (m_endpoint modes) eqn:E; each_candidate;
      cbn; (repeat split; try assumption; try discriminate);
      apply onCircleAt_angle.
  - destruct (m_midpoint modes) eqn:E; each_candidate;
      cbn; (repeat split; try assumption; try discriminate).
    apply onCircleAt_angle.
Qed.

Lemma point_eta (v : Point) : mkPoint (px v) (py v) = v.
Proof. destruct v; reflexivity. Qed.

Lemma getPolylineSnaps_sound modes vertices cursorPos ref :
  Forall (sound modes (OPolyline vertices) ref)
         (getPolylineSnaps modes (OPolyline vertices) vertices cursorPos).
Proof.
  unfold getPolylineSnaps. destruct vertices as [vs|]; [|constructor].
  apply Forall_flat_map. apply Forall_forall. intros i Hi.
  apply in_seq in Hi. unfold polylineSnapsAt.
  set (v := nth i vs (mkPoint 0 0)).
  assert (Hv : In v vs) by (apply nth_In; lia).
  apply Forall_app; split.
  - destruct (m_endpoint modes) eqn:E; each_candidate;
      cbn; (repeat split; try assumption; try discriminate).
    left. exists v. split; [exact Hv | apply point_eta].
  - destruct (i <? List.length vs - 1)%nat eqn:Ei; [|constructor].
    apply Nat.ltb_lt in Ei. set (v2 := nth (i + 1) vs (mkPoint 0 0)).
    apply Forall_app; split.
    + destruct (m_midpoint modes) eqn:E; each_candidate;
        cbn; (repeat split; try assumption; try discriminate).
      right. exists i. split; [lia|]. apply (onSegment_middle v v2).
    + destruct (m_nearest modes) eqn:E; each_candidate;
        cbn; (repeat split; try assumption; try discriminate).
      right. exists i. split; [lia|]. fold v v2.
      rewrite <- (point_eta v) at 1. rewrite <- (point_eta v2) at 1.
      apply nearestPointOnLine_onSegment.
Qed.

Lemma getEntitySnapPoints_sound modes entity cursorPos ref :
  Forall (sound modes entity ref)
         (getEntitySnapPoints modes entity cursorPos ref).
Proof.
  destruct entity; cbn [getEntitySnapPoints].
  - apply getLineSnaps_sound.
  - apply getCircleSnaps_sound.
  - apply getArcSnaps_sound.
  - apply getPolylineSnaps_sound.
  - destruct (m_node modes) eqn:E; each_candidate;
      cbn; (repeat split; try assumption; try discriminate).
  - constructor.
Qed.

(** X6. Every candidate [getEntitySnapPoints] produces for an entity
    names that entity, has a type whose snap mode is switched on, is never
    of type ['intersection'], is of type ['perpendicular'] only when a
    reference point is given, and lies on the entity: on the segment of a
    LINE (on its line, for a perpendicular), on the circle of a CIRCLE or
    an ARC (at the centre, for a centre snap), on a vertex or a segment of
    a polyline, at the POINT. *)
Theorem getEntitySnapPoints_on_entity
    (modes : SnapModes) (entity : OEntity) (cursorPos : Point)
    (referencePoint : option Point) :
  Forall (fun c : Candidate =>
            sentity (csnap c) = entity
            /\ modeOn modes (stype (csnap c)) = true
            /\ stype (csnap c) <> intersection
            /\ (referencePoint = None -> stype (csnap c) <> perpendicular)
            /\ liesOn entity (stype (csnap c)) (spoint (csnap c)))
         (getEntitySnapPoints modes entity cursorPos referencePoint).
Proof. apply getEntitySnapPoints_sound. Qed.

(** X7. The snap [findSnapPoint] returns belongs to an entity of the list
    that is not on a hidden layer, its type is a snap mode that is switched
    on and is never ['intersection'] (no candidate of that type is ever
    produced, although the mode exists and is on by default), and its point
    lies on the entity.  In particular a mode switched off with
    [toggleSnapMode] is never returned. *)
Theorem osnapFind_enabled_on_entity
    (modes : SnapModes) (layerHidden : OEntity -> bool)
    (worldToScreen : R -> R -> Point) (snapTolerance : R)
    (worldPos : Point) (entities : list OEntity)
    (referencePoint : option Point) :
  (forall s,
     osnapFind modes layerHidden worldToScreen snapTolerance worldPos
               entities referencePoint = Some s ->
     In (sentity s) entities
     /\ layerHidden (sentity s) = false
     /\ modeOn modes (stype s) = true
     /\ stype s <> intersection
     /\ liesOn (sentity s) (stype s) (spoint s))
  /\ (forall mode t s,
        modeNamed mode = Some t ->
        osnapFind (toggleSnapMode modes mode false) layerHidden worldToScreen
                  snapTolerance worldPos entities referencePoint = Some s ->
        stype s <> t).
Proof.
  assert (Hmain : forall modes0 s,
             osnapFind modes0 layerHidden worldToScreen snapTolerance worldPos
                       entities referencePoint = Some s ->
             In (sentity s) entities
             /\ layerHidden (sentity s) = false
             /\ modeOn modes0 (stype s) = true
             /\ stype s <> intersection
             /\ liesOn (sentity s) (stype s) (spoint s)).
  { intros modes0 s Hs. unfold osnapFind in Hs.
    rewrite findSnapPoint_selectSnap in Hs.
    destruct (selectSnap_spec OEntity worldToScreen snapTolerance worldPos
                (candidates layerHidden
                   (fun entity cursorPos ref =>
                      map csnap (getEntitySnapPoints modes0 entity cursorPos ref))
                   worldPos entities referencePoint))
      as (_ & _ & Hin & _).
    destruct (Hin s Hs) as [Hc _].
    unfold candidates in Hc. apply in_flat_map in Hc.
    destruct Hc as (e & He & Hc).
    destruct (layerHidden e) eqn:Hl; [destruct Hc|].
    apply in_map_iff in Hc. destruct Hc as (c & <- & Hc).
    pose proof (getEntitySnapPoints_sound modes0 e worldPos referencePoint) as Hf.
    rewrite Forall_forall in Hf.
    destruct (Hf c Hc) as (E1 & E2 & E3 & _ & E5).
    rewrite E1. repeat split; assumption. }
  split; [apply Hmain|].
  intros mode t s Hm Hs.
  destruct (Hmain _ s Hs) as (_ & _ & Hon & _).
  unfold toggleSnapMode in Hon. rewrite Hm in Hon.
  intros E. rewrite E in Hon. destruct t; cbn in Hon; discriminate.
Qed.

End SnapCandidates.

(* ================================================================== *)
(** * Circles and areas of the weight calculation *)
(* ================================================================== *)

Section CircleConstructions.

Import Geom Welzl.
Local Open Scope R_scope.

Lemma hypot_eq_of_sqr (a b c d : R) :
  a * a + b * b = c * c + d * d -> Math_hypot a b = Math_hypot c d.
Proof. intros H. unfold Math_hypot. rewrite H. reflexivity. Qed.

Lemma hypot_scale (k a b : R) :
  0 <= k -> Math_hypot (k * a) (k * b) = k * Math_hypot a b.
Proof.
  intros Hk. unfold Math_hypot.
  replace (k * a * (k * a) + k * b * (k * b)) with ((k * k) * (a * a + b * b))
    by ring.
  rewrite sqrt_mult_alt by (apply Rle_0_sqr).
  rewrite sqrt_square by exact Hk. reflexivity.
Qed.

(** X8. [circleFrom2Points] is the circle over the two points as a
    diameter; [circleFrom3Points] is the circle through the three points
    when the determinant is at least 1e-12 in magnitude, and the circle
    over the first two points otherwise. *)
Theorem circleFrom3Points_circumcircle (a b c : Point) :
  (center (circleFrom2Points a b)
   = mkPoint ((px a + px b) / 2) ((py a + py b) / 2)
   /\ 2 * radius (circleFrom2Points a b)
      = Math_hypot (px a - px b) (py a - py b)
   /\ Math_hypot (px b - px (center (circleFrom2Points a b)))
                 (py b - py (center (circleFrom2Points a b)))
      = radius (circleFrom2Points a b))
  /\ (1e-12 <= Rabs (det3 a b c) ->
      let k := circleFrom3Points a b c in
      Math_hypot (px a - px (center k)) (py a - py (center k)) = radius k
      /\ Math_hypot (px b - px (center k)) (py b - py (center k)) = radius k
      /\ Math_hypot (px c - px (center k)) (py c - py (center k)) = radius k)
  /\ (Rabs (det3 a b c) < 1e-12 ->
      circleFrom3Points a b c = circleFrom2Points a b).
Proof.
  split; [|split].
  - unfold circleFrom2Points. cbn [center radius px py].
    split; [reflexivity|]. split.
    + replace (px a - px b) with (2 * (px a - (px a + px b) / 2)) by field.
      replace (py a - py b) with (2 * (py a - (py a + py b) / 2)) by field.
      rewrite hypot_scale by lra. reflexivity.
    + apply hypot_eq_of_sqr. field.
  - intros Hd k. unfold k, circleFrom3Points.
    destruct (Rlt_dec (Rabs (det3 a b c)) 1e-12) as [Hlt | _]; [lra|].
    assert (Hd0 : det3 a b c <> 0).
    { intros E. rewrite E, Rabs_R0 in Hd. lra. }
    cbn [center radius px py].
    split; [reflexivity|].
    split; apply hypot_eq_of_sqr; unfold det3 in *; field; lra.
  - intros Hd. unfold circleFrom3Points.
    destruct (Rlt_dec (Rabs (det3 a b c)) 1e-12); [reflexivity | lra].
Qed.

End CircleConstructions.

Section SmallInputs.

Import Geom Welzl.
Local Open Scope R_scope.

Lemma loopI_some (rest done : list Point) (c : Circle) :
  exists c', loopI done rest (Some c) = Some c'.
Proof.
  revert done c. induction rest as [|p rest IH]; intros done c.
  - exists c. reflexivity.
  - cbn [loopI]. destruct (circleContains c p); apply IH.
Qed.

Lemma welzl_some (l : list Point) : l <> [] -> exists c, welzl l = Some c.
Proof.
  destruct l as [|p l]; [congruence|]. intros _.
  unfold welzl. cbn [loopI]. apply loopI_some.
Qed.

Lemma welzl_two (p0 p1 : Point) :
  1e-6 < Math_hypot (px p1 - px p0) (py p1 - py p0) ->
  welzl [p0; p1] = Some (circleFrom2Points p1 p0).
Proof.
  intros Hd. unfold welzl. cbn [loopI loopJ loopK app fold_left].
  assert (H1 : circleContains (mkCircle p0 0) p1 = false).
  { unfold circleContains. cbn [center radius].
    destruct (Rle_dec _ _); [lra | reflexivity]. }
  assert (H2 : circleContains (mkCircle p1 0) p0 = false).
  { unfold circleContains. cbn [center radius].
    replace (Math_hypot (px p0 - px p1) (py p0 - py p1))
      with (Math_hypot (px p1 - px p0) (py p1 - py p0))
      by (apply hypot_eq_of_sqr; ring).
    destruct (Rle_dec _ _); [lra | reflexivity]. }
  rewrite H1, H2. reflexivity.
Qed.

(** X9. [minimumEnclosingCircle] on few points, for every outcome of the
    shuffle: an empty array makes it throw (the circle is still [null]
    when its centre is read), any other array gives a circle; one point
    gives that point with radius 0; two points more than 1e-6 apart give
    the circle over them as a diameter. *)
Theorem minimumEnclosingCircle_few_points (rnd : nat -> R) :
  (forall k, 0 <= rnd k < 1) ->
  minimumEnclosingCircle rnd [] = None
  /\ (forall pts, pts <> [] -> minimumEnclosingCircle rnd pts <> None)
  /\ (forall p, minimumEnclosingCircle rnd [p] = Some (mkEnclosing p 0 (0 * 2)))
  /\ (forall a b,
        1e-6 < Math_hypot (px a - px b) (py a - py b) ->
        exists e,
          minimumEnclosingCircle rnd [a; b] = Some e
          /\ ecenter e = mkPoint ((px a + px b) / 2) ((py a + py b) / 2)
          /\ eradius e * 2 = Math_hypot (px a - px b) (py a - py b)
          /\ ediameter e = eradius e * 2).
Proof.
  intros Hrnd. split; [reflexivity|]. split; [|split].
  - intros pts Hne. unfold minimumEnclosingCircle.
    destruct (welzl_some (shuffle rnd pts)) as [c E].
    + intros E. pose proof (shuffle_Permutation rnd pts Hrnd) as Hp.
      rewrite E in Hp. apply Permutation_nil in Hp. contradiction.
    + rewrite E. discriminate.
  - intros p. unfold minimumEnclosingCircle, shuffle.
    cbn [List.length Nat.sub shuffleFrom]. unfold welzl.
    cbn [loopI loopJ center radius]. rewrite point_eta. reflexivity.
  - intros a b Hd.
    pose proof (shuffle_Permutation rnd [a; b] Hrnd) as Hp.
    apply Permutation_sym, Permutation_length_2_inv in Hp.
    assert (Hsym : Math_hypot (px b - px a) (py b - py a)
                   = Math_hypot (px a - px b) (py a - py b))
      by (apply hypot_eq_of_sqr; ring).
    unfold minimumEnclosingCircle.
    destruct Hp as [-> | ->].
    + rewrite welzl_two by lra. eexists. split; [reflexivity|].
      unfold circleFrom2Points. cbn [center radius px py ecenter eradius ediameter].
      split; [f_equal; lra|]. split; [|reflexivity].
      rewrite Rmult_comm, <- hypot_scale by lra.
      apply hypot_eq_of_sqr. field.
    + rewrite welzl_two by lra. eexists. split; [reflexivity|].
      unfold circleFrom2Points. cbn [center radius px py ecenter eradius ediameter].
      split; [reflexivity|]. split; [|reflexivity].
      rewrite Rmult_comm, <- hypot_scale by lra.
      apply hypot_eq_of_sqr. field.
Qed.

Lemma minimumEnclosingCircle_few_points_witness :
  minimumEnclosingCircle (fun _ => 0) [] = None
  /\ (forall pts, pts <> [] -> minimumEnclosingCircle (fun _ => 0) pts <> None)
  /\ (forall p, minimumEnclosingCircle (fun _ => 0) [p]
                = Some (mkEnclosing p 0 (0 * 2)))
  /\ (forall a b,
        1e-6 < Math_hypot (px a - px b) (py a - py b) ->
        exists e,
          minimumEnclosingCircle (fun _ => 0) [a; b] = Some e
          /\ ecenter e = mkPoint ((px a + px b) / 2) ((py a + py b) / 2)
          /\ eradius e * 2 = Math_hypot (px a - px b) (py a - py b)
          /\ ediameter e = eradius e * 2).
Proof.
  apply (minimumEnclosingCircle_few_points (fun _ => 0)).
  intros _. lra.
Defined.

End SmallInputs.

Section AreasAgree.

Import Geom Area Weight.
Local Open Scope R_scope.

Lemma chord2Of_crossTotal (l : list Vertex) : chord2Of l = crossTotal l.
Proof.
  unfold chord2Of, crossTotal.
  rewrite (fold_left_sumR
             (fun i => vx (nth i l dummyVertex)
                       * vy (nth ((i + 1) mod List.length l) l dummyVertex)
                       - vx (nth ((i + 1) mod List.length l) l dummyVertex)
                         * vy (nth i l dummyVertex))).
  rewrite Rplus_0_l. rewrite <- index_loop_pairs, map_map. reflexivity.
Qed.

Lemma corrOf_pairs (l : list Vertex) :
  corrOf l = sumR (map (fun p => bulgeCorrection (fst p) (snd p)) (cycPairs l)).
Proof.
  unfold corrOf.
  rewrite (fold_left_sumR
             (fun i => bulgeCorrection (nth i l dummyVertex)
                         (nth ((i + 1) mod List.length l) l dummyVertex))).
  rewrite Rplus_0_l. rewrite <- index_loop_pairs, map_map. reflexivity.
Qed.

Lemma atan_Rabs (b : R) : atan (Rabs b) = Rabs (atan b).
Proof.
  unfold Rabs at 1. destruct (Rcase_abs b) as [Hb | Hb].
  - rewrite atan_opp.
    assert (atan b < 0) by (rewrite <- atan_0; now apply atan_increasing).
    rewrite Rabs_left by assumption. reflexivity.
  - assert (0 <= atan b).
    { destruct (Req_dec b 0) as [-> | Hn]; [rewrite atan_0; lra|].
      left. rewrite <- atan_0. apply atan_increasing. lra. }
    rewrite Rabs_right by lra. reflexivity.
Qed.

(** The arc part of one step of [calculateGeometricArea] is twice the
    bulge correction of the weight calculation. *)
Lemma arcPart_bulgeCorrection (x0 y0 : R) (p1 p2 : Vertex) :
  (bulgeOr0 p1 = 0 \/ 1e-12 < Rabs (bulgeOr0 p1)) ->
  (Math_hypot (vx p2 - vx p1) (vy p2 - vy p1) = 0
   \/ 1e-12 <= Math_hypot (vx p2 - vx p1) (vy p2 - vy p1)) ->
  areaStep x0 y0 p1 p2
  = shiftCross x0 y0 p1 p2 + 2 * bulgeCorrection p1 p2.
Proof.
  intros Hb Hc. unfold areaStep, shiftCross, bulgeCorrection.
  set (b := bulgeOr0 p1) in *. f_equal.
  destruct (Req_dec_T b 0) as [E | NE].
  - rewrite E, Rabs_R0. destruct (Rlt_dec 1e-12 0); [lra | ring].
  - destruct Hb as [Hb | Hb]; [contradiction|].
    destruct (Rlt_dec 1e-12 (Rabs b)) as [_ | n]; [|contradiction].
    unfold bulgeToArc, vpoint. cbn [px py].
    destruct (Rlt_dec (Rabs b) 1e-12) as [Hlt | _]; [lra|].
    set (c := Math_hypot (vx p2 - vx p1) (vy p2 - vy p1)) in *.
    destruct (Req_dec_T c 0) as [Ec | NEc].
    + rewrite Ec. destruct (Rlt_dec 0 1e-12); [ring | lra].
    + destruct Hc as [Hc | Hc]; [contradiction|].
      destruct (Rlt_dec c 1e-12) as [Hlt | _]; [lra|].
      cbn [radius].
      assert (Hth : Rabs (4 * atan b) = 4 * atan (Rabs b)).
      { rewrite atan_Rabs, Rabs_mult, (Rabs_right 4) by lra. reflexivity. }
      rewrite Hth. unfold Math_sign.
      assert (Hsq : forall x, Rabs x * Rabs x = x * x).
      { intros x. rewrite <- Rabs_mult. apply Rabs_right. apply Rle_ge, Rle_0_sqr. }
      destruct (Rlt_dec 0 b) as [Hpos | Hnpos].
      * assert (Hab : Rabs b = b) by (apply Rabs_right; lra).
        rewrite Hab.
        set (R0 := c / (2 * sin (4 * atan b / 2))).
        transitivity ((Rabs R0 * Rabs R0) * (4 * atan b - sin (4 * atan b)));
          [replace 0.5 with (1 / 2) by lra; field | rewrite Hsq; field].
      * destruct (Rlt_dec b 0) as [Hneg | Hnneg]; [|exfalso; lra].
        assert (Hab : Rabs b = - b) by (apply Rabs_left; exact Hneg).
        rewrite Hab, atan_opp.
        replace (4 * - atan b) with (- (4 * atan b)) by ring.
        rewrite sin_neg.
        set (R0 := c / (2 * sin (- (4 * atan b) / 2))).
        transitivity ((Rabs R0 * Rabs R0) * (4 * atan b - sin (4 * atan b)));
          [replace 0.5 with (1 / 2) by lra; field | rewrite Hsq; field].
Qed.

(** X10. The two area routines agree: on a vertex list in which every
    bulge is zero or above 1e-12 in magnitude, and the ends of every
    edge coincide or are at least 1e-12 apart, [calculateChainArea]
    of the weight calculation and [calculateGeometricArea] of the viewer
    return the same area. *)
Theorem calculateChainArea_calculateGeometricArea (l : list Vertex) :
  Forall (fun p =>
            (bulgeOr0 (fst p) = 0 \/ 1e-12 < Rabs (bulgeOr0 (fst p)))
            /\ (Math_hypot (vx (snd p) - vx (fst p)) (vy (snd p) - vy (fst p)) = 0
                \/ 1e-12 <= Math_hypot (vx (snd p) - vx (fst p))
                                       (vy (snd p) - vy (fst p))))
         (cycPairs l) ->
  calculateChainArea l = calculateGeometricArea l.
Proof.
  intros H. rewrite calculateGeometricArea_pairs. unfold calculateChainArea.
  destruct (List.length l <? 3)%nat; [reflexivity|].
  f_equal. rewrite chord2Of_crossTotal, corrOf_pairs.
  set (x0 := vx (nth 0 l dummyVertex)). set (y0 := vy (nth 0 l dummyVertex)).
  rewrite (sumR_map_ext
             (fun p => areaStep x0 y0 (fst p) (snd p))
             (fun p => shiftCross x0 y0 (fst p) (snd p)
                       + 2 * bulgeCorrection (fst p) (snd p))).
  - rewrite sumR_map_plus, shiftCross_total.
    rewrite (sumR_map_scal 2). field.
  - intros p Hp. rewrite Forall_forall in H. destruct (H p Hp) as [Hb Hc].
    now apply arcPart_bulgeCorrection.
Qed.

End AreasAgree.

Section AreaExamples.

Import Geom Area Loops Weight.
Local Open Scope R_scope.

Lemma calculateChainArea_calculateGeometricArea_witness :
  calculateChainArea [mkVertex 0 0 (Some 1) None None; pt 2 0; pt 1 1]
  = calculateGeometricArea [mkVertex 0 0 (Some 1) None None; pt 2 0; pt 1 1].
Proof.
  apply calculateChainArea_calculateGeometricArea.
  unfold cycPairs. cbn [tl firstn app combine].
  repeat first [apply Forall_nil | apply Forall_cons; [split|]];
    cbn [fst snd bulgeOr0 vbulge pt vx vy];
    first [ left; reflexivity
          | right; rewrite Rabs_right; lra
          | right; hypot_facts; nra ].
Defined.

(** X11. A closed polyline of two vertices, both with bulge 1, is a
    circle over the two vertices as a diameter: [calculateSingleArea]
    returns PI * (c / 2)^2 for it, [c] being the distance of the
    vertices, while [calculateChainArea] and the viewer's
    [calculateGeometricArea] return 0 for any list of fewer than three
    vertices. *)
Theorem calculateSingleArea_two_vertex_circle (x0 y0 x1 y1 : R) :
  let c := Math_hypot (x1 - x0) (y1 - y0) in
  let circle := [mkVertex x0 y0 (Some 1) None None;
                 mkVertex x1 y1 (Some 1) None None] in
  c <> 0 ->
  calculateSingleArea (WPolyline (Some circle)) = PI * (c / 2) * (c / 2)
  /\ calculateChainArea circle = 0
  /\ calculateGeometricArea circle = 0.
Proof.
  intros c circle Hc. split; [|split; reflexivity].
  unfold calculateSingleArea, circle. cbn [List.length Nat.ltb Nat.leb].
  unfold chord2Of, corrOf.
  cbn [List.length seq fold_left Nat.add Nat.modulo Nat.divmod fst snd nth
       vx vy Nat.sub].
  unfold bulgeCorrection. cbn [bulgeOr0 vbulge vx vy].
  destruct (Req_dec_T 1 0) as [E | _]; [lra|].
  assert (Hsym : Math_hypot (x0 - x1) (y0 - y1) = c)
    by (apply hypot_eq_of_sqr; ring).
  rewrite Hsym. fold c.
  destruct (Req_dec_T c 0) as [E | _]; [contradiction|].
  rewrite (Rabs_right 1) by lra. rewrite atan_1.
  replace (4 * (PI / 4)) with PI by field.
  rewrite sin_PI, sin_PI2.
  unfold Math_sign. destruct (Rlt_dec 0 1) as [_ | n]; [|lra].
  rewrite Rabs_right.
  - field.
  - assert (0 <= c) by apply Math_hypot_nonneg.
    pose proof PI_RGT_0. apply Rle_ge.
    replace ((0 + (x0 * y1 - x1 * y0) + (x1 * y0 - x0 * y1)) / 2
             + (0 + 1 * (c / (2 * 1) * (c / (2 * 1)) / 2 * (PI - 0))
                + 1 * (c / (2 * 1) * (c / (2 * 1)) / 2 * (PI - 0))))
      with (PI * (c * c) / 4) by field.
    apply Rmult_le_pos; [|lra]. apply Rmult_le_pos; [lra | nra].
Qed.

Lemma calculateSingleArea_two_vertex_circle_witness :
  calculateSingleArea
    (WPolyline (Some [mkVertex 0 0 (Some 1) None None;
                      mkVertex 2 0 (Some 1) None None]))
  = PI * (Math_hypot (2 - 0) (0 - 0) / 2) * (Math_hypot (2 - 0) (0 - 0) / 2)
  /\ calculateChainArea [mkVertex 0 0 (Some 1) None None;
                         mkVertex 2 0 (Some 1) None None] = 0
  /\ calculateGeometricArea [mkVertex 0 0 (Some 1) None None;
                             mkVertex 2 0 (Some 1) None None] = 0.
Proof.
  apply (calculateSingleArea_two_vertex_circle 0 0 2 0).
  intros E. hypot_facts. nra.
Defined.

(** X12. [estimateBulge] is the bulge of the counter-clockwise sweep from
    [startAngle] to [endAngle]: for angles less than a full turn apart,
    four times its arc tangent is that sweep in radians, taken in
    [0, 2 PI); a missing angle gives 0.  For distinct angles it is the
    bulge [decomposeEntity] of the viewer gives the same arc. *)
Theorem estimateBulge_sweep (s e : R) :
  -360 < e - s < 360 ->
  4 * atan (estimateBulge (Some s) (Some e))
  = (if Rlt_dec (e - s) 0 then e - s + 360 else e - s) * PI / 180
  /\ estimateBulge None (Some e) = 0
  /\ estimateBulge (Some s) None = 0
  /\ (e <> s ->
      forall cx cy r,
        option_map (map sbulge) (decomposeEntity (ArcEnt cx cy r s e None None))
        = Some [estimateBulge (Some s) (Some e)]).
Proof.
  intros Hr. pose proof PI_RGT_0 as Hpi.
  set (d := e * PI / 180 - s * PI / 180).
  assert (Hd : d = (e - s) * PI / 180) by (unfold d; field).
  assert (Hlo : - (2 * PI) <= d) by (rewrite Hd; nra).
  assert (Hhi : d < 2 * PI) by (rewrite Hd; nra).
  split; [|split; [reflexivity | split; [reflexivity|]]].
  - unfold estimateBulge. fold d.
    destruct (Rlt_dec d 0) as [Hn | Hn];
      destruct (Rlt_dec (e - s) 0) as [Hn' | Hn'];
      try (exfalso; rewrite Hd in Hn; nra).
    + rewrite atan_tan; [rewrite Hd; field|]. split; lra.
    + rewrite atan_tan; [rewrite Hd; field|]. split; lra.
  - intros Hne cx cy r. cbn [decomposeEntity option_map map sbulge].
    do 2 f_equal. unfold estimateBulge. fold d. f_equal. f_equal.
    replace (e * (PI / 180) - s * (PI / 180)) with d by (unfold d; field).
    assert (Hd0 : d <> 0).
    { rewrite Hd. intros E. apply Hne.
      assert ((e - s) * PI = 0) by lra.
      apply Rmult_integral in H. destruct H; lra. }
    rewrite normalizeCCW_unroll.
    destruct (Rle_dec d 0) as [Hle | Hgt]; destruct (Rlt_dec d 0) as [Hlt | Hge];
      try lra.
    rewrite normalizeCCW_unroll.
    destruct (Rle_dec (d + 2 * PI) 0) as [Hle2 | _]; [|reflexivity].
    exfalso. rewrite Hd in *. nra.
Qed.

Lemma estimateBulge_sweep_witness :
  4 * atan (estimateBulge (Some 350) (Some 80))
  = (if Rlt_dec (80 - 350) 0 then 80 - 350 + 360 else 80 - 350) * PI / 180
  /\ estimateBulge None (Some 80) = 0
  /\ estimateBulge (Some 350) None = 0
  /\ (80 <> 350 ->
      forall cx cy r,
        option_map (map sbulge)
                   (decomposeEntity (ArcEnt cx cy r 350 80 None None))
        = Some [estimateBulge (Some 350) (Some 80)]).
Proof.
  apply (estimateBulge_sweep 350 80). lra.
Defined.

End AreaExamples.

Section BulgePoints.

Import Geom SnapPoints Weight.
Local Open Scope R_scope.

Lemma sin_cos_2atan (b : R) :
  sin (2 * atan b) = 2 * b / (1 + b * b)
  /\ cos (2 * atan b) = (1 - b * b) / (1 + b * b).
Proof.
  assert (H1 : 0 < 1 + b * b) by nra.
  assert (Hs : sqrt (1 + b * b) * sqrt (1 + b * b) = 1 + b * b)
    by (apply sqrt_sqrt; lra).
  assert (Hp : 0 < sqrt (1 + b * b)) by (apply sqrt_lt_R0; exact H1).
  rewrite sin_2a, cos_2a, sin_atan, cos_atan. unfold Rsqr.
  set (w := sqrt (1 + b * b)) in *.
  split.
  - transitivity (2 * b / (w * w)); [field; lra | rewrite Hs; reflexivity].
  - transitivity ((1 - b * b) / (w * w)); [field; lra | rewrite Hs; reflexivity].
Qed.

Lemma stepsFor_pos (x : R) : (16 <= stepsFor x)%nat.
Proof. unfold stepsFor. lia. Qed.

(** X13. [getBulgePoints] on two distinct points and a bulge other than
    zero returns at least 17 points of the circle of centre [bulgeCentre]
    and radius [bulgeRadius]; the first is [v1] and the last is [v2].  On
    coincident points it returns the one point. *)
Theorem getBulgePoints_arc (v1 v2 : Point) (bulge : R) :
  v1 <> v2 -> bulge <> 0 ->
  let pts := getBulgePoints v1 v2 bulge in
  let c := bulgeCentre v1 v2 bulge in
  (17 <= List.length pts)%nat
  /\ hd v1 pts = v1
  /\ last pts v1 = v2
  /\ Forall (onCircleAt (px c) (py c) (bulgeRadius v1 v2 bulge)) pts
  /\ getBulgePoints v1 v1 bulge = [v1].
Proof.
  intros Hne Hb pts c.
  set (dx := px v2 - px v1). set (dy := py v2 - py v1).
  assert (Hd2 : 0 < dx * dx + dy * dy).
  { assert (H0 : 0 <= dx * dx + dy * dy)
      by (apply Rplus_le_le_0_compat; apply Rle_0_sqr).
    destruct (Req_dec (dx * dx + dy * dy) 0) as [E | NE]; [|lra].
    exfalso. apply Hne. apply sum_squares_zero in E. unfold dx, dy in E.
    destruct v1, v2; cbn in *. f_equal; lra. }
  set (dist := Math_hypot dx dy).
  assert (Hdist : 0 < dist) by (apply sqrt_lt_R0; exact Hd2).
  assert (Hsq : dist * dist = dx * dx + dy * dy)
    by (apply sqrt_sqrt; lra).
  set (r := bulgeRadius v1 v2 bulge).
  assert (Hab : 0 < Rabs bulge) by (apply Rabs_pos_lt; exact Hb).
  assert (Hab2 : Rabs bulge * Rabs bulge = bulge * bulge).
  { rewrite <- Rabs_mult. apply Rabs_right. apply Rle_ge, Rle_0_sqr. }
  assert (Hr : r = dist * (1 + bulge * bulge) / (4 * Rabs bulge)) by reflexivity.
  assert (Hrpos : 0 < r).
  { rewrite Hr. apply Rdiv_lt_0_compat; [|lra]. apply Rmult_lt_0_compat; nra. }
  set (k := (1 - bulge * bulge) / (4 * bulge)).
  assert (Hcx : px c = (px v1 + px v2) / 2 - dy * k).
  { unfold c, bulgeCentre. cbn [px]. fold dx dy dist. unfold k.
    replace 0.5 with (1 / 2) by lra. field. split; [exact Hb | lra]. }
  assert (Hcy : py c = (py v1 + py v2) / 2 + dx * k).
  { unfold c, bulgeCentre. cbn [py]. fold dx dy dist. unfold k.
    replace 0.5 with (1 / 2) by lra. field. split; [exact Hb | lra]. }
  assert (HX1 : px v1 - px c = - dx / 2 + dy * k) by (rewrite Hcx; unfold dx; field).
  assert (HY1 : py v1 - py c = - dy / 2 - dx * k) by (rewrite Hcy; unfold dy; field).
  assert (HX2 : px v2 - px c = dx / 2 + dy * k) by (rewrite Hcx; unfold dx; field).
  assert (HY2 : py v2 - py c = dy / 2 - dx * k) by (rewrite Hcy; unfold dy; field).
  assert (Hr2 : r * r = (px v1 - px c) * (px v1 - px c)
                        + (py v1 - py c) * (py v1 - py c)).
  { rewrite HX1, HY1, Hr. unfold k.
    transitivity (dist * dist * ((1 + bulge * bulge) * (1 + bulge * bulge))
                  / (16 * (Rabs bulge * Rabs bulge))); [field; lra|].
    rewrite Hab2, Hsq. field. exact Hb. }
  assert (Hn1 : sqrt ((px v1 - px c) * (px v1 - px c)
                      + (py v1 - py c) * (py v1 - py c)) = r).
  { rewrite <- Hr2. apply sqrt_square. lra. }
  destruct (@Math_atan2_polar (px v1 - px c) (py v1 - py c)) as [Hpc Hps].
  { rewrite <- Hr2. nra. }
  rewrite Hn1 in Hpc, Hps.
  set (sr := Math_atan2 (py v1 - py c) (px v1 - px c)) in *.
  destruct (sin_cos_2atan bulge) as [HS HC].
  assert (H1b : 0 < 1 + bulge * bulge) by nra.
  assert (HS0 : sin (2 * atan bulge) <> 0).
  { rewrite HS. intros E.
    apply (Rmult_eq_compat_r (1 + bulge * bulge)) in E.
    unfold Rdiv in E. rewrite Rmult_assoc, Rinv_l, Rmult_1_r, Rmult_0_l in E by lra.
    lra. }
  pose proof (sin2_cos2 (2 * atan bulge)) as Hsc. unfold Rsqr in Hsc.
  assert (Hk : k = cos (2 * atan bulge) / (2 * sin (2 * atan bulge))).
  { rewrite HS, HC. unfold k. field. repeat split; solve [exact Hb | lra]. }
  destruct (rotate_chord dx dy HS0 Hsc) as [Hrx Hry]. rewrite <- Hk in Hrx, Hry.
  set (sn := sin (2 * atan bulge)) in *. set (cs := cos (2 * atan bulge)) in *.
  assert (Epts : pts
                 = map (fun i =>
                          let t := INR i / INR (stepsFor (Rabs (4 * atan bulge) * r / 6)) in
                          let ang := sr + 4 * atan bulge * t in
                          mkPoint (px c + r * cos ang) (py c + r * sin ang))
                       (seq 0 (stepsFor (Rabs (4 * atan bulge) * r / 6) + 1))).
  { unfold pts, getBulgePoints. fold dx dy dist.
    destruct (Req_dec_T dist 0) as [E | _]; [lra | reflexivity]. }
  set (steps := stepsFor (Rabs (4 * atan bulge) * r / 6)) in *.
  pose proof (stepsFor_pos (Rabs (4 * atan bulge) * r / 6)) as Hsteps.
  fold steps in Hsteps.
  assert (Hst0 : INR steps <> 0) by (apply not_0_INR; lia).
  split; [|split; [|split; [|split]]].
  - rewrite Epts, length_map, length_seq. lia.
  - rewrite Epts. replace (steps + 1)%nat with (S steps) by lia.
    cbn [seq map hd]. cbn zeta.
    replace (INR 0 / INR steps) with 0 by (cbn; field; exact Hst0).
    rewrite Rmult_0_r, Rplus_0_r, Hpc, Hps.
    destruct v1; cbn [px py]. f_equal; ring.
  - rewrite Epts. replace (steps + 1)%nat with (S steps) by lia.
    rewrite seq_S, map_app. cbn [map Nat.add]. rewrite last_last. cbn zeta.
    replace (INR steps / INR steps) with 1 by (field; exact Hst0).
    rewrite Rmult_1_r.
    replace (sr + 4 * atan bulge) with (sr + 2 * (2 * atan bulge)) by ring.
    rewrite cos_plus, sin_plus, (cos_2a (2 * atan bulge)), (sin_2a (2 * atan bulge)).
    fold sn cs.
    replace (r * (cos sr * (cs * cs - sn * sn) - sin sr * (2 * sn * cs)))
      with ((r * cos sr) * (cs * cs - sn * sn) - (r * sin sr) * (2 * sn * cs)) by ring.
    replace (r * (sin sr * (cs * cs - sn * sn) + cos sr * (2 * sn * cs)))
      with ((r * sin sr) * (cs * cs - sn * sn) + (r * cos sr) * (2 * sn * cs)) by ring.
    rewrite Hpc, Hps, HX1, HY1, Hrx, Hry.
    destruct v2; cbn [px py] in *. f_equal; lra.
  - rewrite Epts. apply Forall_forall. intros q Hq.
    apply in_map_iff in Hq. destruct Hq as (i & <- & _).
    apply onCircleAt_angle.
  - unfold getBulgePoints.
    replace (Math_hypot (px v1 - px v1) (py v1 - py v1)) with 0.
    + destruct (Req_dec_T 0 0) as [_ | n]; [|lra]. rewrite point_eta. reflexivity.
    + unfold Math_hypot. replace (_ + _) with 0 by ring. symmetry. apply sqrt_0.
Qed.

Lemma getBulgePoints_arc_witness :
  let v1 := mkPoint 0 0 in
  let v2 := mkPoint 2 0 in
  let pts := getBulgePoints v1 v2 1 in
  let c := bulgeCentre v1 v2 1 in
  (17 <= List.length pts)%nat
  /\ hd v1 pts = v1
  /\ last pts v1 = v2
  /\ Forall (onCircleAt (px c) (py c) (bulgeRadius v1 v2 1)) pts
  /\ getBulgePoints v1 v1 1 = [v1].
Proof.
  apply (getBulgePoints_arc (mkPoint 0 0) (mkPoint 2 0) 1).
  - intros E. injection E as E. lra.
  - lra.
Defined.

End BulgePoints.

Section SameCircle.

Import Geom Weight.
Local Open Scope R_scope.

(** X14. The parser's [bulgeToArc] and the weight calculation's
    [getBulgePoints] describe the same circle: for a chord of length at
    least 1e-12 and a bulge of magnitude at least 1e-12, centre and radius
    of the arc returned by [bulgeToArc] are the centre and the radius
    [getBulgePoints] samples its points on. *)
Theorem bulgeToArc_bulgeCentre (p1 p2 : Point) (b : R) :
  1e-12 <= Math_hypot (px p2 - px p1) (py p2 - py p1) ->
  1e-12 <= Rabs b ->
  exists a, bulgeToArc p1 p2 (Some b) = Some a
    /\ mkPoint (cx a) (cy a) = bulgeCentre p1 p2 b
    /\ radius a = bulgeRadius p1 p2 b.
Proof.
  intros Hchord Hb.
  destruct (bulgeToArc_centre p1 p2 b Hchord Hb)
    as (a & Ha & Hcx & Hcy & Hrad & _).
  assert (Hb0 : b <> 0).
  { intros ->. rewrite Rabs_R0 in Hb. lra. }
  destruct (sin_cos_2atan b) as [HS HC].
  assert (H1b : 0 < 1 + b * b) by nra.
  assert (Hab : 0 < Rabs b) by (apply Rabs_pos_lt; exact Hb0).
  exists a. split; [exact Ha|]. split.
  - unfold bulgeCentre. rewrite Hcx, Hcy, HS, HC.
    set (dist := Math_hypot (px p2 - px p1) (py p2 - py p1)) in *.
    replace 0.5 with (1 / 2) by lra.
    f_equal; field; repeat split; solve [exact Hb0 | lra].
  - rewrite Hrad. unfold bulgeRadius. rewrite HS.
    unfold Rdiv at 2. rewrite Rabs_mult, Rabs_mult, (Rabs_right 2) by lra.
    rewrite Rabs_inv, (Rabs_right (1 + b * b)) by lra.
    field. split; lra.
Qed.

Lemma bulgeToArc_bulgeCentre_witness :
  exists a, bulgeToArc (mkPoint 0 0) (mkPoint 2 0) (Some 1) = Some a
    /\ mkPoint (cx a) (cy a) = bulgeCentre (mkPoint 0 0) (mkPoint 2 0) 1
    /\ radius a = bulgeRadius (mkPoint 0 0) (mkPoint 2 0) 1.
Proof.
  apply (bulgeToArc_bulgeCentre (mkPoint 0 0) (mkPoint 2 0) 1).
  - cbn [px py]. hypot_facts. nra.
  - rewrite Rabs_R1. lra.
Defined.

End SameCircle.

(* ================================================================== *)
(** * The channels of the colours [aciToRgb] returns *)
(* ================================================================== *)

Section PaletteChannels.

Import Palette PaletteRange.
Local Open Scope Z_scope.

Lemma palette_valid_below_250 :
  forallb validRgb (firstn 250 ACI_COLORS) = true.
Proof. vm_compute. reflexivity. Qed.

Lemma palette_invalid_from_250 :
  forallb (fun c => negb (validRgb c)) (skipn 250 ACI_COLORS) = true.
Proof. vm_compute. reflexivity. Qed.

(** X15. The colour [aciToRgb] returns has its three channels within
    0..255 for every index other than 250 to 256.  At 256 the result is
    [null].  For the indices 250 to 255 the generated palette entry leaves
    the range: the fill loop calls [hslToRgb] with the saturation 1.25, and
    index 250 gives (287, -32, -32). *)
Theorem aciToRgb_channels (idx : Z) :
  (idx < 250 \/ 256 < idx -> validRgb (aciToRgb idx) = true)
  /\ (250 <= idx <= 255 -> validRgb (aciToRgb idx) = false)
  /\ aciToRgb 250 = Rgb 287 (-32) (-32).
Proof.
  split; [|split; [|vm_compute; reflexivity]].
  - intros Hr.
    destruct (Z.eq_dec idx 0) as [-> | H0]; [reflexivity|].
    destruct (Z_lt_dec idx 0) as [Hneg | Hpos].
    { unfold aciToRgb.
      replace (idx =? 256) with false by (symmetry; apply Z.eqb_neq; lia).
      replace (idx =? 0) with false by (symmetry; apply Z.eqb_neq; lia).
      replace (idx <? 0) with true by (symmetry; apply Z.ltb_lt; lia).
      reflexivity. }
    destruct Hr as [Hr | Hr].
    + assert (Hin : 1 <= idx <= 255) by lia.
      destruct (aciToRgb_in_palette Hin) as (c & Hc & ->).
      pose proof palette_valid_below_250 as A. rewrite forallb_forall in A.
      apply A. apply nth_error_In with (Z.to_nat idx).
      rewrite nth_error_firstn.
      replace (Z.to_nat idx <? 250)%nat with true
        by (symmetry; apply Nat.ltb_lt; lia).
      exact Hc.
    + unfold aciToRgb. rewrite ACI_COLORS_length.
      replace (idx =? 256) with false by (symmetry; apply Z.eqb_neq; lia).
      replace (idx =? 0) with false by (symmetry; apply Z.eqb_neq; lia).
      replace (idx >=? Z.of_nat 256) with true
        by (symmetry; rewrite Z.geb_leb; apply Z.leb_le; lia).
      rewrite orb_true_r. reflexivity.
  - intros Hr.
    assert (Hin : 1 <= idx <= 255) by lia.
    destruct (aciToRgb_in_palette Hin) as (c & Hc & ->).
    pose proof palette_invalid_from_250 as A. rewrite forallb_forall in A.
    apply negb_true_iff. apply A.
    apply nth_error_In with (Z.to_nat idx - 250)%nat.
    rewrite nth_error_skipn.
    replace (250 + (Z.to_nat idx - 250))%nat with (Z.to_nat idx) by lia.
    exact Hc.
Qed.

End PaletteChannels.

Section HslRange.

Import Palette PaletteRange.
Local Open Scope Q_scope.

Lemma Qltb_lt (a b : Q) : Qltb a b = true -> a < b.
Proof.
  unfold Qltb. intros H. apply negb_true_iff in H.
  apply Qnot_le_lt. intros Hle. apply Qle_bool_iff in Hle. congruence.
Qed.

Lemma Qltb_ge (a b : Q) : Qltb a b = false -> b <= a.
Proof.
  unfold Qltb. intros H. apply negb_false_iff in H.
  now apply Qle_bool_iff.
Qed.

Lemma Math_round_channel (x : Q) :
  0 <= x -> x <= 1 -> channel (Math_round (x * 255)) = true.
Proof.
  intros H0 H1. unfold channel, Math_round.
  apply andb_true_iff. split; apply Z.leb_le.
  - apply Z.le_trans with (Qfloor 0); [discriminate|].
    apply Qfloor_resp_le. lra.
  - apply Z.le_trans with (Qfloor (255 + (1 # 2))); [|discriminate].
    apply Qfloor_resp_le. lra.
Qed.

Lemma hue2rgb_between (p q t : Q) :
  0 <= p -> p <= 1 -> 0 <= q -> q <= 1 ->
  - (1 # 3) <= t -> t <= 4 # 3 ->
  0 <= hue2rgb p q t /\ hue2rgb p q t <= 1.
Proof.
  intros Hp0 Hp1 Hq0 Hq1 Ht0 Ht1. unfold hue2rgb.
  set (t1 := if Qltb t 0 then t + 1 else t).
  assert (Ht1' : 0 <= t1 /\ t1 <= 4 # 3).
  { unfold t1. destruct (Qltb t 0) eqn:E;
      [apply Qltb_lt in E | apply Qltb_ge in E]; lra. }
  set (t2 := if Qltb 1 t1 then t1 - 1 else t1).
  assert (Ht2 : 0 <= t2 /\ t2 <= 1).
  { unfold t2. destruct (Qltb 1 t1) eqn:E;
      [apply Qltb_lt in E | apply Qltb_ge in E]; lra. }
  destruct (Qltb t2 (1 # 6)) eqn:E1;
    [apply Qltb_lt in E1; nra | apply Qltb_ge in E1].
  destruct (Qltb t2 (1 # 2)) eqn:E2; [lra | apply Qltb_ge in E2].
  destruct (Qltb t2 (2 # 3)) eqn:E3;
    [apply Qltb_lt in E3; nra | lra].
Qed.

(** X16. For hue, saturation and lightness between 0 and 1, [hslToRgb]
    returns three channels within 0..255. *)
Theorem hslToRgb_channels (h s l : Q) :
  0 <= h /\ h <= 1 -> 0 <= s /\ s <= 1 -> 0 <= l /\ l <= 1 ->
  validRgb (hslToRgb h s l) = true.
Proof.
  intros [Hh0 Hh1] [Hs0 Hs1] [Hl0 Hl1]. unfold hslToRgb.
  destruct (Qeq_bool s 0).
  - cbn [validRgb]. rewrite Math_round_channel by assumption. reflexivity.
  - cbn zeta.
    set (q := if Qltb l (1 # 2) then l * (1 + s) else l + s - l * s).
    assert (Hq : 0 <= q /\ q <= 1 /\ 0 <= 2 * l - q /\ 2 * l - q <= 1).
    { unfold q. destruct (Qltb l (1 # 2)) eqn:E;
        [apply Qltb_lt in E | apply Qltb_ge in E]; repeat split; nra. }
    destruct Hq as (Hq0 & Hq1 & Hp0 & Hp1).
    destruct (hue2rgb_between (2 * l - q) q (h + (1 # 3))) as [A1 A2]; try lra.
    destruct (hue2rgb_between (2 * l - q) q h) as [B1 B2]; try lra.
    destruct (hue2rgb_between (2 * l - q) q (h - (1 # 3))) as [C1 C2]; try lra.
    cbn [validRgb]. rewrite !Math_round_channel by assumption. reflexivity.
Qed.

Lemma hslToRgb_channels_witness :
  validRgb (hslToRgb (1 # 3) 1 (1 # 2)) = true.
Proof.
  apply (hslToRgb_channels (1 # 3) 1 (1 # 2)); split; lra.
Defined.

End HslRange.

(* ================================================================== *)
(** * What the loop code keeps of its input *)
(* ================================================================== *)

Section SplitsKeepVertices.

Import Geom Area Loops.

Variable A : Type.
Variable m : A -> A -> bool.

Lemma split_at_pinch (l : list A) (i j : nat) :
  (i < j)%nat -> (j < List.length l)%nat ->
  Permutation (firstn (j - i) (skipn i l) ++ firstn i l ++ skipn j l) l.
Proof.
  intros Hij Hj.
  rewrite <- (firstn_skipn i l) at 4.
  rewrite <- (firstn_skipn (j - i) (skipn i l)) at 2.
  rewrite skipn_skipn. replace (j - i + i)%nat with j by lia.
  rewrite app_assoc.
  rewrite (Permutation_app_comm (firstn (j - i) (skipn i l)) (firstn i l)).
  rewrite <- app_assoc. reflexivity.
Qed.

Lemma splitLoops_keeps (fuel : nat) :
  forall (currentLoop : list A) (simpleLoops : list (list A)),
    Permutation
      (List.concat (snd (splitLoops m fuel currentLoop simpleLoops))
       ++ fst (splitLoops m fuel currentLoop simpleLoops))
      (List.concat simpleLoops ++ currentLoop)
    /\ (Forall (fun l => l <> []) simpleLoops ->
        Forall (fun l => l <> [])
               (snd (splitLoops m fuel currentLoop simpleLoops))).
Proof.
  induction fuel as [|fuel IH]; intros currentLoop simpleLoops.
  - cbn. split; [reflexivity | auto].
  - cbn [splitLoops].
    destruct (findPinch m currentLoop 0) as [[i j]|] eqn:Hp.
    + apply findPinch_range in Hp. destruct Hp as (_ & Hij & Hj).
      cbn [Nat.add] in Hj.
      destruct (IH (firstn i currentLoop ++ skipn j currentLoop)
                   (simpleLoops ++ [firstn (j - i) (skipn i currentLoop)]))
        as [Hperm Hne].
      split.
      * rewrite Hperm. rewrite concat_app. cbn [List.concat]. rewrite app_nil_r.
        rewrite <- app_assoc. apply Permutation_app_head.
        apply split_at_pinch; assumption.
      * intros Hs. apply Hne. apply Forall_app. split; [exact Hs|].
        constructor; [|constructor].
        intros E. apply (f_equal (@List.length A)) in E.
        rewrite length_firstn, length_skipn in E. cbn in E. lia.
    + cbn. split; [reflexivity | auto].
Qed.

Lemma splitLoops_no_pinch (fuel : nat) (l : list A) (s : list (list A)) :
  findPinch m l 0 = None -> splitLoops m fuel l s = (l, s).
Proof.
  intros H. destruct fuel; [reflexivity|]. cbn [splitLoops]. now rewrite H.
Qed.

Lemma findRepeat_none (v : A) (rest : list A) (j0 : nat) :
  findRepeat m v rest j0 = None <-> forall w, In w rest -> m v w = false.
Proof.
  revert j0. induction rest as [|u rest IH]; intros j0.
  - split; [intros _ w [] | reflexivity].
  - cbn [findRepeat]. destruct (m v u) eqn:E.
    + split; [discriminate|]. intros H. specialize (H u (or_introl eq_refl)).
      congruence.
    + rewrite IH. split.
      * intros H w [<- | Hw]; [exact E | now apply H].
      * intros H w Hw. apply H. now right.
Qed.

(** No two vertices of [l] match, the earlier one compared with the later. *)
Lemma findPinch_none (l : list A) (i0 : nat) :
  findPinch m l i0 = None
  <-> ForallOrdPairs (fun v w => m v w = false) l.
Proof.
  revert i0. induction l as [|v rest IH]; intros i0.
  - split; [constructor | reflexivity].
  - cbn [findPinch]. destruct (findRepeat m v rest (S i0)) as [j|] eqn:Hr.
    + split; [discriminate|]. intros H. inversion H as [|? ? Hv Hrest]; subst.
      assert (Hn : findRepeat m v rest (S i0) = None).
      { apply findRepeat_none. rewrite Forall_forall in Hv. exact Hv. }
      congruence.
    + rewrite (IH (S i0)). split.
      * intros H. constructor; [|exact H].
        apply Forall_forall. now apply findRepeat_none with (S i0).
      * intros H. now inversion H.
Qed.

End SplitsKeepVertices.

Section DecomposeComplexLoops.

Import Geom Area Loops.
Local Open Scope R_scope.

(** X17. [decomposeComplexLoops] neither invents nor repeats a vertex:
    the loops it returns, put end to end and followed by at most two
    vertices that are dropped, are a rearrangement of the vertices given.
    No returned loop is empty; fewer than three vertices give no loop; and
    at least three vertices no two of which are within 0.15 of each other
    are returned as the one loop they are. *)
Theorem decomposeComplexLoops_keeps_vertices (vertices : list Vertex) :
  (exists dropped,
      (List.length dropped < 3)%nat
      /\ Permutation (List.concat (decomposeComplexLoops vertices) ++ dropped)
                     vertices)
  /\ Forall (fun loop => loop <> []) (decomposeComplexLoops vertices)
  /\ ((List.length vertices < 3)%nat -> decomposeComplexLoops vertices = [])
  /\ ((3 <= List.length vertices)%nat ->
      ForallOrdPairs (fun v w => vertexMatches 0.15 v w = false) vertices ->
      decomposeComplexLoops vertices = [vertices]).
Proof.
  unfold decomposeComplexLoops, decomposeWith.
  destruct (List.length vertices <? 3)%nat eqn:En.
  - apply Nat.ltb_lt in En. split; [|split; [|split]].
    + exists vertices. split; [exact En | reflexivity].
    + constructor.
    + reflexivity.
    + intros H. lia.
  - apply Nat.ltb_ge in En.
    destruct (splitLoops_keeps Vertex (vertexMatches 0.15)
                (List.length vertices) vertices []) as [Hperm Hne].
    destruct (splitLoops (vertexMatches 0.15) (List.length vertices) vertices [])
      as [currentLoop simpleLoops] eqn:Es.
    cbn [fst snd List.concat app] in Hperm, Hne.
    specialize (Hne (Forall_nil _)).
    split; [|split; [|split]].
    + destruct (3 <=? List.length currentLoop)%nat eqn:E3.
      * exists []. split; [cbn; lia|].
        rewrite app_nil_r, concat_app. cbn [List.concat]. rewrite app_nil_r.
        exact Hperm.
      * apply Nat.leb_gt in E3. exists currentLoop. split; assumption.
    + destruct (3 <=? List.length currentLoop)%nat eqn:E3; [|exact Hne].
      apply Forall_app. split; [exact Hne|].
      constructor; [|constructor].
      apply Nat.leb_le in E3. intros ->. cbn in E3. lia.
    + intros H. lia.
    + intros _ Hpairs.
      apply (findPinch_none Vertex (vertexMatches 0.15) vertices 0) in Hpairs.
      rewrite (splitLoops_no_pinch Vertex (vertexMatches 0.15) _ _ _ Hpairs) in Es.
      injection Es as <- <-.
      replace (3 <=? List.length vertices)%nat with true
        by (symmetry; apply Nat.leb_le; exact En).
      reflexivity.
Qed.

End DecomposeComplexLoops.

Section ClosedChains.

Import Geom Area Loops Chains.

Variable P : Type.
Variable m : P -> P -> bool.

Lemma linked_snoc (l : list (Segment P)) (first seg : Segment P) :
  l <> [] -> linked m l -> m (sp2 (last l first)) (sp1 seg) = true ->
  linked m (l ++ [seg]).
Proof.
  induction l as [|a l IH]; intros Hne Hl Hm; [congruence|].
  destruct l as [|b l].
  - cbn in *. split; [exact Hm | exact I].
  - cbn [app linked] in *. destruct Hl as [Hab Hl]. split; [exact Hab|].
    apply IH; [discriminate | exact Hl | exact Hm].
Qed.

Lemma findNext_found (segs : list (Segment P)) (j : nat) (used chain : list nat)
      (tip : P) (k : nat) (seg : Segment P) :
  findNext m segs j used chain tip = Some (k, seg) ->
  m tip (sp1 seg) = true
  /\ exists d s, k = (j + d)%nat /\ nth_error segs d = Some s
                 /\ (seg = s \/ seg = reverseSegment s).
Proof.
  revert j. induction segs as [|s rest IH]; intros j H; [discriminate|].
  cbn [findNext] in H.
  assert (Hrec : findNext m rest (S j) used chain tip = Some (k, seg) ->
                 m tip (sp1 seg) = true
                 /\ exists d s0, k = (j + d)%nat
                                 /\ nth_error (s :: rest) d = Some s0
                                 /\ (seg = s0 \/ seg = reverseSegment s0)).
  { intros H'. destruct (IH (S j) H') as (Hm & d & s0 & -> & Hn & Ho).
    split; [exact Hm|]. exists (S d), s0. split; [lia|]. split; assumption. }
  destruct (has used j); [now apply Hrec|].
  destruct (has chain j); [now apply Hrec|].
  destruct (m tip (sp1 s)) eqn:E1.
  { injection H as <- <-. split; [exact E1|].
    exists 0%nat, s. split; [lia|]. split; [reflexivity | now left]. }
  destruct (m tip (sp2 s)) eqn:E2.
  { injection H as <- <-. split; [exact E2|].
    exists 0%nat, s. split; [lia|]. split; [reflexivity | now right]. }
  now apply Hrec.
Qed.

(** What the [while (true)] loop keeps: the chain is linked, its tip is
    the end of its last segment, its segments are those at its indices,
    and no index is met twice. *)
Lemma growChain_chain (segments : list (Segment P)) (used : list nat)
      (first : Segment P) :
  forall (fuel : nat) (ord : list (Segment P)) (indices : list nat) (tip : P),
    hd first ord = first -> ord <> [] ->
    linked m ord -> tip = sp2 (last ord first) ->
    Forall2 (fromSegment segments) ord indices -> NoDup indices ->
    let c := growChain m fuel segments used (sp1 first) ord indices tip in
    hd first (ordered c) = first /\ ordered c <> []
    /\ linked m (ordered c)
    /\ Forall2 (fromSegment segments) (ordered c) (currentLoopIndices c)
    /\ NoDup (currentLoopIndices c)
    /\ (loopClosed c = true ->
        m (sp2 (last (ordered c) first)) (sp1 first) = true).
Proof.
  induction fuel as [|fuel IH]; intros ord indices tip Hhd Hne Hl Htip Hfrom Hnd.
  - cbn. repeat split; try assumption. discriminate.
  - cbn [growChain].
    destruct (findNext m segments 0 used indices tip) as [[j seg]|] eqn:Hf.
    + destruct (findNext_found _ _ _ _ _ _ _ Hf) as (Hm & d & s & -> & Hn & Ho).
      destruct (findNext_fresh P m _ _ _ _ _ _ _ Hf) as [Hc _].
      cbn [Nat.add] in *.
      assert (Hhd' : hd first (ord ++ [seg]) = first)
        by (destruct ord; [congruence | exact Hhd]).
      assert (Hne' : ord ++ [seg] <> []) by (destruct ord; discriminate).
      assert (Hl' : linked m (ord ++ [seg])).
      { apply linked_snoc with first; [exact Hne | exact Hl|]. now rewrite <- Htip. }
      assert (Hfrom' : Forall2 (fromSegment segments) (ord ++ [seg]) (indices ++ [d])).
      { apply Forall2_app; [exact Hfrom|]. constructor; [|constructor].
        destruct Ho as [-> | ->]; [left; exact Hn | right; exists s; auto]. }
      assert (Hnd' : NoDup (indices ++ [d])).
      { apply NoDup_snoc; [exact Hnd|]. intros Hin. apply has_in in Hin. congruence. }
      assert (Hlast : last (ord ++ [seg]) first = seg) by apply last_last.
      destruct (m (sp2 seg) (sp1 first)) eqn:Ecl.
      * cbn. repeat split; try assumption. intros _. rewrite Hlast. exact Ecl.
      * apply IH; try assumption. now rewrite Hlast.
    + cbn. repeat split; try assumption. discriminate.
Qed.

Lemma extractFrom_chains (segments : list (Segment P)) :
  forall (from : list (Segment P)) (i : nat) (used : list nat),
    (forall d s, nth_error from d = Some s -> nth_error segments (i + d) = Some s) ->
    Forall (fun loop =>
              closedChain m (fst loop)
              /\ Forall2 (fromSegment segments) (fst loop) (snd loop)
              /\ NoDup (snd loop))
           (extractFrom m from i segments used)
    /\ NoDup (List.concat (map snd (extractFrom m from i segments used)))
    /\ forall k, In k (List.concat (map snd (extractFrom m from i segments used))) ->
                 has used k = false.
Proof.
  induction from as [|seg rest IH]; intros i used Hfrom.
  - cbn. split; [constructor|]. split; [constructor | intros k []].
  - cbn [extractFrom].
    assert (Hrest : forall d s, nth_error rest d = Some s ->
                                nth_error segments (S i + d) = Some s).
    { intros d s Hd. replace (S i + d)%nat with (i + S d)%nat by lia.
      apply Hfrom. exact Hd. }
    destruct (has used i) eqn:Hi; [apply IH; exact Hrest|].
    set (c := growChain m (List.length segments) segments used
                        (sp1 seg) [seg] [i] (sp2 seg)).
    destruct (growChain_chain segments used seg (List.length segments)
                [seg] [i] (sp2 seg)) as (Hhd & Hne & Hl & Hfr & Hnd & Hcl).
    { reflexivity. }
    { discriminate. }
    { exact I. }
    { reflexivity. }
    { constructor; [|constructor]. left.
      rewrite <- (Nat.add_0_r i). apply Hfrom. reflexivity. }
    { constructor; [intros [] | constructor]. }
    fold c in Hhd, Hne, Hl, Hfr, Hnd, Hcl.
    assert (Hun : forall k, In k (currentLoopIndices c) -> has used k = false).
    { intros k Hk.
      apply (growChain_unused P m (List.length segments) segments used (sp1 seg)
               [seg] [i] (sp2 seg)); [|exact Hk].
      intros x [<- | []]. exact Hi. }
    destruct (loopClosed c) eqn:Ec; [|apply IH; exact Hrest].
    destruct (IH (S i) (rev (currentLoopIndices c) ++ used) Hrest)
      as (Hall & Hnd' & Hun').
    split; [|split].
    + constructor; [|exact Hall]. cbn [fst snd].
      split; [|split; assumption].
      unfold closedChain. destruct (ordered c) as [|f l] eqn:Eo; [congruence|].
      cbn [hd] in Hhd. subst f. split; [exact Hl | now apply Hcl].
    + cbn [map snd List.concat]. apply NoDup_app; [exact Hnd | exact Hnd' |].
      intros k Hk Hk'. specialize (Hun' k Hk'). rewrite has_app in Hun'.
      apply orb_false_iff in Hun'. destruct Hun' as [Hr _].
      assert (Hin : has (rev (currentLoopIndices c)) k = true).
      { apply has_in. apply in_rev. rewrite rev_involutive. exact Hk. }
      congruence.
    + cbn [map snd List.concat]. intros k Hk. apply in_app_or in Hk.
      destruct Hk as [Hk | Hk]; [now apply Hun|].
      specialize (Hun' k Hk). rewrite has_app in Hun'.
      apply orb_false_iff in Hun'. tauto.
Qed.

End ClosedChains.

Section ExtractAllLoops.

Import Geom Area Loops Chains.
Local Open Scope R_scope.

(** X18. Every loop [extractAllLoops] returns is a closed chain: each of
    its segments is one of the decomposed segments, as it is or reversed,
    starts within the tolerance of where the segment before it ends, and
    the last one ends within the tolerance of where the first one starts;
    the vertices returned are the start points of the segments.  No
    segment is met twice, within a loop or across loops, and none was
    removed by the bridge pruning. *)
Theorem extractAllLoops_closed_chains (entities : list Entity) (tolerance : R) :
  let segments := allSegments entities in
  let loops := extractSegments (matchesTol tolerance) segments in
  extractAllLoops entities tolerance
  = map (fun loop => map segmentVertex (fst loop)) loops
  /\ Forall (fun loop =>
               closedChain (matchesTol tolerance) (fst loop)
               /\ Forall2 (fromSegment segments) (fst loop) (snd loop))
            loops
  /\ NoDup (List.concat (map snd loops))
  /\ forall k, In k (List.concat (map snd loops)) ->
               has (pruneBridges (matchesTol tolerance) segments) k = false.
Proof.
  intros segments loops. split; [reflexivity|].
  destruct (extractFrom_chains Point (matchesTol tolerance) segments segments 0
              (pruneBridges (matchesTol tolerance) segments))
    as (Hall & Hnd & Hun).
  { intros d s Hd. exact Hd. }
  split; [|split; assumption].
  unfold loops, extractSegments.
  eapply Forall_impl; [|exact Hall]. cbn. intros loop (H1 & H2 & _).
  split; assumption.
Qed.

End ExtractAllLoops.

Section ClosedPaths.

Import Geom Area Hatch HatchPath.
Local Open Scope R_scope.

Lemma dist_sym (x1 y1 x2 y2 : R) : dist x1 y1 x2 y2 = dist x2 y2 x1 y1.
Proof. unfold dist, Math_hypot. f_equal. ring. Qed.

Lemma dist_same (x y : R) : dist x y x y = 0.
Proof.
  unfold dist, Math_hypot.
  replace ((x - x) * (x - x) + (y - y) * (y - y)) with 0 by ring.
  exact sqrt_0.
Qed.

Lemma reverseEdge_start (e : Edge) :
  ex1 (reverseEdge e) = ex2 e /\ ey1 (reverseEdge e) = ey2 e.
Proof. destruct e; split; reflexivity. Qed.

Lemma reverseEdge_end (e : Edge) :
  ex2 (reverseEdge e) = ex1 e /\ ey2 (reverseEdge e) = ey1 e.
Proof. destruct e; split; reflexivity. Qed.

Lemma joined_reverse (tol : R) (a b : Edge) :
  joined tol a b -> joined tol (reverseEdge b) (reverseEdge a).
Proof.
  unfold joined. intros H.
  destruct (reverseEdge_start a) as [-> ->].
  destruct (reverseEdge_end b) as [-> ->].
  rewrite dist_sym. exact H.
Qed.

Lemma linkedWithin_snoc (tol : R) (l : list Edge) (d e : Edge) :
  l <> [] -> linkedWithin tol l -> joined tol (last l d) e ->
  linkedWithin tol (l ++ [e]).
Proof.
  induction l as [|a l IH]; intros Hne Hl Hj; [congruence|].
  destruct l as [|b l].
  - cbn in *. split; [exact Hj | exact I].
  - cbn [app linkedWithin] in *. destruct Hl as [Hab Hl]. split; [exact Hab|].
    apply IH; [discriminate | exact Hl | exact Hj].
Qed.

Lemma last_indep (l : list Edge) (d d' : Edge) : l <> [] -> last l d = last l d'.
Proof.
  induction l as [|a l IH]; intros Hne; [congruence|].
  destruct l as [|b l]; [reflexivity|]. cbn [last]. apply IH. discriminate.
Qed.

Lemma hd_rev_last (l : list Edge) (d : Edge) : hd d (rev l) = last l d.
Proof.
  induction l as [|a l IH] using rev_ind; [reflexivity|].
  rewrite rev_app_distr, last_last. reflexivity.
Qed.

Lemma last_rev_hd (l : list Edge) (d : Edge) : last (rev l) d = hd d l.
Proof.
  destruct l as [|a l]; [reflexivity|]. cbn [rev hd]. apply last_last.
Qed.

Lemma last_map_reverse (l : list Edge) (d : Edge) :
  last (map reverseEdge l) (reverseEdge d) = reverseEdge (last l d).
Proof.
  induction l as [|a l IH]; [reflexivity|].
  destruct l as [|b l]; [reflexivity|]. exact IH.
Qed.

Lemma hd_map_reverse (l : list Edge) (d : Edge) :
  hd (reverseEdge d) (map reverseEdge l) = reverseEdge (hd d l).
Proof. destruct l; reflexivity. Qed.

Lemma linkedWithin_reversePath (tol : R) (l : list Edge) :
  linkedWithin tol l -> linkedWithin tol (reversePath l).
Proof.
  unfold reversePath. induction l as [|a l IH]; intros Hl; [exact I|].
  cbn [rev]. rewrite map_app. cbn [map].
  destruct l as [|b l]; [exact I|].
  destruct Hl as [Hab Hl].
  apply linkedWithin_snoc with (reverseEdge a).
  - cbn [rev]. rewrite map_app. destruct (map reverseEdge (rev l)); discriminate.
  - apply IH. exact Hl.
  - rewrite last_map_reverse, last_rev_hd. cbn [hd].
    apply joined_reverse. exact Hab.
Qed.

Lemma closedWithin_spec (tol : R) (l : list Edge) (d : Edge) :
  closedWithin tol l
  <-> l <> [] /\ linkedWithin tol l /\ joined tol (last l d) (hd d l).
Proof.
  destruct l as [|a l]; cbn [closedWithin hd].
  - split; [intros [] | intros [H _]; congruence].
  - rewrite (last_indep (a :: l) a d) by discriminate.
    split; [intros [H1 H2]; repeat split; [discriminate | exact H1 | exact H2]
           | intros (_ & H1 & H2); split; assumption].
Qed.

Lemma closedWithin_reversePath (tol : R) (l : list Edge) :
  closedWithin tol l -> closedWithin tol (reversePath l).
Proof.
  destruct l as [|a l]; [intros []|]. intros H.
  apply (closedWithin_spec tol (a :: l) a) in H. destruct H as (_ & Hl & Hj).
  apply (closedWithin_spec tol _ (reverseEdge a)).
  split; [|split].
  - unfold reversePath. cbn [rev]. rewrite map_app.
    destruct (map reverseEdge (rev l)); discriminate.
  - apply linkedWithin_reversePath. exact Hl.
  - unfold reversePath.
    rewrite last_map_reverse, hd_map_reverse, last_rev_hd, hd_rev_last.
    apply joined_reverse. exact Hj.
Qed.

Lemma windCCW_closed (tol : R) (assembled path : list Edge) :
  closedWithin tol assembled -> windCCW assembled = Ok path ->
  closedWithin tol path.
Proof.
  unfold windCCW. intros Hc H.
  destruct (Rlt_dec (calculateLoopArea assembled) 0); injection H as <-;
    [apply closedWithin_reversePath|]; exact Hc.
Qed.

(** ** The stitched path *)

Lemma findMatch_joined (es : list Edge) (i : nat) (used : list nat)
      (tipx tipy tol : R) (k : nat) (e : Edge) :
  findMatch es i used tipx tipy tol = Some (k, e) ->
  dist (ex1 e) (ey1 e) tipx tipy < tol.
Proof.
  revert i. induction es as [|a es IH]; intros i H; [discriminate|].
  cbn [findMatch] in H.
  destruct (has used i); [now apply IH in H|].
  destruct (Rlt_dec (dist (ex1 a) (ey1 a) tipx tipy) tol) as [H1 | _].
  { injection H as _ <-. exact H1. }
  destruct (Rlt_dec (dist (ex2 a) (ey2 a) tipx tipy) tol) as [H2 | _].
  { injection H as _ <-. destruct (reverseEdge_start a) as [-> ->]. exact H2. }
  now apply IH in H.
Qed.

Lemma stitchStep_stitched (edges : list Edge) (tol : R) (s s' : Stitch) :
  0 <= tol -> stitched tol s -> stitchStep edges tol s = Some s' ->
  stitched tol s'.
Proof.
  intros Htol (Hne & Hl & Hlast) H. unfold stitchStep in H.
  destruct (findMatch edges 0 (used s) (ex2 (current s)) (ey2 (current s)) tol)
    as [[i e]|] eqn:Hfm.
  - injection H as <-. cbn [path current]. split; [|split].
    + destruct (path s); discriminate.
    + apply linkedWithin_snoc with (current s); [exact Hne | exact Hl|].
      rewrite Hlast. unfold joined.
      pose proof (findMatch_joined _ _ _ _ _ _ _ _ Hfm). lra.
    + apply last_last.
  - set (c := findClosest edges 0 (used s) (ex2 (current s)) (ey2 (current s))
                (mkClosest None None true)) in H.
    assert (Hatt : attained edges (used s) (ex2 (current s)) (ey2 (current s)) c).
    { apply findClosest_attained.
      - intros k e Hk. exact Hk.
      - intros b Hb. discriminate Hb. }
    destruct (bestIdx c) as [best|] eqn:Eb; [|discriminate].
    destruct (minDist c) as [md|] eqn:Em; [|discriminate].
    destruct (Hatt best Eb) as (_ & target & Ht & Hmd). rewrite Em in Hmd.
    rewrite Ht in H. injection Hmd as Hmd. injection H as <-.
    cbn [path current].
    set (e := if connectToStart c then target else reverseEdge target).
    assert (He : dist (ex1 e) (ey1 e) (ex2 (current s)) (ey2 (current s)) = md
                 /\ (if connectToStart c then ex1 target else ex2 target) = ex1 e
                 /\ (if connectToStart c then ey1 target else ey2 target) = ey1 e).
    { unfold e. destruct (connectToStart c).
      - repeat split. symmetry. exact Hmd.
      - destruct (reverseEdge_start target) as [-> ->]. repeat split.
        symmetry. exact Hmd. }
    destruct He as (Hd & Hx & Hy). rewrite Hx, Hy.
    split; [|split].
    + destruct (if Rlt_dec tol md then _ else _); discriminate.
    + destruct (Rlt_dec tol md) as [Hgt | Hle].
      * apply linkedWithin_snoc with (current s).
        { destruct (path s); discriminate. }
        { apply linkedWithin_snoc with (current s); [exact Hne | exact Hl|].
          rewrite Hlast. unfold joined. cbn [ex1 ey1]. rewrite dist_same.
          exact Htol. }
        { rewrite last_last. unfold joined. cbn [ex2 ey2]. rewrite dist_same.
          exact Htol. }
      * apply linkedWithin_snoc with (current s); [exact Hne | exact Hl|].
        rewrite Hlast. unfold joined. rewrite Hd. lra.
    + apply last_last.
Qed.

Lemma stitchLoop_stitched (edges : list Edge) (tol : R) :
  0 <= tol ->
  forall (fuel : nat) (s s' : Stitch),
    stitched tol s -> stitchLoop fuel edges tol s = Some (Some s') ->
    stitched tol s'.
Proof.
  intros Htol. induction fuel as [|fuel IH]; intros s s' Hs H; cbn [stitchLoop] in H.
  - destruct (List.length (path s) <? List.length edges)%nat; [discriminate|].
    injection H as <-. exact Hs.
  - destruct (List.length (path s) <? List.length edges)%nat.
    + destruct (stitchStep edges tol s) as [s1|] eqn:E; [|discriminate].
      apply (IH s1 s'); [|exact H].
      apply (stitchStep_stitched edges tol s s1 Htol Hs E).
    + injection H as <-. exact Hs.
Qed.

Lemma closePath_closed (tol : R) (l : list Edge) :
  0 <= tol -> l <> [] -> linkedWithin tol l -> closedWithin tol (closePath tol l).
Proof.
  intros Htol Hne Hl. destruct l as [|first l]; [congruence|].
  unfold closePath.
  set (lst := last (first :: l) first).
  destruct (Rlt_dec tol (dist (ex1 first) (ey1 first) (ex2 lst) (ey2 lst)))
    as [Hgt | Hle].
  - apply (closedWithin_spec tol _ first). split; [|split].
    + destruct (first :: l); discriminate.
    + apply linkedWithin_snoc with first; [discriminate | exact Hl|].
      fold lst. unfold joined. cbn [ex1 ey1]. rewrite dist_same. exact Htol.
    + rewrite last_last. cbn [app hd]. unfold joined. cbn [ex2 ey2].
      rewrite dist_same. exact Htol.
  - cbn [closedWithin]. split; [exact Hl|]. fold lst. unfold joined. lra.
Qed.

(** ** The polyline path *)

Lemma linkedWithin_map_seq (f : nat -> Edge) (a k : nat) :
  (forall i, (a <= i)%nat -> (S i < a + k)%nat -> joined 0 (f i) (f (S i))) ->
  linkedWithin 0 (map f (seq a k)).
Proof.
  revert a. induction k as [|k IH]; intros a H; [exact I|].
  cbn [seq map]. destruct k as [|k]; [exact I|].
  cbn [seq map linkedWithin]. split.
  - apply H; lia.
  - apply (IH (S a)). intros i H1 H2. apply H; lia.
Qed.

Lemma bulgeToArc_ends (p1 p2 : Point) (b : R) :
  ex1 (bulgeToArc p1 p2 b) = px p1 /\ ey1 (bulgeToArc p1 p2 b) = py p1
  /\ ex2 (bulgeToArc p1 p2 b) = px p2 /\ ey2 (bulgeToArc p1 p2 b) = py p2.
Proof. repeat split. Qed.

Lemma resolvePolylineLoop_closed (verts : list HVertex) (path : list Edge) :
  resolvePolylineLoop verts = Ok path -> closedWithin 0 path.
Proof.
  unfold resolvePolylineLoop. set (n := List.length verts).
  destruct (n <? 2)%nat eqn:En; [discriminate|]. apply Nat.ltb_ge in En.
  set (f := fun i : nat => _).
  assert (Hends : forall i,
             ex1 (f i) = hx (nth i verts dummyHVertex)
             /\ ey1 (f i) = hy (nth i verts dummyHVertex)
             /\ ex2 (f i) = hx (nth ((i + 1) mod n) verts dummyHVertex)
             /\ ey2 (f i) = hy (nth ((i + 1) mod n) verts dummyHVertex)).
  { intros i. unfold f. destruct (truthyBulge (nth i verts dummyHVertex));
      repeat split. }
  apply windCCW_closed.
  apply (closedWithin_spec 0 _ (f 0%nat)). split; [|split].
  - destruct n as [|n]; [lia|]. discriminate.
  - apply linkedWithin_map_seq. intros i _ Hi. unfold joined.
    destruct (Hends i) as (_ & _ & -> & ->).
    destruct (Hends (S i)) as (-> & -> & _ & _).
    replace (i + 1)%nat with (S i) by lia.
    rewrite Nat.mod_small by lia. rewrite dist_same. lra.
  - assert (Hseq : seq 0 n = seq 0 (n - 1) ++ [(n - 1)%nat]).
    { replace n with (S (n - 1)) at 1 by lia. apply seq_S. }
    assert (Hhd : hd (f 0%nat) (map f (seq 0 n)) = f 0%nat)
      by (destruct n; reflexivity).
    rewrite Hhd, Hseq, map_last, last_last.
    unfold joined.
    destruct (Hends (n - 1)%nat) as (_ & _ & -> & ->).
    destruct (Hends 0%nat) as (-> & -> & _ & _).
    replace (n - 1 + 1)%nat with n by lia.
    rewrite Nat.Div0.mod_same. rewrite dist_same. lra.
Qed.

Lemma resolveEdgeLoop_closed (raw : list RawEdge) (path : list Edge) :
  resolveEdgeLoop raw = Ok path -> closedWithin (loopTolerance (EdgeLoop raw)) path.
Proof.
  unfold resolveEdgeLoop, loopTolerance.
  destruct raw as [|r raw]; [discriminate|].
  destruct (normalizeAll (r :: raw)) as [[|e0 edges]|]; try discriminate.
  set (tol := Rmax _ _).
  assert (Htol : 0 <= tol).
  { unfold tol. pose proof (Rmax_r (computeBBox (e0 :: edges) * 1e-4) 1e-4). lra. }
  destruct (stitchLoop _ _ _ _) as [[s|]|] eqn:Es; try discriminate.
  apply windCCW_closed.
  assert (Hs : stitched tol s).
  { apply (stitchLoop_stitched (e0 :: edges) tol Htol _ _ s) in Es; [exact Es|].
    split; [discriminate|]. split; [exact I | reflexivity]. }
  destruct Hs as (Hne & Hl & _).
  apply closePath_closed; assumption.
Qed.



End ClosedPaths.

Section ConnectedComponents.

Import Geom Area Loops Components.

Variable entityList : list Entity.

Local Abbreviation n := (List.length entityList).

(** The adjacency lists: [j] is listed for [k] when the two are different
    entities of the list and the one of lower index is [connected] to the
    other. *)
Lemma neighbours_spec (k j : nat) :
  In j (neighbours entityList k)
  <-> exists ek ej,
        nth_error entityList k = Some ek /\ nth_error entityList j = Some ej
        /\ j <> k
        /\ (if (j <? k)%nat then connected ej ek else connected ek ej) = true.
Proof.
  unfold neighbours. split.
  - destruct (nth_error entityList k) as [ek|] eqn:Ek; [|intros []].
    intros H. apply filter_In in H. destruct H as [_ H].
    apply andb_true_iff in H. destruct H as [H1 H2].
    destruct (nth_error entityList j) as [ej|] eqn:Ej; [|discriminate].
    exists ek, ej. repeat split; try assumption.
    apply negb_true_iff, Nat.eqb_neq in H1. exact H1.
  - intros (ek & ej & Ek & Ej & Hne & Hc). rewrite Ek.
    apply filter_In. split.
    + apply in_seq. assert (nth_error entityList j <> None) by congruence.
      apply nth_error_Some in H. lia.
    + rewrite Ej, Hc. apply Nat.eqb_neq in Hne. rewrite Hne. reflexivity.
Qed.

Lemma neighbours_sym (k j : nat) :
  In j (neighbours entityList k) -> In k (neighbours entityList j).
Proof.
  intros H. apply neighbours_spec in H.
  destruct H as (ek & ej & Ek & Ej & Hne & Hc).
  apply neighbours_spec. exists ej, ek.
  repeat split; try assumption; [congruence|].
  destruct (j <? k)%nat eqn:E1.
  - apply Nat.ltb_lt in E1.
    assert (E2 : (k <? j)%nat = false) by (apply Nat.ltb_ge; lia).
    rewrite E2. exact Hc.
  - apply Nat.ltb_ge in E1.
    assert (E2 : (k <? j)%nat = true) by (apply Nat.ltb_lt; lia).
    rewrite E2. exact Hc.
Qed.

Lemma pushNeighbours_exact (ns : list nat) :
  forall visited stack,
    exists new,
      snd (pushNeighbours ns visited stack) = stack ++ new
      /\ NoDup new
      /\ (forall k, In k new <-> In k ns /\ has visited k = false)
      /\ (forall k, has (fst (pushNeighbours ns visited stack)) k = true
                    <-> has visited k = true \/ In k new).
Proof.
  induction ns as [|a rest IH]; intros visited stack.
  - exists []. cbn. rewrite app_nil_r. split; [reflexivity|].
    split; [constructor|]. split; intros k; tauto.
  - cbn [pushNeighbours]. destruct (has visited a) eqn:Ha.
    + destruct (IH visited stack) as (new & E & Hnd & Hnew & Hv).
      exists new. split; [exact E|]. split; [exact Hnd|]. split; [|exact Hv].
      intros k. rewrite Hnew. cbn [In]. split.
      * intros [H1 H2]. split; [right; exact H1 | exact H2].
      * intros [[<- | H1] H2]; [congruence|]. split; assumption.
    + destruct (IH (a :: visited) (stack ++ [a])) as (new & E & Hnd & Hnew & Hv).
      exists (a :: new). split; [|split; [|split]].
      * rewrite E, <- app_assoc. reflexivity.
      * constructor; [|exact Hnd].
        intros Hin. apply Hnew in Hin. destruct Hin as [_ H2].
        rewrite has_cons, Nat.eqb_refl in H2. discriminate.
      * intros k. cbn [In]. rewrite Hnew, has_cons. split.
        -- intros [<- | [H1 H2]]; [split; [left; reflexivity | exact Ha]|].
           apply orb_false_iff in H2. destruct H2 as [_ H2].
           split; [right; exact H1 | exact H2].
        -- intros [[<- | H1] H2]; [left; reflexivity|].
           destruct (Nat.eq_dec a k) as [<- | Hne]; [left; reflexivity|].
           right. split; [exact H1|]. apply orb_false_iff. split; [|exact H2].
           apply Nat.eqb_neq. congruence.
      * intros k. rewrite Hv, has_cons. cbn [In]. rewrite orb_true_iff, Nat.eqb_eq.
        split.
        -- intros [[-> | H] | H]; [right; left; reflexivity | left; exact H
                                   | right; right; exact H].
        -- intros [H | [<- | H]]; [left; right; exact H | left; left; reflexivity
                                   | right; exact H].
Qed.

Section OneComponent.

Variable visited0 : list nat.
Variable ent : nat.

Local Abbreviation walking := (Components.walking entityList visited0 ent).

Lemma traverse_walking :
  forall (fuel : nat) (stack visited component : list nat),
    walking stack visited component ->
    (n <= fuel + List.length component)%nat ->
    let r := traverse fuel entityList stack visited component in
    walking [] (snd r) (fst r)
    /\ forall k, In k (component ++ stack) -> In k (fst r).
Proof.
  induction fuel as [|fuel IH]; intros stack visited component Hw Hlen.
  - destruct Hw as (Hnd & Hin & Hv & Hcl).
    assert (Hb : (List.length (component ++ stack) <= n)%nat).
    { apply bounded_NoDup_length; [exact Hnd|]. intros j Hj. now apply Hin. }
    rewrite length_app in Hb.
    destruct stack as [|s stack]; [|cbn in Hb, Hlen; lia].
    cbn. rewrite app_nil_r in *. split; [|tauto].
    split; [rewrite app_nil_r; exact Hnd|].
    split; [rewrite app_nil_r; exact Hin|].
    split; [rewrite app_nil_r; exact Hv | exact Hcl].
  - cbn [traverse]. destruct (rev stack) as [|curr restRev] eqn:Es.
    + assert (stack = []) by (apply (f_equal (@rev nat)) in Es;
                              rewrite rev_involutive in Es; exact Es).
      subst stack. cbn. split; [exact Hw|]. rewrite app_nil_r. tauto.
    + assert (Hst : stack = rev restRev ++ [curr]).
      { apply (f_equal (@rev nat)) in Es. rewrite rev_involutive in Es. exact Es. }
      clear Es. subst stack.
      destruct Hw as (Hnd & Hin & Hv & Hcl).
      destruct (pushNeighbours_exact (neighbours entityList curr) visited (rev restRev))
        as (new & E & Hnew & Hfrom & Hv').
      destruct (pushNeighbours (neighbours entityList curr) visited (rev restRev))
        as [visited' stack'].
      cbn [fst snd] in E, Hv'. subst stack'.
      assert (Hperm : Permutation ((component ++ [curr]) ++ rev restRev ++ new)
                                  ((component ++ rev restRev ++ [curr]) ++ new)).
      { rewrite <- !app_assoc. apply Permutation_app_head.
        rewrite !app_assoc. apply Permutation_app_tail.
        apply Permutation_app_comm. }
      assert (Hcurr : In curr (component ++ rev restRev ++ [curr])).
      { apply in_or_app. right. apply in_or_app. right. left. reflexivity. }
      assert (Hw' : walking (rev restRev ++ new) visited' (component ++ [curr])).
      { split; [|split; [|split]].
        - apply (Permutation_NoDup (Permutation_sym Hperm)).
          apply NoDup_app; [exact Hnd | exact Hnew |].
          intros k H1 H2. apply Hfrom in H2. destruct H2 as [_ H2].
          assert (has visited k = true) by (apply Hv; right; exact H1).
          congruence.
        - intros k Hk. apply (Permutation_in _ Hperm) in Hk.
          apply in_app_or in Hk. destruct Hk as [Hk | Hk]; [now apply Hin|].
          apply Hfrom in Hk. destruct Hk as [H1 H2].
          split; [exact (neighbours_range entityList curr k H1)|]. split.
          + destruct (has visited0 k) eqn:E0; [|reflexivity].
            assert (has visited k = true) by (apply Hv; left; exact E0).
            congruence.
          + apply reach_step with curr; [|exact H1]. now apply Hin.
        - intros k. rewrite Hv', Hv. split.
          + intros [[H | H] | H]; [left; exact H | right | right];
              apply (Permutation_in _ (Permutation_sym Hperm));
              apply in_or_app; [left | right]; exact H.
          + intros [H | H]; [left; left; exact H|].
            apply (Permutation_in _ Hperm) in H. apply in_app_or in H.
            destruct H as [H | H]; [left; right; exact H | right; exact H].
        - intros c j Hc Hj. apply Hv'. apply in_app_or in Hc.
          destruct Hc as [Hc | [<- | []]].
          + left. exact (Hcl c j Hc Hj).
          + destruct (has visited j) eqn:Ej; [left; reflexivity|].
            right. apply Hfrom. split; assumption. }
      destruct (IH (rev restRev ++ new) visited' (component ++ [curr]) Hw')
        as [Hres Hsub].
      { rewrite length_app. cbn. lia. }
      split; [exact Hres|].
      intros k Hk. apply Hsub.
      apply (Permutation_in _ (Permutation_sym Hperm)).
      apply in_or_app. left. exact Hk.
Qed.

End OneComponent.

Local Abbreviation settled := (Components.settled entityList).
Local Abbreviation component_ok := (Components.component_ok entityList).

Lemma components_spec (starts : list nat) :
  (forall k, In k starts -> (k < n)%nat) ->
  forall visited,
    settled visited ->
    let comps := components starts entityList visited in
    NoDup (List.concat comps)
    /\ (forall k, In k (List.concat comps) -> (k < n)%nat /\ has visited k = false)
    /\ (forall k, In k starts -> has visited k = true \/ In k (List.concat comps))
    /\ Forall component_ok comps.
Proof.
  induction starts as [|ent rest IH]; intros Hrange visited Hset.
  - cbn. split; [constructor|]. split; [intros k []|]. split; [intros k []|].
    constructor.
  - assert (Hrest : forall k, In k rest -> (k < n)%nat)
      by (intros k Hk; apply Hrange; right; exact Hk).
    cbn [components]. destruct (has visited ent) eqn:He.
    + destruct (IH Hrest visited Hset) as (H1 & H2 & H3 & H4).
      split; [exact H1|]. split; [exact H2|]. split; [|exact H4].
      intros k [<- | Hk]; [left; exact He | now apply H3].
    + assert (Hw : Components.walking entityList visited ent [ent] (ent :: visited) []).
      { split; [|split; [|split]].
        - cbn. constructor; [intros [] | constructor].
        - intros k [<- | []]. split; [apply Hrange; left; reflexivity|].
          split; [exact He | constructor].
        - intros k. rewrite has_cons, orb_true_iff, Nat.eqb_eq. cbn [app In].
          split; [intros [-> | H] | intros [H | [<- | []]]]; tauto.
        - intros c j []. }
      destruct (traverse_walking visited ent n [ent] (ent :: visited) [] Hw)
        as [Hres Hsub]; [cbn; lia|].
      destruct (traverse n entityList [ent] (ent :: visited) [])
        as [component visited'].
      cbn [fst snd] in Hres, Hsub.
      destruct Hres as (Hnd & Hin & Hv & Hcl). rewrite app_nil_r in *.
      assert (Hset' : settled visited').
      { intros v j Hvv Hj. apply Hv in Hvv. destruct Hvv as [Hvv | Hvv].
        - apply Hv. left. exact (Hset v j Hvv Hj).
        - exact (Hcl v j Hvv Hj). }
      destruct (IH Hrest visited' Hset') as (H1 & H2 & H3 & H4).
      cbn [List.concat]. split; [|split; [|split]].
      * apply NoDup_app; [exact Hnd | exact H1|].
        intros k Hk Hk'. destruct (H2 k Hk') as [_ Hf].
        assert (has visited' k = true) by (apply Hv; right; exact Hk).
        congruence.
      * intros k Hk. apply in_app_or in Hk. destruct Hk as [Hk | Hk].
        -- destruct (Hin k Hk) as (Ha & Hb & _). split; assumption.
        -- destruct (H2 k Hk) as [Ha Hb]. split; [exact Ha|].
           destruct (has visited k) eqn:Ek; [|reflexivity].
           assert (has visited' k = true) by (apply Hv; left; exact Ek).
           congruence.
      * intros k [<- | Hk].
        -- right. apply in_or_app. left. apply Hsub. left. reflexivity.
        -- destruct (H3 k Hk) as [Hk' | Hk'].
           ++ apply Hv in Hk'. destruct Hk' as [Hk' | Hk'];
                [left; exact Hk' | right; apply in_or_app; left; exact Hk'].
           ++ right. apply in_or_app. right. exact Hk'.
      * constructor; [|exact H4]. split.
        -- intros a b Ha Hb. pose proof (Hcl a b Ha Hb) as Hvb.
           apply Hv in Hvb. destruct Hvb as [Hvb | Hvb]; [|exact Hvb].
           exfalso. pose proof (Hset b a Hvb (neighbours_sym a b Hb)) as Hva.
           destruct (Hin a Ha) as (_ & Hfa & _). congruence.
        -- exists ent. split; [apply Hsub; left; reflexivity|].
           intros k Hk. now apply Hin.
Qed.

End ConnectedComponents.

Section FindConnectedLoops.

Import Geom Area Loops Components.

(** X20. [findConnectedLoops] splits the selection into its connected
    components: every entity is in exactly one component (entities told
    apart by their index), two entities of which the one of lower index is
    [connected] to the other (an end of the one within 0.05 of an end of the
    other) are in the same component, and every member of a component is
    reached from one member by a walk over connected entities. *)
Theorem findConnectedLoops_partition (entities : list Entity) :
  let comps := components (seq 0 (List.length entities)) entities [] in
  findConnectedLoops entities
  = map (map (fun k => nth k entities dummyEntity)) comps
  /\ Permutation (List.concat comps) (seq 0 (List.length entities))
  /\ Forall (fun comp =>
               (forall a b ea eb,
                  nth_error entities a = Some ea ->
                  nth_error entities b = Some eb ->
                  (a < b)%nat -> connected ea eb = true ->
                  (In a comp <-> In b comp))
               /\ exists start, In start comp
                                /\ forall k, In k comp -> reach entities start k)
            comps.
Proof.
  intros comps.
  destruct (components_spec entities (seq 0 (List.length entities)))
    with (visited := @nil nat) as (H1 & H2 & H3 & H4).
  { intros k Hk. apply in_seq in Hk. lia. }
  { intros v j Hv. discriminate Hv. }
  fold comps in H1, H2, H3, H4.
  split; [|split].
  - unfold findConnectedLoops. destruct entities as [|e [|e' rest]]; try reflexivity.
  - apply NoDup_Permutation; [exact H1 | apply seq_NoDup|].
    intros k. split.
    + intros Hk. apply in_seq. destruct (H2 k Hk). lia.
    + intros Hk. destruct (H3 k Hk) as [Hv | Hc]; [discriminate Hv | exact Hc].
  - eapply Forall_impl; [|exact H4]. cbn beta.
    intros comp [Hcl Hreach]. split; [|exact Hreach].
    intros a b ea eb Ea Eb Hlt Hc.
    assert (Hab : In b (neighbours entities a)).
    { apply neighbours_spec. exists ea, eb. repeat split; try assumption; [lia|].
      assert (E : (b <? a)%nat = false) by (apply Nat.ltb_ge; lia).
      rewrite E. exact Hc. }
    split; intros H.
    + exact (Hcl a b H Hab).
    + exact (Hcl b a H (neighbours_sym entities a b Hab)).
Qed.

End FindConnectedLoops.

Section LineEndings.

Import Parser Lines.
Local Open Scope string_scope.

Lemma CR_not_LF : Ascii.eqb CR LF = false.
Proof. reflexivity. Qed.

Lemma append_assoc (a b c : string) : (a ++ b) ++ c = a ++ (b ++ c).
Proof. induction a as [|x a IH]; [reflexivity|]. cbn. now rewrite IH. Qed.

Lemma append_empty (a : string) : a ++ "" = a.
Proof. induction a as [|x a IH]; [reflexivity|]. cbn. now rewrite IH. Qed.

Lemma plainLine_cons (c : ascii) (s : string) :
  plainLine (String c s) = true
  -> Ascii.eqb c CR = false /\ Ascii.eqb c LF = false /\ plainLine s = true.
Proof.
  cbn [plainLine]. intros H.
  apply andb_true_iff in H. destruct H as [H H3].
  apply andb_true_iff in H. destruct H as [H1 H2].
  apply negb_true_iff in H1, H2. repeat split; assumption.
Qed.

Lemma replaceCRLF_cons (c : ascii) (rest : string) :
  Ascii.eqb c CR = false ->
  replaceCRLF (String c rest) = String c (replaceCRLF rest).
Proof.
  intros Hc. cbn [replaceCRLF]. rewrite Hc. cbn [andb].
  destruct rest; reflexivity.
Qed.

Lemma replaceCRLF_plain (s rest : string) :
  plainLine s = true -> replaceCRLF (s ++ rest) = s ++ replaceCRLF rest.
Proof.
  induction s as [|c s IH]; intros H; [reflexivity|].
  apply plainLine_cons in H. destruct H as (H1 & _ & H3).
  cbn [append]. rewrite replaceCRLF_cons by exact H1. now rewrite IH.
Qed.

Lemma replaceCRLF_dos (rest : string) :
  replaceCRLF (dosEnd ++ rest) = String LF (replaceCRLF rest).
Proof. reflexivity. Qed.

Lemma replaceCR_append (a b : string) :
  replaceCR (a ++ b) = replaceCR a ++ replaceCR b.
Proof. induction a as [|c a IH]; [reflexivity|]. cbn. now rewrite IH. Qed.

Lemma replaceCR_plain (s : string) : plainLine s = true -> replaceCR s = s.
Proof.
  induction s as [|c s IH]; intros H; [reflexivity|].
  apply plainLine_cons in H. destruct H as (H1 & _ & H3).
  cbn [replaceCR]. rewrite H1. now rewrite IH.
Qed.

Lemma replaceCRLF_noLF (s : string) : noLF s = true -> replaceCRLF s = s.
Proof.
  induction s as [|c s IH]; intros H; [reflexivity|].
  cbn [noLF] in H. apply andb_true_iff in H. destruct H as [_ H].
  cbn [replaceCRLF]. destruct s as [|c' s']; [reflexivity|].
  assert (H' := H). cbn [noLF] in H'. apply andb_true_iff in H'.
  destruct H' as [H1 _]. apply negb_true_iff in H1. rewrite H1, andb_false_r.
  now rewrite IH.
Qed.

Lemma noLF_append (a b : string) : noLF (a ++ b) = (noLF a && noLF b)%bool.
Proof.
  induction a as [|c a IH]; [reflexivity|]. cbn. rewrite IH. apply andb_assoc.
Qed.

Lemma plainLine_noLF (s : string) : plainLine s = true -> noLF s = true.
Proof.
  induction s as [|c s IH]; intros H; [reflexivity|].
  apply plainLine_cons in H. destruct H as (_ & H2 & H3).
  cbn [noLF]. rewrite H2. cbn. now apply IH.
Qed.

Lemma concat_cons (sep x y : string) (l : list string) :
  String.concat sep (x :: y :: l) = x ++ sep ++ String.concat sep (y :: l).
Proof. reflexivity. Qed.

Lemma concat_mac_noLF (l : list string) :
  Forall (fun s => plainLine s = true) l -> noLF (String.concat macEnd l) = true.
Proof.
  induction l as [|x l IH]; intros H; [reflexivity|].
  inversion H as [|? ? Hx Hl]; subst.
  destruct l as [|y l]; [now apply plainLine_noLF|].
  rewrite concat_cons, !noLF_append, (plainLine_noLF x Hx), (IH Hl).
  reflexivity.
Qed.

(** The text after the two replacements is the lines joined by line
    feeds, whichever the line ending was. *)
Lemma normalized_unix (l : list string) :
  Forall (fun s => plainLine s = true) l ->
  replaceCR (replaceCRLF (String.concat unixEnd l)) = String.concat unixEnd l.
Proof.
  induction l as [|x l IH]; intros H; [reflexivity|].
  inversion H as [|? ? Hx Hl]; subst.
  destruct l as [|y l].
  - cbn [String.concat]. rewrite <- (append_empty x) at 1.
    rewrite (replaceCRLF_plain x "" Hx). cbn [replaceCRLF].
    rewrite append_empty. now apply replaceCR_plain.
  - rewrite concat_cons, (replaceCRLF_plain x _ Hx).
    unfold unixEnd at 1. cbn [append].
    rewrite replaceCRLF_cons by reflexivity.
    rewrite replaceCR_append, (replaceCR_plain x Hx). cbn [replaceCR].
    change (Ascii.eqb LF CR) with false. cbv iota.
    rewrite (IH Hl). reflexivity.
Qed.

Lemma normalized_dos (l : list string) :
  Forall (fun s => plainLine s = true) l ->
  replaceCR (replaceCRLF (String.concat dosEnd l)) = String.concat unixEnd l.
Proof.
  induction l as [|x l IH]; intros H; [reflexivity|].
  inversion H as [|? ? Hx Hl]; subst.
  destruct l as [|y l].
  - cbn [String.concat]. rewrite <- (append_empty x) at 1.
    rewrite (replaceCRLF_plain x "" Hx). cbn [replaceCRLF].
    rewrite append_empty. now apply replaceCR_plain.
  - rewrite !concat_cons, (replaceCRLF_plain x _ Hx), replaceCRLF_dos.
    rewrite replaceCR_append, (replaceCR_plain x Hx). cbn [replaceCR].
    change (Ascii.eqb LF CR) with false. cbv iota.
    rewrite (IH Hl). reflexivity.
Qed.

Lemma normalized_mac (l : list string) :
  Forall (fun s => plainLine s = true) l ->
  replaceCR (replaceCRLF (String.concat macEnd l)) = String.concat unixEnd l.
Proof.
  intros H. rewrite (replaceCRLF_noLF _ (concat_mac_noLF l H)).
  induction l as [|x l IH]; [reflexivity|].
  inversion H as [|? ? Hx Hl]; subst.
  destruct l as [|y l]; [now apply replaceCR_plain|].
  rewrite !concat_cons, replaceCR_append, (replaceCR_plain x Hx).
  rewrite replaceCR_append. cbn [replaceCR macEnd].
  change (Ascii.eqb CR CR) with true. cbv iota.
  rewrite (IH Hl). reflexivity.
Qed.

Lemma splitLines_plain (s rest cur : string) :
  plainLine s = true -> splitLines (s ++ rest) cur = splitLines rest (cur ++ s).
Proof.
  revert cur. induction s as [|c s IH]; intros cur H.
  - cbn. now rewrite append_empty.
  - apply plainLine_cons in H. destruct H as (_ & H2 & H3).
    cbn [append splitLines]. rewrite H2, (IH _ H3), append_assoc. reflexivity.
Qed.

Lemma splitLines_concat (l : list string) :
  l <> [] -> Forall (fun s => plainLine s = true) l ->
  splitLines (String.concat unixEnd l) "" = l.
Proof.
  induction l as [|x l IH]; intros Hne H; [congruence|].
  inversion H as [|? ? Hx Hl]; subst.
  destruct l as [|y l].
  - cbn [String.concat]. rewrite <- (append_empty x) at 1.
    rewrite (splitLines_plain x "" "" Hx). reflexivity.
  - rewrite concat_cons, (splitLines_plain x _ "" Hx).
    unfold unixEnd at 1. cbn [append splitLines].
    change (Ascii.eqb LF LF) with true. cbv iota.
    rewrite IH; [reflexivity | discriminate | exact Hl].
Qed.

(** X21. The parser takes the three line endings alike: a text made of
    lines that hold no carriage return and no line feed, joined by line
    feeds, by carriage return and line feed, or by carriage returns alone,
    is split into the same lines, each trimmed; so [parse] returns the same
    on the three texts, from whatever state of the instance. *)
Theorem toLines_line_endings (l : list string) :
  l <> [] -> Forall (fun s => plainLine s = true) l ->
  toLines (String.concat unixEnd l) = map trim l
  /\ toLines (String.concat dosEnd l) = map trim l
  /\ toLines (String.concat macEnd l) = map trim l
  /\ forall (Num : Type) (parseFloat : option string -> Num) (zero : Num)
            (Entity : Type)
            (parseEntity : list string -> nat -> option string -> Entity * nat)
            (st : State Num Entity),
       parse parseFloat zero parseEntity st (String.concat dosEnd l)
       = parse parseFloat zero parseEntity st (String.concat unixEnd l)
       /\ parse parseFloat zero parseEntity st (String.concat macEnd l)
          = parse parseFloat zero parseEntity st (String.concat unixEnd l).
Proof.
  intros Hne H.
  assert (H1 : toLines (String.concat unixEnd l) = map trim l).
  { unfold toLines. now rewrite normalized_unix, splitLines_concat. }
  assert (H2 : toLines (String.concat dosEnd l) = map trim l).
  { unfold toLines. now rewrite normalized_dos, splitLines_concat. }
  assert (H3 : toLines (String.concat macEnd l) = map trim l).
  { unfold toLines. now rewrite normalized_mac, splitLines_concat. }
  repeat split; try assumption; unfold parse; rewrite ?H1, ?H2, ?H3; reflexivity.
Qed.

(** The theorem on the two lines of the shortest file, [0] and [EOF]. *)
Lemma toLines_line_endings_witness :
  toLines (String.concat unixEnd ["0"; "EOF"]) = map trim ["0"; "EOF"]
  /\ toLines (String.concat dosEnd ["0"; "EOF"]) = map trim ["0"; "EOF"]
  /\ toLines (String.concat macEnd ["0"; "EOF"]) = map trim ["0"; "EOF"]
  /\ forall (Num : Type) (parseFloat : option string -> Num) (zero : Num)
            (Entity : Type)
            (parseEntity : list string -> nat -> option string -> Entity * nat)
            (st : State Num Entity),
       parse parseFloat zero parseEntity st (String.concat dosEnd ["0"; "EOF"])
       = parse parseFloat zero parseEntity st (String.concat unixEnd ["0"; "EOF"])
       /\ parse parseFloat zero parseEntity st (String.concat macEnd ["0"; "EOF"])
          = parse parseFloat zero parseEntity st (String.concat unixEnd ["0"; "EOF"]).
Proof.
  apply (toLines_line_endings ["0"; "EOF"]).
  - discriminate.
  - repeat constructor.
Defined.

End LineEndings.

Section ArcRoundTrip.

Import Geom Area Hatch Loops.
Local Open Scope R_scope.

(** The end of a chord of sweep [2 h] from the angle [s], in the sines
    and cosines of [s] and [h]. *)
Lemma chord_end (s h : R) :
  cos (s + 2 * h) = cos s * (cos h * cos h - sin h * sin h)
                    - sin s * (2 * sin h * cos h)
  /\ sin (s + 2 * h) = sin s * (cos h * cos h - sin h * sin h)
                       + cos s * (2 * sin h * cos h).
Proof. rewrite cos_plus, sin_plus, sin_2a, cos_2a. split; ring. Qed.

Lemma sin_half_sweep (theta : R) :
  - (2 * PI) < theta < 2 * PI -> theta <> 0 -> sin (theta / 2) <> 0.
Proof.
  intros Hr Hne. destruct (Rlt_dec 0 theta) as [Hp | Hn].
  - assert (0 < sin (theta / 2)) by (apply sin_gt_0; lra). lra.
  - assert (0 < sin (- (theta / 2))) by (apply sin_gt_0; lra).
    rewrite sin_neg in H. lra.
Qed.

(** The chord of a circle with the bulge of its sweep gives the circle
    back. *)
Lemma circle_chord (x y r s theta : R) :
  0 < r -> - (2 * PI) < theta < 2 * PI -> theta <> 0 ->
  let p1 := mkPoint (x + r * cos s) (y + r * sin s) in
  let p2 := mkPoint (x + r * cos (s + theta)) (y + r * sin (s + theta)) in
  1e-12 <= Math_hypot (px p2 - px p1) (py p2 - py p1) ->
  1e-12 <= Rabs (tan (theta / 4)) ->
  exists a, Geom.bulgeToArc p1 p2 (Some (tan (theta / 4))) = Some a
    /\ cx a = x /\ cy a = y /\ radius a = r /\ theta = Geom.theta a.
Proof.
  intros Hr Hth Hne p1 p2 Hchord Hb.
  destruct (bulgeToArc_centre p1 p2 (tan (theta / 4)) Hchord Hb)
    as (a & Ha & Hcx & Hcy & Hrad & Htheta & _).
  assert (Hat : atan (tan (theta / 4)) = theta / 4).
  { apply atan_tan. pose proof PI_RGT_0. split; lra. }
  rewrite Hat in *.
  replace (2 * (theta / 4)) with (theta / 2) in * by field.
  pose proof (sin_half_sweep theta Hth Hne) as Hu.
  destruct (chord_end s (theta / 2)) as [HC HS].
  replace (s + 2 * (theta / 2)) with (s + theta) in HC, HS by field.
  pose proof (sin2_cos2 s) as Hs1. pose proof (sin2_cos2 (theta / 2)) as Hh1.
  unfold Rsqr in Hs1, Hh1.
  unfold p1, p2 in *. cbn [px py] in *.
  set (C := cos s) in *. set (S := sin s) in *.
  set (u := sin (theta / 2)) in *. set (v := cos (theta / 2)) in *.
  set (C' := cos (s + theta)) in *. set (S' := sin (s + theta)) in *.
  assert (Hx : (C + C') * u = (S' - S) * v).
  { rewrite HC, HS.
    assert (E : (C + (C * (v * v - u * u) - S * (2 * u * v))) * u
                - (S * (v * v - u * u) + C * (2 * u * v) - S) * v
                = - (C * u + S * v) * (u * u + v * v - 1)) by ring.
    rewrite Hh1 in E. lra. }
  assert (Hy : (S + S') * u = (C - C') * v).
  { rewrite HC, HS.
    assert (E : (S + (S * (v * v - u * u) + C * (2 * u * v))) * u
                - (C - (C * (v * v - u * u) - S * (2 * u * v))) * v
                = - (S * u - C * v) * (u * u + v * v - 1)) by ring.
    rewrite Hh1 in E. lra. }
  assert (Hq : (C' - C) * (C' - C) + (S' - S) * (S' - S) = (2 * u) * (2 * u)).
  { rewrite HC, HS.
    assert (E : (C * (v * v - u * u) - S * (2 * u * v) - C)
                * (C * (v * v - u * u) - S * (2 * u * v) - C)
                + (S * (v * v - u * u) + C * (2 * u * v) - S)
                  * (S * (v * v - u * u) + C * (2 * u * v) - S)
                = (S * S + C * C)
                  * ((v * v - u * u - 1) * (v * v - u * u - 1)
                     + 4 * (u * u) * (v * v))) by ring.
    rewrite E, Hs1.
    assert (Ev : v * v = 1 - u * u) by lra. rewrite Ev. ring. }
  exists a. split; [exact Ha|]. split; [|split; [|split]].
  - rewrite Hcx.
    transitivity (x + r * ((C + C') / 2 - ((S' - S) * v) / (2 * u)));
      [field; exact Hu|].
    rewrite <- Hx. field. exact Hu.
  - rewrite Hcy.
    transitivity (y + r * ((S + S') / 2 - ((C - C') * v) / (2 * u)));
      [field; exact Hu|].
    rewrite <- Hy. field. exact Hu.
  - rewrite Hrad.
    assert (Hh : Math_hypot (x + r * C' - (x + r * C)) (y + r * S' - (y + r * S))
                 = r * (2 * Rabs u)).
    { unfold Math_hypot.
      replace ((x + r * C' - (x + r * C)) * (x + r * C' - (x + r * C))
               + (y + r * S' - (y + r * S)) * (y + r * S' - (y + r * S)))
        with ((r * r) * ((C' - C) * (C' - C) + (S' - S) * (S' - S))) by ring.
      rewrite Hq.
      replace (r * r * (2 * u * (2 * u))) with (Rsqr (r * (2 * u)))
        by (unfold Rsqr; ring).
      rewrite sqrt_Rsqr_abs, Rabs_mult, Rabs_mult.
      rewrite (Rabs_right r) by lra. rewrite (Rabs_right 2) by lra.
      reflexivity. }
    rewrite Hh. field. apply Rabs_no_R0. exact Hu.
  - rewrite Htheta. field.
Qed.

(** The sweep [decomposeEntity] gives an ARC whose angles are less than a
    full turn apart: the difference of the angles, moved by a full turn
    into (0, 2 PI] or [-2 PI, 0). *)
Lemma arc_sweep (d : R) :
  - (2 * PI) < d < 2 * PI ->
  normalizeCCW d = (if Rle_dec d 0 then d + 2 * PI else d)
  /\ normalizeCW d = (if Rle_dec 0 d then d - 2 * PI else d).
Proof.
  intros Hd. pose proof PI_RGT_0 as Hpi. split.
  - rewrite normalizeCCW_unroll. destruct (Rle_dec d 0); [|reflexivity].
    rewrite normalizeCCW_unroll. destruct (Rle_dec (d + 2 * PI) 0); [lra | reflexivity].
  - pose proof (normalizeCCW_opp (- d)) as H. rewrite Ropp_involutive in H.
    assert (E : normalizeCW d = - normalizeCCW (- d)).
    { rewrite <- (Ropp_involutive d) at 1. rewrite normalizeCW_opp. reflexivity. }
    rewrite E, normalizeCCW_unroll.
    destruct (Rle_dec (- d) 0) as [H1 | H1]; destruct (Rle_dec 0 d) as [H2 | H2];
      try lra.
    rewrite normalizeCCW_unroll.
    destruct (Rle_dec (- d + 2 * PI) 0); [lra | ring].
Qed.

Lemma turn_more (x : R) : cos (x + 2 * PI) = cos x /\ sin (x + 2 * PI) = sin x.
Proof. rewrite cos_plus, sin_plus, cos_2PI, sin_2PI. split; ring. Qed.

Lemma turn_less (x : R) : cos (x - 2 * PI) = cos x /\ sin (x - 2 * PI) = sin x.
Proof.
  destruct (turn_more (x - 2 * PI)) as [H1 H2].
  replace (x - 2 * PI + 2 * PI) with x in H1, H2 by ring.
  split; congruence.
Qed.

(** X22. An ARC entity and the chord with a bulge that
    [decomposeEntity] makes of it describe the same arc: for a positive
    radius and angles less than a full turn apart, [bulgeToArc] on the two
    ends and the bulge of the segment returns the centre and the radius of
    the entity, and the radius and the signed sweep the segment carries
    (whenever [bulgeToArc] accepts the chord and the bulge, both of
    magnitude at least 1e-12). *)
Theorem decomposeEntity_arc_round_trip
    (x y r s e : R) (counterClockwise : option bool) (ccw : option Z)
    (seg : Segment Point) :
  0 < r -> -360 < e - s < 360 ->
  decomposeEntity (ArcEnt x y r s e counterClockwise ccw) = Some [seg] ->
  1e-12 <= Math_hypot (px (sp2 seg) - px (sp1 seg)) (py (sp2 seg) - py (sp1 seg)) ->
  1e-12 <= Rabs (sbulge seg) ->
  exists a, Geom.bulgeToArc (sp1 seg) (sp2 seg) (Some (sbulge seg)) = Some a
    /\ cx a = x /\ cy a = y /\ radius a = r
    /\ sradius seg = Some (radius a)
    /\ stheta seg = Some (theta a).
Proof.
  intros Hr Hse Hdec Hchord Hb. pose proof PI_RGT_0 as Hpi.
  cbn [decomposeEntity] in Hdec.
  set (isCCW := match counterClockwise with
                | Some b => b
                | None => match ccw with Some n => (n =? 1)%Z | None => true end
                end) in Hdec.
  set (s' := s * (PI / 180)) in *. set (e' := e * (PI / 180)) in *.
  set (sweep := if isCCW then normalizeCCW (e' - s') else normalizeCW (e' - s')) in *.
  injection Hdec as <-. cbn [sp1 sp2 sbulge sradius stheta px py] in *.
  set (d := e' - s') in *.
  assert (Hd : d = (e - s) * PI / 180) by (unfold d, e', s'; field).
  assert (Hdr : - (2 * PI) < d < 2 * PI) by (rewrite Hd; split; nra).
  destruct (arc_sweep d Hdr) as [Hccw Hcw].
  assert (Hsign : sweep <> 0).
  { unfold sweep. destruct isCCW.
    - pose proof (normalizeCCW_pos d). lra.
    - pose proof (normalizeCW_neg d). lra. }
  assert (Hturn : cos e' = cos (s' + sweep) /\ sin e' = sin (s' + sweep)).
  { assert (He : e' = s' + d) by (unfold d; ring).
    unfold sweep. destruct isCCW.
    - rewrite Hccw. destruct (Rle_dec d 0).
      + destruct (turn_more (s' + d)) as [H1 H2].
        replace (s' + (d + 2 * PI)) with (s' + d + 2 * PI) by ring.
        rewrite H1, H2, He. split; reflexivity.
      + rewrite He. split; reflexivity.
    - rewrite Hcw. destruct (Rle_dec 0 d).
      + destruct (turn_less (s' + d)) as [H1 H2].
        replace (s' + (d - 2 * PI)) with (s' + d - 2 * PI) by ring.
        rewrite H1, H2, He. split; reflexivity.
      + rewrite He. split; reflexivity. }
  assert (Hrange : - (2 * PI) < sweep < 2 * PI).
  { assert (Hfull : d = 0 -> False).
    { intros Hd0. assert (He : e' = s') by (unfold d in Hd0; lra).
      rewrite He in Hchord.
      replace (x + r * cos s' - (x + r * cos s')) with 0 in Hchord by ring.
      replace (y + r * sin s' - (y + r * sin s')) with 0 in Hchord by ring.
      rewrite Math_hypot_0 in Hchord. lra. }
    unfold sweep. destruct isCCW.
    - rewrite Hccw. destruct (Rle_dec d 0) as [Hle | Hgt]; [|lra].
      destruct (Req_dec_T d 0) as [H0 | H0]; [contradiction|]. lra.
    - rewrite Hcw. destruct (Rle_dec 0 d) as [Hle | Hgt]; [|lra].
      destruct (Req_dec_T d 0) as [H0 | H0]; [contradiction|]. lra. }
  destruct Hturn as [Hc Hs]. rewrite Hc, Hs in *.
  destruct (circle_chord x y r s' sweep Hr Hrange Hsign Hchord Hb)
    as (a & Ha & Hx & Hy & Hrad & Hth).
  exists a. rewrite Hrad, <- Hth. repeat split; assumption.
Qed.

(** The theorem on the upper half of the unit circle, a bulge of 1. *)
Lemma decomposeEntity_arc_round_trip_witness :
  exists a,
    Geom.bulgeToArc (sp1 ArcExamples.halfTurnSegment)
                    (sp2 ArcExamples.halfTurnSegment)
                    (Some (sbulge ArcExamples.halfTurnSegment)) = Some a
    /\ cx a = 0 /\ cy a = 0 /\ radius a = 1
    /\ sradius ArcExamples.halfTurnSegment = Some (radius a)
    /\ stheta ArcExamples.halfTurnSegment = Some (theta a).
Proof.
  pose proof PI_RGT_0 as Hpi.
  assert (E180 : 180 * (PI / 180) = PI) by field.
  assert (E0 : 0 * (PI / 180) = 0) by ring.
  apply (decomposeEntity_arc_round_trip 0 0 1 0 180 None None
           ArcExamples.halfTurnSegment).
  - lra.
  - lra.
  - reflexivity.
  - unfold ArcExamples.halfTurnSegment. cbn [sp1 sp2 px py].
    rewrite E180, E0, cos_PI, cos_0.
    eapply Rle_trans; [|apply Math_hypot_ge_l].
    replace (0 + 1 * -1 - (0 + 1 * 1)) with (-2) by ring.
    rewrite Rabs_left by lra. lra.
  - unfold ArcExamples.halfTurnSegment. cbn [sbulge].
    rewrite E180, E0, normalizeCCW_unroll.
    destruct (Rle_dec (PI - 0) 0) as [Hle | _]; [lra|].
    replace ((PI - 0) / 4) with (PI / 4) by field.
    rewrite tan_PI4, Rabs_right; lra.
Defined.

End ArcRoundTrip.

Section HatchPicking.

Import Geom Area Hatch HatchHit.
Local Open Scope R_scope.

Lemma addWhileNeg_range (f : nat) :
  forall a, 0 <= a + 2 * PI * INR f ->
    0 <= addWhileNeg f a
    /\ (a < 0 -> addWhileNeg f a < 2 * PI)
    /\ (0 <= a -> addWhileNeg f a = a).
Proof.
  pose proof PI_RGT_0 as Hpi.
  induction f as [|f IH]; intros a Ha.
  - cbn in *. repeat split; lra.
  - cbn [addWhileNeg]. rewrite S_INR in Ha.
    destruct (Rlt_dec a 0) as [Hn | Hp].
    + destruct (IH (a + PI * 2)) as (H1 & H2 & H3); [lra|].
      split; [exact H1|]. split; [|lra]. intros _.
      destruct (Rlt_dec (a + PI * 2) 0) as [Hn' | Hp']; [now apply H2|].
      rewrite H3 by lra. lra.
    + repeat split; lra.
Qed.

Lemma subWhileTurn_range (f : nat) :
  forall a, 0 <= a -> a - 2 * PI * INR f < 2 * PI ->
    0 <= subWhileTurn f a < 2 * PI.
Proof.
  pose proof PI_RGT_0 as Hpi.
  induction f as [|f IH]; intros a H0 Ha.
  - cbn in *. lra.
  - cbn [subWhileTurn]. rewrite S_INR in Ha.
    destruct (Rle_dec (PI * 2) a) as [Hge | Hlt]; [|lra].
    apply IH; lra.
Qed.

(** The two loops leave [sA] and [eA] in [0, 2 PI). *)
Lemma normalizeAngle_range (a : R) : 0 <= normalizeAngle a < 2 * PI.
Proof.
  unfold normalizeAngle.
  pose proof (tripsUp_enough a) as H1.
  destruct (addWhileNeg_range (tripsUp a) a) as (Ha & _ & _); [lra|].
  set (a1 := addWhileNeg (tripsUp a) a) in *.
  pose proof (tripsUp_enough (- a1)) as H2.
  apply subWhileTurn_range; [exact Ha|]. pose proof PI_RGT_0. lra.
Qed.

Lemma lineCrosses_clear (point : Point) (x1 y1 x2 y2 : R) :
  clearOf point (LINE x1 y1 x2 y2) ->
  lineCrosses (px point) (py point) x1 y1 x2 y2 = false.
Proof.
  cbn [clearOf]. intros H. unfold lineCrosses.
  destruct (Rgt_dec y1 (py point)) as [A1 | A1];
    destruct (Rgt_dec y2 (py point)) as [A2 | A2]; cbn [Bool.eqb negb];
    try reflexivity.
  - destruct H as [[Hx1 Hx2] | [[Hy1 Hy2] | [Hy1 Hy2]]]; try lra.
    destruct (Rgt_dec _ (px point)) as [Hc | _]; [|reflexivity].
    exfalso. set (t := (py point - y1) / (y2 - y1)).
    assert (Ht : 0 <= t <= 1).
    { unfold t. split.
      - apply Rmult_le_reg_r with (- (y2 - y1)); [lra|].
        replace ((py point - y1) / (y2 - y1) * - (y2 - y1))
          with (- (py point - y1)) by (field; lra). lra.
      - apply Rmult_le_reg_r with (- (y2 - y1)); [lra|].
        replace ((py point - y1) / (y2 - y1) * - (y2 - y1))
          with (- (py point - y1)) by (field; lra). lra. }
    replace (x1 + (py point - y1) * (x2 - x1) / (y2 - y1))
      with (x1 + t * (x2 - x1)) in Hc by (unfold t; field; lra).
    nra.
  - destruct H as [[Hx1 Hx2] | [[Hy1 Hy2] | [Hy1 Hy2]]]; try lra.
    destruct (Rgt_dec _ (px point)) as [Hc | _]; [|reflexivity].
    exfalso. set (t := (py point - y1) / (y2 - y1)).
    assert (Ht : 0 <= t <= 1).
    { unfold t. split.
      - apply Rmult_le_reg_r with (y2 - y1); [lra|].
        replace ((py point - y1) / (y2 - y1) * (y2 - y1))
          with (py point - y1) by (field; lra). lra.
      - apply Rmult_le_reg_r with (y2 - y1); [lra|].
        replace ((py point - y1) / (y2 - y1) * (y2 - y1))
          with (py point - y1) by (field; lra). lra. }
    replace (x1 + (py point - y1) * (x2 - x1) / (y2 - y1))
      with (x1 + t * (x2 - x1)) in Hc by (unfold t; field; lra).
    nra.
Qed.

Lemma segmentStep_clear (point : Point) (inside : bool) (seg : Edge) :
  clearOf point seg -> segmentStep point inside seg = inside.
Proof.
  destruct seg as [x1 y1 x2 y2 | cx cy radius sa ea ccw x1 y1 x2 y2]; intros H.
  - cbn [segmentStep]. rewrite (lineCrosses_clear point x1 y1 x2 y2 H).
    apply xorb_false_r.
  - cbn [segmentStep clearOf] in *.
    destruct (Rle_dec (Rabs (py point - cy)) radius) as [Hin | _]; [|reflexivity].
    destruct H as [H | H]; [|lra].
    set (dy := py point - cy) in *.
    assert (Hr : 0 <= radius) by (pose proof (Rabs_pos dy); lra).
    assert (Hdx : 0 <= sqrt (radius * radius - dy * dy) <= radius).
    { split; [apply sqrt_pos|].
      apply Rle_trans with (sqrt (radius * radius)).
      - apply sqrt_le_1_alt. nra.
      - rewrite sqrt_square by exact Hr. lra. }
    cbn [fold_left]. unfold arcCandidateCrosses.
    destruct (Rgt_dec (cx - sqrt (radius * radius - dy * dy)) (px point)); [lra|].
    destruct (Rgt_dec (cx + sqrt (radius * radius - dy * dy)) (px point)); [lra|].
    rewrite !xorb_false_r. reflexivity.
Qed.

Lemma path_clear (point : Point) (path : list Edge) :
  Forall (clearOf point) path ->
  forall inside, fold_left (segmentStep point) path inside = inside.
Proof.
  induction 1 as [|seg path Hseg _ IH]; intros inside; [reflexivity|].
  cbn [fold_left]. rewrite (segmentStep_clear point inside seg Hseg). apply IH.
Qed.

Lemma loopsStep_clear (point : Point) (loops : list HatchLoop) (inside : bool) :
  (forall loop path, In loop loops -> resolveLoop loop = Ok path ->
                     Forall (clearOf point) path) ->
  (forall loop, In loop loops -> resolveLoop loop <> Throws) ->
  loopsStep point loops inside = Some inside.
Proof.
  induction loops as [|loop rest IH]; intros Hclear Hthrow; [reflexivity|].
  assert (Hrest : loopsStep point rest inside = Some inside).
  { apply IH.
    - intros l p Hl. apply Hclear. right. exact Hl.
    - intros l Hl. apply Hthrow. right. exact Hl. }
  cbn [loopsStep]. destruct (resolveLoop loop) as [path | reason | |] eqn:E.
  - rewrite (path_clear point path (Hclear loop path (or_introl eq_refl) E)).
    exact Hrest.
  - exact Hrest.
  - exfalso. exact (Hthrow loop (or_introl eq_refl) E).
  - exfalso. destruct loop as [verts | raw]; cbn [resolveLoop] in E.
    + unfold resolvePolylineLoop, windCCW in E.
      destruct (List.length verts <? 2)%nat; [discriminate|].
      destruct (Rlt_dec _ 0); discriminate.
    + unfold resolveEdgeLoop in E. destruct raw as [|r raw]; [discriminate|].
      destruct (normalizeAll (r :: raw)) as [[|e0 edges]|]; try discriminate.
      set (tol := Rmax _ _) in E.
      destruct (stitchLoop_succeeds (e0 :: edges) tol (List.length (e0 :: edges))
                  (mkStitch [0%nat] [e0] e0)) as [s' [Hs _]];
        [cbn; lia | cbn; lia |].
      rewrite Hs in E. unfold windCCW in E.
      destruct (Rlt_dec _ 0); discriminate.
Qed.

(** X23. [isPointInHatch] never reports a point inside a hatch whose
    resolved boundary is nowhere on the ray to the right of the point:
    when every LINE of every resolved loop has both ends not to the right
    of the point, or both not above it, or both above it, and the circle of
    every ARC stays to the left of the point or misses its height, the
    result is [false] (provided the resolver throws on none of the loops).
    A hatch without loops gives [false]; the start and end angles of an
    ARC are compared after being brought into [0, 2 PI). *)
Theorem isPointInHatch_outside (point : Point) (loops : list HatchLoop) :
  (forall loop path, In loop loops -> resolveLoop loop = Ok path ->
                     Forall (clearOf point) path) ->
  (forall loop, In loop loops -> resolveLoop loop <> Throws) ->
  isPointInHatch point loops = Some false
  /\ isPointInHatch point [] = Some false
  /\ forall a, 0 <= normalizeAngle a < 2 * PI.
Proof.
  intros Hclear Hthrow. split; [|split; [reflexivity | exact normalizeAngle_range]].
  destruct loops as [|loop rest]; [reflexivity|].
  apply loopsStep_clear; assumption.
Qed.

Lemma triangleLoop_resolved :
  resolveLoop triangleLoop = Ok [LINE 0 0 1 0; LINE 1 0 0 1; LINE 0 1 0 0].
Proof.
  unfold triangleLoop. cbn [resolveLoop]. unfold resolvePolylineLoop.
  cbn [List.length Nat.ltb Nat.leb seq map nth Nat.modulo Nat.divmod fst snd
       Nat.add Nat.sub truthyBulge hbulge hx hy].
  unfold windCCW.
  destruct (Rlt_dec _ 0) as [_ | Hn]; [reflexivity|].
  exfalso. apply Hn. rewrite calculateLoopArea_sum.
  cbn [map edgeArea ex1 ey1 ex2 ey2]. rewrite !sumR_cons, sumR_nil. lra.
Qed.

(** The theorem on the triangle (0,0), (0,1), (1,0) and the point (5,5). *)
Lemma isPointInHatch_outside_witness :
  isPointInHatch (mkPoint 5 5) [triangleLoop] = Some false
  /\ isPointInHatch (mkPoint 5 5) [] = Some false
  /\ forall a, 0 <= normalizeAngle a < 2 * PI.
Proof.
  apply (isPointInHatch_outside (mkPoint 5 5) [triangleLoop]).
  - intros loop path [<- | []] H. rewrite triangleLoop_resolved in H.
    injection H as <-.
    repeat (apply Forall_cons; [left; cbn; lra|]). apply Forall_nil.
  - intros loop [<- | []]. rewrite triangleLoop_resolved. discriminate.
Defined.

End HatchPicking.

Section WeightChainBuilding.

Import Geom Area Loops Weight WeightChains.
Local Open Scope R_scope.

Variable allSegments : list WSegment.
Variable tolerance : R.

Local Abbreviation n := (List.length allSegments).

Lemma scanBest_good (used : list nat) (currentEnd : Point) :
  forall (segs : list WSegment) (i : nat) (b : BestMatch),
    (forall k s, nth_error segs k = Some s ->
                 nth_error allSegments (i + k) = Some s) ->
    goodMatch allSegments tolerance used currentEnd b ->
    goodMatch allSegments tolerance used currentEnd
              (scanBest segs i used currentEnd b).
Proof.
  induction segs as [|seg rest IH]; intros i b Hsuf Hb; [exact Hb|].
  assert (Hsuf' : forall k s, nth_error rest k = Some s ->
                              nth_error allSegments (S i + k) = Some s).
  { intros k s Hk. replace (S i + k)%nat with (i + S k)%nat by lia.
    apply Hsuf. exact Hk. }
  assert (Hi : nth_error allSegments i = Some seg).
  { rewrite <- (Nat.add_0_r i). apply Hsuf. reflexivity. }
  cbn [scanBest]. destruct (has used i) eqn:Hu; [now apply IH|].
  apply IH; [exact Hsuf'|].
  set (b1 := if Rlt_dec (distanceTo currentEnd (wp1 seg)) (bestDist b)
             then mkBestMatch (Some i) (distanceTo currentEnd (wp1 seg)) false
             else b).
  assert (Hb1 : goodMatch allSegments tolerance used currentEnd b1).
  { unfold b1. destruct (Rlt_dec _ (bestDist b)) as [Hlt | _]; [|exact Hb].
    destruct Hb as [Hle _]. split; [cbn; lra|].
    intros j Hj. cbn in Hj. injection Hj as <-.
    split; [exact Hu|]. exists seg. cbn. repeat split; [exact Hi | lra]. }
  destruct (Rlt_dec _ (bestDist b1)) as [Hlt | _]; [|exact Hb1].
  destruct Hb1 as [Hle _]. split; [cbn; lra|].
  intros j Hj. cbn in Hj. injection Hj as <-.
  split; [exact Hu|]. exists seg. cbn. repeat split; [exact Hi | lra].
Qed.

Lemma linkedChain_snoc (l : list WSegment) (d e : WSegment) :
  l <> [] -> linkedChain tolerance l ->
  distanceTo (wp2 (last l d)) (wp1 e) < tolerance ->
  linkedChain tolerance (l ++ [e]).
Proof.
  induction l as [|a l IH]; intros Hne Hl Hj; [congruence|].
  destruct l as [|b l].
  - cbn in *. split; [exact Hj | exact I].
  - cbn [app linkedChain] in *. destruct Hl as [Hab Hl]. split; [exact Hab|].
    apply IH; [discriminate | exact Hl | exact Hj].
Qed.

Lemma last_default (l : list WSegment) (d d' : WSegment) :
  l <> [] -> last l d = last l d'.
Proof.
  induction l as [|a l IH]; intros Hne; [congruence|].
  destruct l as [|b l]; [reflexivity|]. cbn [last]. apply IH. discriminate.
Qed.

Lemma hd_default (l : list WSegment) (d d' : WSegment) :
  l <> [] -> hd d l = hd d' l.
Proof. destruct l; [congruence | reflexivity]. Qed.

Section OneChain.

Variable used0 : list nat.
Variable d : WSegment.

Local Abbreviation building :=
  (WeightChains.building allSegments tolerance used0 d).

Lemma growOrdered_building :
  forall (fuel : nat) (used : list nat) (ordered : list WSegment)
         (currentEnd : Point) (js : list nat),
    building used ordered currentEnd js ->
    let r := growOrdered fuel allSegments tolerance used ordered currentEnd in
    exists js',
      building (snd r) (fst r) (wp2 (last (fst r) d)) js'
      /\ hd d (fst r) = hd d ordered
      /\ incl js js'.
Proof.
  induction fuel as [|fuel IH]; intros used ordered currentEnd js Hb.
  - cbn. exists js. destruct Hb as (H1 & H2 & H3). subst currentEnd.
    split; [exact (conj H1 (conj eq_refl H3))|].
    split; [reflexivity | apply incl_refl].
  - assert (Hstop : exists js',
               building used ordered (wp2 (last ordered d)) js'
               /\ hd d ordered = hd d ordered /\ incl js js').
    { exists js. destruct Hb as (H1 & H2 & H3). subst currentEnd.
      split; [exact (conj H1 (conj eq_refl H3))|].
      split; [reflexivity | apply incl_refl]. }
    cbn [growOrdered].
    destruct (List.length ordered <? n)%nat; [|exact Hstop].
    set (b := scanBest allSegments 0 used currentEnd
                       (mkBestMatch None tolerance false)).
    assert (Hgood : goodMatch allSegments tolerance used currentEnd b).
    { apply scanBest_good.
      - intros k s Hk. exact Hk.
      - split; [cbn; lra|]. intros j Hj. discriminate Hj. }
    destruct (bestIdx b) as [idx|] eqn:Eb; [|exact Hstop].
    destruct Hgood as [_ Hgood].
    destruct (Hgood idx Eb) as (Hu & s & Hs & Hdist & Hlt).
    rewrite Hs.
    set (pushed := if bestFlip b then flipped s else s).
    destruct Hb as (Hne & Hcur & [Hfrom Hlink] & Hnd & Hused & Hfresh).
    assert (Hidx : ~ In idx js).
    { intros Hin. assert (has used idx = true) by (apply Hused; right; exact Hin).
      congruence. }
    assert (Hidx0 : has used0 idx = false).
    { destruct (has used0 idx) eqn:E0; [|reflexivity].
      assert (has used idx = true) by (apply Hused; left; exact E0).
      congruence. }
    assert (Hb' : building (idx :: used) (ordered ++ [pushed]) (wp2 pushed)
                           (js ++ [idx])).
    { split; [destruct ordered; discriminate|].
      split; [rewrite last_last; reflexivity|].
      split; [split|].
      - apply Forall2_app; [exact Hfrom|]. constructor; [|constructor].
        exists s. split; [exact Hs|]. unfold pushed.
        destruct (bestFlip b); [right | left]; reflexivity.
      - apply linkedChain_snoc with d; [exact Hne | exact Hlink|].
        rewrite <- Hcur.
        replace (wp1 pushed) with (if bestFlip b then wp2 s else wp1 s)
          by (unfold pushed; destruct (bestFlip b); reflexivity).
        rewrite <- Hdist. exact Hlt.
      - split; [apply NoDup_snoc; assumption|].
        split.
        + intros k. rewrite has_cons, orb_true_iff, Nat.eqb_eq, Hused, in_app_iff.
          cbn [In]. split.
          * intros [-> | [H | H]]; [right; right; left; reflexivity
                                    | left; exact H | right; left; exact H].
          * intros [H | [H | [<- | []]]]; [right; left; exact H
                                           | right; right; exact H
                                           | left; reflexivity].
        + intros j Hj. apply in_app_or in Hj.
          destruct Hj as [Hj | [<- | []]]; [now apply Hfresh | exact Hidx0]. }
    destruct (IH (idx :: used) (ordered ++ [pushed]) (wp2 pushed) (js ++ [idx]) Hb')
      as (js' & H1 & H2 & H3).
    exists js'. split; [exact H1|]. split.
    + rewrite H2. destruct ordered; [congruence | reflexivity].
    + intros j Hj. apply H3. apply in_or_app. left. exact Hj.
Qed.

End OneChain.

Lemma buildChainFromSegment_chain (used0 : list nat) (startIdx : nat)
      (chain : Built) :
  has used0 startIdx = false ->
  buildChainFromSegment allSegments used0 startIdx tolerance = Some chain ->
  exists js,
    chainOver allSegments tolerance (orderedSegments chain) js
    /\ NoDup js
    /\ In startIdx js
    /\ (forall k, has (usedAfter chain) k = true
                  <-> has used0 k = true \/ In k js)
    /\ (forall j, In j js -> has used0 j = false)
    /\ (closed chain = true ->
        closedOver allSegments tolerance (orderedSegments chain) js).
Proof.
  intros Hu H. unfold buildChainFromSegment in H.
  destruct (nth_error allSegments startIdx) as [segment|] eqn:Es; [|discriminate].
  assert (Hb : WeightChains.building allSegments tolerance used0 segment
                 (startIdx :: used0) [segment] (wp2 segment) [startIdx]).
  { split; [discriminate|]. split; [reflexivity|]. split; [split|].
    - constructor; [|constructor]. exists segment. split; [exact Es | now left].
    - exact I.
    - split; [constructor; [intros [] | constructor]|]. split.
      + intros k. rewrite has_cons, orb_true_iff, Nat.eqb_eq. cbn [In].
        split; [intros [-> | H0] | intros [H0 | [<- | []]]]; tauto.
      + intros j [<- | []]. exact Hu. }
  destruct (growOrdered_building used0 segment n (startIdx :: used0) [segment]
              (wp2 segment) [startIdx] Hb) as (js & Hres & Hhd & Hincl).
  destruct (growOrdered n allSegments tolerance (startIdx :: used0) [segment]
                        (wp2 segment)) as [ordered used'].
  cbn [fst snd hd] in *.
  destruct Hres as (Hne & _ & Hchain & Hnd & Hused & Hfresh).
  assert (Hstart : In startIdx js) by (apply Hincl; left; reflexivity).
  destruct (List.length ordered <? 3)%nat eqn:E3.
  - injection H as <-. cbn [orderedSegments usedAfter closed].
    exists js. split; [exact Hchain|]. split; [exact Hnd|].
    split; [exact Hstart|]. split; [exact Hused|]. split; [exact Hfresh|].
    intros Hc. discriminate Hc.
  - apply Nat.ltb_ge in E3. injection H as <-.
    cbn [orderedSegments usedAfter closed].
    exists js. split; [exact Hchain|]. split; [exact Hnd|].
    split; [exact Hstart|]. split; [exact Hused|]. split; [exact Hfresh|].
    intros Hc. split; [exact Hchain|]. split; [exact E3|]. intros d.
    destruct (Rlt_dec _ tolerance) as [Hlt | _]; [|discriminate].
    rewrite (hd_default ordered d segment Hne), (last_default ordered d segment Hne).
    exact Hlt.
Qed.

Lemma firstUnused_spec (used : list nat) :
  forall (m i : nat),
    match firstUnused i m used with
    | Some k => (i <= k < i + m)%nat /\ has used k = false
    | None => forall k, (i <= k < i + m)%nat -> has used k = true
    end.
Proof.
  induction m as [|m IH]; intros i; cbn [firstUnused].
  - intros k Hk. lia.
  - destruct (has used i) eqn:E.
    + specialize (IH (S i)). destruct (firstUnused (S i) m used) as [k|].
      * destruct IH as [H1 H2]. split; [lia | exact H2].
      * intros k Hk. destruct (Nat.eq_dec k i) as [-> | Hne]; [exact E|].
        apply IH. lia.
    + split; [lia | exact E].
Qed.

Lemma markUsed_mono (ordered : list WSegment) :
  forall used k, has used k = true ->
                 has (markUsed allSegments ordered used) k = true.
Proof.
  induction ordered as [|seg rest IH]; intros used k Hk; [exact Hk|].
  cbn [markUsed]. destruct (indexOfObject allSegments 0 (wobject seg)); apply IH;
    [|exact Hk].
  rewrite has_cons, Hk. apply orb_true_r.
Qed.

Lemma filter_count_le (f g : nat -> bool) (l : list nat) :
  (forall x, g x = true -> f x = true) ->
  (List.length (filter g l) <= List.length (filter f l))%nat.
Proof.
  intros Hfg. induction l as [|x l IH]; [apply Nat.le_refl|]. cbn [filter].
  destruct (g x) eqn:Eg.
  - rewrite (Hfg x Eg). cbn. lia.
  - destruct (f x); cbn; lia.
Qed.

Lemma filter_count_lt (f g : nat -> bool) (l : list nat) (x0 : nat) :
  (forall x, g x = true -> f x = true) ->
  In x0 l -> f x0 = true -> g x0 = false ->
  (List.length (filter g l) < List.length (filter f l))%nat.
Proof.
  intros Hfg. induction l as [|x l IH]; intros Hin Hf Hg; [destruct Hin|].
  cbn [filter]. destruct Hin as [-> | Hin].
  - rewrite Hf, Hg. cbn. pose proof (filter_count_le f g l Hfg). lia.
  - specialize (IH Hin Hf Hg). destruct (g x) eqn:Eg.
    + rewrite (Hfg x Eg). cbn. lia.
    + destruct (f x); cbn; lia.
Qed.

Lemma unusedCount_lt (used used' : list nat) (k : nat) :
  (forall j, has used j = true -> has used' j = true) ->
  (k < n)%nat -> has used k = false -> has used' k = true ->
  (unusedCount n used' < unusedCount n used)%nat.
Proof.
  intros Hmono Hk Hu Hu'. unfold unusedCount.
  apply filter_count_lt with k.
  - intros x Hx. apply negb_true_iff in Hx. apply negb_true_iff.
    destruct (has used x) eqn:E; [|reflexivity].
    rewrite (Hmono x E) in Hx. discriminate.
  - apply in_seq. lia.
  - rewrite Hu. reflexivity.
  - rewrite Hu'. reflexivity.
Qed.

Local Abbreviation collected := (WeightChains.collected allSegments tolerance).

Lemma chainsLoop_collected :
  forall (fuel : nat) (used : list nat) (results : list (list WSegment)),
    collected used results ->
    (unusedCount n used <= fuel)%nat ->
    let r := chainsLoop fuel allSegments tolerance used results in
    collected (snd r) (fst r)
    /\ forall i, (i < n)%nat -> has (snd r) i = true.
Proof.
  induction fuel as [|fuel IH]; intros used results Hc Hfuel.
  - cbn [chainsLoop fst snd]. split; [exact Hc|]. intros i Hi.
    destruct (has used i) eqn:E; [reflexivity|]. exfalso.
    unfold unusedCount in Hfuel.
    assert (Hin : In i (filter (fun i => negb (has used i)) (seq 0 n))).
    { apply filter_In. split; [apply in_seq; lia | now rewrite E]. }
    destruct (filter (fun i => negb (has used i)) (seq 0 n)); [destruct Hin|].
    cbn in Hfuel. lia.
  - cbn [chainsLoop]. pose proof (firstUnused_spec used n 0) as Hfirst.
    destruct (firstUnused 0 n used) as [startIdx|].
    2:{ cbn [fst snd]. split; [exact Hc|]. intros i Hi. apply Hfirst. lia. }
    destruct Hfirst as [Hrange Hu].
    destruct (buildChainFromSegment allSegments used startIdx tolerance)
      as [chain|] eqn:Eb.
    2:{ exfalso. unfold buildChainFromSegment in Eb.
        destruct (nth_error allSegments startIdx) eqn:Es.
        - destruct (growOrdered _ _ _ _ _ _) as [o u].
          destruct (List.length o <? 3)%nat; discriminate.
        - apply nth_error_None in Es. lia. }
    destruct (buildChainFromSegment_chain used startIdx chain Hu Eb)
      as (js & Hchain & Hnd & Hstart & Hused & Hfresh & Hclosed).
    destruct Hc as (jss & Hall & Hnd' & Hin').
    assert (Hmono : forall j, has used j = true -> has (usedAfter chain) j = true).
    { intros j Hj. apply Hused. left. exact Hj. }
    assert (Hs' : has (usedAfter chain) startIdx = true)
      by (apply Hused; right; exact Hstart).
    destruct (closed chain) eqn:Ecl.
    + apply IH.
      * exists (jss ++ [js]). split; [|split].
        -- apply Forall2_app; [exact Hall|]. constructor; [|constructor].
           apply Hclosed. reflexivity.
        -- rewrite concat_app. cbn [List.concat]. rewrite app_nil_r.
           apply NoDup_app; [exact Hnd' | exact Hnd|].
           intros j Hj Hj'. specialize (Hin' j Hj). specialize (Hfresh j Hj').
           congruence.
        -- intros j Hj. rewrite concat_app in Hj. cbn [List.concat] in Hj.
           rewrite app_nil_r in Hj. apply in_app_or in Hj.
           destruct Hj as [Hj | Hj]; [apply Hmono, Hin', Hj|].
           apply Hused. right. exact Hj.
      * pose proof (unusedCount_lt used (usedAfter chain) startIdx Hmono
                      (proj2 Hrange) Hu Hs'). lia.
    + apply IH.
      * exists jss. split; [exact Hall|]. split; [exact Hnd'|].
        intros j Hj. apply markUsed_mono, Hmono, Hin', Hj.
      * assert (Hmono' : forall j, has used j = true ->
                   has (markUsed allSegments (orderedSegments chain)
                                 (usedAfter chain)) j = true).
        { intros j Hj. apply markUsed_mono, Hmono, Hj. }
        pose proof (unusedCount_lt used _ startIdx Hmono' (proj2 Hrange) Hu
                      (markUsed_mono _ _ _ Hs')). lia.
Qed.

End WeightChainBuilding.

Section ChainExample.

Import Geom Area Loops Weight WeightChains.
Local Open Scope R_scope.

Lemma scanBest_used (seg : WSegment) (rest : list WSegment) (i : nat)
      (used : list nat) (currentEnd : Point) (b : BestMatch) :
  has used i = true ->
  scanBest (seg :: rest) i used currentEnd b
  = scanBest rest (S i) used currentEnd b.
Proof. intros H. cbn [scanBest]. rewrite H. reflexivity. Qed.

Lemma scanBest_start (seg : WSegment) (rest : list WSegment) (i : nat)
      (used : list nat) (currentEnd : Point) (b : BestMatch) :
  has used i = false ->
  distanceTo currentEnd (wp1 seg) < bestDist b ->
  distanceTo currentEnd (wp1 seg) <= distanceTo currentEnd (wp2 seg) ->
  scanBest (seg :: rest) i used currentEnd b
  = scanBest rest (S i) used currentEnd
             (mkBestMatch (Some i) (distanceTo currentEnd (wp1 seg)) false).
Proof.
  intros H H1 H2. cbn [scanBest]. rewrite H.
  destruct (Rlt_dec _ (bestDist b)) as [_ | Hn]; [|contradiction].
  cbn [bestDist]. destruct (Rlt_dec _ _) as [Hc | _]; [lra | reflexivity].
Qed.

Lemma scanBest_far (seg : WSegment) (rest : list WSegment) (i : nat)
      (used : list nat) (currentEnd : Point) (b : BestMatch) :
  has used i = false ->
  bestDist b <= distanceTo currentEnd (wp1 seg) ->
  bestDist b <= distanceTo currentEnd (wp2 seg) ->
  scanBest (seg :: rest) i used currentEnd b
  = scanBest rest (S i) used currentEnd b.
Proof.
  intros H H1 H2. cbn [scanBest]. rewrite H.
  destruct (Rlt_dec _ (bestDist b)) as [Hc | _]; [lra|].
  destruct (Rlt_dec _ (bestDist b)) as [Hc | _]; [lra | reflexivity].
Qed.

Lemma scanBest_end (i : nat) (used : list nat) (currentEnd : Point)
      (b : BestMatch) :
  scanBest [] i used currentEnd b = b.
Proof. reflexivity. Qed.

Lemma distanceTo_same (a : Point) : distanceTo a a = 0.
Proof.
  unfold distanceTo.
  replace ((px a - px a) * (px a - px a) + (py a - py a) * (py a - py a))
    with 0 by ring.
  exact sqrt_0.
Qed.

Lemma distanceTo_nonneg (a b : Point) : 0 <= distanceTo a b.
Proof. apply sqrt_pos. Qed.

(** Three lines around a triangle are found as one chain, in the order
    of the walk. *)
Lemma findAllChains_triangle :
  findAllChains triangleObjects
  = [mkChainResult [0%nat; 1%nat; 2%nat]
                   [mkVertex 0 0 (Some 0) None None;
                    mkVertex 1 0 (Some 0) None None;
                    mkVertex 0 1 (Some 0) None None]].
Proof.
  set (A := mkPoint 0 0). set (B := mkPoint 1 0). set (C := mkPoint 0 1).
  set (s0 := mkWSegment 0 A B 0). set (s1 := mkWSegment 1 B C 0).
  set (s2 := mkWSegment 2 C A 0).
  assert (Hseg : extractSegments triangleObjects = [s0; s1; s2]) by reflexivity.
  unfold findAllChains, closedChains. rewrite Hseg.
  assert (Hgrow : growOrdered 3 [s0; s1; s2] 2.0 [0%nat] [s0] B
                  = ([s0; s1; s2], [2%nat; 1%nat; 0%nat])).
  { cbn [growOrdered List.length Nat.ltb Nat.leb].
    rewrite scanBest_used by reflexivity.
    rewrite scanBest_start;
      [| reflexivity
       | cbn [wp1 s1 bestDist]; rewrite distanceTo_same; lra
       | cbn [wp1 s1]; rewrite distanceTo_same; apply distanceTo_nonneg ].
    rewrite scanBest_far;
      [| reflexivity
       | cbn [wp1 s1 bestDist]; rewrite distanceTo_same; apply distanceTo_nonneg
       | cbn [wp1 s1 bestDist]; rewrite distanceTo_same; apply distanceTo_nonneg ].
    rewrite scanBest_end.
    cbn [growOrdered bestIdx bestFlip nth_error app wp2 s1 List.length Nat.ltb Nat.leb].
    rewrite scanBest_used by reflexivity.
    rewrite scanBest_used by reflexivity.
    rewrite scanBest_start;
      [| reflexivity
       | cbn [wp1 s2 bestDist]; rewrite distanceTo_same; lra
       | cbn [wp1 s2]; rewrite distanceTo_same; apply distanceTo_nonneg ].
    rewrite scanBest_end.
    cbn [growOrdered bestIdx bestFlip nth_error app wp2 s2 List.length Nat.ltb Nat.leb].
    reflexivity. }
  assert (Hbuild : buildChainFromSegment [s0; s1; s2] [] 0 2.0
                   = Some (mkBuilt true [s0; s1; s2] [2%nat; 1%nat; 0%nat])).
  { unfold buildChainFromSegment. cbn [nth_error List.length wp2 s0].
    rewrite Hgrow. cbn [List.length Nat.ltb Nat.leb hd last wp1 wp2 s0 s2].
    rewrite distanceTo_same.
    destruct (Rlt_dec 0 2.0) as [_ | Hn]; [reflexivity | lra]. }
  cbn [List.length chainsLoop firstUnused has existsb].
  rewrite Hbuild. cbn [closed usedAfter orderedSegments app].
  reflexivity.
Qed.

End ChainExample.

Section FindAllChains.

Import Geom Area Loops Weight WeightChains.
Local Open Scope R_scope.

Lemma extractSegment_object (i : nat) (obj : SceneObject) (seg : WSegment) :
  extractSegment i obj = Some seg -> wobject seg = i.
Proof.
  destruct obj as [[s|] [e|] | [c|] [r|] sa ea |]; cbn; intros H;
    try discriminate; injection H as <-; reflexivity.
Qed.

Lemma extractFrom_objects (objs : list SceneObject) :
  forall i,
    Forall (fun seg =>
              (i <= wobject seg)%nat
              /\ exists obj, nth_error objs (wobject seg - i) = Some obj
                             /\ extractSegment (wobject seg) obj = Some seg)
           (extractFrom i objs)
    /\ NoDup (map wobject (extractFrom i objs)).
Proof.
  induction objs as [|obj rest IH]; intros i.
  - cbn. split; constructor.
  - destruct (IH (S i)) as [Hall Hnd].
    assert (Hrest : Forall (fun seg =>
                      (i <= wobject seg)%nat
                      /\ exists o, nth_error (obj :: rest) (wobject seg - i) = Some o
                                   /\ extractSegment (wobject seg) o = Some seg)
                      (extractFrom (S i) rest)).
    { eapply Forall_impl; [|exact Hall]. cbn beta.
      intros seg (Hle & o & Ho & He). split; [lia|]. exists o.
      split; [|exact He].
      replace (wobject seg - i)%nat with (S (wobject seg - S i)) by lia.
      exact Ho. }
    cbn [extractFrom]. destruct (extractSegment i obj) as [seg|] eqn:E.
    + pose proof (extractSegment_object i obj seg E) as Ho.
      split.
      * constructor; [|exact Hrest]. split; [lia|]. exists obj.
        rewrite Ho, Nat.sub_diag. split; [reflexivity | exact E].
      * cbn [map]. constructor; [|exact Hnd].
        intros Hin. apply in_map_iff in Hin. destruct Hin as (s & Hs & Hin).
        rewrite Forall_forall in Hall. destruct (Hall s Hin) as [Hle _]. lia.
    + split; [exact Hrest | exact Hnd].
Qed.

Lemma fromIndex_object (allSegments : list WSegment) (ordered : list WSegment)
      (js : list nat) :
  Forall2 (fromIndex allSegments) ordered js ->
  map wobject ordered
  = map (fun j => wobject (nth j allSegments dummyWSegment)) js
  /\ forall j, In j js -> (j < List.length allSegments)%nat.
Proof.
  induction 1 as [|seg j ordered js (s & Hs & Hseg) _ [IH1 IH2]].
  - split; [reflexivity | intros j []].
  - split.
    + cbn [map]. rewrite IH1, (nth_error_nth _ _ dummyWSegment Hs).
      destruct Hseg as [-> | ->]; reflexivity.
    + intros k [<- | Hk]; [|now apply IH2].
      apply nth_error_Some. congruence.
Qed.

Lemma closedOver_objects (allSegments : list WSegment) (tolerance : R)
      (results : list (list WSegment)) (jss : list (list nat)) :
  Forall2 (closedOver allSegments tolerance) results jss ->
  List.concat (map (map wobject) results)
  = map (fun j => wobject (nth j allSegments dummyWSegment)) (List.concat jss)
  /\ forall j, In j (List.concat jss) -> (j < List.length allSegments)%nat.
Proof.
  induction 1 as [|ordered js results jss [[Hfrom _] _] _ [IH1 IH2]].
  - split; [reflexivity | intros j []].
  - destruct (fromIndex_object allSegments ordered js Hfrom) as [H1 H2].
    cbn [map List.concat]. split.
    + rewrite map_app, IH1, H1. reflexivity.
    + intros j Hj. apply in_app_or in Hj. destruct Hj; [now apply H2 | now apply IH2].
Qed.

(** X24. [findAllChains] returns closed chains only: each has at least
    three segments, every segment is the one extracted from an object of
    its own, as it is or flipped, starts closer than 2.0 to the end of the
    segment before it, and the last one ends closer than 2.0 to the start
    of the first.  No object is in two chains or twice in one, and the
    search ends with every extracted segment used.  Three lines around a
    triangle are returned as one chain. *)
Theorem findAllChains_closed_chains (objs : list SceneObject) :
  let allSegments := extractSegments objs in
  let r := chainsLoop (List.length allSegments) allSegments 2.0 [] [] in
  findAllChains objs = map chainResult (fst r)
  /\ (forall i, (i < List.length allSegments)%nat -> has (snd r) i = true)
  /\ (exists jss,
        Forall2 (closedOver allSegments 2.0) (fst r) jss
        /\ NoDup (List.concat jss))
  /\ NoDup (List.concat (map objects (findAllChains objs)))
  /\ Forall (fun seg =>
               exists obj, nth_error objs (wobject seg) = Some obj
                           /\ extractSegment (wobject seg) obj = Some seg)
            allSegments
  /\ findAllChains triangleObjects
     = [mkChainResult [0%nat; 1%nat; 2%nat]
                      [mkVertex 0 0 (Some 0) None None;
                       mkVertex 1 0 (Some 0) None None;
                       mkVertex 0 1 (Some 0) None None]].
Proof.
  intros allSegments r.
  destruct (extractFrom_objects objs 0) as [Hfrom Hobj].
  fold (extractSegments objs) in Hfrom, Hobj. fold allSegments in Hfrom, Hobj.
  destruct (chainsLoop_collected allSegments 2.0 (List.length allSegments) [] [])
    as [(jss & Hall & Hnd & _) Hused].
  { exists []. split; [constructor|]. split; [constructor | intros j []]. }
  { unfold unusedCount.
    eapply Nat.le_trans; [apply filter_length_le|].
    rewrite length_seq. apply Nat.le_refl. }
  fold r in Hall, Hused.
  split; [reflexivity|]. split; [exact Hused|].
  split; [exists jss; split; assumption|]. split.
  - unfold findAllChains, closedChains. fold allSegments. fold r.
    rewrite map_map.
    replace (map (fun x => objects (chainResult x)) (fst r))
      with (map (map wobject) (fst r)) by reflexivity.
    destruct (closedOver_objects allSegments 2.0 (fst r) jss Hall) as [-> Hrange].
    apply NoDup_map_NoDup_ForallPairs; [|exact Hnd].
    intros j1 j2 H1 H2 Heq.
    apply (proj1 (NoDup_nth (map wobject allSegments) (wobject dummyWSegment)) Hobj);
      rewrite ?length_map; try (apply Hrange; assumption).
    rewrite !map_nth. exact Heq.
  - split; [|exact findAllChains_triangle].
    eapply Forall_impl; [|exact Hfrom]. cbn beta.
    intros seg (_ & obj & Ho & He). exists obj.
    rewrite Nat.sub_0_r in Ho. split; assumption.
Qed.

End FindAllChains.

Section ResolverArc.

Import Geom Area Hatch.
Local Open Scope R_scope.

(** [Math.atan2] returns an angle in (-PI, PI]. *)
Lemma Math_atan2_range (y x : R) : - PI < Math_atan2 y x <= PI.
Proof.
  pose proof PI_RGT_0 as Hpi. unfold Math_atan2.
  pose proof (atan_bound (y / x)) as Hb.
  destruct (Rlt_dec 0 x) as [Hx | Hx]; [lra|].
  destruct (Rlt_dec x 0) as [Hx' | Hx'].
  - assert (Hix : / x < 0) by (apply Rinv_lt_0_compat; exact Hx').
    destruct (Rle_dec 0 y) as [Hy | Hy].
    + assert (Hq : y / x <= 0) by (unfold Rdiv; nra).
      assert (atan (y / x) <= 0).
      { destruct Hq as [Hq | Hq].
        - left. rewrite <- atan_0. apply atan_increasing. exact Hq.
        - rewrite Hq, atan_0. lra. }
      lra.
    + assert (Hq : 0 < y / x) by (unfold Rdiv; nra).
      assert (0 < atan (y / x)).
      { rewrite <- atan_0. apply atan_increasing. exact Hq. }
      lra.
  - destruct (Rlt_dec 0 y); [lra|]. destruct (Rlt_dec y 0); lra.
Qed.

Lemma cos_one_zero (u : R) : cos u = 1 -> - (2 * PI) < u < 2 * PI -> u = 0.
Proof.
  intros Hc Hu. pose proof PI_RGT_0 as Hpi.
  assert (Hs : sin (u / 2) * sin (u / 2) = 0).
  { pose proof (cos_2a_sin (u / 2)) as H.
    replace (2 * (u / 2)) with u in H by field. lra. }
  assert (Hs0 : sin (u / 2) = 0).
  { apply Rmult_integral in Hs. tauto. }
  destruct (Rtotal_order u 0) as [Hn | [H0 | Hp]]; [|exact H0|].
  - assert (0 < sin (- (u / 2))) by (apply sin_gt_0; lra).
    rewrite sin_neg in H. lra.
  - assert (0 < sin (u / 2)) by (apply sin_gt_0; lra). lra.
Qed.

(** Two angles with the same cosine and the same sine, less than two
    turns apart, differ by no turn or by one. *)
Lemma same_direction (x y : R) :
  cos x = cos y -> sin x = sin y -> - (4 * PI) < x - y < 4 * PI ->
  x - y = 0 \/ x - y = 2 * PI \/ x - y = - (2 * PI).
Proof.
  intros Hc Hs Hr. pose proof PI_RGT_0 as Hpi.
  assert (H1 : cos (x - y) = 1).
  { rewrite cos_minus, Hc, Hs. pose proof (sin2_cos2 y) as H.
    unfold Rsqr in H. lra. }
  destruct (Rle_dec (2 * PI) (x - y)) as [Hhi | Hhi].
  - right. left.
    assert (E : x - y - 2 * PI = 0).
    { apply cos_one_zero; [|lra].
      unfold Rminus at 1. rewrite cos_plus, cos_neg, sin_neg, cos_2PI, sin_2PI.
      lra. }
    lra.
  - destruct (Rle_dec (x - y) (- (2 * PI))) as [Hlo | Hlo].
    + right. right.
      assert (E : x - y + 2 * PI = 0).
      { apply cos_one_zero; [|lra].
        rewrite cos_plus, cos_2PI, sin_2PI. lra. }
      lra.
    + left. apply cos_one_zero; [exact H1 | lra].
Qed.

(** The arc of the parser's [bulgeToArc] in polar form about its centre:
    [p1] sits at the angle [Math.atan2] gives, and [p2] is [p1] turned by
    the included angle. *)
Lemma bulgeToArc_polar (p1 p2 : Point) (b : R) :
  1e-12 <= Math_hypot (px p2 - px p1) (py p2 - py p1) ->
  1e-12 <= Rabs b ->
  exists a, Geom.bulgeToArc p1 p2 (Some b) = Some a
    /\ 0 < radius a
    /\ cx a = (px p1 + px p2) / 2
              - (py p2 - py p1) * (cos (2 * atan b) / (2 * sin (2 * atan b)))
    /\ cy a = (py p1 + py p2) / 2
              + (px p2 - px p1) * (cos (2 * atan b) / (2 * sin (2 * atan b)))
    /\ radius a = Math_hypot (px p2 - px p1) (py p2 - py p1)
                  / (2 * Rabs (sin (2 * atan b)))
    /\ (forall q, q = p1 \/ q = p2 ->
          radius a * cos (Math_atan2 (py q - cy a) (px q - cx a)) = px q - cx a
          /\ radius a * sin (Math_atan2 (py q - cy a) (px q - cx a)) = py q - cy a)
    /\ px p2 - cx a = (px p1 - cx a) * cos (4 * atan b)
                      - (py p1 - cy a) * sin (4 * atan b)
    /\ py p2 - cy a = (py p1 - cy a) * cos (4 * atan b)
                      + (px p1 - cx a) * sin (4 * atan b).
Proof.
  intros Hchord Hb.
  destruct (bulgeToArc_centre p1 p2 b Hchord Hb)
    as (a & Ha & Hcx & Hcy & Hrad & _).
  assert (Hb0 : b <> 0).
  { intros ->. rewrite Rabs_R0 in Hb. lra. }
  pose proof (sin_half_angle_nonzero Hb0) as HS.
  pose proof (sin2_cos2 (2 * atan b)) as H1. unfold Rsqr in H1.
  set (S := sin (2 * atan b)) in *. set (C := cos (2 * atan b)) in *.
  set (dx := px p2 - px p1) in *. set (dy := py p2 - py p1) in *.
  set (k := C / (2 * S)) in *.
  assert (HX1 : px p1 - cx a = - dx / 2 + dy * k) by (rewrite Hcx; unfold dx; field).
  assert (HY1 : py p1 - cy a = - dy / 2 - dx * k) by (rewrite Hcy; unfold dy; field).
  assert (HX2 : px p2 - cx a = dx / 2 + dy * k) by (rewrite Hcx; unfold dx; field).
  assert (HY2 : py p2 - cy a = dy / 2 - dx * k) by (rewrite Hcy; unfold dy; field).
  assert (Hchord0 : 0 < Math_hypot dx dy) by lra.
  assert (Hsq : Math_hypot dx dy * Math_hypot dx dy = dx * dx + dy * dy).
  { unfold Math_hypot. apply sqrt_sqrt. nra. }
  assert (HaS : 0 < Rabs S) by (apply Rabs_pos_lt; exact HS).
  assert (HaS2 : Rabs S * Rabs S = S * S).
  { fold (Rsqr (Rabs S)). rewrite <- Rsqr_abs. reflexivity. }
  assert (Hrpos : 0 < radius a).
  { rewrite Hrad. apply Rdiv_lt_0_compat; lra. }
  assert (Hr2 : radius a * radius a = (dx * dx + dy * dy) * (/ 4 + k * k)).
  { rewrite Hrad. rewrite <- Hsq. unfold k.
    transitivity (Math_hypot dx dy * Math_hypot dx dy / (4 * (Rabs S * Rabs S)));
      [field; lra|].
    rewrite HaS2.
    transitivity (Math_hypot dx dy * Math_hypot dx dy * ((S * S + C * C) / (4 * (S * S))));
      [rewrite H1; field; exact HS | field; exact HS]. }
  assert (Hpolar : forall X Y, X * X + Y * Y = radius a * radius a ->
                     radius a * cos (Math_atan2 Y X) = X
                     /\ radius a * sin (Math_atan2 Y X) = Y).
  { intros X Y HXY.
    assert (Hn : sqrt (X * X + Y * Y) = radius a).
    { apply sqrt_lem_1; [nra | lra | lra]. }
    rewrite <- Hn. apply Math_atan2_polar. nra. }
  destruct (rotate_chord dx dy HS H1) as [Hrx Hry]. fold k in Hrx, Hry.
  exists a. split; [exact Ha|]. split; [exact Hrpos|].
  split; [exact Hcx|]. split; [exact Hcy|]. split; [exact Hrad|].
  split; [|split].
  - intros q [-> | ->]; apply Hpolar.
    + rewrite Hr2, HX1, HY1. field.
    + rewrite Hr2, HX2, HY2. field.
  - replace (4 * atan b) with (2 * (2 * atan b)) by ring.
    rewrite (cos_2a (2 * atan b)), (sin_2a (2 * atan b)). fold S C.
    rewrite HX1, HY1, HX2. lra.
  - replace (4 * atan b) with (2 * (2 * atan b)) by ring.
    rewrite (cos_2a (2 * atan b)), (sin_2a (2 * atan b)). fold S C.
    rewrite HX1, HY1, HY2. lra.
Qed.

Lemma bulgeToArc_flags (p1 p2 : Point) (b : R) (a : Arc) :
  Geom.bulgeToArc p1 p2 (Some b) = Some a ->
  theta a = 4 * atan b
  /\ counterClockwise a = (if Rlt_dec 0 (4 * atan b) then true else false).
Proof.
  unfold Geom.bulgeToArc.
  destruct (Rlt_dec (Rabs b) 1e-12); [discriminate|].
  destruct (Rlt_dec _ 1e-12); [discriminate|].
  intros H. injection H as <-. split; reflexivity.
Qed.

(** The resolver's arc against the parser's, and the sweep the area sum
    reads off it. *)
Lemma bulgeToArc_resolved (p1 p2 : Point) (b : R) :
  1e-12 <= Math_hypot (px p2 - px p1) (py p2 - py p1) ->
  1e-12 <= Rabs b ->
  exists a,
    Geom.bulgeToArc p1 p2 (Some b) = Some a
    /\ Hatch.bulgeToArc p1 p2 b
       = ARC (cx a) (cy a) (radius a)
             (- Math_atan2 (py p1 - cy a) (px p1 - cx a))
             (- Math_atan2 (py p2 - cy a) (px p2 - cx a))
             (counterClockwise a) (px p1) (py p1) (px p2) (py p2)
    /\ edgeArea (Hatch.bulgeToArc p1 p2 b)
       = (px p1 * py p2 - py p1 * px p2)
         + radius a * radius a * (theta a - sin (theta a)).
Proof.
  intros Hchord Hb. pose proof PI_RGT_0 as Hpi.
  destruct (bulgeToArc_polar p1 p2 b Hchord Hb)
    as (a & Ha & Hrpos & Hcx & Hcy & Hrad & Hpolar & Hrx & Hry).
  destruct (bulgeToArc_flags p1 p2 b a Ha) as [Hth Hccw].
  assert (Hb0 : b <> 0).
  { intros ->. rewrite Rabs_R0 in Hb. lra. }
  destruct (half_angle_range Hb0) as [[Hlo Hhi] [Hne [Hpos Hneg]]].
  pose proof (sin_half_angle_nonzero Hb0) as HS.
  set (chord := Math_hypot (px p2 - px p1) (py p2 - py p1)) in *.
  assert (Hch : chord <> 0) by lra.
  assert (Hflag : (if Rlt_dec 0 b then true else false) = counterClockwise a).
  { rewrite Hccw. destruct (Rlt_dec 0 b) as [Hp | Hn];
      destruct (Rlt_dec 0 (4 * atan b)) as [Hp' | Hn']; try reflexivity.
    - specialize (Hpos Hp). lra.
    - assert (b < 0) by lra. specialize (Hneg H). lra. }
  assert (Hedge : Hatch.bulgeToArc p1 p2 b
                  = ARC (cx a) (cy a) (radius a)
                        (- Math_atan2 (py p1 - cy a) (px p1 - cx a))
                        (- Math_atan2 (py p2 - cy a) (px p2 - cx a))
                        (counterClockwise a) (px p1) (py p1) (px p2) (py p2)).
  { unfold Hatch.bulgeToArc. fold chord.
    replace (4 * atan b / 2) with (2 * atan b) by field.
    assert (Ex : (px p1 + px p2) / 2
                 + - (py p2 - py p1) / chord
                   * (chord / (2 * sin (2 * atan b)) * cos (2 * atan b))
                 = cx a) by (rewrite Hcx; field; split; assumption).
    assert (Ey : (py p1 + py p2) / 2
                 + (px p2 - px p1) / chord
                   * (chord / (2 * sin (2 * atan b)) * cos (2 * atan b))
                 = cy a) by (rewrite Hcy; field; split; assumption).
    assert (Er : Rabs (chord / (2 * sin (2 * atan b))) = radius a).
    { rewrite Hrad. unfold Rdiv. rewrite Rabs_mult, Rabs_inv, Rabs_mult.
      rewrite (Rabs_right chord) by lra. rewrite (Rabs_right 2) by lra.
      reflexivity. }
    rewrite Ex, Ey, Er, Hflag. reflexivity. }
  exists a. split; [exact Ha|]. split; [exact Hedge|].
  rewrite Hedge. cbn [edgeArea ex1 ey1 ex2 ey2]. rewrite !Ropp_involutive.
  set (ang1 := Math_atan2 (py p1 - cy a) (px p1 - cx a)) in *.
  set (ang2 := Math_atan2 (py p2 - cy a) (px p2 - cx a)) in *.
  destruct (Hpolar p1 (or_introl eq_refl)) as [Hc1 Hs1].
  destruct (Hpolar p2 (or_intror eq_refl)) as [Hc2 Hs2].
  fold ang1 in Hc1, Hs1. fold ang2 in Hc2, Hs2.
  assert (Hsame : cos ang2 = cos (ang1 + 4 * atan b)
                  /\ sin ang2 = sin (ang1 + 4 * atan b)).
  { rewrite cos_plus, sin_plus. split.
    - apply Rmult_eq_reg_l with (radius a); [|lra].
      rewrite Hc2, Hrx, <- Hc1, <- Hs1. ring.
    - apply Rmult_eq_reg_l with (radius a); [|lra].
      rewrite Hs2, Hry, <- Hc1, <- Hs1. ring. }
  destruct Hsame as [Hsc Hss].
  pose proof (Math_atan2_range (py p1 - cy a) (px p1 - cx a)) as Hr1.
  pose proof (Math_atan2_range (py p2 - cy a) (px p2 - cx a)) as Hr2.
  fold ang1 in Hr1. fold ang2 in Hr2.
  assert (Hdiff : ang2 - (ang1 + 4 * atan b) = 0
                  \/ ang2 - (ang1 + 4 * atan b) = 2 * PI
                  \/ ang2 - (ang1 + 4 * atan b) = - (2 * PI)).
  { apply same_direction; [exact Hsc | exact Hss | lra]. }
  assert (Hd : - (2 * PI) < ang2 - ang1 < 2 * PI) by lra.
  destruct (arc_sweep (ang2 - ang1) Hd) as [Hnccw Hncw].
  assert (Hsweep : (if counterClockwise a then normalizeCCW (ang2 - ang1)
                    else normalizeCW (ang2 - ang1)) = theta a).
  { rewrite Hth, <- Hflag. destruct (Rlt_dec 0 b) as [Hp | Hn].
    - specialize (Hpos Hp). rewrite Hnccw.
      destruct (Rle_dec (ang2 - ang1) 0); lra.
    - assert (Hbn : b < 0) by lra. specialize (Hneg Hbn). rewrite Hncw.
      destruct (Rle_dec 0 (ang2 - ang1)); lra. }
  rewrite Hsweep. reflexivity.
Qed.

(** X25. The ARC the hatch resolver makes of a bulged polyline edge is
    the arc of the parser's [bulgeToArc]: for a chord of length at least
    1e-12 and a bulge of magnitude at least 1e-12 it has the same centre,
    radius and direction, runs from [p1] to [p2], its angles are the
    negated polar angles of [p1] and [p2] about the centre, and the sweep
    [calculateLoopArea] reads off these angles and the direction is the
    included angle [4 atan(bulge)] of the bulge, so the edge adds the
    chord's shoelace term and [r^2 (theta - sin theta)] to the area sum. *)
Theorem resolver_bulgeToArc_sweep (p1 p2 : Point) (b : R) :
  1e-12 <= Math_hypot (px p2 - px p1) (py p2 - py p1) ->
  1e-12 <= Rabs b ->
  exists a,
    Geom.bulgeToArc p1 p2 (Some b) = Some a
    /\ Hatch.bulgeToArc p1 p2 b
       = ARC (cx a) (cy a) (radius a)
             (- Math_atan2 (py p1 - cy a) (px p1 - cx a))
             (- Math_atan2 (py p2 - cy a) (px p2 - cx a))
             (counterClockwise a) (px p1) (py p1) (px p2) (py p2)
    /\ edgeArea (Hatch.bulgeToArc p1 p2 b)
       = (px p1 * py p2 - py p1 * px p2)
         + radius a * radius a * (theta a - sin (theta a)).
Proof. exact (bulgeToArc_resolved p1 p2 b). Qed.

(** The theorem on the half circle over the chord from (0,0) to (2,0). *)
Lemma resolver_bulgeToArc_sweep_witness :
  exists a,
    Geom.bulgeToArc (mkPoint 0 0) (mkPoint 2 0) (Some 1) = Some a
    /\ Hatch.bulgeToArc (mkPoint 0 0) (mkPoint 2 0) 1
       = ARC (cx a) (cy a) (radius a)
             (- Math_atan2 (0 - cy a) (0 - cx a))
             (- Math_atan2 (0 - cy a) (2 - cx a))
             (counterClockwise a) 0 0 2 0
    /\ edgeArea (Hatch.bulgeToArc (mkPoint 0 0) (mkPoint 2 0) 1)
       = (0 * 0 - 0 * 2) + radius a * radius a * (theta a - sin (theta a)).
Proof.
  apply (resolver_bulgeToArc_sweep (mkPoint 0 0) (mkPoint 2 0) 1).
  - cbn [px py]. eapply Rle_trans; [|apply Math_hypot_ge_l].
    rewrite Rabs_right; lra.
  - rewrite Rabs_right; lra.
Defined.

End ResolverArc.

Section ResolvedArea.

Import Geom Area Hatch HatchArea.
Local Open Scope R_scope.

Lemma edgeOfPair_area (x0 y0 : R) (p q : Vertex) :
  bulgeOr0 p = 0
  \/ (1e-12 < Rabs (bulgeOr0 p)
      /\ 1e-12 <= Math_hypot (vx q - vx p) (vy q - vy p)) ->
  edgeArea (edgeOfPair (p, q))
  = areaStep x0 y0 p q - shiftCross x0 y0 p q + cross p q.
Proof.
  intros H. unfold edgeOfPair, areaStep, shiftCross, cross. cbn [fst snd].
  destruct (Req_dec_T (bulgeOr0 p) 0) as [E | E].
  - rewrite E, Rabs_R0. destruct (Rlt_dec 1e-12 0) as [Hc | _]; [lra|].
    cbn [edgeArea ex1 ey1 ex2 ey2]. ring.
  - destruct H as [H | [Hb Hchord]]; [contradiction|].
    destruct (Rlt_dec 1e-12 (Rabs (bulgeOr0 p))) as [_ | Hn]; [|contradiction].
    destruct (bulgeToArc_resolved (vpoint p) (vpoint q) (bulgeOr0 p))
      as (a & Ha & _ & Harea); [exact Hchord | lra |].
    destruct (bulgeToArc_flags _ _ _ _ Ha) as [Hth _].
    rewrite Ha, Harea, Hth. cbn [vpoint px py].
    replace 0.5 with (1 / 2) by lra. field.
Qed.

Lemma resolved_edges (verts : list HVertex) :
  map (fun i =>
         let p1 := nth i verts dummyHVertex in
         let p2 := nth ((i + 1) mod List.length verts) verts dummyHVertex in
         match truthyBulge p1 with
         | Some b => Hatch.bulgeToArc (hpoint p1) (hpoint p2) b
         | None => LINE (hx p1) (hy p1) (hx p2) (hy p2)
         end)
      (seq 0 (List.length verts))
  = map edgeOfPair (cycPairs (map toVertex verts)).
Proof.
  rewrite <- index_loop_pairs, map_map, length_map.
  apply map_ext. intros i.
  change dummyVertex with (toVertex dummyHVertex). rewrite !map_nth.
  set (p1 := nth i verts dummyHVertex).
  set (p2 := nth ((i + 1) mod List.length verts) verts dummyHVertex).
  unfold edgeOfPair, truthyBulge, bulgeOr0. cbn [fst snd toVertex vbulge vx vy].
  destruct (hbulge p1) as [b|].
  - destruct (Req_dec_T b 0); reflexivity.
  - destruct (Req_dec_T 0 0) as [_ | Hn]; [reflexivity | contradiction].
Qed.

(** X26. The hatch resolver and the viewer measure a closed polyline
    alike: for at least three vertices, every bulge zero or above 1e-12 in
    magnitude with the ends of its edge at least 1e-12 apart, the signed
    area [calculateLoopArea] of the path [resolvePolylineLoop] returns is
    the area [calculateGeometricArea] gives the same vertices. *)
Theorem resolvePolylineLoop_calculateGeometricArea
    (verts : list HVertex) (path : list Edge) :
  resolvePolylineLoop verts = Ok path ->
  (3 <= List.length verts)%nat ->
  Forall (fun p =>
            bulgeOr0 (fst p) = 0
            \/ (1e-12 < Rabs (bulgeOr0 (fst p))
                /\ 1e-12 <= Math_hypot (vx (snd p) - vx (fst p))
                                       (vy (snd p) - vy (fst p))))
         (cycPairs (map toVertex verts)) ->
  calculateLoopArea path = calculateGeometricArea (map toVertex verts).
Proof.
  intros Hres Hn Hok. unfold resolvePolylineLoop in Hres.
  destruct (List.length verts <? 2)%nat eqn:E2; [discriminate|].
  cbv zeta in Hres. rewrite resolved_edges in Hres.
  set (l := map toVertex verts) in *.
  set (assembled := map edgeOfPair (cycPairs l)) in *.
  set (x0 := vx (nth 0 l dummyVertex)). set (y0 := vy (nth 0 l dummyVertex)).
  assert (Hsum : sumR (map edgeArea assembled)
                 = sumR (map (fun p => areaStep x0 y0 (fst p) (snd p)) (cycPairs l))).
  { unfold assembled. rewrite map_map.
    rewrite (sumR_map_ext _
               (fun p => areaStep x0 y0 (fst p) (snd p)
                         + ((-1) * shiftCross x0 y0 (fst p) (snd p)
                            + cross (fst p) (snd p)))).
    - rewrite !sumR_map_plus, sumR_map_scal, shiftCross_total.
      unfold crossTotal. lra.
    - intros [p q] Hp. rewrite Forall_forall in Hok. specialize (Hok _ Hp).
      cbn [fst snd] in *. rewrite (edgeOfPair_area x0 y0 p q Hok). ring. }
  assert (Hgeo : calculateGeometricArea l
                 = Rabs (calculateLoopArea assembled)).
  { rewrite calculateGeometricArea_pairs.
    assert (E3 : (List.length l <? 3)%nat = false).
    { apply Nat.ltb_ge. unfold l. rewrite length_map. exact Hn. }
    rewrite E3. fold x0 y0. rewrite calculateLoopArea_sum, Hsum.
    f_equal. lra. }
  rewrite Hgeo. unfold windCCW in Hres.
  destruct (Rlt_dec (calculateLoopArea assembled) 0) as [Hneg | Hpos];
    injection Hres as <-.
  - rewrite calculateLoopArea_reverse, Rabs_left by exact Hneg. reflexivity.
  - rewrite Rabs_right by lra. reflexivity.
Qed.


(** The theorem on the triangle (0,0), (0,1), (1,0). *)
Lemma resolvePolylineLoop_calculateGeometricArea_witness :
  calculateLoopArea [LINE 0 0 1 0; LINE 1 0 0 1; LINE 0 1 0 0]
  = calculateGeometricArea
      (map toVertex [mkHVertex 0 0 None; mkHVertex 0 1 None; mkHVertex 1 0 None]).
Proof.
  apply (resolvePolylineLoop_calculateGeometricArea
           [mkHVertex 0 0 None; mkHVertex 0 1 None; mkHVertex 1 0 None]).
  - exact triangleLoop_resolved.
  - cbn. lia.
  - repeat (apply Forall_cons; [left; reflexivity|]). apply Forall_nil.
Defined.

End ResolvedArea.

Section LayerTable.

Import Parser ParserLayers.
Local Open Scope string_scope.

Variable Num : Type.
Variable parseFloat : option string -> Num.
Variable zero : Num.
Variable Entity : Type.
Variable parseEntity : list string -> nat -> option string -> Entity * nat.

Local Abbreviation St := (State Num Entity).
Local Abbreviation valid := (@layersValid Num Entity).

Lemma mapSet_keys (V : Type) (k : string) (v : V) (m : list (string * V)) :
  map fst (mapSet k v m)
  = if existsb (String.eqb k) (map fst m) then map fst m
    else (map fst m ++ [k])%list.
Proof.
  unfold mapSet. induction m as [|[k' v'] m IH]; [reflexivity|].
  cbn [mapSetBy map fst existsb]. destruct (String.eqb k k') eqn:E.
  - apply String.eqb_eq in E. subst k'. reflexivity.
  - cbn [orb map fst]. rewrite IH.
    destruct (existsb (String.eqb k) (map fst m)); reflexivity.
Qed.

Lemma mapSet_Forall (V : Type) (P : string * V -> Prop) (k : string) (v : V)
      (m : list (string * V)) :
  P (k, v) -> Forall P m -> Forall P (mapSet k v m).
Proof.
  intros Hkv. unfold mapSet. induction 1 as [|[k' v'] m Hx Hm IH].
  - constructor; [exact Hkv | constructor].
  - cbn [mapSetBy]. destruct (String.eqb k k'); constructor; assumption.
Qed.

Lemma mapSet_NoDup (V : Type) (k : string) (v : V) (m : list (string * V)) :
  NoDup (map fst m) -> NoDup (map fst (mapSet k v m)).
Proof.
  intros H. rewrite mapSet_keys.
  destruct (existsb (String.eqb k) (map fst m)) eqn:E; [exact H|].
  apply (Permutation_NoDup (Permutation_cons_append (map fst m) k)).
  constructor; [|exact H]. intros Hin.
  assert (existsb (String.eqb k) (map fst m) = true).
  { apply existsb_exists. exists k. split; [exact Hin | apply String.eqb_refl]. }
  congruence.
Qed.

Lemma valid_setLayer (st : St) (layer : Layer) :
  valid st -> layerValid layer ->
  valid (setLayer st (keyOf (layerName layer)) layer).
Proof.
  intros [Hall Hnd] Hl. split; cbn [layers setLayer].
  - apply mapSet_Forall; [|exact Hall]. cbn [fst snd]. split; [|exact Hl].
    destruct Hl as [Hname _]. destruct (layerName layer) as [nm|];
      [reflexivity | discriminate].
  - apply mapSet_NoDup. exact Hnd.
Qed.

Section OnLines.

Variable lines : list string.

Lemma parseLayer_valid fuel (st : St) i layer :
  valid st -> colourValid layer ->
  valid (fst (parseLayer lines fuel st i layer)).
Proof.
  revert st i layer. induction fuel as [|f IH]; intros st i layer Hst Hc.
  - cbn [parseLayer fst]. destruct (truthy (layerName layer)) eqn:E; [|exact Hst].
    apply valid_setLayer; [exact Hst | split; assumption].
  - assert (Hsave : valid (if truthy (layerName layer)
                           then setLayer st (keyOf (layerName layer)) layer
                           else st)).
    { destruct (truthy (layerName layer)) eqn:E; [|exact Hst].
      apply valid_setLayer; [exact Hst | split; assumption]. }
    cbn [parseLayer]. destruct (i <? List.length lines)%nat; [|exact Hsave].
    destruct (codeIs _ 0); [exact Hsave|].
    apply IH; [exact Hst|].
    destruct (codeIs _ 2); [exact Hc|].
    destruct (codeIs _ 62).
    { destruct (parseInt _) as [c|]; [|exact I].
      destruct (c <? 0)%Z eqn:E; unfold colourValid; cbn [layerColor].
      - apply Z.abs_nonneg.
      - apply Z.ltb_ge in E. exact E. }
    destruct (codeIs _ 6); [exact Hc|].
    destruct (codeIs _ 70); exact Hc.
Qed.

Lemma parseHeader_layers fuel (st : St) i cv :
  layers (fst (parseHeader parseFloat lines fuel st i cv)) = layers st.
Proof.
  revert st i cv. induction fuel as [|f IH]; intros st i cv; [reflexivity|].
  cbn [parseHeader]. destruct (i <? List.length lines)%nat; [|reflexivity].
  destruct (codeIs _ 0 && valueIs _ "ENDSEC")%bool; [reflexivity|].
  destruct (codeIs _ 9); [now rewrite IH|].
  destruct (truthy cv); now rewrite IH.
Qed.

Lemma parseLinetype_layers fuel (st : St) i lt :
  layers (fst (parseLinetype parseFloat lines fuel st i lt)) = layers st.
Proof.
  revert st i lt. induction fuel as [|f IH]; intros st i lt; [reflexivity|].
  cbn [parseLinetype]. destruct (i <? List.length lines)%nat; [|reflexivity].
  destruct (codeIs _ 0); [reflexivity|]. apply IH.
Qed.

Lemma parseBlocks_layers fuel (st : St) i cb :
  layers (fst (parseBlocks parseFloat parseEntity lines fuel st i cb)) = layers st.
Proof.
  revert st i cb. induction fuel as [|f IH]; intros st i cb; [reflexivity|].
  cbn [parseBlocks]. destruct (i <? List.length lines)%nat; [|reflexivity].
  destruct (codeIs _ 0); [|apply IH].
  destruct (valueIs _ "ENDSEC"); [reflexivity|].
  destruct (valueIs _ "BLOCK").
  { destruct (parseBlockHeader _ _ _ _ _) as [b i']. apply IH. }
  destruct (valueIs _ "ENDBLK").
  { rewrite IH. destruct cb as [b|]; [|reflexivity].
    destruct (blockNamed b); reflexivity. }
  destruct cb as [b|]; [|apply IH].
  destruct (parseEntity lines i _) as [entity endIndex]. apply IH.
Qed.

Lemma parseEntities_layers fuel (st : St) i :
  layers (fst (parseEntities parseEntity lines fuel st i)) = layers st.
Proof.
  revert st i. induction fuel as [|f IH]; intros st i; [reflexivity|].
  cbn [parseEntities]. destruct (i <? List.length lines)%nat; [|reflexivity].
  destruct (codeIs _ 0); [|apply IH].
  destruct (valueIs _ "ENDSEC"); [reflexivity|].
  destruct (parseEntity lines i _) as [entity endIndex]. now rewrite IH.
Qed.

Lemma valid_layers (st st' : St) : layers st' = layers st -> valid st -> valid st'.
Proof. unfold layersValid. intros ->. exact (fun H => H). Qed.

Lemma parseTableLoop_valid fuel (st : St) i tableType :
  valid st ->
  valid (fst (parseTableLoop parseFloat zero lines fuel st i tableType)).
Proof.
  revert st i. induction fuel as [|f IH]; intros st i Hst; [exact Hst|].
  cbn [parseTableLoop]. destruct (i <? List.length lines)%nat; [|exact Hst].
  destruct (codeIs _ 0); [|now apply IH].
  destruct (valueIs _ "ENDTAB"); [exact Hst|].
  destruct (valueIs tableType "LAYER" && valueIs _ "LAYER")%bool.
  { pose proof (parseLayer_valid (List.length lines) st (i + 2) newLayer Hst) as H.
    destruct (parseLayer lines (List.length lines) st (i + 2) newLayer) as [s1 i1].
    apply IH. apply H. cbn. lia. }
  destruct (valueIs tableType "LTYPE" && valueIs _ "LTYPE")%bool.
  { pose proof (parseLinetype_layers (List.length lines) st (i + 2)
                  (newLinetype zero)) as H.
    destruct (parseLinetype parseFloat lines (List.length lines) st (i + 2)
                (newLinetype zero)) as [s1 i1].
    apply IH. exact (valid_layers st s1 H Hst). }
  now apply IH.
Qed.

Lemma parseTables_valid fuel (st : St) i :
  valid st -> valid (fst (parseTables parseFloat zero lines fuel st i)).
Proof.
  revert st i. induction fuel as [|f IH]; intros st i Hst; [exact Hst|].
  cbn [parseTables]. destruct (i <? List.length lines)%nat; [|exact Hst].
  destruct (codeIs _ 0); [|now apply IH].
  destruct (valueIs _ "ENDSEC"); [exact Hst|].
  destruct (valueIs _ "TABLE"); [|now apply IH].
  unfold parseTable.
  pose proof (parseTableLoop_valid (List.length lines) st (i + 2 + 2)
                (line lines (i + 2 + 1)) Hst) as H.
  destruct (parseTableLoop _ _ _ _ _ _ _) as [s1 i1]. apply IH. exact H.
Qed.

Lemma parseSection_valid (st : St) i :
  valid st -> valid (fst (parseSection parseFloat zero parseEntity lines st i)).
Proof.
  intros Hst. unfold parseSection.
  destruct (valueIs _ "HEADER");
    [exact (valid_layers st _ (parseHeader_layers _ _ _ _) Hst)|].
  destruct (valueIs _ "TABLES"); [now apply parseTables_valid|].
  destruct (valueIs _ "BLOCKS");
    [exact (valid_layers st _ (parseBlocks_layers _ _ _ _) Hst)|].
  destruct (valueIs _ "ENTITIES");
    [exact (valid_layers st _ (parseEntities_layers _ _ _) Hst)|].
  exact Hst.
Qed.

Lemma parseLoop_valid fuel (st : St) i :
  valid st -> valid (parseLoop parseFloat zero parseEntity lines fuel st i).
Proof.
  revert st i. induction fuel as [|f IH]; intros st i Hst; [exact Hst|].
  cbn [parseLoop]. destruct (i <? List.length lines)%nat; [|exact Hst].
  destruct (codeIs _ 0); [|now apply IH].
  destruct (valueIs _ "SECTION"); [|now apply IH].
  pose proof (parseSection_valid st (i + 2) Hst) as H.
  destruct (parseSection _ _ _ _ _ _) as [s1 i1]. apply IH. exact H.
Qed.

End OnLines.

Lemma parse_valid (st : St) (content : string) :
  valid st -> valid (fst (parse parseFloat zero parseEntity st content)).
Proof. intros Hst. unfold parse. cbn [fst]. now apply parseLoop_valid. Qed.

Lemma valid_result (st : St) :
  valid st ->
  Forall layerValid (map snd (layers st))
  /\ NoDup (map layerName (map snd (layers st))).
Proof.
  intros [Hall Hnd]. split.
  - apply Forall_map. eapply Forall_impl; [|exact Hall]. cbn beta. tauto.
  - assert (E : map layerName (map snd (layers st))
                = map Some (map fst (layers st))).
    { rewrite !map_map. apply map_ext_in. intros kv Hkv.
      rewrite Forall_forall in Hall. apply (Hall kv Hkv). }
    rewrite E. apply NoDup_map_NoDup_ForallPairs; [|exact Hnd].
    intros x y _ _ H. injection H as ->. reflexivity.
Qed.

(** X27. The layers [parse] returns are sound: every layer has a name
    that is not empty, no two layers have the same name, and no layer has a
    colour below zero (a negative colour number in the file hides the layer
    and its absolute value is kept; a colour that is not a number stays
    so).  This holds on a new parser and is kept from call to call on one
    instance.  A layer WALLS of colour -3 is returned hidden with the
    colour 3. *)
Theorem parse_layers_valid (content : string) :
  let result := parseFresh parseFloat zero parseEntity content in
  Forall layerValid (pLayers result)
  /\ NoDup (map layerName (pLayers result))
  /\ (forall (st : St) (c : string),
        valid st -> valid (fst (parse parseFloat zero parseEntity st c)))
  /\ pLayers (parseFresh parseFloat zero parseEntity sampleLayers)
     = [mkLayer (Some "WALLS") (Some 3%Z) (Some "CONTINUOUS") (Some 0%Z) false].
Proof.
  intros result.
  assert (Hfresh : valid (fresh Num Entity)).
  { split; [constructor | constructor]. }
  destruct (valid_result _ (parse_valid (fresh Num Entity) content Hfresh))
    as [H1 H2].
  split; [exact H1|]. split; [exact H2|].
  split; [exact parse_valid|]. vm_compute. reflexivity.
Qed.

End LayerTable.

Section StitchedEdges.

Import Geom Area Hatch StitchCount.
Local Open Scope R_scope.

Variable edges : list Edge.
Variable tol : R.

Lemma assembled_length (used : list nat) (path : list Edge) (bridges : nat) :
  assembled edges used path bridges ->
  List.length path = (List.length used + bridges)%nat
  /\ NoDup used
  /\ path <> [].
Proof.
  induction 1 as [e0 H0
                 | used path b i target e _ (IH1 & IH2 & IH3) Hi Hu He
                 | used path b i target e cur _ (IH1 & IH2 & IH3) Hi Hu He Hc].
  - split; [reflexivity|]. split; [|discriminate].
    constructor; [intros [] | constructor].
  - split; [rewrite length_app; cbn; lia|]. split.
    + constructor; [|exact IH2]. apply has_false_not_in. exact Hu.
    + destruct path; discriminate.
  - split; [rewrite !length_app; cbn; lia|]. split.
    + constructor; [|exact IH2]. apply has_false_not_in. exact Hu.
    + destruct (path ++ _)%list eqn:E; [|discriminate].
      destruct path; discriminate.
Qed.

Lemma findMatch_from (es : list Edge) (i : nat) (used : list nat)
      (tipx tipy : R) (k : nat) (e : Edge) :
  (forall d t, nth_error es d = Some t -> nth_error edges (i + d) = Some t) ->
  findMatch es i used tipx tipy tol = Some (k, e) ->
  has used k = false
  /\ exists target, nth_error edges k = Some target
                    /\ (e = target \/ e = reverseEdge target).
Proof.
  revert i. induction es as [|a es IH]; intros i Hsuf H; [discriminate|].
  assert (Hsuf' : forall d t, nth_error es d = Some t ->
                              nth_error edges (S i + d) = Some t).
  { intros d t Hd. replace (S i + d)%nat with (i + S d)%nat by lia.
    apply Hsuf. exact Hd. }
  assert (Hi : nth_error edges i = Some a).
  { rewrite <- (Nat.add_0_r i). apply Hsuf. reflexivity. }
  cbn [findMatch] in H. destruct (has used i) eqn:Hu; [now apply (IH (S i))|].
  destruct (Rlt_dec (dist (ex1 a) (ey1 a) tipx tipy) tol).
  { injection H as <- <-. split; [exact Hu|]. exists a. split; [exact Hi | now left]. }
  destruct (Rlt_dec (dist (ex2 a) (ey2 a) tipx tipy) tol).
  { injection H as <- <-. split; [exact Hu|]. exists a. split; [exact Hi | now right]. }
  now apply (IH (S i)).
Qed.

(** One trip of the [while] loop takes one more edge, with or without a
    bridge in front of it. *)
Lemma stitchStep_assembled (s s' : Stitch) (bridges : nat) :
  assembled edges (used s) (path s) bridges ->
  current s = last (path s) (current s) ->
  stitchStep edges tol s = Some s' ->
  current s' = last (path s') (current s')
  /\ ((assembled edges (used s') (path s') bridges
       /\ List.length (path s') = S (List.length (path s)))
      \/ (assembled edges (used s') (path s') (S bridges)
          /\ List.length (path s') = S (S (List.length (path s))))).
Proof.
  intros Ha Hcur H. unfold stitchStep in H.
  destruct (findMatch edges 0 (used s) (ex2 (current s)) (ey2 (current s)) tol)
    as [[i e]|] eqn:Hfm.
  - injection H as <-. cbn [used path current].
    destruct (findMatch_from edges 0 (used s) _ _ i e (fun d t Hd => Hd) Hfm)
      as (Hu & target & Ht & He).
    split; [rewrite last_last; reflexivity|]. left. split.
    + apply assembled_next with (target := target); assumption.
    + rewrite length_app. cbn. lia.
  - set (c := findClosest edges 0 (used s) (ex2 (current s)) (ey2 (current s))
                (mkClosest None None true)) in H.
    assert (Hatt : attained edges (used s) (ex2 (current s)) (ey2 (current s)) c).
    { apply findClosest_attained.
      - intros k e Hk. exact Hk.
      - intros b Hb. discriminate Hb. }
    destruct (bestIdx c) as [best|] eqn:Eb; [|discriminate].
    destruct (minDist c) as [md|] eqn:Em; [|discriminate].
    destruct (Hatt best Eb) as (Hu & target & Ht & _).
    rewrite Ht in H. injection H as <-. cbn [used path current].
    set (e := if connectToStart c then target else reverseEdge target).
    assert (He : e = target \/ e = reverseEdge target)
      by (unfold e; destruct (connectToStart c); [left | right]; reflexivity).
    assert (Hnext : (if connectToStart c then ex1 target else ex2 target) = ex1 e
                    /\ (if connectToStart c then ey1 target else ey2 target) = ey1 e).
    { unfold e. destruct (connectToStart c); [split; reflexivity|].
      destruct target; split; reflexivity. }
    destruct Hnext as [-> ->].
    split; [rewrite last_last; reflexivity|].
    destruct (Rlt_dec tol md) as [Hgt | Hle].
    + right. split.
      * apply assembled_bridge with (target := target); assumption.
      * rewrite !length_app. cbn. lia.
    + left. split.
      * apply assembled_next with (target := target); assumption.
      * rewrite length_app. cbn. lia.
Qed.

Lemma stitchLoop_assembled :
  forall (fuel : nat) (s s' : Stitch) (bridges : nat),
    assembled edges (used s) (path s) bridges ->
    current s = last (path s) (current s) ->
    (List.length (path s) <= List.length edges)%nat ->
    stitchLoop fuel edges tol s = Some (Some s') ->
    exists bridges',
      assembled edges (used s') (path s') bridges'
      /\ (List.length edges <= List.length (path s') <= S (List.length edges))%nat.
Proof.
  induction fuel as [|fuel IH]; intros s s' b Ha Hcur Hlen H; cbn [stitchLoop] in H.
  - destruct (List.length (path s) <? List.length edges)%nat eqn:E; [discriminate|].
    injection H as <-. apply Nat.ltb_ge in E. exists b. split; [exact Ha | lia].
  - destruct (List.length (path s) <? List.length edges)%nat eqn:E.
    + apply Nat.ltb_lt in E.
      destruct (stitchStep edges tol s) as [s1|] eqn:Es; [|discriminate].
      destruct (stitchStep_assembled s s1 b Ha Hcur Es)
        as [Hcur1 [[Ha1 Hl1] | [Ha1 Hl1]]].
      * apply (IH s1 s' b Ha1 Hcur1); [lia | exact H].
      * destruct (Nat.eq_dec (List.length (path s1)) (S (List.length edges)))
          as [Eq | Hne].
        -- destruct fuel; cbn [stitchLoop] in H;
             (assert (E1 : (List.length (path s1) <? List.length edges)%nat = false)
                by (apply Nat.ltb_ge; lia));
             rewrite E1 in H; injection H as <-;
             exists (S b); (split; [exact Ha1 | lia]).
        -- apply (IH s1 s' (S b) Ha1 Hcur1); [lia | exact H].
    + injection H as <-. apply Nat.ltb_ge in E. exists b. split; [exact Ha | lia].
Qed.

End StitchedEdges.

Section DroppedEdges.

Import Geom Area Hatch StitchCount.
Local Open Scope R_scope.

Lemma threeApart_tolerance :
  Rmax (computeBBox threeApartEdges * 1e-4) 1e-4 < 9.
Proof.
  unfold threeApartEdges, computeBBox.
  cbn [fold_left ex1 ey1 ex2 ey2].
  assert (Hx0 : Rmin (Rmin (Rmin (Rmin 0 1) 10) 11) 20 = 0)
    by (unfold Rmin; repeat (destruct (Rle_dec _ _); try lra)).
  assert (Hx : Rmin (Rmin (Rmin (Rmin (Rmin 0 1) 10) 11) 20) 21 = 0)
    by (rewrite Hx0; unfold Rmin; destruct (Rle_dec _ _); lra).
  assert (Hy : Rmin (Rmin (Rmin (Rmin (Rmin 0 0) 0) 0) 0) 0 = 0)
    by (unfold Rmin; repeat (destruct (Rle_dec _ _); try lra)).
  assert (HX0 : Rmax (Rmax (Rmax (Rmax 0 1) 10) 11) 20 = 20)
    by (unfold Rmax; repeat (destruct (Rle_dec _ _); try lra)).
  assert (HX : Rmax (Rmax (Rmax (Rmax (Rmax 0 1) 10) 11) 20) 21 = 21)
    by (rewrite HX0; unfold Rmax; destruct (Rle_dec _ _); lra).
  assert (HY : Rmax (Rmax (Rmax (Rmax (Rmax 0 0) 0) 0) 0) 0 = 0)
    by (unfold Rmax; repeat (destruct (Rle_dec _ _); try lra)).
  rewrite Hx, Hy, HX, HY.
  assert (Hh : Math_hypot (21 - 0) (0 - 0) = 21).
  { unfold Math_hypot.
    replace ((21 - 0) * (21 - 0) + (0 - 0) * (0 - 0)) with (Rsqr 21)
      by (unfold Rsqr; ring).
    rewrite sqrt_Rsqr; lra. }
  rewrite Hh. unfold Rmax. destruct (Rle_dec _ _); lra.
Qed.

(** Three lines nine units apart: the first bridge fills the path, and
    one of the three lines is left out. *)
Lemma threeApart_stitched :
  exists s,
    stitchLoop 3 threeApartEdges
               (Rmax (computeBBox threeApartEdges * 1e-4) 1e-4)
               (mkStitch [0%nat] [LINE 0 0 1 0] (LINE 0 0 1 0))
    = Some (Some s)
    /\ List.length (path s) = 3%nat
    /\ List.length (used s) = 2%nat.
Proof.
  pose proof threeApart_tolerance as Htol.
  set (tol := Rmax (computeBBox threeApartEdges * 1e-4) 1e-4) in *.
  set (s0 := mkStitch [0%nat] [LINE 0 0 1 0] (LINE 0 0 1 0)).
  assert (Hfar : forall x y, 9 <= Rabs (x - 1) -> ~ dist x y 1 0 < tol).
  { intros x y Hx Hc. unfold dist in Hc.
    pose proof (Math_hypot_ge_l (x - 1) (y - 0)). lra. }
  assert (Hfm : findMatch threeApartEdges 0 (used s0)
                          (ex2 (current s0)) (ey2 (current s0)) tol = None).
  { cbn [threeApartEdges findMatch used current s0 has existsb Nat.eqb orb
         ex1 ey1 ex2 ey2].
    repeat match goal with
           | |- context [Rlt_dec (dist ?x ?y 1 0) tol] =>
               destruct (Rlt_dec (dist x y 1 0) tol) as [Hc | _];
               [exfalso; revert Hc; apply Hfar; rewrite Rabs_right; lra|]
           end.
    reflexivity. }
  assert (Hleft : unusedLeft threeApartEdges (used s0)).
  { exists 1%nat, (LINE 10 0 11 0). split; reflexivity. }
  destruct (stitchStep_bridge threeApartEdges tol s0 Hleft Hfm)
    as (best & toStart & md & target & Ht & Hu & Hmd & _ & Hstep).
  assert (Hbig : tol < md).
  { assert (Hcases : target = LINE 10 0 11 0 \/ target = LINE 20 0 21 0).
    { unfold threeApartEdges in Ht.
      destruct best as [|[|[|best]]]; cbn in Ht, Hu.
      - discriminate Hu.
      - injection Ht as <-. left. reflexivity.
      - injection Ht as <-. right. reflexivity.
      - destruct best; discriminate Ht. }
    rewrite Hmd. cbn [s0 current ex2 ey2].
    destruct Hcases as [-> | ->]; destruct toStart; cbn [ex1 ey1 ex2 ey2];
      unfold dist;
      match goal with
      | |- _ < Math_hypot ?a ?b =>
          pose proof (Math_hypot_ge_l a b) as Hge;
          rewrite Rabs_right in Hge by lra; lra
      end. }
  exists (bridgeTo tol s0 best toStart md target).
  assert (Hpath : List.length (path (bridgeTo tol s0 best toStart md target)) = 3%nat).
  { unfold bridgeTo. cbn [path s0].
    destruct (Rlt_dec tol md) as [_ | Hn]; [reflexivity | contradiction]. }
  split; [|split; [exact Hpath | reflexivity]].
  cbn [stitchLoop]. cbn [path s0 List.length threeApartEdges Nat.ltb Nat.leb].
  fold s0. change [LINE 0 0 1 0; LINE 10 0 11 0; LINE 20 0 21 0]
    with threeApartEdges.
  rewrite Hstep, Hpath. reflexivity.
Qed.



End DroppedEdges.
